(** * Receipt text extraction: heuristic scanners and the repair pass

    Shallow embedding of [src/lib/heuristicExtraction] (the amount, date,
    provider and description scanners, [normalizeAmount] and
    [heuristicExtraction]) and of [validateAndFixFields] from
    [src/app/api/upload-receipt/route.ts].

    The program is TypeScript.  Its strings are sequences of UTF-16 code
    units, its numbers are IEEE 754 binary64 values and most of its work is
    done by regular expressions.  The first part of the file models the
    pieces of the ECMAScript library that the program calls; the second
    part is the program, function by function; the third part holds the
    theorems. *)

From Stdlib Require Import String Ascii.
From Stdlib Require Import List NArith ZArith Bool Lia.
From Stdlib Require Import Floats.SpecFloat.
Import ListNotations.

Set Implicit Arguments.

(* ===================================================================== *)
(** * Part I.  The ECMAScript library, as far as the program uses it     *)
(* ===================================================================== *)

(** ** Strings: lists of UTF-16 code units *)

Definition char := N.
Definition str := list char.

Definition str_eqb (a b : str) : bool :=
  if list_eq_dec N.eq_dec a b then true else false.

Fixpoint bytes (s : string) : list N :=
  match s with
  | EmptyString => []
  | String a s' => N_of_ascii a :: bytes s'
  end.

(** The source files are UTF-8; a string literal of this file is read the
    same way, so that a pattern or a constant can be written here exactly
    as it stands in the source. *)
Fixpoint utf8 (bs : list N) : str :=
  match bs with
  | [] => []
  | b0 :: rest =>
      if b0 <? 128 then b0 :: utf8 rest
      else if b0 <? 192 then 65533 :: utf8 rest
      else if b0 <? 224 then
        match rest with
        | b1 :: rest1 => ((b0 - 192) * 64 + (b1 - 128)) :: utf8 rest1
        | [] => [65533]
        end
      else if b0 <? 240 then
        match rest with
        | b1 :: b2 :: rest2 =>
            ((b0 - 224) * 4096 + (b1 - 128) * 64 + (b2 - 128)) :: utf8 rest2
        | _ => [65533]
        end
      else
        match rest with
        | b1 :: b2 :: b3 :: rest3 =>
            let cp := (b0 - 240) * 262144 + (b1 - 128) * 4096
                      + (b2 - 128) * 64 + (b3 - 128) in
            let v := cp - 65536 in
            (55296 + v / 1024) :: (56320 + v mod 1024) :: utf8 rest3
        | _ => [65533]
        end
  end%N.

Definition u (s : string) : str := utf8 (bytes s).

Declare Scope js_scope.
Delimit Scope js_scope with js.
Notation "'#' s" := (u s) (at level 9, s at level 0, format "'#' s") : js_scope.
Open Scope js_scope.
Open Scope N_scope.

Definition in_range (lo hi c : char) : bool := (lo <=? c) && (c <=? hi).

Definition isDigit (c : char) : bool := in_range 48 57 c.

(** [\w]: ASCII letters, digits and the underscore. *)
Definition isWordChar (c : char) : bool :=
  in_range 97 122 c || in_range 65 90 c || isDigit c || (c =? 95)%N.

(** WhiteSpace and LineTerminator code units: what [\s] and [trim] see. *)
Definition isWhiteSpace (c : char) : bool :=
  (in_range 9 13 c || (c =? 32) || (c =? 160) || (c =? 5760)
   || in_range 8192 8202 c || (c =? 8232) || (c =? 8233) || (c =? 8239)
   || (c =? 8287) || (c =? 12288) || (c =? 65279))%N.

Definition isLineTerminator (c : char) : bool :=
  ((c =? 10) || (c =? 13) || (c =? 8232) || (c =? 8233))%N.

(** Case mapping.  The Unicode tables are modelled on the Basic Latin and
    Latin-1 Supplement blocks; every other code unit is left as it is. *)
Definition lower1 (c : char) : char :=
  (if in_range 65 90 c then c + 32
   else if in_range 192 222 c && negb (c =? 215) then c + 32
   else c)%N.

Definition upper1 (c : char) : char :=
  (if in_range 97 122 c then c - 32
   else if in_range 224 254 c && negb (c =? 247) then c - 32
   else if c =? 255 then 376
   else if c =? 181 then 924
   else c)%N.

Definition toLowerCase (s : str) : str := map lower1 s.

(** [toUpperCase] maps the sharp s to two letters. *)
Definition toUpperCase (s : str) : str :=
  flat_map (fun c => if (c =? 223)%N then [83; 83]%N else [upper1 c]) s.

(** Canonicalize of the regular expression semantics without the unicode
    flag: the upper case of the code unit, kept only when it is a single
    code unit and does not turn a non-ASCII unit into an ASCII one. *)
Definition canonicalize (ignoreCase : bool) (c : char) : char :=
  if ignoreCase then
    if (c =? 223)%N then c
    else let cu := upper1 c in
         if (128 <=? c)%N && (cu <? 128)%N then c else cu
  else c.

Fixpoint dropWhile {A} (p : A -> bool) (l : list A) : list A :=
  match l with
  | [] => []
  | x :: l' => if p x then dropWhile p l' else l
  end.

Definition trimStart (s : str) : str := dropWhile isWhiteSpace s.
Definition trimEnd (s : str) : str := rev (dropWhile isWhiteSpace (rev s)).
Definition trim (s : str) : str := trimEnd (trimStart s).

Fixpoint startsWith (p s : str) : bool :=
  match p, s with
  | [], _ => true
  | _ :: _, [] => false
  | a :: p', b :: s' => (a =? b)%N && startsWith p' s'
  end.

(** [s.includes(p)] *)
Fixpoint includes (s p : str) : bool :=
  startsWith p s ||
  match s with
  | [] => false
  | _ :: s' => includes s' p
  end.

(** [s.substring(a, b)] for non-negative integer arguments: both ends are
    clamped to the length and swapped when out of order. *)
Definition substring (s : str) (a b : nat) : str :=
  let n := length s in
  let a' := Nat.min a n in
  let b' := Nat.min b n in
  let lo := Nat.min a' b' in
  let hi := Nat.max a' b' in
  firstn (hi - lo)%nat (skipn lo s).

(** [s.padStart(n, c)] with a one-unit filler. *)
Definition padStart (n : nat) (c : char) (s : str) : str :=
  repeat c (n - length s)%nat ++ s.

(** [s.replace(p, r)] with a string pattern: the first occurrence only. *)
Fixpoint replaceFirst (s p r : str) : str :=
  if startsWith p s then r ++ skipn (length p) s
  else match s with
       | [] => []
       | c :: s' => c :: replaceFirst s' p r
       end.

(** A value in a boolean position: [null], [undefined] and the empty
    string are falsy. *)
Definition truthy (o : option str) : bool :=
  match o with
  | Some (_ :: _) => true
  | _ => false
  end.

(** [a || b] on strings that may be absent *)
Definition orElse (a b : option str) : option str :=
  if truthy a then a else b.

Definition orEmpty (a : option str) : str :=
  match a with
  | Some s => s
  | None => []
  end.

Definition ch (a : ascii) : char := N_of_ascii a.

(** ** Regular expressions *)

(** *** Syntax *)

Inductive citem : Type :=
| CChar (c : char)
| CRange (lo hi : char)
| CDigit (neg : bool)
| CSpace (neg : bool)
| CWord (neg : bool).

Inductive assertion : Type :=
| AStart
| AEnd
| AWordB
| ANotWordB.

Inductive regex : Type :=
| REmpty
| RChar (c : char)
| RAny
| RClass (neg : bool) (items : list citem)
| RSeq (r1 r2 : regex)
| RAlt (r1 r2 : regex)
| RRepeat (r : regex) (min : nat) (max : option nat) (greedy : bool)
| RGroup (idx : nat) (r : regex)
| RAssert (a : assertion)
| RLook (neg : bool) (r : regex).

(** The capture groups that occur in a pattern. *)
Fixpoint groupsOf (r : regex) : list nat :=
  match r with
  | RSeq r1 r2 | RAlt r1 r2 => groupsOf r1 ++ groupsOf r2
  | RRepeat r1 _ _ _ | RLook _ r1 => groupsOf r1
  | RGroup i r1 => i :: groupsOf r1
  | _ => []
  end.

(** *** Matching

    The matcher follows the backtracking semantics of the language
    definition.  A matcher state is a position in the input (the text
    before it, most recent unit first, and the text after it) and the
    captures so far.  [matcher r x] lists the states in which a match of
    [r] started in [x] can end, in the order in which backtracking reaches
    them: the head of the list is the match the engine reports. *)

Record mstate : Type := MState {
  before : str;
  after : str;
  caps : list (option str)
}.

Definition endIndex (x : mstate) : nat := List.length (before x).

Definition advance (x : mstate) : list mstate :=
  match after x with
  | c :: rest => [MState (c :: before x) rest (caps x)]
  | [] => []
  end.

Definition charMatches (ic : bool) (a c : char) : bool :=
  canonicalize ic a =? canonicalize ic c.

(** The code units with the same canonical form as [c]. *)
Definition caseVariants (ic : bool) (c : char) : list char :=
  if ic then
    filter (fun x => canonicalize ic x =? canonicalize ic c)
           [c; upper1 c; lower1 c; lower1 (upper1 c); 255; 181]
  else [c].

Definition itemMatches (ic : bool) (it : citem) (c : char) : bool :=
  match it with
  | CChar a => charMatches ic a c
  | CRange lo hi => existsb (in_range lo hi) (caseVariants ic c)
  | CDigit neg => xorb neg (isDigit c)
  | CSpace neg => xorb neg (isWhiteSpace c)
  | CWord neg => xorb neg (isWordChar c)
  end.

Definition classMatches (ic : bool) (neg : bool) (items : list citem)
  (c : char) : bool :=
  xorb neg (existsb (fun it => itemMatches ic it c) items).

Definition step (p : char -> bool) (x : mstate) : list mstate :=
  match after x with
  | c :: rest => if p c then [MState (c :: before x) rest (caps x)] else []
  | [] => []
  end.

Definition isWordAt (s : str) : bool :=
  match s with
  | c :: _ => isWordChar c
  | [] => false
  end.

Definition holds (a : assertion) (x : mstate) : bool :=
  match a with
  | AStart => match before x with [] => true | _ => false end
  | AEnd => match after x with [] => true | _ => false end
  | AWordB => negb (eqb (isWordAt (before x)) (isWordAt (after x)))
  | ANotWordB => eqb (isWordAt (before x)) (isWordAt (after x))
  end.

Fixpoint setNth {A} (n : nat) (v : A) (l : list A) : list A :=
  match l, n with
  | [], _ => []
  | _ :: l', O => v :: l'
  | a :: l', S n' => a :: setNth n' v l'
  end.

(** Group [i] is stored at index [i - 1]. *)
Definition setCap (i : nat) (v : option str) (x : mstate) : mstate :=
  MState (before x) (after x) (setNth (pred i) v (caps x)).

Definition clearCaps (gs : list nat) (x : mstate) : mstate :=
  fold_left (fun y i => setCap i None y) gs x.

(** The text between two states of one match. *)
Definition consumed (x y : mstate) : str :=
  firstn (List.length (after x) - List.length (after y))%nat (after x).

(** RepeatMatcher.  An iteration that is not required and consumes
    nothing is rejected, so [min + length (after x)] decreases along the
    recursion and [fuel] beyond it is never used up. *)
Fixpoint repeatMatcher (mr : mstate -> list mstate) (gs : list nat)
  (greedy : bool) (fuel : nat) (min : nat) (max : option nat) (x : mstate)
  : list mstate :=
  match fuel with
  | O => []
  | S fuel' =>
      match max with
      | Some O => [x]
      | _ =>
          let d := fun y =>
            if Nat.eqb min 0 && Nat.eqb (endIndex y) (endIndex x) then []
            else repeatMatcher mr gs greedy fuel' (pred min)
                   (option_map pred max) y in
          let z := flat_map d (mr (clearCaps gs x)) in
          if negb (Nat.eqb min 0) then z
          else if greedy then z ++ [x]
          else x :: z
      end
  end.

Fixpoint matcher (ic : bool) (r : regex) (x : mstate) {struct r}
  : list mstate :=
  match r with
  | REmpty => [x]
  | RChar a => step (charMatches ic a) x
  | RAny => step (fun c => negb (isLineTerminator c)) x
  | RClass neg items => step (classMatches ic neg items) x
  | RSeq r1 r2 => flat_map (matcher ic r2) (matcher ic r1 x)
  | RAlt r1 r2 => matcher ic r1 x ++ matcher ic r2 x
  | RRepeat r1 min max greedy =>
      repeatMatcher (matcher ic r1) (groupsOf r1) greedy
        (S (min + List.length (after x))) min max x
  | RGroup i r1 =>
      map (fun y => setCap i (Some (consumed x y)) y) (matcher ic r1 x)
  | RAssert a => if holds a x then [x] else []
  | RLook neg r1 =>
      match matcher ic r1 x with
      | [] => if neg then [x] else []
      | y :: _ => if neg then [] else [MState (before x) (after x) (caps y)]
      end
  end.

(** *** Regular expression objects and the string methods that take them *)

Record RegExp : Type := MkRegExp {
  source : str;
  ast : regex;
  ngroups : nat;
  global : bool;
  ignoreCase : bool
}.

(** A match result: [index], the matched text ([match[0]]), the groups
    ([match[1]], ...) and where the match ends. *)
Record MatchResult : Type := MkMatch {
  index : nat;
  matched : str;
  groups : list (option str);
  lastIndex : nat
}.

(** [match[i]] for [i >= 1]; [None] is [undefined]. *)
Definition group (i : nat) (mt : MatchResult) : option str :=
  nth (pred i) (groups mt) None.

Definition matchAt (re : RegExp) (bef aft : str) : option MatchResult :=
  let x := MState bef aft (repeat None (ngroups re)) in
  match matcher (ignoreCase re) (ast re) x with
  | y :: _ => Some (MkMatch (List.length bef) (consumed x y) (caps y)
                            (endIndex y))
  | [] => None
  end.

(** RegExpBuiltinExec without the sticky flag: the first position at or
    after the current one where the pattern matches.  The second component
    is the text before the end of the match and the third the text after
    it. *)
Fixpoint execFrom (re : RegExp) (bef aft : str) {struct aft}
  : option (MatchResult * str * str) :=
  match matchAt re bef aft with
  | Some mt =>
      let k := (lastIndex mt - List.length bef)%nat in
      Some (mt, rev (firstn k aft) ++ bef, skipn k aft)
  | None =>
      match aft with
      | c :: aft' => execFrom re (c :: bef) aft'
      | [] => None
      end
  end.

(** [s.match(re)] for a pattern without the global flag, and
    [re.test(s)]. *)
Definition exec (re : RegExp) (s : str) : option MatchResult :=
  option_map (fun t => fst (fst t)) (execFrom re [] s).

Definition test (re : RegExp) (s : str) : bool :=
  match exec re s with
  | Some _ => true
  | None => false
  end.

(** [Array.from(s.matchAll(re))]: successive matches; after an empty match
    the search resumes one unit further. *)
Fixpoint matchAllFrom (re : RegExp) (fuel : nat) (bef aft : str)
  : list MatchResult :=
  match fuel with
  | O => []
  | S fuel' =>
      match execFrom re bef aft with
      | None => []
      | Some (mt, bef', aft') =>
          if Nat.eqb (lastIndex mt) (index mt) then
            match aft' with
            | c :: aft'' => mt :: matchAllFrom re fuel' (c :: bef') aft''
            | [] => [mt]
            end
          else mt :: matchAllFrom re fuel' bef' aft'
      end
  end.

Definition matchAll (re : RegExp) (s : str) : list MatchResult :=
  matchAllFrom re (S (List.length s)) [] s.

(** [s.match(re)] for a global pattern: the matched texts, [None] when
    there is none. *)
Definition matchGlobal (re : RegExp) (s : str) : option (list str) :=
  match matchAll re s with
  | [] => None
  | l => Some (map matched l)
  end.

(** [s.replace(re, r)] for a global pattern and a replacement text without
    [$] patterns. *)
Fixpoint replaceFrom (re : RegExp) (r : str) (fuel : nat) (bef aft : str)
  : str :=
  match fuel with
  | O => aft
  | S fuel' =>
      match matchAt re bef aft with
      | Some mt =>
          let k := (lastIndex mt - List.length bef)%nat in
          match k, aft with
          | O, c :: aft' => r ++ c :: replaceFrom re r fuel' (c :: bef) aft'
          | O, [] => r
          | _, _ =>
              r ++ replaceFrom re r fuel' (rev (firstn k aft) ++ bef)
                     (skipn k aft)
          end
      | None =>
          match aft with
          | c :: aft' => c :: replaceFrom re r fuel' (c :: bef) aft'
          | [] => []
          end
      end
  end.

Definition replaceAll (re : RegExp) (s r : str) : str :=
  replaceFrom re r (S (List.length s)) [] s.

(** [s.split(re)] without a limit, for a pattern without groups.  [piece]
    is the text since the last separator, most recent unit first; a match
    that ends where the last separator ended is passed over. *)
Fixpoint splitFrom (re : RegExp) (fuel : nat) (piece bef aft : str)
  : list str :=
  match fuel with
  | O => [rev piece ++ aft]
  | S fuel' =>
      match aft with
      | [] => [rev piece]
      | c :: aft' =>
          match matchAt re bef aft with
          | Some mt =>
              let k := (lastIndex mt - List.length bef)%nat in
              match k, piece with
              | O, [] => splitFrom re fuel' [c] (c :: bef) aft'
              | _, _ => rev piece
                        :: splitFrom re fuel' [] (rev (firstn k aft) ++ bef)
                             (skipn k aft)
              end
          | None => splitFrom re fuel' (c :: piece) (c :: bef) aft'
          end
      end
  end.

Definition split (re : RegExp) (s : str) : list str :=
  match s with
  | [] => match matchAt re [] [] with Some _ => [] | None => [[]] end
  | _ => splitFrom re (S (2 * List.length s)) [] [] s
  end.

(** *** Reading a pattern

    [new RegExp(p, flags)] and the pattern literals go through the same
    parser.  It covers the pattern grammar without the unicode flag:
    alternatives, groups, lookahead, character classes, the class escapes,
    the control escapes, identity escapes, the assertions and the
    quantifiers, with the lenient reading of [{], [}] and []] as literals.
    Back references, numeric, hexadecimal, unicode and control-letter
    escapes, named groups and lookbehind are outside the model: the parser
    answers [Unsupported] for them, and [SyntaxError] only where the
    language raises one. *)

Inductive perror : Type :=
| SyntaxError
| Unsupported.

Definition presult (A : Type) : Type := (A + perror)%type.

Definition isCh (a : ascii) (c : char) : bool := c =? ch a.

Fixpoint takeDigits (s : str) : list char * str :=
  match s with
  | c :: s' =>
      if isDigit c then let (ds, rest) := takeDigits s' in (c :: ds, rest)
      else ([], s)
  | [] => ([], [])
  end.

Definition digitsValue (ds : list char) : N :=
  fold_left (fun acc c => acc * 10 + (c - 48)) ds 0.

(** The text after an opening brace, read as [n}], [n,}] or [n,m}]. *)
Definition parseBraces (s : str) : option (nat * option nat * str) :=
  match takeDigits s with
  | ([], _) => None
  | (ds, rest) =>
      let n := N.to_nat (digitsValue ds) in
      match rest with
      | c :: rest1 =>
          if isCh "}" c then Some (n, Some n, rest1)
          else if isCh "," c then
            match takeDigits rest1 with
            | ([], c2 :: rest2) =>
                if isCh "}" c2 then Some (n, None, rest2) else None
            | (ds2, c2 :: rest2) =>
                if isCh "}" c2
                then Some (n, Some (N.to_nat (digitsValue ds2)), rest2)
                else None
            | _ => None
            end
          else None
      | [] => None
      end
  end.

Definition lazyMark (s : str) : bool * str :=
  match s with
  | c :: rest => if isCh "?" c then (false, rest) else (true, s)
  | [] => (true, s)
  end.

(** An optional quantifier: bounds and greediness. *)
Definition parseQuant (s : str)
  : presult (option (nat * option nat * bool) * str) :=
  match s with
  | c :: rest =>
      if isCh "*" c then
        let (g, rest') := lazyMark rest in inl (Some (O, None, g), rest')
      else if isCh "+" c then
        let (g, rest') := lazyMark rest in inl (Some (1%nat, None, g), rest')
      else if isCh "?" c then
        let (g, rest') := lazyMark rest in
        inl (Some (O, Some 1%nat, g), rest')
      else if isCh "{" c then
        match parseBraces rest with
        | Some (n, mx, rest1) =>
            let bad := match mx with
                       | Some k => Nat.ltb k n
                       | None => false
                       end in
            if bad then inr SyntaxError
            else let (g, rest') := lazyMark rest1 in
                 inl (Some (n, mx, g), rest')
        | None => inl (None, s)
        end
      else inl (None, s)
  | [] => inl (None, s)
  end.

(** One member of a class: a code unit or a class escape. *)
Definition parseClassAtom (s : str) : presult ((char + citem) * str) :=
  match s with
  | [] => inr SyntaxError
  | c :: rest =>
      if isCh "\" c then
        match rest with
        | [] => inr SyntaxError
        | e :: rest' =>
            if isCh "d" e then inl (inr (CDigit false), rest')
            else if isCh "D" e then inl (inr (CDigit true), rest')
            else if isCh "s" e then inl (inr (CSpace false), rest')
            else if isCh "S" e then inl (inr (CSpace true), rest')
            else if isCh "w" e then inl (inr (CWord false), rest')
            else if isCh "W" e then inl (inr (CWord true), rest')
            else if isCh "b" e then inl (inl 8, rest')
            else if isCh "t" e then inl (inl 9, rest')
            else if isCh "n" e then inl (inl 10, rest')
            else if isCh "v" e then inl (inl 11, rest')
            else if isCh "f" e then inl (inl 12, rest')
            else if isCh "r" e then inl (inl 13, rest')
            else if isDigit e || isCh "c" e || isCh "x" e || isCh "u" e || isCh "k" e
            then inr Unsupported
            else inl (inl e, rest')
        end
      else inl (inl c, rest)
  end.

Definition atomItem (a : char + citem) : citem :=
  match a with
  | inl c => CChar c
  | inr it => it
  end.

(** The members of a class up to the closing bracket. *)
Fixpoint parseClassItems (fuel : nat) (s : str) (acc : list citem)
  : presult (list citem * str) :=
  match fuel with
  | O => inr Unsupported
  | S fuel' =>
      match s with
      | [] => inr SyntaxError
      | c :: rest =>
          if isCh "]" c then inl (rev acc, rest)
          else
            match parseClassAtom s with
            | inr e => inr e
            | inl (a1, rest1) =>
                match rest1 with
                | d :: c2 :: rest2 =>
                    if isCh "-" d && negb (isCh "]" c2) then
                      match parseClassAtom (c2 :: rest2) with
                      | inr e => inr e
                      | inl (a2, rest3) =>
                          match a1, a2 with
                          | inl lo, inl hi =>
                              if hi <? lo then inr SyntaxError
                              else parseClassItems fuel' rest3
                                     (CRange lo hi :: acc)
                          | _, _ => inr Unsupported
                          end
                      end
                    else parseClassItems fuel' rest1 (atomItem a1 :: acc)
                | _ => parseClassItems fuel' rest1 (atomItem a1 :: acc)
                end
            end
      end
  end.

Definition parseClass (s : str) : presult (regex * str) :=
  let (neg, s1) := match s with
                   | c :: rest => if isCh "^" c then (true, rest) else (false, s)
                   | [] => (false, s)
                   end in
  match parseClassItems (S (List.length s1)) s1 [] with
  | inl (items, rest) => inl (RClass neg items, rest)
  | inr e => inr e
  end.

Definition parseAtomEscape (rest : str) : presult (regex * str) :=
  match rest with
  | [] => inr SyntaxError
  | e :: rest' =>
      if isCh "b" e then inl (RAssert AWordB, rest')
      else if isCh "B" e then inl (RAssert ANotWordB, rest')
      else if isCh "d" e then inl (RClass false [CDigit false], rest')
      else if isCh "D" e then inl (RClass false [CDigit true], rest')
      else if isCh "s" e then inl (RClass false [CSpace false], rest')
      else if isCh "S" e then inl (RClass false [CSpace true], rest')
      else if isCh "w" e then inl (RClass false [CWord false], rest')
      else if isCh "W" e then inl (RClass false [CWord true], rest')
      else if isCh "t" e then inl (RChar 9, rest')
      else if isCh "n" e then inl (RChar 10, rest')
      else if isCh "v" e then inl (RChar 11, rest')
      else if isCh "f" e then inl (RChar 12, rest')
      else if isCh "r" e then inl (RChar 13, rest')
      else if isDigit e || isCh "c" e || isCh "x" e || isCh "u" e || isCh "k" e
      then inr Unsupported
      else inl (RChar e, rest')
  end.

Definition isAssertion (r : regex) : bool :=
  match r with
  | RAssert _ => true
  | _ => false
  end.

(** After an atom [r]: its quantifier, if any.  An assertion takes none. *)
Definition withQuant (r : regex) (s : str) (n : nat)
  : presult (regex * str * nat) :=
  if isAssertion r then inl (r, s, n)
  else
    match parseQuant s with
    | inr e => inr e
    | inl (None, rest) => inl (r, rest, n)
    | inl (Some (mn, mx, g), rest) => inl (RRepeat r mn mx g, rest, n)
    end.

Definition closeGroup (wrap : regex -> regex)
  (body : presult (regex * str * nat)) : presult (regex * str * nat) :=
  match body with
  | inr e => inr e
  | inl (r, rest, n) =>
      match rest with
      | c :: rest' => if isCh ")" c then withQuant (wrap r) rest' n
                      else inr SyntaxError
      | [] => inr SyntaxError
      end
  end.

(** Disjunction, Alternative and Term.  [n] counts the capture groups
    opened so far. *)
Fixpoint parseDisj (fuel : nat) (s : str) (n : nat) {struct fuel}
  : presult (regex * str * nat) :=
  match fuel with
  | O => inr Unsupported
  | S fuel' =>
      match parseAlt fuel' s n with
      | inr e => inr e
      | inl (r1, s1, n1) =>
          match s1 with
          | c :: s2 =>
              if isCh "|" c then
                match parseDisj fuel' s2 n1 with
                | inr e => inr e
                | inl (r2, s3, n2) => inl (RAlt r1 r2, s3, n2)
                end
              else inl (r1, s1, n1)
          | [] => inl (r1, s1, n1)
          end
      end
  end
with parseAlt (fuel : nat) (s : str) (n : nat) {struct fuel}
  : presult (regex * str * nat) :=
  match fuel with
  | O => inr Unsupported
  | S fuel' =>
      match s with
      | [] => inl (REmpty, s, n)
      | c :: _ =>
          if isCh "|" c || isCh ")" c then inl (REmpty, s, n)
          else
            match parseTerm fuel' s n with
            | inr e => inr e
            | inl (r1, s1, n1) =>
                match parseAlt fuel' s1 n1 with
                | inr e => inr e
                | inl (r2, s2, n2) => inl (RSeq r1 r2, s2, n2)
                end
            end
      end
  end
with parseTerm (fuel : nat) (s : str) (n : nat) {struct fuel}
  : presult (regex * str * nat) :=
  match fuel with
  | O => inr Unsupported
  | S fuel' =>
      match s with
      | [] => inr SyntaxError
      | c :: rest =>
          if isCh "^" c then inl (RAssert AStart, rest, n)
          else if isCh "$" c then inl (RAssert AEnd, rest, n)
          else if isCh "*" c || isCh "+" c || isCh "?" c then inr SyntaxError
          else if isCh "{" c then
            match parseBraces rest with
            | Some _ => inr SyntaxError
            | None => withQuant (RChar c) rest n
            end
          else if isCh "." c then withQuant RAny rest n
          else if isCh "\" c then
            match parseAtomEscape rest with
            | inr e => inr e
            | inl (r, rest') => withQuant r rest' n
            end
          else if isCh "[" c then
            match parseClass rest with
            | inr e => inr e
            | inl (r, rest') => withQuant r rest' n
            end
          else if isCh "(" c then
            match rest with
            | q :: k :: rest2 =>
                if isCh "?" q then
                  if isCh ":" k then
                    closeGroup (fun r => r) (parseDisj fuel' rest2 n)
                  else if isCh "=" k then
                    closeGroup (RLook false) (parseDisj fuel' rest2 n)
                  else if isCh "!" k then
                    closeGroup (RLook true) (parseDisj fuel' rest2 n)
                  else if isCh "<" k then inr Unsupported
                  else inr SyntaxError
                else closeGroup (RGroup (S n)) (parseDisj fuel' rest (S n))
            | _ => closeGroup (RGroup (S n)) (parseDisj fuel' rest (S n))
            end
          else withQuant (RChar c) rest n
      end
  end.

Definition parsePattern (p : str) : presult (regex * nat) :=
  match parseDisj (3 * List.length p + 4) p O with
  | inr e => inr e
  | inl (r, [], n) => inl (r, n)
  | inl (_, _ :: _, _) => inr SyntaxError
  end.

Definition hasFlag (a : ascii) (flags : str) : bool := existsb (isCh a) flags.

(** [new RegExp(p, flags)] for the flags [g] and [i]. *)
Definition newRegExp (p flags : str) : presult RegExp :=
  if negb (forallb (fun c => isCh "g" c || isCh "i" c) flags)
  then inr Unsupported
  else
    match parsePattern p with
    | inr e => inr e
    | inl (r, n) => inl (MkRegExp p r n (hasFlag "g" flags) (hasFlag "i" flags))
    end.

(** A pattern literal [/p/flags].  The literals of the program all parse
    (see [literals_parse] below), so the fallback is never taken. *)
Definition lit (p flags : string) : RegExp :=
  match newRegExp #p #flags with
  | inl re => re
  | inr _ => MkRegExp #p (RClass false []) O false false
  end.

(** ** Numbers: IEEE 754 binary64 *)

Definition num := spec_float.

Definition add : num -> num -> num := SFadd 53 1024.
Definition sub : num -> num -> num := SFsub 53 1024.
Definition mul : num -> num -> num := SFmul 53 1024.
Definition lt : num -> num -> bool := SFltb.
Definition gt (a b : num) : bool := SFltb b a.
Definition le : num -> num -> bool := SFleb.
Definition Math_abs : num -> num := SFabs.

Definition isNaN (a : num) : bool :=
  match a with
  | S754_nan => true
  | _ => false
  end.

Definition Math_min (a b : num) : num :=
  if isNaN a || isNaN b then S754_nan
  else if lt b a then b
  else if lt a b then a
  else match a, b with
       | S754_zero false, S754_zero true => b
       | _, _ => a
       end.

Definition Math_max2 (a b : num) : num :=
  if isNaN a || isNaN b then S754_nan
  else if lt a b then b
  else if lt b a then a
  else match a, b with
       | S754_zero true, S754_zero false => b
       | _, _ => a
       end.

(** [Math.max(...l)] *)
Definition Math_max (l : list num) : num :=
  fold_left Math_max2 l (S754_infinity true).

(** A number in a boolean position: NaN and the zeros are falsy. *)
Definition numTruthy (a : num) : bool :=
  match a with
  | S754_nan | S754_zero _ => false
  | _ => true
  end.

(** The binary64 value nearest to [n / d], ties to even. *)
Definition ratio (n d : positive) : num :=
  let '(q, e, l) := SFdiv_core_binary 53 1024 (Zpos n) 0 (Zpos d) 0 in
  binary_round_aux 53 1024 false q e l.

(** The number denoted by the decimal [n * 10^(-k)]: the value of a
    numeric literal such as [0.98] of the program text. *)
Definition pow10 (k : N) : positive :=
  match k with
  | N0 => 1%positive
  | Npos p => (10 ^ p)%positive
  end.

Definition decimal (n : N) (k : nat) : num :=
  match n with
  | N0 => S754_zero false
  | Npos p => ratio p (pow10 (N.of_nat k))
  end.

(** The number nearest to [m * 10^e]. *)
Definition scaled (m : N) (e : Z) : num :=
  match m with
  | N0 => S754_zero false
  | Npos p =>
      match e with
      | Z0 => ratio p 1
      | Zpos k => ratio (p * 10 ^ k) 1
      | Zneg k => ratio p (10 ^ k)
      end
  end.

Definition numOfZ (z : Z) : num :=
  match z with
  | Z0 => S754_zero false
  | Zpos p => ratio p 1
  | Zneg p => SFopp (ratio p 1)
  end.

Definition signed (negative : bool) (a : num) : num :=
  if negative then SFopp a else a.

Definition readSign (s : str) : bool * str :=
  match s with
  | c :: rest =>
      if isCh "-" c then (true, rest)
      else if isCh "+" c then (false, rest)
      else (false, s)
  | [] => (false, s)
  end.

(** The exponent part of a decimal literal, when it is well formed. *)
Definition readExponent (s : str) : Z :=
  match s with
  | c :: rest =>
      if isCh "e" c || isCh "E" c then
        let (neg, rest1) := readSign rest in
        match takeDigits rest1 with
        | ([], _) => 0%Z
        | (ds, _) =>
            let v := Z.of_N (digitsValue ds) in
            if neg then (- v)%Z else v
        end
      else 0%Z
  | [] => 0%Z
  end.

(** [parseFloat(s)]: the longest prefix of the trimmed text that is a
    decimal literal; NaN when there is none. *)
Definition parseFloat (s : str) : num :=
  let (neg, s1) := readSign (trimStart s) in
  if startsWith #"Infinity" s1 then signed neg (S754_infinity false)
  else
    let (ip, s2) := takeDigits s1 in
    let (fp, s3) :=
      match s2 with
      | c :: rest => if isCh "." c then takeDigits rest else ([], s2)
      | [] => ([], s2)
      end in
    match ip ++ fp with
    | [] => S754_nan
    | ds =>
        signed neg
          (scaled (digitsValue ds)
                  (readExponent s3 - Z.of_nat (List.length fp)))
    end.

(** [parseInt(s, 10)] as a mathematical integer; [None] is NaN. *)
Definition parseIntZ (s : str) : option Z :=
  let (neg, s1) := readSign (trimStart s) in
  match takeDigits s1 with
  | ([], _) => None
  | (ds, _) =>
      let v := Z.of_N (digitsValue ds) in
      Some (if neg then (- v)%Z else v)
  end.

Definition parseInt10 (s : str) : num :=
  match parseIntZ s with
  | Some z => numOfZ z
  | None => S754_nan
  end.

Definition hexValue (c : char) : option N :=
  if isDigit c then Some (c - 48)
  else if in_range 97 102 c then Some (c - 87)
  else if in_range 65 70 c then Some (c - 55)
  else None.

Fixpoint hexDigits (s : str) (acc : option N) : option N :=
  match s with
  | c :: s' =>
      match hexValue c with
      | Some v =>
          hexDigits s' (Some (match acc with
                              | Some a => a * 16 + v
                              | None => v
                              end))
      | None => acc
      end
  | [] => acc
  end.

(** [parseInt(s)] without a radix: hexadecimal after [0x], decimal
    otherwise. *)
Definition parseIntAuto (s : str) : option Z :=
  let (neg, s1) := readSign (trimStart s) in
  let hex :=
    match s1 with
    | z :: x :: rest =>
        if isCh "0" z && (isCh "x" x || isCh "X" x) then Some rest else None
    | _ => None
    end in
  let magnitude :=
    match hex with
    | Some rest => hexDigits rest None
    | None =>
        match takeDigits s1 with
        | ([], _) => None
        | (ds, _) => Some (digitsValue ds)
        end
    end in
  option_map (fun v => if neg then (- Z.of_N v)%Z else Z.of_N v) magnitude.

(** Decimal digits of a natural number, for the integers that the date
    code turns into text. *)
Fixpoint digitsOf (fuel : nat) (n : N) (acc : str) : str :=
  match fuel with
  | O => acc
  | S fuel' =>
      let acc' := (48 + n mod 10) :: acc in
      if n <? 10 then acc' else digitsOf fuel' (n / 10) acc'
  end.

Definition intToString (z : Z) : str :=
  match z with
  | Zneg p => ch "-" :: digitsOf (S (N.to_nat (N.log2 (Npos p)))) (Npos p) []
  | _ => digitsOf (S (N.to_nat (N.log2 (Z.to_N z)))) (Z.to_N z) []
  end.

(** ** Dates

    [new Date(year, month, day)] followed by [getFullYear], [getMonth] and
    [getDate]: the day number of the civil date and the civil date of a day
    number, in the proleptic Gregorian calendar.  Local time is taken
    without offset. *)

Open Scope Z_scope.

Definition daysFromCivil (y m d : Z) : Z :=
  let y' := if m <=? 2 then y - 1 else y in
  let era := y' / 400 in
  let yoe := y' - era * 400 in
  let mp := (m + 9) mod 12 in
  let doy := (153 * mp + 2) / 5 + d - 1 in
  let doe := yoe * 365 + yoe / 4 - yoe / 100 + doy in
  era * 146097 + doe - 719468.

Definition civilFromDays (z : Z) : Z * Z * Z :=
  let z' := z + 719468 in
  let era := z' / 146097 in
  let doe := z' - era * 146097 in
  let yoe := (doe - doe / 1460 + doe / 36524 - doe / 146096) / 365 in
  let doy := doe - (365 * yoe + yoe / 4 - yoe / 100) in
  let mp := (5 * doy + 2) / 153 in
  let d := doy - (153 * mp + 2) / 5 + 1 in
  let m := if mp <? 10 then mp + 3 else mp - 9 in
  let y := yoe + era * 400 in
  (if m <=? 2 then y + 1 else y, m, d).

(** MakeDay: [month] counts from 0 and may lie outside [0..11]; [day] may
    lie outside the month. *)
Definition makeDay (year month day : Z) : Z :=
  daysFromCivil (year + month / 12) (month mod 12 + 1) 1 + day - 1.

Record Date : Type := MkDate {
  getFullYear : Z;
  getMonth : Z;
  getDate : Z
}.

(** A year from 0 to 99 stands for the year 1900 later. *)
Definition newDate (year month day : Z) : Date :=
  let year' := if (0 <=? year) && (year <=? 99) then 1900 + year else year in
  let '(y, m, d) := civilFromDays (makeDay year' month day) in
  MkDate y (m - 1) d.

Close Scope Z_scope.

(* ===================================================================== *)
(** * Part II.  The program                                              *)
(* ===================================================================== *)

(** What a call does: it returns, it throws, or it leaves the modelled
    part of the language ([NotModelled]: a pattern that the parser above
    does not cover). *)

Inductive exn : Type :=
| TypeError
| RegExpSyntaxError.

Inductive outcome (A : Type) : Type :=
| Returns (a : A)
| Throws (e : exn)
| NotModelled.

Arguments Returns {A} a.
Arguments Throws {A} e.
Arguments NotModelled {A}.

Definition bind {A B} (o : outcome A) (k : A -> outcome B) : outcome B :=
  match o with
  | Returns a => k a
  | Throws e => Throws e
  | NotModelled => NotModelled
  end.

Notation "x <- e ;; k" := (bind e (fun x => k))
  (at level 61, e at next level, right associativity).

(** [v.trim()] where [v] may be [undefined]. *)
Definition trimOf (v : option str) : outcome str :=
  match v with
  | Some s => Returns (trim s)
  | None => Throws TypeError
  end.

(** ** [src/lib/heuristicExtraction]: the data *)

Record Confidence : Type := MkConfidence {
  conf_amount : num;
  conf_date : num;
  conf_provider : num;
  conf_description : num
}.

Record ExtractedData : Type := MkExtractedData {
  description : option str;
  provider : option str;
  amount : option num;
  currency : option str;
  date : option str;
  confidence : Confidence
}.

Record ExtractionResult : Type := MkExtractionResult {
  data : ExtractedData;
  shouldUseLLM : bool;
  overallConfidence : num
}.

Definition CURRENCY_SYMBOLS : list str :=
  [#"$"; #"â‚¬"; #"Â£"; #"Â¥"; #"â‚¹"; #"Bs"; #"USD"; #"EUR"; #"GBP"; #"JPY"; #"INR"; #"BOB"].

Definition MONTH_NAMES_en : list str :=
  [#"january"; #"february"; #"march"; #"april"; #"may"; #"june"; #"july"; #"august"; #"september"; #"october"; #"november"; #"december"].

Definition MONTH_NAMES_es : list str :=
  [#"enero"; #"febrero"; #"marzo"; #"abril"; #"mayo"; #"junio"; #"julio"; #"agosto"; #"septiembre"; #"octubre"; #"noviembre"; #"diciembre"].

Record PatternConfig : Type := MkPatternConfig {
  pc_pattern : RegExp;
  pc_confidence : num;
  pc_description : str
}.

Definition AMOUNT_PATTERNS : list PatternConfig :=
  [ MkPatternConfig
      (lit "([$â‚¬Â£Â¥â‚¹Bs])\s*([0-9]{1,3}(?:[.,][0-9]{3})*(?:[.,][0-9]{2})?)" "gi")
      (decimal 98 2) #"Currency symbol + amount";
    MkPatternConfig
      (lit "(?:total|suma|subtotal|monto|importe|precio|valor|total\s*:|suma\s*:)\s*([$â‚¬Â£Â¥â‚¹Bs]?)\s*([0-9]{1,3}(?:[.,][0-9]{3})*(?:[.,][0-9]{2})?)" "gi")
      (decimal 95 2) #"Total/Suma pattern";
    MkPatternConfig
      (lit "([0-9]{1,3}(?:[.,][0-9]{3})*(?:[.,][0-9]{2})?)\s*([$â‚¬Â£Â¥â‚¹Bs])" "gi")
      (decimal 9 1) #"Amount + currency";
    MkPatternConfig
      (lit "([0-9]+[.,][0-9]{2})\s*([$â‚¬Â£Â¥â‚¹Bs]?)" "gi")
      (decimal 85 2) #"Decimal amount";
    MkPatternConfig
      (lit "\b([0-9]{2,4}(?:[.,][0-9]{3})*(?:[.,][0-9]{2})?)\b" "g")
      (decimal 7 1) #"Large number";
    MkPatternConfig
      (lit "\b([0-9]+[.,][0-9]{2})\b" "g")
      (decimal 6 1) #"Decimal number";
    MkPatternConfig
      (lit "\b([0-9]{1,3}(?:[.,][0-9]{3})*(?:[.,][0-9]{2})?)\b" "g")
      (decimal 4 1) #"Simple amount" ].

Definition DATE_PATTERNS : list RegExp :=
  [ lit "\b(\d{1,2})[\/\-](\d{1,2})[\/\-](\d{4})\b" "g";
    lit "\b(\d{4})[\/\-](\d{1,2})[\/\-](\d{1,2})\b" "g";
    lit "\b(\d{1,2})\s+(enero|febrero|marzo|abril|mayo|junio|julio|agosto|septiembre|octubre|noviembre|diciembre|january|february|march|april|may|june|july|august|september|october|november|december)\s+(\d{4})\b" "gi" ].

(** ** [normalizeAmount] *)

Definition currencyChars : RegExp := lit "[$â‚¬Â£Â¥â‚¹Bs]" "g".
Definition notNumeric : RegExp := lit "[^\d.,]" "g".
Definition separators : RegExp := lit "[.,]" "".
Definition notDigit : RegExp := lit "[^\d]" "g".

Definition nanToNull (a : num) : option num :=
  if isNaN a then None else Some a.

(** The [try] block cannot throw on a non-empty list of parts; on the
    empty list, [parts[parts.length - 1].length] throws and the [catch]
    returns [null]. *)
Definition normalizeAmount (amountStr : str) : option num :=
  if negb (truthy (Some amountStr)) || Nat.eqb (List.length (trim amountStr)) 0
  then None
  else
    let cleaned := trim (replaceAll currencyChars amountStr []) in
    let cleaned := replaceAll notNumeric cleaned [] in
    if Nat.eqb (List.length cleaned) 0 then None
    else
      let parts := split separators cleaned in
      match parts with
      | [] => None
      | [_] => nanToNull (parseInt10 cleaned)
      | [leftPart; rightPart] =>
          if Nat.leb (List.length rightPart) 2 then
            let integerPart := replaceAll notDigit leftPart [] in
            let decimalPart := rightPart in
            nanToNull (parseFloat (integerPart ++ #"." ++ decimalPart))
          else nanToNull (parseFloat (leftPart ++ rightPart))
      | [thousandsPart; hundredsPart; decimalPart] =>
          if Nat.leb (List.length decimalPart) 2 then
            let integerPart := thousandsPart ++ hundredsPart in
            nanToNull (parseFloat (integerPart ++ #"." ++ decimalPart))
          else
            nanToNull (parseFloat (thousandsPart ++ hundredsPart ++ decimalPart))
      | _ =>
          let lastPart := last parts [] in
          if Nat.leb (List.length lastPart) 2 then
            let integerParts := removelast parts in
            let integerPart := concat integerParts in
            nanToNull (parseFloat (integerPart ++ #"." ++ lastPart))
          else nanToNull (parseFloat (concat parts))
      end.

(** ** [extractAmount] *)

Record Candidate : Type := MkCandidate {
  c_amount : num;
  c_currency : str;
  c_confidence : num;
  c_position : nat;
  c_pattern : str
}.

Record AmountResult : Type := MkAmountResult {
  am_amount : option num;
  am_currency : option str;
  am_confidence : num
}.

(** [new RegExp(`([${CURRENCY_SYMBOLS.join('')}]+)`, 'i')] *)
Definition currencyRunSource : str :=
  #"([" ++ concat CURRENCY_SYMBOLS ++ #"]+)".

Definition currencyRun : RegExp :=
  match newRegExp currencyRunSource #"i" with
  | inl re => re
  | inr _ => MkRegExp currencyRunSource (RClass false []) O false false
  end.

(** The amount text and the currency text of one match. *)
Definition amountAndCurrency (pc : PatternConfig) (mt : MatchResult)
  : str * str :=
  if includes (source (pc_pattern pc)) #"\$â‚¬Â£Â¥â‚¹Bs.*\d" then
    (orEmpty (group 2 mt), orEmpty (group 1 mt))
  else if includes (source (pc_pattern pc)) #"\d.*\$â‚¬Â£Â¥â‚¹Bs" then
    (orEmpty (group 1 mt), orEmpty (group 2 mt))
  else
    let amountStr := orEmpty (orElse (group 1 mt) (group 2 mt)) in
    let currency := orEmpty (orElse (group 1 mt) (group 2 mt)) in
    if existsb (fun symbol => includes amountStr symbol) CURRENCY_SYMBOLS then
      match exec currencyRun amountStr with
      | Some currencyMatch =>
          let currency := orEmpty (group 1 currencyMatch) in
          (trim (replaceFirst amountStr currency []), currency)
      | None => (amountStr, currency)
      end
    else (amountStr, currency).

(** The confidence of a candidate, before the final [Math.min]. *)
Definition adjustConfidence (base : num) (currency : str)
  (normalizedAmount : num) (inTotalContext : bool) : num :=
  let confidence := base in
  let confidence :=
    if truthy (Some currency)
    then Math_min (add confidence (decimal 5 2)) (decimal 1 0)
    else confidence in
  let confidence :=
    if gt normalizedAmount (decimal 50 0)
    then add confidence (decimal 2 2) else confidence in
  let confidence :=
    if gt normalizedAmount (decimal 100 0)
    then add confidence (decimal 3 2) else confidence in
  let confidence :=
    if gt normalizedAmount (decimal 1000 0)
    then add confidence (decimal 2 2) else confidence in
  let confidence :=
    if lt normalizedAmount (decimal 1 0)
    then sub confidence (decimal 2 1) else confidence in
  let confidence :=
    if lt normalizedAmount (decimal 1 1)
    then sub confidence (decimal 3 1) else confidence in
  if inTotalContext then add confidence (decimal 1 1) else confidence.

Definition totalContext (text : str) (idx : nat) : bool :=
  let contextBefore :=
    toLowerCase (substring text (Z.to_nat (Z.max 0 (Z.of_nat idx - 20))) idx) in
  let contextAfter := toLowerCase (substring text idx (idx + 20)) in
  includes contextBefore #"total" || includes contextBefore #"suma"
  || includes contextAfter #"total" || includes contextAfter #"suma".

Definition candidateOf (text : str) (pc : PatternConfig) (mt : MatchResult)
  : option Candidate :=
  let (amountStr, currency) := amountAndCurrency pc mt in
  let amountStr := trim amountStr in
  let currency := trim currency in
  match normalizeAmount amountStr with
  | Some normalizedAmount =>
      if numTruthy normalizedAmount && gt normalizedAmount (decimal 0 0) then
        let confidence :=
          adjustConfidence (pc_confidence pc) currency normalizedAmount
            (totalContext text (index mt)) in
        Some (MkCandidate normalizedAmount
                (if truthy (Some currency) then currency else #"USD")
                (Math_min confidence (decimal 1 0))
                (index mt)
                (pc_description pc))
      else None
  | None => None
  end.

Definition optList {A} (o : option A) : list A :=
  match o with
  | Some a => [a]
  | None => []
  end.

Definition candidatesOf (text : str) : list Candidate :=
  flat_map (fun patternConfig =>
              flat_map (fun mt => optList (candidateOf text patternConfig mt))
                       (matchAll (pc_pattern patternConfig) text))
           AMOUNT_PATTERNS.

(** The comparison function of the sort. *)
Definition compareCandidates (a b : Candidate) : num :=
  if lt (Math_abs (sub (c_confidence a) (c_confidence b))) (decimal 5 2)
  then sub (c_amount b) (c_amount a)
  else sub (c_confidence b) (c_confidence a).

(** ** [Array.prototype.sort]

    Where the comparison function is not a consistent order the language
    leaves the order of the result to the implementation, and
    [compareCandidates] is not one.  The model is the sort of V8, the
    engine under Node.js: TimSort, after [builtins/array-sort.tq],
    function by function.  The work array is a list, a run is the list
    of its elements, and the stack of pending runs holds the runs
    themselves, the latest first.  Indices and lengths are natural
    numbers (the overflow tests of the source on small integers never
    fire on them). *)

Section ArraySort.

Variable A : Type.
Variable cmp : A -> A -> num.

(** [order < 0] for the [order] of [sortState.Compare(x, y)]: the number
    that the comparison function returns, with 0 in place of a NaN. *)
Definition precedes (x y : A) : bool := lt (cmp x y) (decimal 0 0).

(** The loop [while (left < right)] of [BinaryInsertionSort],
    [GallopLeft] and [GallopRight], with [mid] at
    [left + ((right - left) >> 1)]: [goesRight mid] tells that the
    comparison at [mid] sends the search to the right of [mid]. *)
Fixpoint bisect (fuel : nat) (goesRight : nat -> bool) (left right : nat)
  : nat :=
  match fuel with
  | O => left
  | S fuel =>
      if Nat.ltb left right then
        let mid := (left + (right - left) / 2)%nat in
        if goesRight mid then bisect fuel goesRight (mid + 1)%nat right
        else bisect fuel goesRight left mid
      else left
  end.

(** One round of [BinaryInsertionSort]: [pivot] enters the sorted
    elements before it, to the left of the elements that the search
    found it to come before. *)
Definition binaryInsert (sorted : list A) (pivot : A) : list A :=
  let left :=
    bisect (List.length sorted)
      (fun mid => negb (precedes pivot (nth mid sorted pivot)))
      0 (List.length sorted) in
  firstn left sorted ++ pivot :: skipn left sorted.

Definition binaryInsertionSort (sorted rest : list A) : list A :=
  fold_left binaryInsert rest sorted.

(** The loop of [CountAndMakeRun]: the elements that continue the run
    after [previousElement], and what follows the run. *)
Fixpoint runTail (isDescending : bool) (previousElement : A) (l : list A)
  : list A * list A :=
  match l with
  | [] => ([], [])
  | currentElement :: rest =>
      if Bool.eqb (precedes currentElement previousElement) isDescending then
        let (run, rest') := runTail isDescending currentElement rest in
        (currentElement :: run, rest')
      else ([], l)
  end.

(** [CountAndMakeRun]: the run at the start of [l], reversed when it is
    descending, and the elements after it. *)
Definition countAndMakeRun (l : list A) : list A * list A :=
  match l with
  | elementHigh :: elementLow :: rest =>
      let isDescending := precedes elementLow elementHigh in
      let (run, rest') := runTail isDescending elementLow rest in
      let run := elementHigh :: elementLow :: run in
      (if isDescending then rev run else run, rest')
  | _ => (l, [])
  end.

(** The first loop of [GallopLeft] and [GallopRight]: the offsets 1, 3,
    7, ... from the hint, as long as the comparison [continues] there.
    The result is [lastOfs] and [offset]. *)
Fixpoint gallopFrom (fuel : nat) (continues : nat -> bool)
    (maxOfs lastOfs offset : nat) : nat * nat :=
  match fuel with
  | O => (lastOfs, Nat.min offset maxOfs)
  | S fuel =>
      if Nat.ltb offset maxOfs && continues offset
      then gallopFrom fuel continues maxOfs offset (2 * offset + 1)%nat
      else (lastOfs, Nat.min offset maxOfs)
  end.

(** [GallopLeft] and [GallopRight] have one shape and differ in the
    comparison: [goesRight i] tells that the key belongs to the right of
    index [i].  From [hint] the search gallops right when the key
    belongs to the right of it, and left otherwise; a binary search
    between the last two offsets ends it. *)
Definition gallop (goesRight : nat -> bool) (length hint : nat) : nat :=
  if goesRight hint then
    let (lastOfs, offset) :=
      gallopFrom (length - hint) (fun ofs => goesRight (hint + ofs)%nat)
        (length - hint) 0 1 in
    bisect length goesRight (lastOfs + hint + 1)%nat (offset + hint)%nat
  else
    let (lastOfs, offset) :=
      gallopFrom (hint + 1) (fun ofs => negb (goesRight (hint - ofs)%nat))
        (hint + 1) 0 1 in
    bisect length goesRight (hint + 1 - offset)%nat (hint - lastOfs)%nat.

(** [GallopLeft]: the index in [a] before which [key] belongs, left of
    the elements equal to it ([a[i] < key] sends the search right). *)
Definition gallopLeft (key : A) (a : list A) (hint : nat) : nat :=
  gallop (fun i => precedes (nth i a key) key) (List.length a) hint.

(** [GallopRight]: the same to the right of the elements equal to [key]
    ([key < a[i]] sends the search left). *)
Definition gallopRight (key : A) (a : list A) (hint : nat) : nat :=
  gallop (fun i => negb (precedes key (nth i a key))) (List.length a) hint.

Definition kMinGallopWins : nat := 7.

(** The two loops of a merge: the inner loop that moves one element at a
    time and counts the wins of each run, and the galloping loop. *)
Inductive mergeMode : Type :=
| OneByOne (nofWinsA nofWinsB : nat)
| Galloping.

(** [MergeLow] after its first step.  [a] is what remains of run A (in
    the temp array) and [b] what remains of run B; [minGallop] is the
    local variable and [stored] the field [sortState.minGallop].  The
    result is the merged elements in their order, and the stored field.
    At [Succeed] what remains of A follows the merged elements, or what
    remains of B is in place; at [CopyB] the rest of B goes before the
    last element of A. *)
Fixpoint mergeLowFrom (fuel : nat) (mode : mergeMode)
    (minGallop stored : nat) (a b : list A) : list A * nat :=
  match fuel with
  | O => (a ++ b, stored)
  | S fuel =>
      match mode, a, b with
      | OneByOne nofWinsA nofWinsB, x :: a', y :: b' =>
          if precedes y x then
            if Nat.eqb (List.length b') 0 then (y :: a, stored)
            else
              let (l, s) :=
                if Nat.leb minGallop (S nofWinsB)
                then mergeLowFrom fuel Galloping (S minGallop) stored a b'
                else mergeLowFrom fuel (OneByOne 0 (S nofWinsB))
                       minGallop stored a b' in
              (y :: l, s)
          else
            if Nat.eqb (List.length a') 1 then (x :: b ++ a', stored)
            else
              let (l, s) :=
                if Nat.leb minGallop (S nofWinsA)
                then mergeLowFrom fuel Galloping (S minGallop) stored a' b
                else mergeLowFrom fuel (OneByOne (S nofWinsA) 0)
                       minGallop stored a' b in
              (x :: l, s)
      | Galloping, _ :: _, y :: b' =>
          let minGallop := Nat.max 1 (minGallop - 1) in
          let stored := minGallop in
          let nofWinsA := gallopRight y a 0 in
          let a1 := skipn nofWinsA a in
          if Nat.ltb 0 nofWinsA && Nat.eqb (List.length a1) 1
          then (firstn nofWinsA a ++ b ++ a1, stored)
          else if Nat.ltb 0 nofWinsA && Nat.eqb (List.length a1) 0
          then (firstn nofWinsA a ++ b, stored)
          else if Nat.eqb (List.length b') 0
          then (firstn nofWinsA a ++ y :: a1, stored)
          else
            match a1 with
            | [] => (firstn nofWinsA a ++ b, stored)
            | x :: a2 =>
                let nofWinsB := gallopLeft x b' 0 in
                let b1 := skipn nofWinsB b' in
                if Nat.ltb 0 nofWinsB && Nat.eqb (List.length b1) 0
                then (firstn nofWinsA a ++ y :: b' ++ a1, stored)
                else if Nat.eqb (List.length a2) 1
                then (firstn nofWinsA a ++ y :: firstn nofWinsB b'
                        ++ x :: b1 ++ a2, stored)
                else
                  let (l, s) :=
                    if Nat.leb kMinGallopWins nofWinsA
                       || Nat.leb kMinGallopWins nofWinsB
                    then mergeLowFrom fuel Galloping minGallop stored a2 b1
                    else mergeLowFrom fuel (OneByOne 0 0)
                           (S minGallop) (S minGallop) a2 b1 in
                  (firstn nofWinsA a ++ y :: firstn nofWinsB b' ++ x :: l, s)
            end
      | _, _, _ => (a ++ b, stored)
      end
  end.

(** [MergeLow]: the first element of B goes first. *)
Definition mergeLow (a b : list A) (stored : nat) : list A * nat :=
  match b with
  | [] => (a, stored)
  | y :: b' =>
      if Nat.eqb (List.length b') 0 then (y :: a, stored)
      else if Nat.eqb (List.length a) 1 then (y :: b' ++ a, stored)
      else
        let (l, s) :=
          mergeLowFrom (List.length a + List.length b') (OneByOne 0 0)
            stored stored a b' in
        (y :: l, s)
  end.

(** [MergeHigh] after its first step.  The merge runs from the end of
    the runs: [ra] is what remains of run A and [rb] what remains of run
    B (in the temp array), both with their last element first, and so is
    the result.  At [Succeed] what remains of B goes before the merged
    elements, or what remains of A is in place; at [CopyA] the rest of A
    goes after the first element of B. *)
Fixpoint mergeHighFrom (fuel : nat) (mode : mergeMode)
    (minGallop stored : nat) (ra rb : list A) : list A * nat :=
  match fuel with
  | O => (rb ++ ra, stored)
  | S fuel =>
      match mode, ra, rb with
      | OneByOne nofWinsA nofWinsB, x :: ra', y :: rb' =>
          if precedes y x then
            if Nat.eqb (List.length ra') 0 then (x :: rb, stored)
            else
              let (l, s) :=
                if Nat.leb minGallop (S nofWinsA)
                then mergeHighFrom fuel Galloping (S minGallop) stored ra' rb
                else mergeHighFrom fuel (OneByOne (S nofWinsA) 0)
                       minGallop stored ra' rb in
              (x :: l, s)
          else
            if Nat.eqb (List.length rb') 1 then (y :: ra ++ rb', stored)
            else
              let (l, s) :=
                if Nat.leb minGallop (S nofWinsB)
                then mergeHighFrom fuel Galloping (S minGallop) stored ra rb'
                else mergeHighFrom fuel (OneByOne 0 (S nofWinsB))
                       minGallop stored ra rb' in
              (y :: l, s)
      | Galloping, _ :: _, y :: rb' =>
          let minGallop := Nat.max 1 (minGallop - 1) in
          let stored := minGallop in
          let k := gallopRight y (rev ra) (List.length ra - 1) in
          let nofWinsA := (List.length ra - k)%nat in
          let ra1 := skipn nofWinsA ra in
          if Nat.ltb 0 nofWinsA && Nat.eqb (List.length ra1) 0
          then (firstn nofWinsA ra ++ rb, stored)
          else if Nat.eqb (List.length rb') 1
          then (firstn nofWinsA ra ++ y :: ra1 ++ rb', stored)
          else
            match ra1 with
            | [] => (firstn nofWinsA ra ++ rb, stored)
            | x :: ra2 =>
                let k := gallopLeft x (rev rb') (List.length rb' - 1) in
                let nofWinsB := (List.length rb' - k)%nat in
                let rb1 := skipn nofWinsB rb' in
                if Nat.ltb 0 nofWinsB && Nat.eqb (List.length rb1) 1
                then (firstn nofWinsA ra ++ y :: firstn nofWinsB rb'
                        ++ ra1 ++ rb1, stored)
                else if Nat.ltb 0 nofWinsB && Nat.eqb (List.length rb1) 0
                then (firstn nofWinsA ra ++ y :: rb' ++ ra1, stored)
                else if Nat.eqb (List.length ra2) 0
                then (firstn nofWinsA ra ++ y :: firstn nofWinsB rb'
                        ++ x :: rb1, stored)
                else
                  let (l, s) :=
                    if Nat.leb kMinGallopWins nofWinsA
                       || Nat.leb kMinGallopWins nofWinsB
                    then mergeHighFrom fuel Galloping minGallop stored ra2 rb1
                    else mergeHighFrom fuel (OneByOne 0 0)
                           (S minGallop) (S minGallop) ra2 rb1 in
                  (firstn nofWinsA ra ++ y :: firstn nofWinsB rb'
                     ++ x :: l, s)
            end
      | _, _, _ => (rb ++ ra, stored)
      end
  end.

(** [MergeHigh]: the last element of A goes last. *)
Definition mergeHigh (a b : list A) (stored : nat) : list A * nat :=
  match rev a with
  | [] => (b, stored)
  | x :: ra' =>
      if Nat.eqb (List.length ra') 0 then (b ++ [x], stored)
      else if Nat.eqb (List.length b) 1 then (b ++ rev ra' ++ [x], stored)
      else
        let (l, s) :=
          mergeHighFrom (List.length ra' + List.length b) (OneByOne 0 0)
            stored stored ra' (rev b) in
        (rev (x :: l), s)
  end.

(** [MergeAt] on two adjacent runs: the elements of A that are in place
    before B and the elements of B that are in place after A stay, and
    the rest is merged from the side of the shorter run. *)
Definition mergeAt (a b : list A) (stored : nat) : list A * nat :=
  match b with
  | [] => (a, stored)
  | keyRight :: _ =>
      let k := gallopRight keyRight a 0 in
      let a1 := skipn k a in
      if Nat.eqb (List.length a1) 0 then (a ++ b, stored)
      else
        let keyLeft := last a1 keyRight in
        let lengthB := gallopLeft keyLeft b (List.length b - 1) in
        let b1 := firstn lengthB b in
        if Nat.eqb lengthB 0 then (a ++ b, stored)
        else
          let (merged, s) :=
            if Nat.leb (List.length a1) (List.length b1)
            then mergeLow a1 b1 stored
            else mergeHigh a1 b1 stored in
          (firstn k a ++ merged ++ skipn lengthB b, s)
  end.

(** [MergeCollapse]: runs are merged until the lengths on the stack
    satisfy the two invariants ([RunInvariantEstablished] at the two
    runs on top). *)
Fixpoint mergeCollapse (fuel : nat) (pendingRuns : list (list A))
    (stored : nat) : list (list A) * nat :=
  match fuel with
  | O => (pendingRuns, stored)
  | S fuel =>
      match pendingRuns with
      | r0 :: r1 :: below =>
          let established1 :=
            match below with
            | r2 :: _ =>
                Nat.ltb (List.length r1 + List.length r0) (List.length r2)
            | [] => true
            end in
          let established0 :=
            match below with
            | r2 :: r3 :: _ =>
                Nat.ltb (List.length r2 + List.length r1) (List.length r3)
            | _ => true
            end in
          if negb established1 || negb established0 then
            match below with
            | r2 :: below' =>
                if Nat.ltb (List.length r2) (List.length r0) then
                  let (merged, s) := mergeAt r2 r1 stored in
                  mergeCollapse fuel (r0 :: merged :: below') s
                else
                  let (merged, s) := mergeAt r1 r0 stored in
                  mergeCollapse fuel (merged :: below) s
            | [] => (pendingRuns, stored)
            end
          else if Nat.leb (List.length r1) (List.length r0) then
            let (merged, s) := mergeAt r1 r0 stored in
            mergeCollapse fuel (merged :: below) s
          else (pendingRuns, stored)
      | _ => (pendingRuns, stored)
      end
  end.

(** [MergeForceCollapse]: all pending runs are merged into one. *)
Fixpoint mergeForceCollapse (fuel : nat) (pendingRuns : list (list A))
    (stored : nat) : list A :=
  match fuel with
  | O => concat (rev pendingRuns)
  | S fuel =>
      match pendingRuns with
      | r0 :: r1 :: below =>
          match below with
          | r2 :: below' =>
              if Nat.ltb (List.length r2) (List.length r0) then
                let (merged, s) := mergeAt r2 r1 stored in
                mergeForceCollapse fuel (r0 :: merged :: below') s
              else
                let (merged, s) := mergeAt r1 r0 stored in
                mergeForceCollapse fuel (merged :: below) s
          | [] =>
              let (merged, s) := mergeAt r1 r0 stored in
              mergeForceCollapse fuel (merged :: below) s
          end
      | _ => concat (rev pendingRuns)
      end
  end.

(** [ComputeMinRunLength]: the length itself below 64, otherwise its six
    leading bits, plus one when a bit was shifted out. *)
Fixpoint computeMinRunLength (fuel n r : nat) : nat :=
  match fuel with
  | O => (n + r)%nat
  | S fuel =>
      if Nat.leb 64 n
      then computeMinRunLength fuel (n / 2)%nat (Nat.lor r (Nat.land n 1))
      else (n + r)%nat
  end.

(** The loop of [ArrayTimSortImpl]: the next run is found, extended by
    binary insertion when it is shorter than the minimal length, and
    pushed on the stack. *)
Fixpoint sortRuns (fuel minRunLength : nat) (remaining : list A)
    (pendingRuns : list (list A)) (stored : nat) : list A :=
  match fuel with
  | O => concat (rev pendingRuns) ++ remaining
  | S fuel =>
      match remaining with
      | [] =>
          mergeForceCollapse (List.length pendingRuns) pendingRuns stored
      | _ :: _ =>
          let (run, rest) := countAndMakeRun remaining in
          let (run, rest) :=
            if Nat.ltb (List.length run) minRunLength then
              let forcedRunLength :=
                Nat.min minRunLength (List.length remaining) in
              let more := (forcedRunLength - List.length run)%nat in
              (binaryInsertionSort run (firstn more rest), skipn more rest)
            else (run, rest) in
          let (pendingRuns, stored) :=
            mergeCollapse (S (List.length pendingRuns))
              (run :: pendingRuns) stored in
          sortRuns fuel minRunLength rest pendingRuns stored
      end
  end.

(** [array.sort(cmp)] *)
Definition sortBy (l : list A) : list A :=
  if Nat.ltb (List.length l) 2 then l
  else
    sortRuns (S (List.length l))
      (computeMinRunLength (List.length l) (List.length l) 0)
      l [] kMinGallopWins.

End ArraySort.

Definition extractAmount (text : str) : AmountResult :=
  let candidates := candidatesOf text in
  match sortBy compareCandidates candidates with
  | [] => MkAmountResult None None (decimal 0 0)
  | bestMatch :: _ =>
      MkAmountResult (Some (c_amount bestMatch)) (Some (c_currency bestMatch))
        (c_confidence bestMatch)
  end.

(** ** [extractDate] *)

Record DateResult : Type := MkDateResult {
  dt_date : option str;
  dt_confidence : num
}.

Fixpoint findIndex {A} (p : A -> bool) (l : list A) : Z :=
  match l with
  | [] => -1
  | x :: l' =>
      if p x then 0%Z
      else let i := findIndex p l' in
           if (i =? -1)%Z then (-1)%Z else (i + 1)%Z
  end.

Definition findMonthIndex (monthName : str) : Z :=
  let lowerMonth := toLowerCase monthName in
  let spanishIndex :=
    findIndex (fun month => str_eqb (toLowerCase month) lowerMonth)
              MONTH_NAMES_es in
  if negb (spanishIndex =? -1)%Z then spanishIndex
  else findIndex (fun month => str_eqb (toLowerCase month) lowerMonth)
                 MONTH_NAMES_en.

(** The components are integers or NaN ([None]).  With a NaN component
    the range tests are all false, the date object is invalid and the
    final comparison with [getFullYear()] fails. *)
Definition isValidDate (year month day : option Z) : bool :=
  match year, month, day with
  | Some year, Some month, Some day =>
      if (year <? 1900)%Z || (year >? 2100)%Z then false
      else if (month <? 1)%Z || (month >? 12)%Z then false
      else if (day <? 1)%Z || (day >? 31)%Z then false
      else
        let date := newDate year (month - 1) day in
        (getFullYear date =? year)%Z && (getMonth date =? month - 1)%Z
        && (getDate date =? day)%Z
  | _, _, _ => false
  end.

(** [parseInt(match[i])].  The groups of the date patterns hold at most
    four decimal digits, so the integer is the number itself. *)
Definition parseIntGroup (i : nat) (mt : MatchResult) : option Z :=
  parseIntAuto (orEmpty (group i mt)).

Definition gtZ (a : option Z) (b : Z) : bool :=
  match a with
  | Some z => (z >? b)%Z
  | None => false
  end.

Definition pad2 (z : option Z) : str :=
  padStart 2 (ch "0") (intToString (match z with Some v => v | None => 0%Z end)).

(** The body of the inner loop: [Some] is the [return], [None] the step to
    the next match. *)
Definition dateOfMatch (pattern : RegExp) (mt : MatchResult) : option str :=
  let ymd : option (option Z * option Z * option Z) :=
    if includes (source pattern) #"\d{4}" then
      Some (parseIntGroup 1 mt, parseIntGroup 2 mt, parseIntGroup 3 mt)
    else if includes (source pattern) #"enero|febrero" then
      let monthName := toLowerCase (orEmpty (group 2 mt)) in
      let monthIndex := findMonthIndex monthName in
      if negb (monthIndex =? -1)%Z then
        if startsWith #"\b(\d{1,2})" (source pattern) then
          Some (parseIntGroup 3 mt, Some (monthIndex + 1)%Z, parseIntGroup 1 mt)
        else
          Some (parseIntGroup 3 mt, Some (monthIndex + 1)%Z, parseIntGroup 2 mt)
      else None
    else
      let first := parseIntGroup 1 mt in
      let second := parseIntGroup 2 mt in
      let third := parseIntGroup 3 mt in
      if gtZ first 12 then Some (third, second, first)
      else Some (third, first, second) in
  match ymd with
  | Some (year, month, day) =>
      if isValidDate year month day then
        Some (intToString (match year with Some v => v | None => 0%Z end)
              ++ #"-" ++ pad2 month ++ #"-" ++ pad2 day)
      else None
  | None => None
  end.

Fixpoint firstSome {A B} (f : A -> option B) (l : list A) : option B :=
  match l with
  | [] => None
  | x :: l' =>
      match f x with
      | Some b => Some b
      | None => firstSome f l'
      end
  end.

Definition extractDate (text : str) : DateResult :=
  match firstSome (fun pattern =>
                     firstSome (dateOfMatch pattern) (matchAll pattern text))
                  DATE_PATTERNS with
  | Some isoDate => MkDateResult (Some isoDate) (decimal 9 1)
  | None => MkDateResult None (decimal 0 0)
  end.

(** ** [extractProvider] *)

Record ProviderPattern : Type := MkProviderPattern {
  pp_pattern : RegExp;
  pp_confidence : num
}.

Definition providerPatterns : list ProviderPattern :=
  [ MkProviderPattern
      (lit "\b([A-Z][a-zA-Z\s&]+(?:Store|Shop|Tienda|Empresa|Company|Corp|Inc|Ltd|S\.A\.|S\.L\.|Restaurant|CafÃ©|Supermercado|Farmacia))\b" "g")
      (decimal 9 1);
    MkProviderPattern
      (lit "(?:razÃ³n\s*social|business\s*name|company|proveedor|vendor)\s*:?\s*([A-Z][a-zA-Z\s&]{3,40})" "gi")
      (decimal 85 2);
    MkProviderPattern
      (lit "\b([A-Z][a-zA-Z\s&]{3,30})\s*(?:receipt|factura|ticket|recibo|comprobante)" "gi")
      (decimal 8 1);
    MkProviderPattern
      (lit "\b([A-Z][a-z]+(?:\s+[A-Z][a-z]+){1,4})\b" "g")
      (decimal 6 1);
    MkProviderPattern
      (lit "\b([A-Z][a-zA-Z\s&]{4,25})\s*(?:Av\.|Calle|Street|Avenue|Road)" "gi")
      (decimal 7 1) ].

Definition whitespaceRun : RegExp := lit "\s+" "g".
Definition aDigit : RegExp := lit "\d" "".

Definition providerSkipWords : list str :=
  [#"TOTAL"; #"SUBTOTAL"; #"IVA"; #"DESCUENTO"; #"PAGO"; #"FECHA"; #"HORA"; #"CANTIDAD"; #"PRECIO"; #"ITEM"].

Record ProviderResult : Type := MkProviderResult {
  pr_provider : option str;
  pr_confidence : num
}.

Definition zeroIfFalsy (a : num) : num :=
  if numTruthy a then a else decimal 0 0.

(** The body of the inner loop, from the best match so far to the next. *)
Definition providerStep (confidence : num) (bestMatch : option ProviderResult)
  (mt : MatchResult) : outcome (option ProviderResult) :=
  provider <- trimOf (group 1 mt) ;;
  let provider := trim (replaceAll whitespaceRun provider #" ") in
  if Nat.ltb (List.length provider) 3 || Nat.ltb 50 (List.length provider)
  then Returns bestMatch
  else if existsb (fun word => includes (toUpperCase provider) word)
            providerSkipWords
  then Returns bestMatch
  else if test aDigit provider && Nat.ltb (List.length provider) 8
  then Returns bestMatch
  else if gt confidence
            (match bestMatch with
             | Some b => zeroIfFalsy (pr_confidence b)
             | None => decimal 0 0
             end)
  then Returns (Some (MkProviderResult (Some provider) confidence))
  else Returns bestMatch.

Fixpoint foldM {A S} (f : S -> A -> outcome S) (l : list A) (s : S)
  : outcome S :=
  match l with
  | [] => Returns s
  | x :: l' => s' <- f s x ;; foldM f l' s'
  end.

Definition extractProvider (text : str) : outcome ProviderResult :=
  bestMatch <-
    foldM (fun best pp =>
             foldM (providerStep (pp_confidence pp))
                   (matchAll (pp_pattern pp) text) best)
          providerPatterns None ;;
  Returns (match bestMatch with
           | Some b => b
           | None => MkProviderResult None (decimal 0 0)
           end).

(** ** [extractDescription] *)

Definition descriptionPatterns : list ProviderPattern :=
  [ MkProviderPattern
      (lit "(?:concepto|description|descripciÃ³n|item|artÃ­culo|producto|servicio)\s*:?\s*([A-Za-z0-9\s\-,.()]{5,60})" "gi")
      (decimal 9 1);
    MkProviderPattern
      (lit "\b(\d+)\s+([A-Za-z][A-Za-z0-9\s\-,.]{5,40})\s+[\d.,]+\s*[$â‚¬Â£Â¥â‚¹Bs]?" "gi")
      (decimal 8 1);
    MkProviderPattern
      (lit "\b([A-Za-z][A-Za-z0-9\s\-,.]{8,50})\b" "g")
      (decimal 6 1) ].

Definition properName : RegExp := lit "^[A-Z][a-z]+(?:\s+[A-Z][a-z]+){1,3}$" "".

Definition descriptionSkipWords : list str :=
  [#"TOTAL"; #"SUBTOTAL"; #"IVA"; #"DESCUENTO"; #"PAGO"; #"FECHA"; #"HORA"; #"CANTIDAD"; #"PRECIO"].

Record DescriptionResult : Type := MkDescriptionResult {
  ds_description : option str;
  ds_confidence : num
}.

(** The description and the adjusted confidence of a match that survives
    the filters of the inner loop; [None] for a match that is skipped. *)
Definition descriptionOfMatch (provider : option str) (confidence : num)
  (mt : MatchResult) : option (str * num) :=
  let description :=
    orEmpty (orElse (option_map trim (group 1 mt))
                    (option_map trim (group 2 mt))) in
  if Nat.ltb (List.length description) 5
     || Nat.ltb 100 (List.length description)
  then None
  else
    let description := trim (replaceAll whitespaceRun description #" ") in
    if test properName description
       && negb (includes (toLowerCase description) #"compra")
    then None
    else if existsb (fun word => includes (toUpperCase description) word)
              descriptionSkipWords
    then None
    else if truthy provider
            && includes (toLowerCase description)
                 (toLowerCase (orEmpty provider))
    then None
    else
      let adjustedConfidence :=
        if includes (toLowerCase description) #"compra"
           || includes (toLowerCase description) #"purchase"
           || includes (toLowerCase description) #"producto"
           || includes (toLowerCase description) #"servicio"
        then add confidence (decimal 1 1)
        else confidence in
      Some (description, adjustedConfidence).

Definition descriptionStep (provider : option str) (confidence : num)
  (best : option str * num) (mt : MatchResult) : option str * num :=
  match descriptionOfMatch provider confidence mt with
  | Some (description, adjustedConfidence) =>
      if gt adjustedConfidence (snd best)
      then (Some description, adjustedConfidence)
      else best
  | None => best
  end.

Definition bestDescriptionOf (text : str) (provider : option str)
  : option str * num :=
  fold_left (fun best pp =>
               fold_left (descriptionStep provider (pp_confidence pp))
                         (matchAll (pp_pattern pp) text) best)
            descriptionPatterns (None, decimal 0 0).

Definition extractDescription (text : str) (provider : option str)
  : DescriptionResult :=
  let (bestDescription, bestConfidence) := bestDescriptionOf text provider in
  if negb (truthy bestDescription) && truthy provider then
    MkDescriptionResult (Some (#"Compra en " ++ orEmpty provider)) (decimal 5 1)
  else if negb (truthy bestDescription) then
    MkDescriptionResult (Some #"Gasto registrado") (decimal 3 1)
  else MkDescriptionResult bestDescription bestConfidence.

(** ** [heuristicExtraction] *)

Definition amountTruthy (a : option num) : bool :=
  match a with
  | Some v => numTruthy v
  | None => false
  end.

Definition weightedConfidenceOf (c : Confidence) : num :=
  add (add (add (mul (conf_amount c) (decimal 4 1))
                (mul (conf_date c) (decimal 3 1)))
           (mul (conf_provider c) (decimal 2 1)))
      (mul (conf_description c) (decimal 1 1)).

Definition heuristicExtraction (text : str) : outcome ExtractionResult :=
  let amountResult := extractAmount text in
  let dateResult := extractDate text in
  providerResult <- extractProvider text ;;
  let descriptionResult :=
    extractDescription text (pr_provider providerResult) in
  let data :=
    MkExtractedData
      (ds_description descriptionResult)
      (pr_provider providerResult)
      (am_amount amountResult)
      (am_currency amountResult)
      (dt_date dateResult)
      (MkConfidence (am_confidence amountResult) (dt_confidence dateResult)
                    (pr_confidence providerResult)
                    (ds_confidence descriptionResult)) in
  let weightedConfidence := weightedConfidenceOf (confidence data) in
  let shouldUseLLM :=
    lt weightedConfidence (decimal 6 1)
    || negb (amountTruthy (amount data))
    || (negb (truthy (date data)) && negb (truthy (provider data))) in
  Returns (MkExtractionResult data shouldUseLLM weightedConfidence).

(** ** [validateAndFixFields] of [src/app/api/upload-receipt/route.ts]

    The function updates its argument in place and returns it; the model
    passes the record along. *)

Definition numberLike : RegExp := lit "(\d+[.,]?\d*)" "g".
Definition businessName : RegExp := lit "([A-ZÁÉÍÓÚÑ][a-záéíóúñ\s]+(?:ABC|XYZ|S\.A\.|S\.A|Corp|Inc|Ltd|Restaurant|Tienda|Supermercado|Farmacia))" "i".
Definition dateLike : RegExp := lit "(\d{1,2}[\/\-]\d{1,2}[\/\-]\d{2,4})" "".
Definition dateSeparator : RegExp := lit "[\/\-]" "".
Definition amountText : RegExp := lit "\$?\d+[.,]?\d*\s*(USD|EUR|Bs|€|£|¥)?" "g".
Definition dateText : RegExp := lit "\d{1,2}[\/\-]\d{1,2}[\/\-]\d{2,4}" "g".
Definition spaces : RegExp := lit "\s+" "g".

Definition setDescription (v : option str) (r : ExtractedData) : ExtractedData :=
  MkExtractedData v (provider r) (amount r) (currency r) (date r)
    (confidence r).

Definition setProvider (v : option str) (r : ExtractedData) : ExtractedData :=
  MkExtractedData (description r) v (amount r) (currency r) (date r)
    (confidence r).

Definition setAmount (v : option num) (r : ExtractedData) : ExtractedData :=
  MkExtractedData (description r) (provider r) v (currency r) (date r)
    (confidence r).

Definition setDate (v : option str) (r : ExtractedData) : ExtractedData :=
  MkExtractedData (description r) (provider r) (amount r) (currency r) v
    (confidence r).

(** "Try to extract amount from description" *)
Definition fixAmount (d : str) (result : ExtractedData) : ExtractedData :=
  match matchGlobal numberLike d with
  | Some amountMatch =>
      let amounts :=
        map (fun mt => parseFloat (replaceFirst mt #"," #".")) amountMatch in
      let maxAmount := Math_max amounts in
      if gt maxAmount (decimal 0 0) then setAmount (Some maxAmount) result
      else result
  | None => result
  end.

(** "Try to extract provider from description" *)
Definition fixProvider (d : str) (result : ExtractedData)
  : outcome ExtractedData :=
  match exec businessName d with
  | Some providerMatch =>
      p <- trimOf (group 1 providerMatch) ;;
      Returns (setProvider (Some p) result)
  | None => Returns result
  end.

(** "Try to extract date from description" *)
Definition fixDate (d : str) (result : ExtractedData)
  : outcome ExtractedData :=
  match exec dateLike d with
  | Some dateMatch =>
      match group 1 dateMatch with
      | None => Throws TypeError
      | Some dateStr =>
          match split dateSeparator dateStr with
          | [p0; p1; p2] =>
              let '(day, month, year) :=
                if Nat.eqb (List.length p2) 4 then
                  if gtZ (parseIntAuto p0) 12 then (p0, p1, p2)
                  else (p1, p0, p2)
                else
                  if gtZ (parseIntAuto p0) 12 then (p0, p1, #"20" ++ p2)
                  else (p1, p0, #"20" ++ p2) in
              Returns (setDate (Some (year ++ #"-" ++ padStart 2 (ch "0") month
                                      ++ #"-" ++ padStart 2 (ch "0") day))
                               result)
          | _ => Returns result
          end
      end
  | None => Returns result
  end.

Definition truncateDescription (result : ExtractedData) : ExtractedData :=
  if truthy (description result)
     && Nat.ltb 100 (List.length (orEmpty (description result)))
  then setDescription
         (Some (substring (orEmpty (description result)) 0 100 ++ #"..."))
         result
  else result.

(** The condition of the first [if]: everything is in the description. *)
Definition allInDescription (result : ExtractedData) : bool :=
  truthy (description result)
  && Nat.ltb 50 (List.length (orEmpty (description result)))
  && negb (truthy (provider result))
  && negb (amountTruthy (amount result)).

Definition repairFromDescription (result : ExtractedData)
  : outcome ExtractedData :=
  if allInDescription result
  then
    let d := orEmpty (description result) in
    let result := fixAmount d result in
    result <- fixProvider d result ;;
    result <- fixDate d result ;;
    Returns (truncateDescription result)
  else Returns result.

(** [s.replace(new RegExp(p, 'gi'), '')] *)
Definition removePattern (p s : str) : outcome str :=
  match newRegExp p #"gi" with
  | inl re => Returns (replaceAll re s [])
  | inr SyntaxError => Throws RegExpSyntaxError
  | inr Unsupported => NotModelled
  end.

(** The second [if]: the description must not hold the other fields. *)
Definition scrubDescription (result : ExtractedData) : outcome ExtractedData :=
  if truthy (description result) then
    let d := orEmpty (description result) in
    let d := replaceAll amountText d [] in
    let d := replaceAll dateText d [] in
    d <- (if truthy (provider result)
          then removePattern (orEmpty (provider result)) d
          else Returns d) ;;
    let d := trim (replaceAll spaces d #" ") in
    if negb (truthy (Some d)) || Nat.ltb (List.length d) 5 then
      Returns (setDescription
                 (Some (if truthy (provider result)
                        then #"Compra en " ++ orEmpty (provider result)
                        else #"Compra general"))
                 result)
    else Returns (setDescription (Some d) result)
  else Returns result.

Definition validateAndFixFields (result : ExtractedData)
  : outcome ExtractedData :=
  result <- repairFromDescription result ;;
  scrubDescription result.

(* ===================================================================== *)
(** * Part III.  Properties                                              *)
(* ===================================================================== *)

(** ** The pattern literals *)

Definition allLiterals : list RegExp :=
  map pc_pattern AMOUNT_PATTERNS ++ DATE_PATTERNS
  ++ map pp_pattern providerPatterns ++ map pp_pattern descriptionPatterns
  ++ [currencyChars; notNumeric; separators; notDigit; whitespaceRun; aDigit;
      properName; numberLike; businessName; dateLike; dateSeparator;
      amountText; dateText; spaces; currencyRun].

Definition parsesToItself (re : RegExp) : bool :=
  match parsePattern (source re) with
  | inl (r, n) => Nat.eqb n (ngroups re)
  | inr _ => false
  end.

(** Every pattern of the program is accepted by the parser, so that no
    [lit] takes its fallback. *)
Lemma literals_parse : forallb parsesToItself allLiterals = true.
Proof. vm_compute. reflexivity. Qed.

(** ** Evaluations on the inputs of the specification *)

Definition receiptText : str :=
  #"Supermercado ABC S.A. - Total: $150.00 - Fecha: 15/01/2025 - Compra de alimentos".

(** C1 (the code departs from the claim).  On the end-to-end example the
    entry point returns normally, but with no provider, with the amount
    text ["150.00"] as currency, with no date and with the escalation flag
    set; only the amount 150 and the description are as the claim says. *)
Theorem heuristicExtraction_receiptText :
  exists r,
    heuristicExtraction receiptText = Returns r
    /\ provider (data r) = None
    /\ amount (data r) = Some (decimal 150 0)
    /\ currency (data r) = Some #"150.00"
    /\ date (data r) = None
    /\ description (data r) = Some #"Compra de alimentos"
    /\ shouldUseLLM r = true.
Proof.
  eexists. split; [vm_compute; reflexivity|].
  repeat split; vm_compute; reflexivity.
Qed.

(** C2 (the code departs from the claim).  Both slash dates are read as
    year-month-day, because the source text of every date pattern contains
    [\d{4}]; the year 15 or 1 is then out of range and no date comes
    back. *)
Theorem extractDate_slash_dates :
  extractDate #"15/01/2025" = MkDateResult None (decimal 0 0)
  /\ extractDate #"01/15/2025" = MkDateResult None (decimal 0 0).
Proof. split; vm_compute; reflexivity. Qed.

(** C3 (the code departs from the claim).  On ["Total: $1.234,56"] the
    scanner returns the amount 4.56 with the currency text ["4,56"] and
    confidence 1. *)
Theorem extractAmount_total_1234_56 :
  extractAmount #"Total: $1.234,56"
  = MkAmountResult (Some (decimal 456 2)) (Some #"4,56") (decimal 1 0).
Proof. vm_compute. reflexivity. Qed.

(** C10 (the code departs from the claim).  The text ["150.00"] has no
    currency symbol.  The scanner returns the amount 150 for it, and as
    currency the amount text ["150.00"] itself, not ["USD"]: the default
    of [currency || 'USD'] is never taken, because the currency was set
    to the amount text before. *)
Theorem extractAmount_plain_amount :
  am_amount (extractAmount #"150.00") = Some (decimal 150 0)
  /\ am_currency (extractAmount #"150.00") = Some #"150.00"
  /\ am_currency (extractAmount #"150.00") <> Some #"USD".
Proof.
  split; [vm_compute; reflexivity|]. split; [vm_compute; reflexivity|].
  vm_compute. discriminate.
Qed.

Definition noConfidence : Confidence :=
  MkConfidence (decimal 8 1) (decimal 8 1) (decimal 8 1) (decimal 8 1).

(** C9 (the code departs from the claim).  The repair pass builds a
    pattern from the provider text as it is; a provider with an unclosed
    parenthesis makes [new RegExp] throw, and the function has no
    handler. *)
Theorem validateAndFixFields_throws :
  validateAndFixFields
    (MkExtractedData (Some #"Compra de alimentos") (Some #"Farmacia (Centro")
       (Some (decimal 150 0)) (Some #"USD") None noConfidence)
  = Throws RegExpSyntaxError.
Proof. vm_compute. reflexivity. Qed.



(** ** The matcher: invariants of a match *)

Lemma setNth_length {A} (n : nat) (v : A) (l : list A) :
  List.length (setNth n v l) = List.length l.
Proof.
  revert n; induction l as [|a l IH]; intros [|n]; simpl; auto.
Qed.

Lemma nth_setNth_same {A} (n : nat) (v d : A) (l : list A) :
  (n < List.length l)%nat -> nth n (setNth n v l) d = v.
Proof.
  revert n; induction l as [|a l IH]; intros [|n]; simpl; intros H;
    try lia; auto.
  apply IH. lia.
Qed.

Lemma nth_setNth_other {A} (n k : nat) (v d : A) (l : list A) :
  n <> k -> nth k (setNth n v l) d = nth k l d.
Proof.
  revert n k; induction l as [|a l IH]; intros [|n] [|k]; simpl; intros H;
    try congruence; auto.
Qed.

Section Invariant.

(** A relation between the state where a match starts and a state where
    it can end is an invariant of the matcher when it is a preorder that
    admits one step over a code unit in [C], a write to a group in [G] and
    the captures of a lookahead. *)
Variable C : char -> bool.
Variable G : nat -> bool.
Variable R : mstate -> mstate -> Prop.

Hypothesis R_refl : forall x, R x x.
Hypothesis R_trans : forall x y z, R x y -> R y z -> R x z.
Hypothesis R_step :
  forall x c rest, after x = c :: rest -> C c = true ->
                   R x (MState (c :: before x) rest (caps x)).
Hypothesis R_cap : forall x i v, G i = true -> R x (setCap i v x).
Hypothesis R_look :
  forall x y, R x y -> R x (MState (before x) (after x) (caps y)).

(** The consuming atoms of the pattern stay inside [C] and its groups
    inside [G]. *)
Fixpoint within (ic : bool) (r : regex) : Prop :=
  match r with
  | REmpty | RAssert _ => True
  | RChar a => forall c, charMatches ic a c = true -> C c = true
  | RAny => forall c, negb (isLineTerminator c) = true -> C c = true
  | RClass neg items =>
      forall c, classMatches ic neg items c = true -> C c = true
  | RSeq r1 r2 | RAlt r1 r2 => within ic r1 /\ within ic r2
  | RRepeat r1 _ _ _ | RLook _ r1 => within ic r1
  | RGroup i r1 => G i = true /\ within ic r1
  end.

Lemma within_groups ic r :
  within ic r -> Forall (fun i => G i = true) (groupsOf r).
Proof.
  induction r; simpl; intros H; auto.
  - destruct H. apply Forall_app. auto.
  - destruct H. apply Forall_app. auto.
  - destruct H. constructor; auto.
Qed.

Lemma R_clearCaps gs x :
  Forall (fun i => G i = true) gs -> R x (clearCaps gs x).
Proof.
  unfold clearCaps. revert x.
  induction gs as [|g gs IH]; intros x H; simpl; [apply R_refl|].
  inversion H; subst.
  eapply R_trans; [|apply IH; assumption]. apply R_cap. assumption.
Qed.

Lemma R_of_step (p : char -> bool) x y :
  (forall c, p c = true -> C c = true) -> In y (step p x) -> R x y.
Proof.
  intros Hp. unfold step. destruct (after x) as [|c rest] eqn:E; [intros []|].
  destruct (p c) eqn:Pc; [|intros []].
  intros [<-|[]]. apply R_step; auto.
Qed.

Lemma repeatMatcher_inv mr gs greedy :
  Forall (fun i => G i = true) gs ->
  (forall x y, In y (mr x) -> R x y) ->
  forall fuel min max x y,
    In y (repeatMatcher mr gs greedy fuel min max x) -> R x y.
Proof.
  intros Hgs Hmr. induction fuel as [|fuel IH]; intros min max x y; simpl.
  - intros [].
  - assert (Hz : In y (flat_map
                (fun y0 =>
                   if Nat.eqb min 0 && Nat.eqb (endIndex y0) (endIndex x)
                   then []
                   else repeatMatcher mr gs greedy fuel (pred min)
                          (option_map pred max) y0)
                (mr (clearCaps gs x))) -> R x y).
    { intros Hin. apply in_flat_map in Hin. destruct Hin as (y0 & H0 & H1).
      destruct (Nat.eqb min 0 && Nat.eqb (endIndex y0) (endIndex x));
        [destruct H1|].
      apply (R_trans (@R_clearCaps gs x Hgs)).
      apply (R_trans (Hmr _ _ H0)).
      apply (IH _ _ _ _ H1). }
    assert (Hx : forall l, In y (l ++ [x]) -> (In y l -> R x y) -> R x y).
    { intros l Hin Hl. apply in_app_or in Hin. destruct Hin as [Hin|[<-|[]]].
      - auto.
      - apply R_refl. }
    destruct max as [[|k]|].
    + intros [<-|[]]. apply R_refl.
    + destruct (negb (Nat.eqb min 0)); [exact Hz|].
      destruct greedy.
      * intros Hin. eapply Hx; eauto.
      * intros [<-|Hin]; [apply R_refl|auto].
    + destruct (negb (Nat.eqb min 0)); [exact Hz|].
      destruct greedy.
      * intros Hin. eapply Hx; eauto.
      * intros [<-|Hin]; [apply R_refl|auto].
Qed.

Lemma matcher_inv ic r :
  within ic r -> forall x y, In y (matcher ic r x) -> R x y.
Proof.
  induction r as [|a| |neg items|r1 IH1 r2 IH2|r1 IH1 r2 IH2
                  |r1 IH1 min max greedy|i r1 IH1|a|neg r1 IH1];
    cbn [matcher within]; intros Hc x y Hin.
  - destruct Hin as [<-|[]]. apply R_refl.
  - eapply R_of_step; [exact Hc|exact Hin].
  - eapply R_of_step; [exact Hc|exact Hin].
  - eapply R_of_step; [exact Hc|exact Hin].
  - apply in_flat_map in Hin. destruct Hin as (m & H1 & H2).
    destruct Hc as [Hc1 Hc2].
    apply (R_trans (IH1 Hc1 x m H1) (IH2 Hc2 m y H2)).
  - destruct Hc as [Hc1 Hc2]. apply in_app_or in Hin.
    destruct Hin as [Hin|Hin]; [apply (IH1 Hc1 x y Hin)|apply (IH2 Hc2 x y Hin)].
  - eapply repeatMatcher_inv;
      [eapply within_groups; exact Hc|apply (IH1 Hc)|exact Hin].
  - destruct Hc as [Hg Hc].
    apply in_map_iff in Hin. destruct Hin as (y0 & <- & H0).
    eapply R_trans; [apply (IH1 Hc x y0 H0)|]. apply R_cap. exact Hg.
  - destruct (holds a x); [|destruct Hin].
    destruct Hin as [<-|[]]. apply R_refl.
  - destruct (matcher ic r1 x) as [|y0 l] eqn:E.
    + destruct neg; [|destruct Hin].
      destruct Hin as [<-|[]]. apply R_refl.
    + destruct neg; [destruct Hin|].
      destruct Hin as [<-|[]].
      apply R_look. apply (IH1 Hc). rewrite E. left. reflexivity.
Qed.

End Invariant.

Definition anyChar (c : char) : bool := true.
Definition anyGroup (i : nat) : bool := true.

Lemma within_any ic r : within anyChar anyGroup ic r.
Proof. induction r; simpl; auto. Qed.

(** *** First invariant: a match moves forward in the same input *)

(** [y] lies further in the same input than [x], the units in between
    satisfy [C], and the capture table keeps its size. *)
Definition reach (C : char -> bool) (x y : mstate) : Prop :=
  exists w, after x = w ++ after y
            /\ before y = rev w ++ before x
            /\ List.length (caps y) = List.length (caps x)
            /\ Forall (fun c => C c = true) w.

Lemma reach_refl C x : reach C x x.
Proof. exists []. repeat split; auto. Qed.

Lemma reach_trans C x y z : reach C x y -> reach C y z -> reach C x z.
Proof.
  intros (w1 & A1 & B1 & L1 & F1) (w2 & A2 & B2 & L2 & F2).
  exists (w1 ++ w2). repeat split.
  - rewrite A1, A2. apply app_assoc.
  - rewrite B2, B1, rev_app_distr. rewrite <- app_assoc. reflexivity.
  - congruence.
  - apply Forall_app. auto.
Qed.

Lemma matcher_reach C ic r x y :
  within C anyGroup ic r -> In y (matcher ic r x) -> reach C x y.
Proof.
  intros Hc. revert x y.
  apply (@matcher_inv C anyGroup (reach C)); auto.
  - apply reach_refl.
  - apply reach_trans.
  - intros x c rest E Cc. exists [c]. simpl. repeat split; auto.
  - intros x i v _. exists []. simpl. repeat split; auto.
    apply setNth_length.
  - intros x y (w & _ & _ & L & _). exists []. simpl. repeat split; auto.
Qed.

(** Every result of the matcher lies further in the same input. *)
Lemma matcher_forward ic r x y :
  In y (matcher ic r x) -> reach anyChar x y.
Proof. apply matcher_reach, within_any. Qed.

Lemma consumed_app x y w : after x = w ++ after y -> consumed x y = w.
Proof.
  intros A. unfold consumed. rewrite A, length_app.
  replace (List.length w + List.length (after y) - List.length (after y))%nat
    with (List.length w) by lia.
  rewrite firstn_app, firstn_all, Nat.sub_diag. simpl. apply app_nil_r.
Qed.

Lemma reach_endIndex C x y :
  reach C x y ->
  endIndex y = (endIndex x + List.length (consumed x y))%nat.
Proof.
  intros (w & A & B & _ & _). rewrite (consumed_app x y w A).
  unfold endIndex. rewrite B, length_app, length_rev. lia.
Qed.

(** *** Second invariant: groups that a pattern does not contain *)

Definition sameSlot (i j : nat) : bool := Nat.eqb (pred i) (pred j).

Definition keeps (i : nat) (x y : mstate) : Prop :=
  nth (pred i) (caps y) None = nth (pred i) (caps x) None.

Lemma matcher_keeps i ic r x y :
  forallb (fun j => negb (sameSlot i j)) (groupsOf r) = true ->
  In y (matcher ic r x) -> keeps i x y.
Proof.
  intros Hg. revert x y.
  apply (@matcher_inv anyChar (fun j => negb (sameSlot i j)) (keeps i)).
  - intros x. reflexivity.
  - unfold keeps. intros x y z H1 H2. congruence.
  - intros x c rest _ _. reflexivity.
  - unfold keeps, sameSlot. intros x j v Hj. simpl.
    apply nth_setNth_other. intros E. rewrite E, Nat.eqb_refl in Hj.
    discriminate.
  - intros x y H. exact H.
  - induction r; simpl in *; auto.
    + rewrite forallb_app in Hg. apply andb_prop in Hg. destruct Hg. auto.
    + rewrite forallb_app in Hg. apply andb_prop in Hg. destruct Hg. auto.
    + apply andb_prop in Hg. destruct Hg. auto.
Qed.

(** *** Third invariant: groups that every match of a pattern fills *)

Fixpoint sets (i : nat) (r : regex) : bool :=
  match r with
  | RGroup j r1 => sameSlot i j || sets i r1
  | RSeq r1 r2 =>
      sets i r2
      || (sets i r1 && forallb (fun j => negb (sameSlot i j)) (groupsOf r2))
  | RAlt r1 r2 => sets i r1 && sets i r2
  | RRepeat r1 min max _ =>
      match max with
      | Some O => false
      | _ => negb (Nat.eqb min 0) && sets i r1
      end
  | _ => false
  end.

Definition filled (i : nat) (y : mstate) : Prop :=
  exists s, nth (pred i) (caps y) None = Some s.

Lemma repeatMatcher_filled i mr gs greedy :
  (forall x y, In y (mr x) -> reach anyChar x y) ->
  (forall x y, (pred i < List.length (caps x))%nat -> In y (mr x) ->
               filled i y) ->
  forall fuel min max x y,
    (pred i < List.length (caps x))%nat ->
    (negb (Nat.eqb min 0) = true /\ max <> Some O) \/ filled i x ->
    In y (repeatMatcher mr gs greedy fuel min max x) -> filled i y.
Proof.
  intros Hfw Hmr. induction fuel as [|fuel IH]; intros min max x y Hb Hor; simpl.
  - intros [].
  - assert (Hz : In y (flat_map
                (fun y0 =>
                   if Nat.eqb min 0 && Nat.eqb (endIndex y0) (endIndex x)
                   then []
                   else repeatMatcher mr gs greedy fuel (pred min)
                          (option_map pred max) y0)
                (mr (clearCaps gs x))) -> filled i y).
    { intros Hin. apply in_flat_map in Hin. destruct Hin as (y0 & H0 & H1).
      destruct (Nat.eqb min 0 && Nat.eqb (endIndex y0) (endIndex x));
        [destruct H1|].
      assert (Hb0 : (pred i < List.length (caps (clearCaps gs x)))%nat).
      { unfold clearCaps. clear -Hb. revert x Hb.
        induction gs as [|g gs IHg]; intros x Hb; simpl; auto.
        apply IHg. simpl. rewrite setNth_length. exact Hb. }
      eapply (IH _ _ y0); [| |exact H1].
      - destruct (Hfw _ _ H0) as (_ & _ & _ & L & _). rewrite L. exact Hb0.
      - right. eapply Hmr; eauto. }
    assert (Hx : filled i x \/ negb (Nat.eqb min 0) = true).
    { destruct Hor as [[H _]|H]; auto. }
    destruct max as [[|k]|].
    + intros [<-|[]]. destruct Hor as [[_ H]|H]; [congruence|exact H].
    + destruct (negb (Nat.eqb min 0)) eqn:Em; [exact Hz|].
      destruct Hx as [Hx|Hx]; [|discriminate].
      destruct greedy.
      * intros Hin. apply in_app_or in Hin. destruct Hin as [Hin|[<-|[]]]; auto.
      * intros [<-|Hin]; auto.
    + destruct (negb (Nat.eqb min 0)) eqn:Em; [exact Hz|].
      destruct Hx as [Hx|Hx]; [|discriminate].
      destruct greedy.
      * intros Hin. apply in_app_or in Hin. destruct Hin as [Hin|[<-|[]]]; auto.
      * intros [<-|Hin]; auto.
Qed.

Lemma matcher_filled i ic r :
  sets i r = true ->
  forall x y, (pred i < List.length (caps x))%nat ->
              In y (matcher ic r x) -> filled i y.
Proof.
  induction r as [|a| |neg items|r1 IH1 r2 IH2|r1 IH1 r2 IH2
                  |r1 IH1 min max greedy|j r1 IH1|a|neg r1 IH1];
    cbn [matcher sets]; intros Hs x y Hb Hin; try discriminate.
  - apply in_flat_map in Hin. destruct Hin as (m & H1 & H2).
    assert (Hbm : (pred i < List.length (caps m))%nat).
    { destruct (matcher_forward _ _ _ _ H1) as (_ & _ & _ & L & _).
      rewrite L. exact Hb. }
    apply orb_prop in Hs. destruct Hs as [Hs|Hs].
    + eapply IH2; eauto.
    + apply andb_prop in Hs. destruct Hs as [Hs1 Hs2].
      destruct (IH1 Hs1 x m Hb H1) as (s & Es).
      exists s. rewrite <- Es. eapply matcher_keeps; eauto.
  - apply andb_prop in Hs. destruct Hs as [Hs1 Hs2].
    apply in_app_or in Hin. destruct Hin as [Hin|Hin]; eauto.
  - assert (Hm : negb (Nat.eqb min 0) = true /\ max <> Some O
                 /\ sets i r1 = true).
    { destruct max as [[|k]|]; try discriminate;
        apply andb_prop in Hs; destruct Hs; repeat split; auto; discriminate. }
    destruct Hm as (Hm1 & Hm2 & Hm3).
    eapply repeatMatcher_filled; [| | |left; split; eassumption|exact Hin].
    + intros x0 y0. apply matcher_forward.
    + intros x0 y0. apply (IH1 Hm3).
    + exact Hb.
  - apply in_map_iff in Hin. destruct Hin as (y0 & <- & H0).
    assert (Hb0 : (pred i < List.length (caps y0))%nat).
    { destruct (matcher_forward _ _ _ _ H0) as (_ & _ & _ & L & _).
      rewrite L. exact Hb. }
    unfold filled. simpl. unfold sameSlot in Hs.
    destruct (Nat.eqb (pred i) (pred j)) eqn:E.
    + apply Nat.eqb_eq in E. rewrite <- E.
      rewrite nth_setNth_same by exact Hb0. eauto.
    + apply Nat.eqb_neq in E. rewrite nth_setNth_other by congruence.
      simpl in Hs. apply (IH1 Hs x y0 Hb H0).
Qed.

(** [simpl] is kept away from the arithmetic and from the patterns. *)
Arguments decimal : simpl never.
Arguments ratio : simpl never.
Arguments add : simpl never.
Arguments sub : simpl never.
Arguments mul : simpl never.
Arguments lt : simpl never.
Arguments gt : simpl never.
Arguments le : simpl never.
Arguments Math_min : simpl never.
Arguments Math_abs : simpl never.
Arguments u : simpl never.
Arguments lit : simpl never.
Arguments matcher : simpl never.
Arguments repeatMatcher : simpl never.
Arguments matchAt : simpl never.
Arguments matchAll : simpl never.
Arguments replaceAll : simpl never.
Arguments split : simpl never.
Arguments trim : simpl never.
Arguments includes : simpl never.
Arguments weightedConfidenceOf : simpl never.
Arguments providerPatterns : simpl never.
Arguments descriptionPatterns : simpl never.
Arguments AMOUNT_PATTERNS : simpl never.
Arguments DATE_PATTERNS : simpl never.

(** ** Matches of a regular expression object *)

Definition startState (re : RegExp) (bef aft : str) : mstate :=
  MState bef aft (repeat None (ngroups re)).

Lemma matchAt_inv re bef aft mt :
  matchAt re bef aft = Some mt ->
  exists y l,
    matcher (ignoreCase re) (ast re) (startState re bef aft) = y :: l
    /\ mt = MkMatch (List.length bef) (consumed (startState re bef aft) y)
                    (caps y) (endIndex y).
Proof.
  unfold matchAt. fold (startState re bef aft).
  destruct (matcher _ _ _) as [|y l]; [discriminate|].
  intros E. injection E as <-. eauto.
Qed.

(** A match at a position covers a prefix of the text after it. *)
Lemma matchAt_span re bef aft mt :
  matchAt re bef aft = Some mt ->
  index mt = List.length bef
  /\ lastIndex mt = (List.length bef + List.length (matched mt))%nat
  /\ aft = matched mt ++ skipn (List.length (matched mt)) aft
  /\ List.length (groups mt) = ngroups re.
Proof.
  intros H. destruct (matchAt_inv _ _ _ H) as (y & l & E & ->).
  assert (Hin : In y (matcher (ignoreCase re) (ast re) (startState re bef aft)))
    by (rewrite E; left; reflexivity).
  pose proof (matcher_forward _ _ _ _ Hin) as Hr.
  pose proof (reach_endIndex Hr) as He.
  destruct Hr as (w & A & B & L & _).
  rewrite (@consumed_app (startState re bef aft) y w A) in *.
  simpl in *. repeat split; auto.
  - rewrite A. rewrite skipn_app, skipn_all, Nat.sub_diag.
    reflexivity.
  - rewrite L. apply repeat_length.
Qed.

Lemma matchAt_group re bef aft mt i :
  matchAt re bef aft = Some mt ->
  sets i (ast re) = true -> (pred i < ngroups re)%nat ->
  exists s, group i mt = Some s.
Proof.
  intros H Hs Hi. destruct (matchAt_inv _ _ _ H) as (y & l & E & ->).
  unfold group. simpl.
  eapply matcher_filled; [exact Hs| |rewrite E; left; reflexivity].
  simpl. rewrite repeat_length. exact Hi.
Qed.

(** [execFrom] reports a match at some later position of the same
    text. *)
Lemma execFrom_inv re aft : forall bef mt bef' aft',
  execFrom re bef aft = Some (mt, bef', aft') ->
  exists skipped,
    aft = skipped ++ matched mt ++ aft'
    /\ bef' = rev (matched mt) ++ rev skipped ++ bef
    /\ matchAt re (rev skipped ++ bef) (matched mt ++ aft') = Some mt.
Proof.
  induction aft as [|c aft IH]; intros bef mt bef' aft'; simpl.
  - destruct (matchAt re bef []) as [m0|] eqn:E; [|discriminate].
    intros H. injection H as <- <- <-.
    destruct (matchAt_span _ _ _ E) as (_ & L & S & _).
    exists []. simpl.
    replace (lastIndex m0 - List.length bef)%nat with (List.length (matched m0))
      by lia.
    destruct (matched m0) as [|a l]; [|discriminate]. simpl. auto.
  - destruct (matchAt re bef (c :: aft)) as [m0|] eqn:E.
    + intros H. injection H as <- <- <-.
      destruct (matchAt_span _ _ _ E) as (_ & L & S & _).
      replace (lastIndex m0 - List.length bef)%nat with (List.length (matched m0))
        by lia.
      exists []. simpl.
      assert (F : firstn (List.length (matched m0)) (c :: aft) = matched m0).
      { rewrite S at 1. rewrite firstn_app, firstn_all, Nat.sub_diag. simpl.
        apply app_nil_r. }
      rewrite F. repeat split; auto. congruence.
    + intros H. destruct (IH _ _ _ _ H) as (sk & A & B & M).
      exists (c :: sk). simpl. rewrite A. repeat split; auto.
      * rewrite B. rewrite <- !app_assoc. reflexivity.
      * rewrite <- app_assoc. simpl. exact M.
Qed.

(** Every element of [matchAll] is a match at some position. *)
Lemma matchAllFrom_In re mt : forall fuel bef aft,
  In mt (matchAllFrom re fuel bef aft) ->
  exists b a, matchAt re b a = Some mt /\ rev b ++ a = rev bef ++ aft.
Proof.
  induction fuel as [|fuel IH]; intros bef aft; simpl; [intros []|].
  destruct (execFrom re bef aft) as [[[m0 bef'] aft']|] eqn:E; [|intros []].
  destruct (execFrom_inv _ _ _ E) as (sk & A & B & M).
  assert (Hhere : exists b a, matchAt re b a = Some m0
                              /\ rev b ++ a = rev bef ++ aft).
  { exists (rev sk ++ bef), (matched m0 ++ aft'). split; [exact M|].
    rewrite A, rev_app_distr, rev_involutive, <- app_assoc. reflexivity. }
  assert (Hsame : rev bef' ++ aft' = rev bef ++ aft).
  { rewrite A, B, !rev_app_distr, !rev_involutive, <- !app_assoc.
    reflexivity. }
  destruct (Nat.eqb (lastIndex m0) (index m0)).
  - destruct aft' as [|c aft''].
    + intros [<-|[]]. exact Hhere.
    + intros [<-|Hin]; [exact Hhere|].
      destruct (IH _ _ Hin) as (b & a & Hm & Hs). exists b, a. split; auto.
      rewrite Hs. simpl. rewrite <- app_assoc. simpl. exact Hsame.
  - intros [<-|Hin]; [exact Hhere|].
    destruct (IH _ _ Hin) as (b & a & Hm & Hs). exists b, a. split; auto.
    congruence.
Qed.

Lemma matchAll_In re s mt :
  In mt (matchAll re s) ->
  exists b a, matchAt re b a = Some mt /\ rev b ++ a = s.
Proof. intros H. apply matchAllFrom_In in H. exact H. Qed.

Lemma matchAll_group re s mt i :
  In mt (matchAll re s) ->
  sets i (ast re) = true -> (pred i < ngroups re)%nat ->
  exists g, group i mt = Some g.
Proof.
  intros H Hs Hi. destruct (matchAll_In _ _ _ H) as (b & a & Hm & _).
  eapply matchAt_group; eauto.
Qed.

(** ** Loops that may throw *)

Lemma foldM_inv {A S} (P : S -> Prop) (f : S -> A -> outcome S) (l : list A) :
  (forall s x, In x l -> P s -> exists s', f s x = Returns s' /\ P s') ->
  forall s, P s -> exists s', foldM f l s = Returns s' /\ P s'.
Proof.
  induction l as [|x l IH]; intros Hf s Hs; simpl.
  - eauto.
  - destruct (Hf s x (or_introl eq_refl) Hs) as (s1 & E1 & P1).
    rewrite E1. simpl. apply IH; auto.
    intros s0 x0 Hin. apply Hf. right. exact Hin.
Qed.

(** ** [extractProvider] returns *)

Definition providerConfidences : list num :=
  map pp_confidence providerPatterns.

(** What the loop of [extractProvider] maintains: the best match so far
    has a provider of three units or more and the confidence of one of the
    five patterns. *)
Definition providerInv (b : option ProviderResult) : Prop :=
  match b with
  | None => True
  | Some p => truthy (pr_provider p) = true
              /\ In (pr_confidence p) providerConfidences
  end.

Lemma providerStep_inv confidence best mt g :
  group 1 mt = Some g ->
  In confidence providerConfidences ->
  providerInv best ->
  exists best', providerStep confidence best mt = Returns best'
                /\ providerInv best'.
Proof.
  intros Hg Hc Hb. unfold providerStep. rewrite Hg. cbn [trimOf bind].
  set (p := trim (replaceAll whitespaceRun (trim g) #" ")).
  destruct (Nat.ltb (List.length p) 3) eqn:E3; cbn [orb]; [eauto|].
  destruct (Nat.ltb 50 (List.length p)); [eauto|].
  destruct (existsb _ providerSkipWords); [eauto|].
  destruct (test aDigit p && Nat.ltb (List.length p) 8); [eauto|].
  destruct (gt confidence _); [|eauto].
  eexists. split; [reflexivity|]. simpl. split; [|exact Hc].
  destruct p; [discriminate E3|reflexivity].
Qed.

Lemma providerPatterns_capture :
  forallb (fun pp => sets 1 (ast (pp_pattern pp))
                     && Nat.ltb 0 (ngroups (pp_pattern pp)))
          providerPatterns = true.
Proof. vm_compute. reflexivity. Qed.

Lemma extractProvider_returns text :
  exists p, extractProvider text = Returns p
            /\ (pr_provider p = None /\ pr_confidence p = decimal 0 0
                \/ truthy (pr_provider p) = true
                   /\ In (pr_confidence p) providerConfidences).
Proof.
  unfold extractProvider.
  destruct (@foldM_inv _ _ providerInv
              (fun best pp =>
                 foldM (providerStep (pp_confidence pp))
                       (matchAll (pp_pattern pp) text) best)
              providerPatterns) with (s := @None ProviderResult)
    as (b & E & Pb).
  - intros s pp Hpp Ps.
    apply foldM_inv; [|exact Ps].
    intros s0 mt Hmt Ps0.
    pose proof providerPatterns_capture as Hcap.
    rewrite forallb_forall in Hcap. specialize (Hcap pp Hpp).
    apply andb_prop in Hcap. destruct Hcap as [Hs Hn].
    apply Nat.ltb_lt in Hn.
    destruct (@matchAll_group _ _ _ 1%nat Hmt Hs) as (g & Hg); [simpl; lia|].
    eapply providerStep_inv; eauto.
    unfold providerConfidences. apply in_map. exact Hpp.
  - exact I.
  - rewrite E. cbn [bind]. eexists. split; [reflexivity|].
    destruct b as [p|]; simpl in Pb; auto.
Qed.

(** ** The sort: neighbours of the result are in order

    The comparison function need not be an order.  Whatever it is, the
    sort places two elements next to each other only after a comparison
    of the two, and in the order that this comparison gave: of two
    neighbours [x], [y] of the result, either [x] was found to come
    before [y], or [y] was not found to come before [x]. *)

Unset Implicit Arguments.

Section Chains.

Variable A : Type.

(** Lists whose neighbours are related by [R]. *)
Variable R : A -> A -> Prop.

Fixpoint chain (l : list A) : Prop :=
  match l with
  | [] => True
  | x :: rest =>
      match rest with
      | [] => True
      | y :: _ => R x y /\ chain rest
      end
  end.

Definition link (o1 o2 : option A) : Prop :=
  match o1, o2 with
  | Some x, Some y => R x y
  | _, _ => True
  end.

Fixpoint lastOf (l : list A) : option A :=
  match l with
  | [] => None
  | x :: rest =>
      match rest with
      | [] => Some x
      | _ :: _ => lastOf rest
      end
  end.

Lemma chain_cons x l : chain (x :: l) <-> link (Some x) (hd_error l) /\ chain l.
Proof. destruct l as [|y l]; simpl; tauto. Qed.

Lemma lastOf_app l1 l2 :
  lastOf (l1 ++ l2) = match l2 with [] => lastOf l1 | _ :: _ => lastOf l2 end.
Proof.
  induction l1 as [|x l1 IH].
  - destruct l2; reflexivity.
  - cbn [app]. destruct l1 as [|x' l1].
    + destruct l2; reflexivity.
    + change (lastOf (x :: (x' :: l1) ++ l2)) with (lastOf ((x' :: l1) ++ l2)).
      rewrite IH. destruct l2; reflexivity.
Qed.

Lemma lastOf_cons x l :
  lastOf (x :: l) = match l with [] => Some x | _ :: _ => lastOf l end.
Proof. destruct l; reflexivity. Qed.

Lemma lastOf_snoc l x : lastOf (l ++ [x]) = Some x.
Proof. rewrite lastOf_app. reflexivity. Qed.

Lemma lastOf_rev l : lastOf (rev l) = hd_error l.
Proof. destruct l as [|x l]; [reflexivity|]. cbn [rev]. apply lastOf_snoc. Qed.

Lemma hd_error_rev l : hd_error (rev l) = lastOf l.
Proof. rewrite <- (rev_involutive l) at 2. rewrite lastOf_rev. reflexivity. Qed.

Lemma lastOf_last l d : l <> [] -> lastOf l = Some (last l d).
Proof.
  induction l as [|x l IH]; [congruence|]. intros _.
  destruct l as [|y l]; [reflexivity|].
  change (lastOf (y :: l) = Some (last (y :: l) d)). apply IH. discriminate.
Qed.

Lemma hd_error_app (l1 l2 : list A) :
  hd_error (l1 ++ l2) = match l1 with [] => hd_error l2 | x :: _ => Some x end.
Proof. destruct l1; reflexivity. Qed.

Lemma chain_app l1 l2 :
  chain (l1 ++ l2)
  <-> chain l1 /\ chain l2 /\ link (lastOf l1) (hd_error l2).
Proof.
  induction l1 as [|x l1 IH].
  - simpl. tauto.
  - cbn [app]. rewrite !chain_cons, IH, hd_error_app, lastOf_cons.
    destruct l1 as [|y l1]; simpl.
    + destruct l2; simpl; tauto.
    + tauto.
Qed.

Lemma chain_firstn n l : chain l -> chain (firstn n l).
Proof.
  intros H. rewrite <- (firstn_skipn n l) in H.
  apply chain_app in H. tauto.
Qed.

Lemma chain_skipn n l : chain l -> chain (skipn n l).
Proof.
  intros H. rewrite <- (firstn_skipn n l) in H.
  apply chain_app in H. tauto.
Qed.

Lemma chain_split n l :
  chain l -> link (lastOf (firstn n l)) (hd_error (skipn n l)).
Proof.
  intros H. rewrite <- (firstn_skipn n l) in H.
  apply chain_app in H. tauto.
Qed.

(** The element at an index, as the end of the part before it or as the
    start of the part after it. *)
Lemma lastOf_firstn n l d :
  (n < List.length l)%nat -> lastOf (firstn (S n) l) = Some (nth n l d).
Proof.
  revert l. induction n as [|n IH]; intros [|x l] H; simpl in H; try lia.
  - reflexivity.
  - change (firstn (S (S n)) (x :: l)) with (x :: firstn (S n) l).
    rewrite lastOf_cons. destruct l as [|y l]; [simpl in H; lia|].
    change (firstn (S n) (y :: l)) with (y :: firstn n l).
    change (y :: firstn n l) with (firstn (S n) (y :: l)).
    change (nth (S n) (x :: y :: l) d) with (nth n (y :: l) d).
    apply IH. simpl in *. lia.
Qed.

Lemma hd_error_skipn n (l : list A) d :
  (n < List.length l)%nat -> hd_error (skipn n l) = Some (nth n l d).
Proof.
  revert l. induction n as [|n IH]; intros [|x l] H; simpl in H; try lia.
  - reflexivity.
  - simpl. apply IH. lia.
Qed.

End Chains.

Arguments chain {A} R l.
Arguments link {A} R o1 o2.
Arguments lastOf {A} l.

Lemma chain_rev (A : Type) (R : A -> A -> Prop) (l : list A) :
  chain R (rev l) <-> chain (fun x y => R y x) l.
Proof.
  induction l as [|x l IH]; [simpl; tauto|].
  cbn [rev]. rewrite chain_app, IH, lastOf_rev.
  rewrite (chain_cons A (fun x y => R y x) x l).
  unfold link. cbn [chain hd_error]. destruct (hd_error l); tauto.
Qed.

Lemma chain_impl (A : Type) (R R' : A -> A -> Prop) (l : list A) :
  (forall x y, In x l -> In y l -> R x y -> R' x y) ->
  chain R l -> chain R' l.
Proof.
  induction l as [|x l IH]; intros H; [simpl; tauto|].
  destruct l as [|y l]; [simpl; tauto|].
  intros [Hxy Hc]. split.
  - apply H; simpl; auto.
  - apply IH; [|exact Hc]. intros; apply H; simpl; auto; simpl in *; tauto.
Qed.

(** ** The searches *)

Lemma bisect_spec (goesRight : nat -> bool) (fuel : nat) :
  forall left right : nat,
    (left <= right)%nat -> (right - left <= fuel)%nat ->
    let k := bisect fuel goesRight left right in
    (left <= k <= right)%nat
    /\ (k = left \/ goesRight (k - 1)%nat = true)
    /\ (k = right \/ goesRight k = false).
Proof.
  induction fuel as [|fuel IH]; intros left right Hle Hfuel; cbn [bisect].
  - cbv zeta. repeat split; lia.
  - destruct (Nat.ltb left right) eqn:Hlt.
    + apply Nat.ltb_lt in Hlt.
      set (mid := (left + (right - left) / 2)%nat).
      assert (Hmid : (left <= mid < right)%nat).
      { unfold mid.
        assert ((right - left) / 2 < right - left)%nat
          by (apply Nat.div_lt; lia).
        lia. }
      cbv zeta. fold mid. destruct (goesRight mid) eqn:Hg.
      * destruct (IH (mid + 1)%nat right) as (B & L & Rt); [lia|lia|].
        cbv zeta in B, L, Rt.
        split; [lia|]. split; [|exact Rt].
        right. destruct L as [L|L]; [|exact L].
        rewrite L. replace (mid + 1 - 1)%nat with mid by lia. exact Hg.
      * destruct (IH left mid) as (B & L & Rt); [lia|lia|].
        cbv zeta in B, L, Rt.
        split; [lia|]. split; [exact L|].
        right. destruct Rt as [Rt|Rt]; [|exact Rt].
        rewrite Rt. exact Hg.
    + apply Nat.ltb_ge in Hlt. cbv zeta.
      repeat split; lia.
Qed.

Lemma gallopFrom_spec (continues : nat -> bool) (maxOfs : nat) (fuel : nat) :
  forall lastOfs offset : nat,
    (lastOfs < offset)%nat -> (lastOfs < maxOfs)%nat ->
    (maxOfs <= fuel + offset)%nat ->
    (lastOfs = 0%nat \/ continues lastOfs = true) ->
    (lastOfs = 0%nat \/ 0 < lastOfs)%nat ->
    forall lastOfs' offset',
      gallopFrom fuel continues maxOfs lastOfs offset = (lastOfs', offset') ->
      (lastOfs' < offset' <= maxOfs)%nat
      /\ (lastOfs' = 0%nat \/ continues lastOfs' = true)
      /\ (offset' = maxOfs \/ continues offset' = false).
Proof.
  induction fuel as [|fuel IH]; intros lastOfs offset H1 H2 H3 H4 _ l' o' E;
    cbn [gallopFrom] in E.
  - injection E as <- <-. split; [lia|]. split; [exact H4|left; lia].
  - destruct (Nat.ltb offset maxOfs) eqn:Hlt; cbn [andb] in E.
    + apply Nat.ltb_lt in Hlt. destruct (continues offset) eqn:Hc.
      * apply (IH offset (2 * offset + 1)%nat); try lia; auto.
      * injection E as <- <-. split; [lia|]. split; [exact H4|].
        right. replace (Nat.min offset maxOfs) with offset by lia. exact Hc.
    + apply Nat.ltb_ge in Hlt. injection E as <- <-.
      split; [lia|]. split; [exact H4|left; lia].
Qed.

Lemma gallop_spec (goesRight : nat -> bool) (length hint : nat) :
  (hint < length)%nat ->
  let k := gallop goesRight length hint in
  (k <= length)%nat
  /\ (k = 0%nat \/ goesRight (k - 1)%nat = true)
  /\ (k = length \/ goesRight k = false).
Proof.
  intros Hh. unfold gallop. destruct (goesRight hint) eqn:Hg.
  - destruct (gallopFrom (length - hint)
                (fun ofs => goesRight (hint + ofs)%nat) (length - hint) 0 1)
      as (l', o') eqn:E.
    destruct (gallopFrom_spec (fun ofs => goesRight (hint + ofs)%nat)
                (length - hint) (length - hint) 0%nat 1%nat) with (6 := E)
      as (B & L & Rt); [lia|lia|lia|left; reflexivity|left; reflexivity|].
    cbv beta in L, Rt.
    assert (L' : goesRight (hint + l')%nat = true).
    { destruct L as [->|L]; [|exact L].
      replace (hint + 0)%nat with hint by lia. exact Hg. }
    destruct (bisect_spec goesRight length (l' + hint + 1)%nat (o' + hint)%nat)
      as (B2 & L2 & R2); [lia|lia|].
    cbv zeta in *.
    set (k := bisect length goesRight (l' + hint + 1)%nat (o' + hint)%nat) in *.
    split; [lia|]. split.
    + right. destruct L2 as [L2|L2]; [|exact L2].
      rewrite L2. replace (l' + hint + 1 - 1)%nat with (hint + l')%nat by lia.
      exact L'.
    + destruct R2 as [R2|R2]; [|right; exact R2].
      destruct Rt as [Rt|Rt]; [left; lia|].
      right. rewrite R2. replace (o' + hint)%nat with (hint + o')%nat by lia.
      exact Rt.
  - destruct (gallopFrom (hint + 1)
                (fun ofs => negb (goesRight (hint - ofs)%nat)) (hint + 1) 0 1)
      as (l', o') eqn:E.
    destruct (gallopFrom_spec (fun ofs => negb (goesRight (hint - ofs)%nat))
                (hint + 1) (hint + 1) 0%nat 1%nat) with (6 := E)
      as (B & L & Rt); [lia|lia|lia|left; reflexivity|left; reflexivity|].
    cbv beta in L, Rt.
    assert (L' : goesRight (hint - l')%nat = false).
    { destruct L as [->|L]; [|apply negb_true_iff; exact L].
      replace (hint - 0)%nat with hint by lia. exact Hg. }
    destruct (bisect_spec goesRight length (hint + 1 - o')%nat (hint - l')%nat)
      as (B2 & L2 & R2); [lia|lia|].
    cbv zeta in *.
    set (k := bisect length goesRight (hint + 1 - o')%nat (hint - l')%nat) in *.
    split; [lia|]. split.
    + destruct L2 as [L2|L2]; [|right; exact L2].
      destruct Rt as [Rt|Rt]; [left; lia|].
      right. rewrite L2.
      replace (hint + 1 - o' - 1)%nat with (hint - o')%nat by lia.
      apply negb_false_iff. exact Rt.
    + right. destruct R2 as [R2|R2]; [|exact R2]. rewrite R2. exact L'.
Qed.

Section SortOrder.

Variable A : Type.
Variable cmp : A -> A -> num.

(** Two neighbours are in order when a comparison of the two says so:
    the first was found to come before the second, or the second was
    not found to come before the first. *)
Definition inOrder (x y : A) : Prop :=
  precedes cmp x y = true \/ precedes cmp y x = false.

Definition inOrderBack (x y : A) : Prop := inOrder y x.

Lemma gallop_split (goesRight : nat -> bool) (key : A) (a : list A)
    (hint : nat) :
  (forall i, (i < List.length a)%nat ->
             goesRight i = true -> inOrder (nth i a key) key) ->
  (forall i, (i < List.length a)%nat ->
             goesRight i = false -> inOrder key (nth i a key)) ->
  (hint < List.length a)%nat ->
  let k := gallop goesRight (List.length a) hint in
  (k <= List.length a)%nat
  /\ link inOrder (lastOf (firstn k a)) (Some key)
  /\ link inOrder (Some key) (hd_error (skipn k a)).
Proof.
  intros Hr Hl Hh. destruct (gallop_spec goesRight _ _ Hh) as (B & L & Rt).
  cbv zeta in *. set (k := gallop goesRight (List.length a) hint) in *.
  split; [exact B|]. split.
  - destruct k as [|k']; [simpl; exact I|].
    rewrite (lastOf_firstn A k' a key) by lia.
    destruct L as [L|L]; [discriminate L|].
    replace (S k' - 1)%nat with k' in L by lia.
    apply Hr; [lia|exact L].
  - destruct Rt as [Rt|Rt].
    + rewrite Rt, skipn_all. simpl. exact I.
    + destruct (Nat.eq_dec k (List.length a)) as [E|E].
      * rewrite E, skipn_all. simpl. exact I.
      * rewrite (hd_error_skipn A k a key) by lia.
        apply Hl; [lia|exact Rt].
Qed.

Lemma gallopRight_split (key : A) (a : list A) (hint : nat) :
  (hint < List.length a)%nat ->
  let k := gallopRight cmp key a hint in
  (k <= List.length a)%nat
  /\ link inOrder (lastOf (firstn k a)) (Some key)
  /\ link inOrder (Some key) (hd_error (skipn k a)).
Proof.
  intros Hh. unfold gallopRight. apply gallop_split; [| |exact Hh].
  - intros i _ H. apply negb_true_iff in H. right. exact H.
  - intros i _ H. apply negb_false_iff in H. left. exact H.
Qed.

Lemma gallopLeft_split (key : A) (a : list A) (hint : nat) :
  (hint < List.length a)%nat ->
  let k := gallopLeft cmp key a hint in
  (k <= List.length a)%nat
  /\ link inOrder (lastOf (firstn k a)) (Some key)
  /\ link inOrder (Some key) (hd_error (skipn k a)).
Proof.
  intros Hh. unfold gallopLeft. apply gallop_split; [| |exact Hh].
  - intros i _ H. left. exact H.
  - intros i _ H. right. exact H.
Qed.

(** The same from the end of a run, on the run with its last element
    first: [n] elements leave the run. *)
Lemma split_back (k : nat) (ra : list A) (key : A) :
  (k <= List.length ra)%nat ->
  link inOrder (lastOf (firstn k (rev ra))) (Some key) ->
  link inOrder (Some key) (hd_error (skipn k (rev ra))) ->
  let n := (List.length ra - k)%nat in
  (n <= List.length ra)%nat
  /\ link inOrderBack (lastOf (firstn n ra)) (Some key)
  /\ link inOrderBack (Some key) (hd_error (skipn n ra)).
Proof.
  intros Hk H1 H2 n. split; [unfold n; lia|].
  assert (E1 : firstn n ra = rev (skipn k (rev ra))).
  { rewrite <- (rev_involutive ra) at 1. rewrite firstn_rev.
    rewrite length_rev. unfold n.
    replace (List.length ra - (List.length ra - k))%nat with k by lia.
    reflexivity. }
  assert (E2 : skipn n ra = rev (firstn k (rev ra))).
  { rewrite <- (rev_involutive ra) at 1. rewrite skipn_rev.
    rewrite length_rev. unfold n.
    replace (List.length ra - (List.length ra - k))%nat with k by lia.
    reflexivity. }
  rewrite E1, E2, lastOf_rev, hd_error_rev. split.
  - destruct (hd_error (skipn k (rev ra))); simpl in *; [exact H2|exact I].
  - destruct (lastOf (firstn k (rev ra))); simpl in *; [exact H1|exact I].
Qed.

Lemma gallopRight_back (key : A) (ra : list A) :
  ra <> [] ->
  let n := (List.length ra
            - gallopRight cmp key (rev ra) (List.length ra - 1))%nat in
  (n <= List.length ra)%nat
  /\ link inOrderBack (lastOf (firstn n ra)) (Some key)
  /\ link inOrderBack (Some key) (hd_error (skipn n ra)).
Proof.
  intros Hne.
  assert (Hl : (0 < List.length ra)%nat)
    by (destruct ra; [congruence|simpl; lia]).
  destruct (gallopRight_split key (rev ra) (List.length ra - 1))
    as (B & H1 & H2); [rewrite length_rev; lia|].
  rewrite length_rev in B. apply split_back; assumption.
Qed.

Lemma gallopLeft_back (key : A) (ra : list A) :
  ra <> [] ->
  let n := (List.length ra
            - gallopLeft cmp key (rev ra) (List.length ra - 1))%nat in
  (n <= List.length ra)%nat
  /\ link inOrderBack (lastOf (firstn n ra)) (Some key)
  /\ link inOrderBack (Some key) (hd_error (skipn n ra)).
Proof.
  intros Hne.
  assert (Hl : (0 < List.length ra)%nat)
    by (destruct ra; [congruence|simpl; lia]).
  destruct (gallopLeft_split key (rev ra) (List.length ra - 1))
    as (B & H1 & H2); [rewrite length_rev; lia|].
  rewrite length_rev in B. apply split_back; assumption.
Qed.

Definition sameElements (l1 l2 : list A) : Prop :=
  forall z, In z l1 <-> In z l2.

Lemma precedes_inOrder (x y : A) : precedes cmp x y = true -> inOrder x y.
Proof. intros H. left. exact H. Qed.

Lemma not_precedes_inOrder (x y : A) :
  precedes cmp y x = false -> inOrder x y.
Proof. intros H. right. exact H. Qed.

(** *** Runs *)

Lemma runTail_spec (isDescending : bool) :
  forall (l : list A) (previous : A) (run rest : list A),
    runTail cmp isDescending previous l = (run, rest) ->
    l = run ++ rest
    /\ chain (if isDescending then inOrderBack else inOrder)
         (previous :: run).
Proof.
  induction l as [|current l IH]; intros previous run rest E;
    cbn [runTail] in E.
  - injection E as <- <-. split; [reflexivity|exact I].
  - destruct (Bool.eqb (precedes cmp current previous) isDescending) eqn:Ec.
    + destruct (runTail cmp isDescending current l) as (run', rest') eqn:Et.
      injection E as <- <-.
      destruct (IH current run' rest' Et) as (El & Hc).
      split; [rewrite El; reflexivity|].
      apply chain_cons. split; [|exact Hc].
      apply eqb_prop in Ec. cbn [hd_error link].
      destruct isDescending.
      * left. exact Ec.
      * right. exact Ec.
    + injection E as <- <-. split; [reflexivity|exact I].
Qed.

Lemma countAndMakeRun_spec (l run rest : list A) :
  countAndMakeRun cmp l = (run, rest) ->
  chain inOrder run
  /\ sameElements l (run ++ rest)
  /\ (List.length run + List.length rest = List.length l)%nat
  /\ (l <> [] -> run <> []).
Proof.
  unfold countAndMakeRun.
  destruct l as [|elementHigh [|elementLow l]].
  - intros E. injection E as <- <-.
    repeat split; simpl; auto.
  - intros E. injection E as <- <-.
    repeat split; simpl; auto; intros; try tauto; discriminate.
  - destruct (runTail cmp (precedes cmp elementLow elementHigh) elementLow l)
      as (run', rest') eqn:Et.
    destruct (runTail_spec _ _ _ _ _ Et) as (El & Hc).
    intros E. injection E as <- <-.
    assert (Hc' : chain (if precedes cmp elementLow elementHigh
                         then inOrderBack else inOrder)
                    (elementHigh :: elementLow :: run')).
    { apply chain_cons. split; [|exact Hc]. cbn [hd_error link].
      destruct (precedes cmp elementLow elementHigh) eqn:Ed.
      - left. exact Ed.
      - right. exact Ed. }
    destruct (precedes cmp elementLow elementHigh).
    + split;
        [apply (proj2 (chain_rev A inOrder (elementHigh :: elementLow :: run')));
         exact Hc'|].
      split; [|split].
      * intros z. rewrite El, !in_app_iff. rewrite <- in_rev. simpl.
        rewrite in_app_iff. tauto.
      * rewrite El. simpl. rewrite ?length_app, ?length_rev. simpl.
        rewrite ?length_app. lia.
      * intros _ H. apply (f_equal (@List.length A)) in H.
        simpl in H. rewrite ?length_app in H. simpl in H. lia.
    + split; [exact Hc'|]. split; [|split].
      * intros z. rewrite El. simpl. rewrite !in_app_iff. tauto.
      * rewrite El. simpl. rewrite length_app. lia.
      * discriminate.
Qed.

(** *** Binary insertion *)

Lemma index_split (goesRight : nat -> bool) (key : A) (a : list A) (k : nat) :
  (forall i, goesRight i = true -> inOrder (nth i a key) key) ->
  (forall i, goesRight i = false -> inOrder key (nth i a key)) ->
  (k <= List.length a)%nat ->
  (k = 0%nat \/ goesRight (k - 1)%nat = true) ->
  (k = List.length a \/ goesRight k = false) ->
  link inOrder (lastOf (firstn k a)) (Some key)
  /\ link inOrder (Some key) (hd_error (skipn k a)).
Proof.
  intros Hr Hl B L Rt. split.
  - destruct k as [|k']; [simpl; exact I|].
    rewrite (lastOf_firstn A k' a key) by lia.
    destruct L as [L|L]; [discriminate L|].
    replace (S k' - 1)%nat with k' in L by lia.
    apply Hr; exact L.
  - destruct (Nat.eq_dec k (List.length a)) as [E|E].
    + rewrite E, skipn_all. simpl. exact I.
    + destruct Rt as [Rt|Rt]; [contradiction|].
      rewrite (hd_error_skipn A k a key) by lia.
      apply Hl; exact Rt.
Qed.

Lemma binaryInsert_spec (sorted : list A) (pivot : A) :
  chain inOrder sorted ->
  chain inOrder (binaryInsert cmp sorted pivot)
  /\ sameElements (binaryInsert cmp sorted pivot) (pivot :: sorted)
  /\ List.length (binaryInsert cmp sorted pivot) = S (List.length sorted).
Proof.
  intros Hc. unfold binaryInsert.
  set (g := fun mid => negb (precedes cmp pivot (nth mid sorted pivot))).
  destruct (bisect_spec g (List.length sorted) 0 (List.length sorted))
    as (B & L & Rt); [lia|lia|].
  cbv zeta in *. set (k := bisect (List.length sorted) g 0 (List.length sorted)) in *.
  destruct (index_split g pivot sorted k) as (H1 & H2); try lia; auto.
  { intros i H. apply negb_true_iff in H. right. exact H. }
  { intros i H. apply negb_false_iff in H. left. exact H. }
  split; [|split].
  - apply chain_app. split; [apply chain_firstn; exact Hc|].
    split; [|exact H1].
    apply chain_cons. split; [exact H2|apply chain_skipn; exact Hc].
  - intros z. rewrite in_app_iff. simpl.
    assert (E : In z sorted
                <-> In z (firstn k sorted) \/ In z (skipn k sorted)).
    { rewrite <- in_app_iff, firstn_skipn. tauto. }
    tauto.
  - rewrite length_app. simpl. rewrite length_firstn, length_skipn. lia.
Qed.

Lemma binaryInsertionSort_spec (rest : list A) :
  forall sorted : list A,
    chain inOrder sorted ->
    chain inOrder (binaryInsertionSort cmp sorted rest)
    /\ sameElements (binaryInsertionSort cmp sorted rest) (sorted ++ rest)
    /\ List.length (binaryInsertionSort cmp sorted rest)
       = (List.length sorted + List.length rest)%nat.
Proof.
  unfold binaryInsertionSort.
  induction rest as [|x rest IH]; intros sorted Hc; cbn [fold_left].
  - rewrite app_nil_r. repeat split; auto; simpl; lia.
  - destruct (binaryInsert_spec sorted x Hc) as (C1 & S1 & L1).
    destruct (IH _ C1) as (C2 & S2 & L2).
    split; [exact C2|]. split.
    + intros z. rewrite (S2 z), !in_app_iff, (S1 z). simpl. tauto.
    + rewrite L2, L1. simpl. lia.
Qed.

(** *** Merging

    [merged R a b l]: [l] holds the elements of the runs [a] and [b],
    its neighbours are related by [R], and it starts and ends with an
    element that starts or ends one of the runs. *)

Section Merged.

Variable R : A -> A -> Prop.

Definition merged (a b l : list A) : Prop :=
  chain R l
  /\ sameElements l (a ++ b)
  /\ (hd_error l = hd_error a \/ hd_error l = hd_error b)
  /\ (lastOf l = lastOf a \/ lastOf l = lastOf b).

Lemma lastOf_None (l : list A) : lastOf l = None -> l = [].
Proof.
  induction l as [|x l IH]; [reflexivity|].
  rewrite lastOf_cons. destruct l; [discriminate|].
  intros H. apply IH in H. discriminate H.
Qed.

Lemma lastOf_app_right (l1 l2 : list A) :
  l2 <> [] -> lastOf (l1 ++ l2) = lastOf l2.
Proof. intros H. rewrite lastOf_app. destruct l2; [congruence|reflexivity]. Qed.

Lemma link_last_app (l1 l2 : list A) (o : option A) :
  link R (lastOf (l1 ++ l2)) o -> link R (lastOf l2) o.
Proof.
  destruct l2 as [|x l2]; [intros _; exact I|].
  rewrite lastOf_app. auto.
Qed.

Lemma link_app_last (l1 l2 : list A) (o : option A) :
  link R (lastOf l1) o -> link R (lastOf l2) o ->
  link R (lastOf (l1 ++ l2)) o.
Proof. intros H1 H2. rewrite lastOf_app. destruct l2; assumption. Qed.

Lemma link_hd_app (l1 l2 : list A) (o : option A) :
  link R o (hd_error l1) -> link R o (hd_error l2) ->
  link R o (hd_error (l1 ++ l2)).
Proof. intros H1 H2. rewrite hd_error_app. destruct l1; assumption. Qed.

Lemma sameElements_nil (a b : list A) : sameElements [] (a ++ b) -> a = [] /\ b = [].
Proof.
  intros H. destruct a as [|x a].
  - destruct b as [|y b]; [auto|]. destruct (proj2 (H y)). left. reflexivity.
  - destruct (proj2 (H x)). left. reflexivity.
Qed.

(** The runs one after the other. *)
Lemma merged_ab (a b : list A) :
  chain R a -> chain R b -> link R (lastOf a) (hd_error b) ->
  merged a b (a ++ b).
Proof.
  intros Ca Cb L. split; [|split; [|split]].
  - apply chain_app. auto.
  - intros z. tauto.
  - rewrite hd_error_app. destruct a; [right|left]; reflexivity.
  - rewrite lastOf_app. destruct b; [left|right]; reflexivity.
Qed.

Lemma merged_ba (a b : list A) :
  chain R a -> chain R b -> link R (lastOf b) (hd_error a) ->
  merged a b (b ++ a).
Proof.
  intros Ca Cb L. split; [|split; [|split]].
  - apply chain_app. auto.
  - intros z. rewrite !in_app_iff. tauto.
  - rewrite hd_error_app. destruct b; [left|right]; reflexivity.
  - rewrite lastOf_app. destruct a; [right|left]; reflexivity.
Qed.

(** Elements of the first run move in front of a merge of the rest. *)
Lemma merged_app_a (pre a b l : list A) :
  merged a b l -> chain R (pre ++ a) ->
  link R (lastOf pre) (hd_error b) ->
  merged (pre ++ a) b (pre ++ l).
Proof.
  intros (Cl & Sl & Hl & Ll) Ca Lb.
  apply chain_app in Ca. destruct Ca as (Cp & Ca & Lpa).
  split; [|split; [|split]].
  - apply chain_app. split; [exact Cp|]. split; [exact Cl|].
    destruct Hl as [-> | ->]; assumption.
  - intros z. specialize (Sl z). rewrite !in_app_iff in *. tauto.
  - rewrite !hd_error_app. destruct pre; [exact Hl|left; reflexivity].
  - destruct l as [|x l].
    + destruct (sameElements_nil a b Sl) as (-> & ->).
      left. reflexivity.
    + rewrite (lastOf_app_right pre (x :: l)) by discriminate.
      destruct Ll as [Ll|Ll]; [left|right; exact Ll].
      rewrite Ll. symmetry. apply lastOf_app_right.
      intros ->. rewrite lastOf_cons in Ll.
      destruct l; [discriminate Ll|].
      apply lastOf_None in Ll. discriminate Ll.
Qed.

(** Elements of the second run move in front of a merge of the rest. *)
Lemma merged_app_b (pre a b l : list A) :
  merged a b l -> chain R (pre ++ b) ->
  link R (lastOf pre) (hd_error a) ->
  merged a (pre ++ b) (pre ++ l).
Proof.
  intros (Cl & Sl & Hl & Ll) Cb La.
  apply chain_app in Cb. destruct Cb as (Cp & Cb & Lpb).
  split; [|split; [|split]].
  - apply chain_app. split; [exact Cp|]. split; [exact Cl|].
    destruct Hl as [-> | ->]; assumption.
  - intros z. specialize (Sl z). rewrite !in_app_iff in *. tauto.
  - rewrite !hd_error_app. destruct pre; [|right; reflexivity].
    destruct Hl; auto.
  - destruct l as [|x l].
    + destruct (sameElements_nil a b Sl) as (-> & ->).
      right. reflexivity.
    + rewrite (lastOf_app_right pre (x :: l)) by discriminate.
      destruct Ll as [Ll|Ll]; [left; exact Ll|right].
      rewrite Ll. symmetry. apply lastOf_app_right.
      intros ->. rewrite lastOf_cons in Ll.
      destruct l; [discriminate Ll|].
      apply lastOf_None in Ll. discriminate Ll.
Qed.

Lemma merged_cons_a (x : A) (a b l : list A) :
  merged a b l -> chain R (x :: a) -> link R (Some x) (hd_error b) ->
  merged (x :: a) b (x :: l).
Proof. intros H C L. exact (merged_app_a [x] a b l H C L). Qed.

Lemma merged_cons_b (y : A) (a b l : list A) :
  merged a b l -> chain R (y :: b) -> link R (Some y) (hd_error a) ->
  merged a (y :: b) (y :: l).
Proof. intros H C L. exact (merged_app_b [y] a b l H C L). Qed.

Lemma link_last_cons (y : A) (l : list A) (o : option A) :
  link R (Some y) o -> link R (lastOf l) o -> link R (lastOf (y :: l)) o.
Proof. intros H1 H2. rewrite lastOf_cons. destruct l; assumption. Qed.

End Merged.

Lemma fst_let (B C : Type) (p : B * C) (f : B -> B) :
  fst (let (l, s) := p in (f l, s)) = f (fst p).
Proof. destruct p; reflexivity. Qed.

Lemma split_at (k : nat) (a : list A) :
  exists pre post,
    a = pre ++ post /\ firstn k a = pre /\ skipn k a = post
    /\ List.length post = (List.length a - k)%nat.
Proof.
  exists (firstn k a), (skipn k a). rewrite firstn_skipn, length_skipn. auto.
Qed.

Ltac boolsToNat :=
  repeat match goal with
         | H : (_ && _) = true |- _ => apply andb_prop in H; destruct H
         | H : (_ && _) = false |- _ =>
             apply andb_false_iff in H; destruct H
         | H : Nat.ltb _ _ = true |- _ => apply Nat.ltb_lt in H
         | H : Nat.ltb _ _ = false |- _ => apply Nat.ltb_ge in H
         | H : Nat.eqb _ _ = true |- _ => apply Nat.eqb_eq in H
         | H : Nat.eqb _ _ = false |- _ => apply Nat.eqb_neq in H
         | H : Nat.leb _ _ = true |- _ => apply Nat.leb_le in H
         | H : Nat.leb _ _ = false |- _ => apply Nat.leb_gt in H
         end.

Lemma length_one (l : list A) : List.length l = 1%nat -> exists z, l = [z].
Proof.
  destruct l as [|z [|z' l]]; simpl; intros H; try discriminate H.
  exists z. reflexivity.
Qed.

Lemma length_zero (l : list A) : List.length l = 0%nat -> l = [].
Proof. destruct l; simpl; intros H; [reflexivity|discriminate H]. Qed.

Lemma link_to_last (R : A -> A -> Prop) (l1 l2 : list A) (o : option A) :
  l2 <> [] -> link R o (lastOf (l1 ++ l2)) -> link R o (lastOf l2).
Proof. intros H. rewrite (lastOf_app_right l1 l2 H). auto. Qed.

Lemma length_positive_nonempty (l : list A) : (1 <= List.length l)%nat -> l <> [].
Proof. destruct l; simpl; [lia|discriminate]. Qed.

(** [MergeLow] *)
Lemma mergeLowFrom_spec (fuel : nat) :
  forall (mode : mergeMode) (minGallop stored : nat) (a b : list A),
    (List.length a + List.length b <= fuel)%nat ->
    (2 <= List.length a)%nat -> (1 <= List.length b)%nat ->
    chain inOrder a -> chain inOrder b ->
    link inOrder (lastOf b) (lastOf a) ->
    merged inOrder a b
      (fst (mergeLowFrom cmp fuel mode minGallop stored a b)).
Proof.
  induction fuel as [|fuel IH]; intros mode mg st a b Hf La Lb Ca Cb Lt;
    [lia|].
  destruct a as [|x a']; [simpl in La; lia|].
  destruct b as [|y b']; [simpl in Lb; lia|].
  destruct mode as [nA nB|]; cbn [mergeLowFrom].
  - (* one element at a time *)
    destruct (precedes cmp y x) eqn:Ep.
    + destruct (Nat.eqb (List.length b') 0) eqn:Eb.
      * apply Nat.eqb_eq, length_zero in Eb. subst b'. cbn [fst].
        apply (merged_ba inOrder (x :: a') [y]); [exact Ca|exact I|].
        left. exact Ep.
      * apply Nat.eqb_neq in Eb. rewrite fst_let.
        apply merged_cons_b; [|exact Cb|left; exact Ep].
        assert (Cb' : chain inOrder b') by (apply chain_cons in Cb; tauto).
        assert (Lt' : link inOrder (lastOf b') (lastOf (x :: a')))
          by exact (link_last_app inOrder [y] b' _ Lt).
        destruct (Nat.leb mg (S nB)); apply IH; simpl in *; auto; lia.
    + destruct (Nat.eqb (List.length a') 1) eqn:Ea.
      * apply Nat.eqb_eq, length_one in Ea. destruct Ea as (z & ->).
        cbn [fst].
        apply merged_cons_a; [|exact Ca|right; exact Ep].
        apply merged_ba; [exact I|exact Cb|exact Lt].
      * apply Nat.eqb_neq in Ea. rewrite fst_let.
        apply merged_cons_a; [|exact Ca|right; exact Ep].
        assert (Ca' : chain inOrder a') by (apply chain_cons in Ca; tauto).
        assert (Hne : a' <> []) by (apply length_positive_nonempty; simpl in La; lia).
        assert (Lt' : link inOrder (lastOf (y :: b')) (lastOf a'))
          by exact (link_to_last inOrder [x] a' _ Hne Lt).
        destruct (Nat.leb mg (S nA)); apply IH; simpl in *; auto; lia.
  - (* galloping *)
    cbv zeta.
    set (a := x :: a') in *. set (b := y :: b') in *.
    set (k := gallopRight cmp y a 0).
    destruct (gallopRight_split y a 0) as (Bk & G1 & G2);
      [unfold a; simpl; lia|].
    fold k in Bk, G1, G2.
    destruct (split_at k a) as (pre & post & Ea & E1 & E2 & Lp).
    rewrite E1, E2 in *. clear E1 E2.
    assert (Lb' : List.length b = S (List.length b')) by reflexivity.
    assert (Cb' : chain inOrder b') by (apply chain_cons in Cb; tauto).
    clearbody a k. subst a.
    destruct (Nat.ltb 0 k && Nat.eqb (List.length post) 1) eqn:C1.
    { (* CopyB *)
      apply andb_prop in C1. destruct C1 as [_ C1].
      apply Nat.eqb_eq, length_one in C1. destruct C1 as (z & ->).
      cbn [fst]. apply merged_app_a; [|exact Ca|exact G1].
      apply merged_ba; [exact I|exact Cb|].
      rewrite lastOf_snoc in Lt. exact Lt. }
    destruct (Nat.ltb 0 k && Nat.eqb (List.length post) 0) eqn:C2.
    { (* Succeed *)
      apply andb_prop in C2. destruct C2 as [_ C2].
      apply Nat.eqb_eq, length_zero in C2. subst post.
      cbn [fst]. rewrite app_nil_r in *.
      apply merged_ab; [exact Ca|exact Cb|exact G1]. }
    destruct (Nat.eqb (List.length b') 0) eqn:C3.
    { (* Succeed *)
      apply Nat.eqb_eq, length_zero in C3. subst b'. cbn [fst].
      apply merged_app_a; [|exact Ca|exact G1].
      apply chain_app in Ca.
      apply (merged_ba inOrder post [y]); [tauto|exact I|exact G2]. }
    apply Nat.eqb_neq in C3.
    destruct post as [|x1 a2].
    { cbn [fst]. rewrite app_nil_r in *.
      apply merged_ab; [exact Ca|exact Cb|exact G1]. }
    set (k2 := gallopLeft cmp x1 b' 0).
    destruct (gallopLeft_split x1 b' 0) as (Bk2 & H1 & H2); [lia|].
    fold k2 in Bk2, H1, H2.
    destruct (split_at k2 b') as (pre2 & post2 & Eb & F1 & F2 & Lp2).
    rewrite ?F1, ?F2 in *.
    assert (Cp2 : chain inOrder post2).
    { apply (chain_skipn A inOrder k2) in Cb'. rewrite F2 in Cb'. exact Cb'. }
    clear F1 F2.
    assert (Cpost : chain inOrder (x1 :: a2))
      by (apply chain_app in Ca; tauto).
    assert (Lyx : link inOrder (lastOf (y :: pre2)) (Some x1))
      by (apply link_last_cons; [exact G2|exact H1]).
    destruct (Nat.ltb 0 k2 && Nat.eqb (List.length post2) 0) eqn:C5.
    { (* Succeed *)
      apply andb_prop in C5. destruct C5 as [_ C5].
      apply Nat.eqb_eq, length_zero in C5. subst post2.
      rewrite app_nil_r in Eb. subst pre2. cbn [fst].
      apply merged_app_a; [|exact Ca|exact G1].
      apply (merged_ba inOrder (x1 :: a2) (y :: b'));
        [exact Cpost|exact Cb|exact Lyx]. }
    assert (Lpost2 : (1 <= List.length post2)%nat).
    { clear - C5 Lp2 C3 Bk2. boolsToNat; lia. }
    assert (Cb2 : chain inOrder ((y :: pre2) ++ post2))
      by (cbn [app]; rewrite <- Eb; exact Cb).
    assert (Lt2 : link inOrder (lastOf post2) (lastOf (pre ++ x1 :: a2))).
    { apply (link_last_app inOrder (y :: pre2) post2).
      cbn [app]. rewrite <- Eb. exact Lt. }
    destruct (Nat.eqb (List.length a2) 1) eqn:C6.
    { (* CopyB *)
      apply Nat.eqb_eq, length_one in C6. destruct C6 as (z & ->).
      cbn [fst]. unfold b. rewrite Eb.
      apply merged_app_a; [|exact Ca|exact G1].
      apply (merged_app_b inOrder (y :: pre2) [x1; z] post2
               (x1 :: post2 ++ [z])); [|exact Cb2|exact Lyx].
      apply merged_cons_a; [|exact Cpost|exact H2].
      apply merged_ba; [exact I|exact Cp2|].
      rewrite (lastOf_app_right pre [x1; z]) in Lt2 by discriminate.
      exact Lt2. }
    apply Nat.eqb_neq in C6.
    assert (La2 : (2 <= List.length a2)%nat).
    { clear - C1 C2 C6 Lp La. rewrite length_app in La, Lp. simpl in *.
      boolsToNat; lia. }
    rewrite fst_let. unfold b. rewrite Eb.
    apply merged_app_a; [|exact Ca|exact G1].
    apply (merged_app_b inOrder (y :: pre2) (x1 :: a2) post2);
      [|exact Cb2|exact Lyx].
    apply merged_cons_a; [|exact Cpost|exact H2].
    assert (Ca2 : chain inOrder a2) by (apply chain_cons in Cpost; tauto).
    assert (Lt3 : link inOrder (lastOf post2) (lastOf a2)).
    { apply (link_to_last inOrder (pre ++ [x1]) a2);
        [apply length_positive_nonempty; lia|].
      rewrite <- app_assoc. exact Lt2. }
    assert (Hfuel : (List.length a2 + List.length post2 <= fuel)%nat).
    { clear - Hf Eb Lb'. rewrite Lb', Eb, !length_app in Hf. simpl in Hf.
      lia. }
    destruct (Nat.leb kMinGallopWins k || Nat.leb kMinGallopWins k2);
      apply IH; auto.
Qed.

(** [MergeLow] on two runs that fit at both ends: the first element of
    B is in order before the first of A, and the last of B before the
    last of A. *)
Lemma mergeLow_spec (a b : list A) (stored : nat) :
  a <> [] -> b <> [] ->
  chain inOrder a -> chain inOrder b ->
  link inOrder (hd_error b) (hd_error a) ->
  link inOrder (lastOf b) (lastOf a) ->
  merged inOrder a b (fst (mergeLow cmp a b stored)).
Proof.
  intros Ha Hb Ca Cb Lh Lt. unfold mergeLow.
  destruct b as [|y b']; [congruence|].
  destruct (Nat.eqb (List.length b') 0) eqn:Eb.
  - apply Nat.eqb_eq, length_zero in Eb. subst b'. cbn [fst].
    apply (merged_ba inOrder a [y]); [exact Ca|exact I|exact Lh].
  - apply Nat.eqb_neq in Eb.
    destruct (Nat.eqb (List.length a) 1) eqn:Ea.
    + apply Nat.eqb_eq, length_one in Ea. destruct Ea as (z & ->).
      cbn [fst]. apply (merged_ba inOrder [z] (y :: b'));
        [exact I|exact Cb|exact Lt].
    + apply Nat.eqb_neq in Ea. rewrite fst_let.
      apply merged_cons_b; [|exact Cb|exact Lh].
      assert (La : (2 <= List.length a)%nat)
        by (destruct a as [|? [|? ?]]; simpl in *; try congruence; lia).
      apply mergeLowFrom_spec; auto; try lia.
      * apply chain_cons in Cb. tauto.
      * exact (link_last_app inOrder [y] b' _ Lt).
Qed.

(** [MergeHigh], on the runs with their last element first *)
Lemma mergeHighFrom_spec (fuel : nat) :
  forall (mode : mergeMode) (minGallop stored : nat) (ra rb : list A),
    (List.length ra + List.length rb <= fuel)%nat ->
    (1 <= List.length ra)%nat -> (2 <= List.length rb)%nat ->
    chain inOrderBack ra -> chain inOrderBack rb ->
    link inOrderBack (lastOf ra) (lastOf rb) ->
    merged inOrderBack ra rb
      (fst (mergeHighFrom cmp fuel mode minGallop stored ra rb)).
Proof.
  induction fuel as [|fuel IH]; intros mode mg st ra rb Hf La Lb Ca Cb Lt;
    [lia|].
  destruct ra as [|x ra']; [simpl in La; lia|].
  destruct rb as [|y rb']; [simpl in Lb; lia|].
  destruct mode as [nA nB|]; cbn [mergeHighFrom].
  - (* one element at a time *)
    destruct (precedes cmp y x) eqn:Ep.
    + destruct (Nat.eqb (List.length ra') 0) eqn:Ea.
      * apply Nat.eqb_eq, length_zero in Ea. subst ra'. cbn [fst].
        apply (merged_ab inOrderBack [x] (y :: rb')); [exact I|exact Cb|].
        left. exact Ep.
      * apply Nat.eqb_neq in Ea. rewrite fst_let.
        apply merged_cons_a; [|exact Ca|left; exact Ep].
        assert (Ca' : chain inOrderBack ra')
          by (apply chain_cons in Ca; tauto).
        assert (Lt' : link inOrderBack (lastOf ra') (lastOf (y :: rb')))
          by exact (link_last_app inOrderBack [x] ra' _ Lt).
        destruct (Nat.leb mg (S nA)); apply IH; simpl in *; auto; lia.
    + destruct (Nat.eqb (List.length rb') 1) eqn:Eb.
      * apply Nat.eqb_eq, length_one in Eb. destruct Eb as (z & ->).
        cbn [fst].
        apply merged_cons_b; [|exact Cb|right; exact Ep].
        apply merged_ab; [exact Ca|exact I|exact Lt].
      * apply Nat.eqb_neq in Eb. rewrite fst_let.
        apply merged_cons_b; [|exact Cb|right; exact Ep].
        assert (Cb' : chain inOrderBack rb')
          by (apply chain_cons in Cb; tauto).
        assert (Hne : rb' <> [])
          by (apply length_positive_nonempty; simpl in Lb; lia).
        assert (Lt' : link inOrderBack (lastOf (x :: ra')) (lastOf rb'))
          by exact (link_to_last inOrderBack [y] rb' _ Hne Lt).
        destruct (Nat.leb mg (S nB)); apply IH; simpl in *; auto; lia.
  - (* galloping *)
    cbv zeta.
    set (ra := x :: ra') in *. set (rb := y :: rb') in *.
    set (n := (List.length ra
               - gallopRight cmp y (rev ra) (List.length ra - 1))%nat).
    destruct (gallopRight_back y ra) as (Bn & G1 & G2);
      [unfold ra; discriminate|].
    fold n in Bn, G1, G2.
    destruct (split_at n ra) as (pre & post & Ea & E1 & E2 & Lp).
    rewrite E1, E2 in *. clear E1 E2.
    assert (Lb' : List.length rb = S (List.length rb')) by reflexivity.
    assert (Cb' : chain inOrderBack rb') by (apply chain_cons in Cb; tauto).
    assert (Hrb' : rb' <> [])
      by (apply length_positive_nonempty; unfold rb in Lb; simpl in Lb; lia).
    clearbody ra n. subst ra.
    destruct (Nat.ltb 0 n && Nat.eqb (List.length post) 0) eqn:C1.
    { (* Succeed *)
      apply andb_prop in C1. destruct C1 as [_ C1].
      apply Nat.eqb_eq, length_zero in C1. subst post.
      cbn [fst]. rewrite app_nil_r in *.
      apply merged_ab; [exact Ca|exact Cb|exact G1]. }
    assert (Cpost : chain inOrderBack post)
      by (apply chain_app in Ca; tauto).
    destruct (Nat.eqb (List.length rb') 1) eqn:C2.
    { (* CopyA *)
      apply Nat.eqb_eq, length_one in C2. destruct C2 as (z & ->).
      cbn [fst]. apply merged_app_a; [|exact Ca|exact G1].
      apply (merged_cons_b inOrderBack y post [z] (post ++ [z]));
        [|exact Cb|exact G2].
      apply merged_ab; [exact Cpost|exact I|].
      exact (link_last_app inOrderBack pre post _ Lt). }
    apply Nat.eqb_neq in C2.
    destruct post as [|x1 ra2].
    { cbn [fst]. rewrite app_nil_r in *.
      apply merged_ab; [exact Ca|exact Cb|exact G1]. }
    set (n2 := (List.length rb'
                - gallopLeft cmp x1 (rev rb') (List.length rb' - 1))%nat).
    destruct (gallopLeft_back x1 rb' Hrb') as (Bn2 & H1 & H2).
    fold n2 in Bn2, H1, H2.
    destruct (split_at n2 rb') as (pre2 & post2 & Eb & F1 & F2 & Lp2).
    rewrite ?F1, ?F2 in *.
    assert (Cp2 : chain inOrderBack post2).
    { apply (chain_skipn A inOrderBack n2) in Cb'. rewrite F2 in Cb'.
      exact Cb'. }
    clear F1 F2. clearbody n2.
    assert (Lyx : link inOrderBack (lastOf (y :: pre2)) (Some x1))
      by (apply link_last_cons; [exact G2|exact H1]).
    assert (Cb2 : chain inOrderBack ((y :: pre2) ++ post2))
      by (cbn [app]; rewrite <- Eb; exact Cb).
    assert (Lt2 : link inOrderBack (lastOf (x1 :: ra2))
                    (lastOf ((y :: pre2) ++ post2))).
    { apply (link_last_app inOrderBack pre (x1 :: ra2)).
      cbn [app]. rewrite <- Eb. exact Lt. }
    destruct (Nat.ltb 0 n2 && Nat.eqb (List.length post2) 1) eqn:C3.
    { (* CopyA *)
      apply andb_prop in C3. destruct C3 as [_ C3].
      apply Nat.eqb_eq, length_one in C3. destruct C3 as (z & ->).
      cbn [fst]. unfold rb. rewrite Eb.
      apply merged_app_a; [|exact Ca|exact G1].
      apply (merged_app_b inOrderBack (y :: pre2) (x1 :: ra2) [z]
               ((x1 :: ra2) ++ [z])); [|exact Cb2|exact Lyx].
      apply merged_ab; [exact Cpost|exact I|].
      rewrite lastOf_snoc in Lt2. exact Lt2. }
    destruct (Nat.ltb 0 n2 && Nat.eqb (List.length post2) 0) eqn:C4.
    { (* Succeed *)
      apply andb_prop in C4. destruct C4 as [_ C4].
      apply Nat.eqb_eq, length_zero in C4. subst post2.
      rewrite app_nil_r in Eb. subst pre2. cbn [fst].
      apply merged_app_a; [|exact Ca|exact G1].
      apply (merged_ba inOrderBack (x1 :: ra2) (y :: rb'));
        [exact Cpost|exact Cb|exact Lyx]. }
    destruct (Nat.eqb (List.length ra2) 0) eqn:C5.
    { (* Succeed *)
      apply Nat.eqb_eq, length_zero in C5. subst ra2.
      cbn [fst]. unfold rb. rewrite Eb.
      apply merged_app_a; [|exact Ca|exact G1].
      apply (merged_app_b inOrderBack (y :: pre2) [x1] post2 (x1 :: post2));
        [|exact Cb2|exact Lyx].
      apply (merged_ab inOrderBack [x1] post2); [exact I|exact Cp2|exact H2]. }
    apply Nat.eqb_neq in C5.
    assert (Lpost2 : (2 <= List.length post2)%nat).
    { clear - C3 C4 C2 Lp2 Bn2 Hrb'.
      assert (1 <= List.length rb')%nat
        by (destruct rb'; [congruence|simpl; lia]).
      boolsToNat; lia. }
    rewrite fst_let. unfold rb. rewrite Eb.
    apply merged_app_a; [|exact Ca|exact G1].
    apply (merged_app_b inOrderBack (y :: pre2) (x1 :: ra2) post2);
      [|exact Cb2|exact Lyx].
    apply merged_cons_a; [|exact Cpost|exact H2].
    assert (Ca2 : chain inOrderBack ra2)
      by (apply chain_cons in Cpost; tauto).
    assert (Lt3 : link inOrderBack (lastOf ra2) (lastOf post2)).
    { apply (link_last_app inOrderBack [x1] ra2).
      apply (link_to_last inOrderBack (y :: pre2) post2);
        [apply length_positive_nonempty; lia|exact Lt2]. }
    assert (Hfuel : (List.length ra2 + List.length post2 <= fuel)%nat).
    { clear - Hf Eb Lb'. rewrite Lb', Eb, !length_app in Hf. simpl in Hf.
      lia. }
    destruct (Nat.leb kMinGallopWins n || Nat.leb kMinGallopWins n2);
      apply IH; auto; lia.
Qed.

Lemma link_back (o1 o2 : option A) :
  link inOrderBack o1 o2 <-> link inOrder o2 o1.
Proof. destruct o1, o2; simpl; unfold inOrderBack; tauto. Qed.

Lemma chain_back (l : list A) : chain inOrderBack (rev l) <-> chain inOrder l.
Proof.
  rewrite (chain_rev A inOrderBack l). unfold inOrderBack. tauto.
Qed.

Lemma merged_rev (ra rb l : list A) :
  merged inOrderBack ra rb l -> merged inOrder (rev ra) (rev rb) (rev l).
Proof.
  intros (Cl & Sl & Hl & Ll). split; [|split; [|split]].
  - apply (chain_rev A inOrder l). exact Cl.
  - intros z. specialize (Sl z).
    rewrite in_app_iff in Sl. rewrite in_app_iff, <- !in_rev. tauto.
  - rewrite !hd_error_rev. exact Ll.
  - rewrite !lastOf_rev. exact Hl.
Qed.

Lemma mergeHigh_spec (a b : list A) (stored : nat) :
  a <> [] -> b <> [] ->
  chain inOrder a -> chain inOrder b ->
  link inOrder (hd_error b) (hd_error a) ->
  link inOrder (lastOf b) (lastOf a) ->
  merged inOrder a b (fst (mergeHigh cmp a b stored)).
Proof.
  intros Ha Hb Ca Cb Lh Lt. unfold mergeHigh.
  assert (Ea : a = rev (rev a)) by (symmetry; apply rev_involutive).
  destruct (rev a) as [|x ra'] eqn:Er; [simpl in Ea; congruence|].
  destruct (Nat.eqb (List.length ra') 0) eqn:E0.
  - apply Nat.eqb_eq, length_zero in E0. subst ra'. cbn [fst].
    simpl in Ea. subst a.
    apply (merged_ba inOrder [x] b); [exact I|exact Cb|exact Lt].
  - apply Nat.eqb_neq in E0.
    destruct (Nat.eqb (List.length b) 1) eqn:E1.
    + apply Nat.eqb_eq, length_one in E1. destruct E1 as (z & ->).
      cbn [fst].
      change (rev ra' ++ [x]) with (rev (x :: ra')). rewrite <- Ea.
      apply (merged_ba inOrder a [z]); [exact Ca|exact I|exact Lh].
    + apply Nat.eqb_neq in E1. rewrite fst_let.
      rewrite Ea. rewrite <- (rev_involutive b) at 1.
      apply merged_rev.
      assert (Car : chain inOrderBack (x :: ra')).
      { rewrite <- Er. apply chain_back. exact Ca. }
      assert (Cbr : chain inOrderBack (rev b))
        by (apply chain_back; exact Cb).
      apply merged_cons_a; [|exact Car|].
      * apply mergeHighFrom_spec.
        -- rewrite length_rev. lia.
        -- lia.
        -- rewrite length_rev.
           destruct b as [|? [|? ?]]; simpl in *; try congruence; lia.
        -- apply chain_cons in Car. tauto.
        -- exact Cbr.
        -- apply link_back. rewrite lastOf_rev.
           assert (E : lastOf ra' = hd_error a).
           { rewrite Ea, hd_error_rev. symmetry.
             apply (lastOf_app_right [x] ra').
             apply length_positive_nonempty. lia. }
           rewrite E. exact Lh.
      * apply link_back. rewrite hd_error_rev.
        assert (E : Some x = lastOf a).
        { rewrite Ea, lastOf_rev. reflexivity. }
        rewrite E. exact Lt.
Qed.

(** [MergeAt] *)
Lemma mergeAt_spec (a b : list A) (stored : nat) :
  a <> [] -> b <> [] -> chain inOrder a -> chain inOrder b ->
  chain inOrder (fst (mergeAt cmp a b stored))
  /\ sameElements (fst (mergeAt cmp a b stored)) (a ++ b).
Proof.
  intros Ha Hb Ca Cb. unfold mergeAt.
  destruct b as [|keyRight b0]; [congruence|].
  set (b := keyRight :: b0) in *.
  assert (La : (1 <= List.length a)%nat)
    by (destruct a; [congruence|simpl; lia]).
  set (k := gallopRight cmp keyRight a 0).
  destruct (gallopRight_split keyRight a 0) as (Bk & G1 & G2); [lia|].
  fold k in Bk, G1, G2.
  destruct (split_at k a) as (pre & post & Ea & E1 & E2 & Lp).
  rewrite E1, E2 in *. clear E1 E2. clearbody k.
  destruct (Nat.eqb (List.length post) 0) eqn:C1.
  { apply Nat.eqb_eq, length_zero in C1. subst post.
    rewrite app_nil_r in Ea. subst pre. cbn [fst]. split.
    - apply chain_app. auto.
    - intros z. tauto. }
  apply Nat.eqb_neq in C1.
  assert (Hpost : post <> []) by (apply length_positive_nonempty; lia).
  set (keyLeft := last post keyRight).
  assert (Ekl : lastOf post = Some keyLeft)
    by (apply lastOf_last; exact Hpost).
  set (lengthB := gallopLeft cmp keyLeft b (List.length b - 1)).
  destruct (gallopLeft_split keyLeft b (List.length b - 1))
    as (Bn & H1 & H2); [unfold b; simpl; lia|].
  fold lengthB in Bn, H1, H2.
  destruct (split_at lengthB b) as (b1 & b2 & Eb & F1 & F2 & Lp2).
  assert (Lb1 : List.length b1 = lengthB).
  { rewrite <- F1, length_firstn. lia. }
  rewrite ?F1, ?F2 in *.
  clear F1 F2. clearbody lengthB.
  assert (Elast : lastOf a = Some keyLeft).
  { rewrite Ea, (lastOf_app_right pre post Hpost). exact Ekl. }
  destruct (Nat.eqb lengthB 0) eqn:C2.
  { apply Nat.eqb_eq in C2. rewrite C2 in Lb1.
    apply length_zero in Lb1. subst b1. cbn [app] in Eb.
    cbn [fst]. split.
    - apply chain_app. split; [exact Ca|]. split; [exact Cb|].
      rewrite Elast, Eb. exact H2.
    - intros z. tauto. }
  apply Nat.eqb_neq in C2.
  assert (Hb1 : b1 <> []) by (apply length_positive_nonempty; lia).
  rewrite fst_let.
  assert (Cpre : chain inOrder pre /\ chain inOrder post
                 /\ link inOrder (lastOf pre) (hd_error post))
    by (rewrite Ea in Ca; apply chain_app in Ca; exact Ca).
  assert (Cbs : chain inOrder b1 /\ chain inOrder b2
                /\ link inOrder (lastOf b1) (hd_error b2))
    by (rewrite Eb in Cb; apply chain_app in Cb; exact Cb).
  assert (Hhd : hd_error b1 = Some keyRight).
  { destruct b1 as [|y b1]; [congruence|].
    unfold b in Eb. cbn [app] in Eb. injection Eb as -> _. reflexivity. }
  assert (M : merged inOrder post b1
                (fst (if Nat.leb (List.length post) (List.length b1)
                      then mergeLow cmp post b1 stored
                      else mergeHigh cmp post b1 stored))).
  { destruct (Nat.leb (List.length post) (List.length b1));
      [apply mergeLow_spec|apply mergeHigh_spec]; try tauto;
      try (rewrite Hhd; exact G2); rewrite Ekl; exact H1. }
  destruct M as (Cm & Sm & Hm & Lm).
  set (m := fst (if Nat.leb (List.length post) (List.length b1)
                 then mergeLow cmp post b1 stored
                 else mergeHigh cmp post b1 stored)) in *.
  clearbody m.
  assert (Hmne : m <> []).
  { intros ->. destruct (sameElements_nil post b1 Sm). congruence. }
  split.
  - apply chain_app. split; [tauto|]. split.
    + apply chain_app. split; [exact Cm|]. split; [tauto|].
      destruct Lm as [-> | ->]; [rewrite Ekl; exact H2|tauto].
    + rewrite hd_error_app. destruct m as [|x m]; [congruence|].
      cbn [hd_error] in Hm.
      destruct Hm as [Hm|Hm]; rewrite Hm; [tauto|].
      rewrite Hhd. exact G1.
  - intros z. specialize (Sm z). rewrite Ea, Eb.
    rewrite !in_app_iff in *. tauto.
Qed.

Lemma mergeAt_nonempty (a b : list A) (stored : nat) :
  a <> [] -> b <> [] -> chain inOrder a -> chain inOrder b ->
  fst (mergeAt cmp a b stored) <> [].
Proof.
  intros Ha Hb Ca Cb E.
  destruct (mergeAt_spec a b stored Ha Hb Ca Cb) as (_ & S).
  rewrite E in S. destruct (sameElements_nil a b S). congruence.
Qed.

(** *** The stack of pending runs *)

Definition runOk (r : list A) : Prop := r <> [] /\ chain inOrder r.

Definition member (z : A) (pendingRuns : list (list A)) : Prop :=
  exists r, In r pendingRuns /\ In z r.

Lemma member_cons (z : A) (r : list A) (s : list (list A)) :
  member z (r :: s) <-> In z r \/ member z s.
Proof.
  unfold member. split.
  - intros (r' & [<-|Hr] & Hz); [left; exact Hz|right; eauto].
  - intros [Hz|(r' & Hr & Hz)]; [exists r|exists r']; simpl; auto.
Qed.

Lemma member_nil (z : A) : member z [] <-> False.
Proof. unfold member. split; [intros (r & [] & _)|tauto]. Qed.

Lemma mergeAt_pending (a b : list A) (stored : nat) :
  runOk a -> runOk b ->
  runOk (fst (mergeAt cmp a b stored))
  /\ forall z, In z (fst (mergeAt cmp a b stored)) <-> In z a \/ In z b.
Proof.
  intros (Ha & Ca) (Hb & Cb).
  destruct (mergeAt_spec a b stored Ha Hb Ca Cb) as (C & S).
  split; [split; [apply mergeAt_nonempty; assumption|exact C]|].
  intros z. rewrite (S z), in_app_iff. tauto.
Qed.

Lemma mergeCollapse_spec (fuel : nat) :
  forall (pendingRuns : list (list A)) (stored : nat),
    Forall runOk pendingRuns ->
    Forall runOk (fst (mergeCollapse cmp fuel pendingRuns stored))
    /\ forall z, member z (fst (mergeCollapse cmp fuel pendingRuns stored))
                 <-> member z pendingRuns.
Proof.
  induction fuel as [|fuel IH]; intros pendingRuns stored Hok;
    cbn [mergeCollapse]; [split; [exact Hok|tauto]|].
  destruct pendingRuns as [|r0 [|r1 below]]; try (split; [exact Hok|tauto]).
  inversion Hok as [|? ? Hr0 Hok1]; subst.
  inversion Hok1 as [|? ? Hr1 Hok2]; subst.
  cbv zeta.
  assert (Top : forall s,
             Forall runOk
               (fst (let (merged, s') := mergeAt cmp r1 r0 s in
                     mergeCollapse cmp fuel (merged :: below) s'))
             /\ forall z,
                 member z
                   (fst (let (merged, s') := mergeAt cmp r1 r0 s in
                         mergeCollapse cmp fuel (merged :: below) s'))
                 <-> member z (r0 :: r1 :: below)).
  { intros s.
    destruct (mergeAt_pending r1 r0 s Hr1 Hr0) as (Hm & Sm).
    destruct (mergeAt cmp r1 r0 s) as (merged, s'). cbn [fst] in Hm, Sm.
    destruct (IH (merged :: below) s') as (H1 & H2);
      [constructor; assumption|].
    split; [exact H1|].
    intros z. rewrite (H2 z), !member_cons, (Sm z). tauto. }
  destruct (negb _ || negb _).
  - destruct below as [|r2 below']; [split; [exact Hok|tauto]|].
    inversion Hok2 as [|? ? Hr2 Hok3]; subst.
    destruct (Nat.ltb (List.length r2) (List.length r0)); [|apply Top].
    destruct (mergeAt_pending r2 r1 stored Hr2 Hr1) as (Hm & Sm).
    destruct (mergeAt cmp r2 r1 stored) as (merged, s'). cbn [fst] in Hm, Sm.
    destruct (IH (r0 :: merged :: below') s') as (H1 & H2);
      [constructor; [assumption|constructor; assumption]|].
    split; [exact H1|].
    intros z. rewrite (H2 z), !member_cons, (Sm z). tauto.
  - destruct (Nat.leb (List.length r1) (List.length r0)); [apply Top|].
    split; [exact Hok|tauto].
Qed.

Lemma mergeForceCollapse_spec (fuel : nat) :
  forall (pendingRuns : list (list A)) (stored : nat),
    (List.length pendingRuns <= S fuel)%nat ->
    Forall runOk pendingRuns ->
    chain inOrder (mergeForceCollapse cmp fuel pendingRuns stored)
    /\ forall z, In z (mergeForceCollapse cmp fuel pendingRuns stored)
                 <-> member z pendingRuns.
Proof.
  assert (Single : forall pendingRuns : list (list A),
             (List.length pendingRuns <= 1)%nat ->
             Forall runOk pendingRuns ->
             chain inOrder (concat (rev pendingRuns))
             /\ forall z, In z (concat (rev pendingRuns))
                          <-> member z pendingRuns).
  { intros [|r [|r' s]] Hl Hok; simpl in Hl; try lia.
    - simpl. split; [exact I|]. intros z. rewrite member_nil. tauto.
    - inversion Hok as [|? ? (_ & Hr) _]; subst.
      simpl. rewrite app_nil_r. split; [exact Hr|].
      intros z. rewrite member_cons, member_nil. tauto. }
  induction fuel as [|fuel IH]; intros pendingRuns stored Hl Hok;
    cbn [mergeForceCollapse]; [apply Single; assumption|].
  destruct pendingRuns as [|r0 [|r1 below]];
    try (apply Single; [simpl; lia|assumption]).
  inversion Hok as [|? ? Hr0 Hok1]; subst.
  inversion Hok1 as [|? ? Hr1 Hok2]; subst.
  assert (Top : chain inOrder
                  (let (merged, s') := mergeAt cmp r1 r0 stored in
                   mergeForceCollapse cmp fuel (merged :: below) s')
                /\ forall z,
                    In z (let (merged, s') := mergeAt cmp r1 r0 stored in
                          mergeForceCollapse cmp fuel (merged :: below) s')
                    <-> member z (r0 :: r1 :: below)).
  { destruct (mergeAt_pending r1 r0 stored Hr1 Hr0) as (Hm & Sm).
    destruct (mergeAt cmp r1 r0 stored) as (merged, s').
    cbn [fst] in Hm, Sm.
    destruct (IH (merged :: below) s') as (H1 & H2);
      [simpl in *; lia|constructor; assumption|].
    split; [exact H1|].
    intros z. rewrite (H2 z), !member_cons, (Sm z). tauto. }
  destruct below as [|r2 below']; [exact Top|].
  inversion Hok2 as [|? ? Hr2 Hok3]; subst.
  destruct (Nat.ltb (List.length r2) (List.length r0)); [|exact Top].
  destruct (mergeAt_pending r2 r1 stored Hr2 Hr1) as (Hm & Sm).
  destruct (mergeAt cmp r2 r1 stored) as (merged, s'). cbn [fst] in Hm, Sm.
  destruct (IH (r0 :: merged :: below') s') as (H1 & H2);
    [simpl in *; lia|constructor; [assumption|constructor; assumption]|].
  split; [exact H1|].
  intros z. rewrite (H2 z), !member_cons, (Sm z). tauto.
Qed.

(** *** The sort *)

Lemma sortRuns_spec (minRunLength : nat) (fuel : nat) :
  forall (remaining : list A) (pendingRuns : list (list A)) (stored : nat),
    (List.length remaining < fuel)%nat ->
    Forall runOk pendingRuns ->
    chain inOrder (sortRuns cmp fuel minRunLength remaining pendingRuns stored)
    /\ forall z,
        In z (sortRuns cmp fuel minRunLength remaining pendingRuns stored)
        <-> In z remaining \/ member z pendingRuns.
Proof.
  induction fuel as [|fuel IH]; intros remaining pendingRuns stored Hl Hok;
    [lia|].
  cbn [sortRuns]. destruct remaining as [|x0 remaining'].
  - destruct (mergeForceCollapse_spec (List.length pendingRuns) pendingRuns
                stored) as (C & S); [lia|exact Hok|].
    split; [exact C|]. intros z. rewrite (S z). simpl. tauto.
  - set (remaining := x0 :: remaining') in *.
    destruct (countAndMakeRun cmp remaining) as (run, rest) eqn:Er.
    destruct (countAndMakeRun_spec remaining run rest Er)
      as (Cr & Sr & Lr & Hne).
    specialize (Hne ltac:(discriminate)).
    assert (Hrun : (1 <= List.length run)%nat)
      by (destruct run; [congruence|simpl; lia]).
    assert (Ext : exists run' rest',
               (if Nat.ltb (List.length run) minRunLength
                then
                  (binaryInsertionSort cmp run
                     (firstn (Nat.min minRunLength (List.length remaining)
                              - List.length run) rest),
                   skipn (Nat.min minRunLength (List.length remaining)
                          - List.length run) rest)
                else (run, rest)) = (run', rest')
               /\ runOk run'
               /\ (List.length rest' < fuel)%nat
               /\ forall z, In z remaining <-> In z run' \/ In z rest').
    { destruct (Nat.ltb (List.length run) minRunLength).
      - set (more := (Nat.min minRunLength (List.length remaining)
                      - List.length run)%nat).
        destruct (binaryInsertionSort_spec (firstn more rest) run Cr)
          as (C2 & S2 & L2).
        eexists _, _. split; [reflexivity|]. split; [|split].
        + split; [|exact C2]. apply length_positive_nonempty. rewrite L2. lia.
        + rewrite length_skipn. lia.
        + intros z. rewrite (Sr z), (S2 z), !in_app_iff.
          assert (E : In z rest
                      <-> In z (firstn more rest) \/ In z (skipn more rest)).
          { rewrite <- in_app_iff, firstn_skipn. tauto. }
          tauto.
      - exists run, rest. split; [reflexivity|]. split; [|split].
        + split; [exact Hne|exact Cr].
        + lia.
        + intros z. rewrite (Sr z), in_app_iff. tauto. }
    destruct Ext as (run' & rest' & -> & Hrun' & Hl' & S').
    destruct (mergeCollapse_spec (S (List.length pendingRuns))
                (run' :: pendingRuns) stored) as (H1 & H2);
      [constructor; assumption|].
    destruct (mergeCollapse cmp (S (List.length pendingRuns))
                (run' :: pendingRuns) stored) as (pendingRuns', stored').
    cbn [fst] in H1, H2.
    destruct (IH rest' pendingRuns' stored' Hl' H1) as (C & S).
    split; [exact C|].
    intros z. rewrite (S z), (H2 z), member_cons, (S' z). tauto.
Qed.

(** Two neighbours of the sorted list are in order, and the sorted list
    holds the elements of the list. *)
Lemma sortBy_chain (l : list A) : chain inOrder (sortBy cmp l).
Proof.
  unfold sortBy. destruct (Nat.ltb (List.length l) 2) eqn:E.
  - apply Nat.ltb_lt in E.
    destruct l as [|x [|y l]]; simpl in *; try exact I; lia.
  - apply sortRuns_spec; [lia|constructor].
Qed.

Lemma sortBy_elements (l : list A) (z : A) : In z (sortBy cmp l) <-> In z l.
Proof.
  unfold sortBy. destruct (Nat.ltb (List.length l) 2); [tauto|].
  destruct (sortRuns_spec
              (computeMinRunLength (List.length l) (List.length l) 0)
              (S (List.length l)) l [] kMinGallopWins) as (_ & S);
    [lia|constructor|].
  rewrite (S z), member_nil. tauto.
Qed.

End SortOrder.

Arguments inOrder {A} cmp x y.
Arguments inOrderBack {A} cmp x y.

Set Implicit Arguments.

(** ** Sorting keeps the elements *)

Lemma sortBy_In {A} (cmp : A -> A -> num) (z : A) (l : list A) :
  In z (sortBy cmp l) <-> In z l.
Proof. apply sortBy_elements. Qed.

Lemma sortBy_nil {A} (cmp : A -> A -> num) (l : list A) :
  sortBy cmp l = [] -> l = [].
Proof.
  intros H. destruct l as [|x l]; [reflexivity|].
  assert (Hin : In x (sortBy cmp (x :: l))) by (apply sortBy_In; left; auto).
  rewrite H in Hin. destruct Hin.
Qed.

(** ** The candidates of [extractAmount] *)

Lemma candidatesOf_In text c :
  In c (candidatesOf text) ->
  exists pc mt, In pc AMOUNT_PATTERNS
                /\ In mt (matchAll (pc_pattern pc) text)
                /\ candidateOf text pc mt = Some c.
Proof.
  unfold candidatesOf. intros H.
  apply in_flat_map in H. destruct H as (pc & Hpc & H).
  apply in_flat_map in H. destruct H as (mt & Hmt & H).
  exists pc, mt. repeat split; auto.
  destruct (candidateOf text pc mt) as [c'|]; simpl in H; [|destruct H].
  destruct H as [<-|[]]. reflexivity.
Qed.

Lemma candidatesOf_intro text pc mt c :
  In pc AMOUNT_PATTERNS -> In mt (matchAll (pc_pattern pc) text) ->
  candidateOf text pc mt = Some c -> In c (candidatesOf text).
Proof.
  intros Hpc Hmt Hc. unfold candidatesOf.
  apply in_flat_map. exists pc. split; [exact Hpc|].
  apply in_flat_map. exists mt. split; [exact Hmt|].
  rewrite Hc. left. reflexivity.
Qed.

(** What the guard of [candidates.push] and the defaults give every
    candidate: a positive amount and a currency text that is not empty. *)
Lemma candidateOf_Some text pc mt c :
  candidateOf text pc mt = Some c ->
  numTruthy (c_amount c) = true
  /\ gt (c_amount c) (decimal 0 0) = true
  /\ truthy (Some (c_currency c)) = true
  /\ c_pattern c = pc_description pc
  /\ exists cur ctx,
       c_confidence c
       = Math_min (adjustConfidence (pc_confidence pc) cur (c_amount c) ctx)
                  (decimal 1 0).
Proof.
  unfold candidateOf. destruct (amountAndCurrency pc mt) as [a cu].
  destruct (normalizeAmount (trim a)) as [n|]; [|discriminate].
  destruct (numTruthy n && gt n (decimal 0 0)) eqn:E; [|discriminate].
  apply andb_prop in E. destruct E as [E1 E2].
  intros H. injection H as <-. simpl. repeat split; auto.
  - destruct (trim cu); reflexivity.
  - eauto.
Qed.

Lemma extractAmount_cases text :
  (candidatesOf text = []
   /\ extractAmount text = MkAmountResult None None (decimal 0 0))
  \/ exists c, In c (candidatesOf text)
               /\ extractAmount text
                  = MkAmountResult (Some (c_amount c)) (Some (c_currency c))
                                   (c_confidence c).
Proof.
  unfold extractAmount.
  destruct (sortBy compareCandidates (candidatesOf text)) as [|c l] eqn:E.
  - left. split; [|reflexivity]. eapply sortBy_nil; eauto.
  - right. exists c. split; [|reflexivity].
    apply (sortBy_In compareCandidates). rewrite E. left. reflexivity.
Qed.

(** ** [extractDescription] *)

(** The matches that survive the filters of the loop, with their adjusted
    confidence. *)
Definition descriptionSurvivors (text : str) (provider : option str)
  : list (str * num) :=
  flat_map (fun pp =>
              flat_map (fun mt =>
                          optList (descriptionOfMatch provider
                                     (pp_confidence pp) mt))
                       (matchAll (pp_pattern pp) text))
           descriptionPatterns.

Lemma fold_left_id {A S} (f : S -> A -> S) (l : list A) (s : S) :
  (forall x, In x l -> f s x = s) -> fold_left f l s = s.
Proof.
  induction l as [|x l IH]; intros H; simpl; [reflexivity|].
  rewrite H by (left; reflexivity). apply IH.
  intros x0 Hx. apply H. right. exact Hx.
Qed.

Lemma bestDescriptionOf_none text provider :
  descriptionSurvivors text provider = [] ->
  bestDescriptionOf text provider = (None, decimal 0 0).
Proof.
  unfold descriptionSurvivors, bestDescriptionOf. intros H.
  apply fold_left_id. intros pp Hpp.
  apply fold_left_id. intros mt Hmt.
  unfold descriptionStep.
  destruct (descriptionOfMatch provider (pp_confidence pp) mt) as [[d c]|] eqn:E;
    [|reflexivity].
  exfalso.
  assert (Hin : In (d, c) (descriptionSurvivors text provider)).
  { unfold descriptionSurvivors. apply in_flat_map. exists pp. split; auto.
    apply in_flat_map. exists mt. split; auto. rewrite E. left. reflexivity. }
  unfold descriptionSurvivors in Hin. rewrite H in Hin. destruct Hin.
Qed.

(** C8.  [extractDescription] never returns an absent description; when
    no match survives the filters, it returns ["Compra en " + provider]
    with confidence 0.5 for a provider that is present, and
    ["Gasto registrado"] with confidence 0.3 otherwise. *)
Theorem extractDescription_never_absent (text : str) (provider : option str) :
  ds_description (extractDescription text provider) <> None
  /\ (descriptionSurvivors text provider = [] ->
      extractDescription text provider
      = if truthy provider
        then MkDescriptionResult (Some (#"Compra en " ++ orEmpty provider))
                                 (decimal 5 1)
        else MkDescriptionResult (Some #"Gasto registrado") (decimal 3 1)).
Proof.
  split.
  - unfold extractDescription.
    destruct (bestDescriptionOf text provider) as [b c].
    destruct (truthy b) eqn:Tb; simpl.
    + destruct b; [discriminate|discriminate Tb].
    + destruct (truthy provider); simpl; discriminate.
  - intros H. unfold extractDescription.
    rewrite (bestDescriptionOf_none _ _ H). simpl.
    destruct (truthy provider); reflexivity.
Qed.

(** The currency is present exactly when the amount is: with no
    candidate both are absent, and the winning candidate brings an amount
    together with a currency text that is not empty.  The same holds for
    the record that [heuristicExtraction] builds. *)
Lemma currency_iff_amount (text : str) :
  (am_currency (extractAmount text) = None
   <-> am_amount (extractAmount text) = None)
  /\ (candidatesOf text = [] <-> am_amount (extractAmount text) = None)
  /\ truthy (am_currency (extractAmount text))
     = amountTruthy (am_amount (extractAmount text))
  /\ exists r,
       heuristicExtraction text = Returns r
       /\ amount (data r) = am_amount (extractAmount text)
       /\ currency (data r) = am_currency (extractAmount text)
       /\ (currency (data r) = None <-> amount (data r) = None).
Proof.
  assert (H0 : am_currency (extractAmount text) = None
               <-> am_amount (extractAmount text) = None).
  { destruct (extractAmount_cases text) as [[_ E]|(c & _ & E)]; rewrite E;
      simpl; split; intros H; try reflexivity; discriminate. }
  split; [exact H0|]. split; [|split].
  - destruct (extractAmount_cases text) as [[Ec E]|(c & Hc & E)]; rewrite E;
      simpl; split; intros H; auto; try discriminate.
    rewrite H in Hc. destruct Hc.
  - destruct (extractAmount_cases text) as [[_ E]|(c & Hc & E)]; rewrite E;
      simpl; [reflexivity|].
    destruct (candidatesOf_In _ _ Hc) as (pc & mt & _ & _ & Hcand).
    destruct (candidateOf_Some _ _ _ Hcand) as (T & _ & Tc & _).
    simpl in Tc. rewrite T. exact Tc.
  - unfold heuristicExtraction.
    destruct (extractProvider_returns text) as (p & Ep & _).
    rewrite Ep. cbn [bind]. eexists. split; [reflexivity|]. simpl.
    repeat split; auto; apply H0.
Qed.

(** ** The confidences that the scanners can return *)

Lemma extractDate_cases text :
  extractDate text = MkDateResult None (decimal 0 0)
  \/ exists iso, extractDate text = MkDateResult (Some iso) (decimal 9 1)
                 /\ truthy (Some iso) = true.
Proof.
  unfold extractDate.
  destruct (firstSome _ DATE_PATTERNS) as [iso|] eqn:E; [right|left; reflexivity].
  exists iso. split; [reflexivity|].
  assert (H : forall (l : list RegExp), 
             firstSome (fun pattern =>
                          firstSome (dateOfMatch pattern) (matchAll pattern text))
                       l = Some iso ->
             exists pattern mt, dateOfMatch pattern mt = Some iso).
  { induction l as [|p l IH]; simpl; [discriminate|].
    destruct (firstSome (dateOfMatch p) (matchAll p text)) as [s|] eqn:E1.
    - intros H. injection H as ->. clear IH.
      induction (matchAll p text) as [|mt ms IHm]; simpl in E1; [discriminate|].
      destruct (dateOfMatch p mt) as [s|] eqn:E2; eauto.
      injection E1 as ->. eauto.
    - exact IH. }
  destruct (H _ E) as (p & mt & Hd). unfold dateOfMatch in Hd.
  destruct (if includes (source p) _ then _ else _) as [[[y m] d]|];
    [|discriminate].
  destruct (isValidDate y m d); [|discriminate].
  injection Hd as <-.
  destruct (intToString _); reflexivity.
Qed.

Definition descriptionConfidences : list num :=
  flat_map (fun pp => [pp_confidence pp; add (pp_confidence pp) (decimal 1 1)])
           descriptionPatterns.

Lemma descriptionOfMatch_confidence provider confidence mt d c :
  descriptionOfMatch provider confidence mt = Some (d, c) ->
  c = confidence \/ c = add confidence (decimal 1 1).
Proof.
  unfold descriptionOfMatch.
  destruct (_ || _); [discriminate|].
  destruct (_ && _); [discriminate|].
  destruct (existsb _ _); [discriminate|].
  destruct (_ && _); [discriminate|].
  destruct (_ || _); intros H; injection H as <- <-; auto.
Qed.

Lemma fold_left_inv {A S} (P : S -> Prop) (f : S -> A -> S) (l : list A) :
  (forall s x, In x l -> P s -> P (f s x)) ->
  forall s, P s -> P (fold_left f l s).
Proof.
  induction l as [|x l IH]; intros Hf s Hs; simpl; [exact Hs|].
  apply IH.
  - intros s0 x0 Hin. apply Hf. right. exact Hin.
  - apply Hf; [left; reflexivity|exact Hs].
Qed.

Lemma bestDescriptionOf_confidence text provider :
  fst (bestDescriptionOf text provider) = None
  \/ In (snd (bestDescriptionOf text provider)) descriptionConfidences.
Proof.
  unfold bestDescriptionOf.
  apply (@fold_left_inv _ _ (fun b => fst b = None
                                      \/ In (snd b) descriptionConfidences)).
  - intros s pp Hpp Hs. apply fold_left_inv; [|exact Hs].
    intros s0 mt _ Hs0. unfold descriptionStep.
    destruct (descriptionOfMatch provider (pp_confidence pp) mt) as [[d c]|] eqn:E;
      [|exact Hs0].
    destruct (gt c (snd s0)); [|exact Hs0].
    right. cbn [snd]. unfold descriptionConfidences. apply in_flat_map.
    exists pp. split; [exact Hpp|].
    destruct (descriptionOfMatch_confidence _ _ _ E) as [->| ->]; simpl; auto.
  - left. reflexivity.
Qed.

Lemma extractDescription_confidence text provider :
  In (ds_confidence (extractDescription text provider))
     (decimal 5 1 :: decimal 3 1 :: descriptionConfidences).
Proof.
  unfold extractDescription.
  pose proof (bestDescriptionOf_confidence text provider) as H.
  destruct (bestDescriptionOf text provider) as [b c]. simpl in H.
  destruct (truthy b) eqn:Tb; simpl.
  - destruct H as [->|H]; [discriminate|]. right. right. exact H.
  - destruct (truthy provider); simpl; auto.
Qed.

(** [adjustConfidence] depends on the amount through five comparisons. *)
Definition adjustBy (base : num) (cur g50 g100 g1000 l1 l01 ctx : bool) : num :=
  let c := base in
  let c := if cur then Math_min (add c (decimal 5 2)) (decimal 1 0) else c in
  let c := if g50 then add c (decimal 2 2) else c in
  let c := if g100 then add c (decimal 3 2) else c in
  let c := if g1000 then add c (decimal 2 2) else c in
  let c := if l1 then sub c (decimal 2 1) else c in
  let c := if l01 then sub c (decimal 3 1) else c in
  Math_min (if ctx then add c (decimal 1 1) else c) (decimal 1 0).

Lemma adjustConfidence_adjustBy base cur n ctx :
  Math_min (adjustConfidence base cur n ctx) (decimal 1 0)
  = adjustBy base (truthy (Some cur))
      (gt n (decimal 50 0)) (gt n (decimal 100 0)) (gt n (decimal 1000 0))
      (lt n (decimal 1 0)) (lt n (decimal 1 1)) ctx.
Proof. reflexivity. Qed.

Definition bools : list bool := [true; false].

Lemma In_bools b : In b bools.
Proof. destruct b; simpl; auto. Qed.

Definition forallBools (f : bool -> bool) : bool := forallb f bools.

Lemma forallBools_spec f : forallBools f = true -> forall b, f b = true.
Proof.
  unfold forallBools. rewrite forallb_forall. intros H b. apply H, In_bools.
Qed.

Definition baseConfidences : list num := map pc_confidence AMOUNT_PATTERNS.

(** [P] holds of every confidence that a candidate can get. *)
Definition confidenceCases (P : num -> bool -> bool -> bool -> bool -> bool
                                -> bool -> bool -> bool) : bool :=
  forallb (fun base =>
    forallBools (fun cur => forallBools (fun g50 => forallBools (fun g100 =>
    forallBools (fun g1000 => forallBools (fun l1 => forallBools (fun l01 =>
    forallBools (fun ctx => P base cur g50 g100 g1000 l1 l01 ctx))))))))
    baseConfidences.

Lemma confidenceCases_spec P :
  confidenceCases P = true ->
  forall base cur g50 g100 g1000 l1 l01 ctx,
    In base baseConfidences -> P base cur g50 g100 g1000 l1 l01 ctx = true.
Proof.
  unfold confidenceCases. intros H base cur g50 g100 g1000 l1 l01 ctx Hb.
  rewrite forallb_forall in H. specialize (H base Hb).
  apply forallBools_spec with (b := cur) in H.
  apply forallBools_spec with (b := g50) in H.
  apply forallBools_spec with (b := g100) in H.
  apply forallBools_spec with (b := g1000) in H.
  apply forallBools_spec with (b := l1) in H.
  apply forallBools_spec with (b := l01) in H.
  apply forallBools_spec with (b := ctx) in H.
  exact H.
Qed.

(** The aggregation does not escalate on confidences of 0.8 or more that
    the scanners can return together with values: checked over the
    finitely many confidences. *)
Definition noEscalation (base : num) (cur g50 g100 g1000 l1 l01 ctx : bool)
  : bool :=
  let ca := adjustBy base cur g50 g100 g1000 l1 l01 ctx in
  if le (decimal 8 1) ca then
    forallb (fun cp =>
      if le (decimal 8 1) cp then
        forallb (fun cd =>
          if le (decimal 8 1) cd then
            negb (lt (weightedConfidenceOf
                        (MkConfidence ca (decimal 9 1) cp cd))
                     (decimal 6 1))
          else true)
          (decimal 5 1 :: decimal 3 1 :: descriptionConfidences)
      else true)
      providerConfidences
  else true.

Lemma noEscalation_cases : confidenceCases noEscalation = true.
Proof. vm_compute. reflexivity. Qed.

Lemma no_escalation base cur g50 g100 g1000 l1 l01 ctx cp cd :
  In base baseConfidences ->
  In cp providerConfidences ->
  In cd (decimal 5 1 :: decimal 3 1 :: descriptionConfidences) ->
  le (decimal 8 1) (adjustBy base cur g50 g100 g1000 l1 l01 ctx) = true ->
  le (decimal 8 1) cp = true ->
  le (decimal 8 1) cd = true ->
  lt (weightedConfidenceOf
        (MkConfidence (adjustBy base cur g50 g100 g1000 l1 l01 ctx)
                      (decimal 9 1) cp cd))
     (decimal 6 1) = false.
Proof.
  intros Hb Hcp Hcd La Lp Ld.
  pose proof (confidenceCases_spec _ noEscalation_cases
                cur g50 g100 g1000 l1 l01 ctx Hb) as K.
  unfold noEscalation in K. cbv zeta in K. rewrite La in K.
  rewrite forallb_forall in K. specialize (K _ Hcp). cbv beta in K.
  rewrite Lp in K.
  rewrite forallb_forall in K. specialize (K _ Hcd). cbv beta in K.
  rewrite Ld in K.
  apply negb_true_iff in K. exact K.
Qed.

Definition isNone {A} (o : option A) : bool :=
  match o with
  | None => true
  | Some _ => false
  end.

(** C5.  [heuristicExtraction] returns; its overall confidence is the
    weighted sum with the weights 0.4, 0.3, 0.2 and 0.1; it escalates
    exactly when that sum is below 0.6, or the amount is absent, or the
    date and the provider are both absent.  So it escalates whenever the
    amount is absent, and it does not when the four fields are present
    with confidences of 0.8 or more. *)
Theorem shouldUseLLM_disjunction (text : str) :
  exists r,
    heuristicExtraction text = Returns r
    /\ overallConfidence r
       = add (add (add (mul (conf_amount (confidence (data r))) (decimal 4 1))
                       (mul (conf_date (confidence (data r))) (decimal 3 1)))
                  (mul (conf_provider (confidence (data r))) (decimal 2 1)))
             (mul (conf_description (confidence (data r))) (decimal 1 1))
    /\ shouldUseLLM r
       = lt (overallConfidence r) (decimal 6 1)
         || isNone (amount (data r))
         || (isNone (date (data r)) && isNone (provider (data r)))
    /\ (amount (data r) = None -> shouldUseLLM r = true)
    /\ (amount (data r) <> None -> date (data r) <> None ->
        provider (data r) <> None -> description (data r) <> None ->
        le (decimal 8 1) (conf_amount (confidence (data r))) = true ->
        le (decimal 8 1) (conf_date (confidence (data r))) = true ->
        le (decimal 8 1) (conf_provider (confidence (data r))) = true ->
        le (decimal 8 1) (conf_description (confidence (data r))) = true ->
        shouldUseLLM r = false).
Proof.
  unfold heuristicExtraction.
  destruct (extractProvider_returns text) as (p & Ep & Hp).
  rewrite Ep. cbn [bind]. eexists. split; [reflexivity|].
  cbn [data shouldUseLLM overallConfidence confidence amount date provider
       description conf_amount conf_date conf_provider conf_description].
  assert (Ha : negb (amountTruthy (am_amount (extractAmount text)))
               = isNone (am_amount (extractAmount text))).
  { destruct (extractAmount_cases text) as [[_ E]|(c & Hc & E)]; rewrite E;
      simpl; [reflexivity|].
    destruct (candidatesOf_In _ _ Hc) as (pc & mt & _ & _ & Hcand).
    destruct (candidateOf_Some _ _ _ Hcand) as (T & _). rewrite T. reflexivity. }
  assert (Hd : negb (truthy (dt_date (extractDate text)))
               = isNone (dt_date (extractDate text))).
  { destruct (extractDate_cases text) as [E|(iso & E & T)]; rewrite E; simpl;
      [reflexivity|]. simpl in T. rewrite T. reflexivity. }
  assert (Hpr : negb (truthy (pr_provider p)) = isNone (pr_provider p)).
  { destruct Hp as [[-> _]|[T _]]; [reflexivity|].
    rewrite T. destruct (pr_provider p); [reflexivity|discriminate T]. }
  rewrite Ha, Hd, Hpr.
  split; [reflexivity|]. split; [reflexivity|]. split.
  - intros ->. cbn [isNone]. destruct (lt _ _); reflexivity.
  - intros Na Nd Np _ La Ld Lp Lds.
    assert (Ea : isNone (am_amount (extractAmount text)) = false)
      by (destruct (am_amount (extractAmount text)); [reflexivity|congruence]).
    assert (Ed : isNone (dt_date (extractDate text)) = false)
      by (destruct (dt_date (extractDate text)); [reflexivity|congruence]).
    rewrite Ea, Ed. cbn [andb]. rewrite !orb_false_r.
    (* the four confidences are among the finitely many checked ones *)
    destruct (extractDate_cases text) as [E|(iso & E & _)];
      [rewrite E in Nd; simpl in Nd; congruence|].
    rewrite E in *. cbn [dt_confidence] in *.
    destruct Hp as [[E0 _]|[_ Hcp]]; [congruence|].
    pose proof (extractDescription_confidence text (pr_provider p)) as Hcd.
    destruct (extractAmount_cases text) as [[_ E1]|(c & Hc & E1)];
      [rewrite E1 in Na; simpl in Na; congruence|].
    rewrite E1 in *. cbn [am_confidence] in *.
    destruct (candidatesOf_In _ _ Hc) as (pc & mt & Hpc & _ & Hcand).
    destruct (candidateOf_Some _ _ _ Hcand) as (_ & _ & _ & _ & cur & ctx & Ec).
    rewrite adjustConfidence_adjustBy in Ec.
    rewrite Ec.
    apply no_escalation;
      [unfold baseConfidences; apply in_map; exact Hpc|exact Hcp|exact Hcd
      |rewrite <- Ec; exact La|exact Lp|exact Lds].
Qed.

(** ** The matcher, one step at a time *)

Lemma matcher_eq ic r x :
  matcher ic r x
  = match r with
    | REmpty => [x]
    | RChar a => step (charMatches ic a) x
    | RAny => step (fun c => negb (isLineTerminator c)) x
    | RClass neg items => step (classMatches ic neg items) x
    | RSeq r1 r2 => flat_map (matcher ic r2) (matcher ic r1 x)
    | RAlt r1 r2 => matcher ic r1 x ++ matcher ic r2 x
    | RRepeat r1 min max greedy =>
        repeatMatcher (matcher ic r1) (groupsOf r1) greedy
          (S (min + List.length (after x))) min max x
    | RGroup i r1 =>
        map (fun y => setCap i (Some (consumed x y)) y) (matcher ic r1 x)
    | RAssert a => if holds a x then [x] else []
    | RLook neg r1 =>
        match matcher ic r1 x with
        | [] => if neg then [x] else []
        | y :: _ => if neg then [] else [MState (before x) (after x) (caps y)]
        end
    end.
Proof. destruct r; reflexivity. Qed.

Lemma repeatMatcher_eq mr gs greedy fuel min max x :
  repeatMatcher mr gs greedy (S fuel) min max x
  = match max with
    | Some O => [x]
    | _ =>
        let d := fun y =>
          if Nat.eqb min 0 && Nat.eqb (endIndex y) (endIndex x) then []
          else repeatMatcher mr gs greedy fuel (pred min)
                 (option_map pred max) y in
        let z := flat_map d (mr (clearCaps gs x)) in
        if negb (Nat.eqb min 0) then z
        else if greedy then z ++ [x]
        else x :: z
    end.
Proof. reflexivity. Qed.

Lemma clearCaps_before gs x : before (clearCaps gs x) = before x.
Proof.
  unfold clearCaps. revert x.
  induction gs as [|g gs IH]; intros x; simpl; [reflexivity|].
  rewrite IH. reflexivity.
Qed.

Lemma clearCaps_after gs x : after (clearCaps gs x) = after x.
Proof.
  unfold clearCaps. revert x.
  induction gs as [|g gs IH]; intros x; simpl; [reflexivity|].
  rewrite IH. reflexivity.
Qed.

Lemma flat_map_nil {A B} (f : A -> list B) (l : list A) :
  (forall a, In a l -> f a = []) -> flat_map f l = [].
Proof.
  induction l as [|a l IH]; intros H; simpl; [reflexivity|].
  rewrite H by (left; reflexivity). apply IH.
  intros b Hb. apply H. right. exact Hb.
Qed.

Lemma repeatMatcher_forward mr gs greedy :
  (forall x y, In y (mr x) -> reach anyChar x y) ->
  forall fuel min max x y,
    In y (repeatMatcher mr gs greedy fuel min max x) -> reach anyChar x y.
Proof.
  intros Hmr.
  apply (@repeatMatcher_inv anyGroup (reach anyChar)); auto.
  - apply reach_refl.
  - apply reach_trans.
  - intros x i v _. exists []. simpl. repeat split; auto.
    apply setNth_length.
  - apply Forall_forall. reflexivity.
Qed.

Lemma reach_length C x y :
  reach C x y -> (List.length (after y) <= List.length (after x))%nat.
Proof. intros (w & A & _). rewrite A, length_app. lia. Qed.

(** Zero further iterations. *)
Lemma repeatMatcher_stop mr gs greedy fuel max x :
  In x (repeatMatcher mr gs greedy (S fuel) 0 max x).
Proof.
  rewrite repeatMatcher_eq. destruct max as [[|k]|]; cbn [Nat.eqb negb].
  - left. reflexivity.
  - cbv zeta. destruct greedy; [apply in_or_app; right|]; left; reflexivity.
  - cbv zeta. destruct greedy; [apply in_or_app; right|]; left; reflexivity.
Qed.

(** One iteration and then the rest. *)
Lemma repeatMatcher_more mr gs greedy fuel min max x y0 y :
  max <> Some O ->
  In y0 (mr (clearCaps gs x)) ->
  Nat.eqb min 0 && Nat.eqb (endIndex y0) (endIndex x) = false ->
  In y (repeatMatcher mr gs greedy fuel (pred min) (option_map pred max) y0) ->
  In y (repeatMatcher mr gs greedy (S fuel) min max x).
Proof.
  intros Hmax H0 Hp Hy. rewrite repeatMatcher_eq.
  assert (Hz : In y (flat_map
                (fun y1 =>
                   if Nat.eqb min 0 && Nat.eqb (endIndex y1) (endIndex x)
                   then []
                   else repeatMatcher mr gs greedy fuel (pred min)
                          (option_map pred max) y1)
                (mr (clearCaps gs x)))).
  { apply in_flat_map. exists y0. split; [exact H0|]. rewrite Hp. exact Hy. }
  destruct max as [[|k]|]; [congruence| |]; cbv zeta;
    (destruct (negb (Nat.eqb min 0)); [exact Hz|]);
    (destruct greedy; [apply in_or_app; left; exact Hz|right; exact Hz]).
Qed.

(** *** Patterns that can match the empty text *)

Fixpoint nullable (r : regex) : bool :=
  match r with
  | REmpty => true
  | RSeq r1 r2 => nullable r1 && nullable r2
  | RAlt r1 r2 => nullable r1 || nullable r2
  | RRepeat _ min _ _ => Nat.eqb min 0
  | RGroup _ r1 => nullable r1
  | _ => false
  end.

Lemma nullable_In ic r :
  nullable r = true ->
  forall x, exists y, In y (matcher ic r x)
                      /\ before y = before x /\ after y = after x.
Proof.
  induction r as [|a| |neg items|r1 IH1 r2 IH2|r1 IH1 r2 IH2
                  |r1 IH1 min max greedy|i r1 IH1|a|neg r1 IH1];
    cbn [nullable]; intros Hn x; try discriminate; rewrite matcher_eq.
  - exists x. simpl. auto.
  - apply andb_prop in Hn. destruct Hn as [H1 H2].
    destruct (IH1 H1 x) as (m & Hm & Bm & Am).
    destruct (IH2 H2 m) as (y & Hy & By & Ay).
    exists y. split; [apply in_flat_map; eauto|]. split; congruence.
  - apply orb_prop in Hn. destruct Hn as [H|H].
    + destruct (IH1 H x) as (y & Hy & E). exists y. split; auto.
      apply in_or_app. auto.
    + destruct (IH2 H x) as (y & Hy & E). exists y. split; auto.
      apply in_or_app. auto.
  - apply Nat.eqb_eq in Hn. subst min. exists x. split; auto.
    apply repeatMatcher_stop.
  - destruct (IH1 Hn x) as (y & Hy & By & Ay).
    exists (setCap i (Some (consumed x y)) y). split; [|simpl; auto].
    apply in_map_iff. eauto.
Qed.

(** *** Patterns that consume at least one unit *)

Definition notZero (max : option nat) : bool :=
  match max with
  | Some O => false
  | _ => true
  end.

Fixpoint consuming (r : regex) : bool :=
  match r with
  | RChar _ | RAny | RClass _ _ => true
  | RSeq r1 r2 => consuming r1 || consuming r2
  | RAlt r1 r2 => consuming r1 && consuming r2
  | RRepeat r1 min max _ => negb (Nat.eqb min 0) && notZero max && consuming r1
  | RGroup _ r1 => consuming r1
  | _ => false
  end.

Lemma step_after p x y :
  In y (step p x) -> S (List.length (after y)) = List.length (after x).
Proof.
  unfold step. destruct (after x) as [|c rest]; [intros []|].
  destruct (p c); [|intros []]. intros [<-|[]]. reflexivity.
Qed.

Lemma consuming_progress ic r :
  consuming r = true ->
  forall x y, In y (matcher ic r x) ->
              (List.length (after y) < List.length (after x))%nat.
Proof.
  induction r as [|a| |neg items|r1 IH1 r2 IH2|r1 IH1 r2 IH2
                  |r1 IH1 min max greedy|i r1 IH1|a|neg r1 IH1];
    cbn [consuming]; intros Hc x y; try discriminate; rewrite matcher_eq;
    intros Hin.
  - apply step_after in Hin. lia.
  - apply step_after in Hin. lia.
  - apply step_after in Hin. lia.
  - apply in_flat_map in Hin. destruct Hin as (m & H1 & H2).
    pose proof (reach_length (matcher_forward _ _ _ _ H1)).
    pose proof (reach_length (matcher_forward _ _ _ _ H2)).
    apply orb_prop in Hc. destruct Hc as [Hc|Hc].
    + specialize (IH1 Hc _ _ H1). lia.
    + specialize (IH2 Hc _ _ H2). lia.
  - apply andb_prop in Hc. destruct Hc as [Hc1 Hc2].
    apply in_app_or in Hin. destruct Hin; auto.
  - apply andb_prop in Hc. destruct Hc as [Hc Hc1].
    apply andb_prop in Hc. destruct Hc as [Hmin Hmax].
    rewrite repeatMatcher_eq in Hin.
    destruct max as [[|k]|]; [discriminate Hmax| |]; cbv zeta in Hin;
      rewrite Hmin in Hin;
      apply in_flat_map in Hin; destruct Hin as (y0 & H0 & Hy);
      (destruct (Nat.eqb min 0 && Nat.eqb (endIndex y0) (endIndex x));
       [destruct Hy|]);
      specialize (IH1 Hc1 _ _ H0); rewrite clearCaps_after in IH1;
      (eapply repeatMatcher_forward in Hy;
       [|intros x0 y1; apply matcher_forward]);
      apply reach_length in Hy; lia.
  - apply in_map_iff in Hin. destruct Hin as (y0 & <- & H0).
    simpl. auto.
Qed.

(** *** A greedy run over one class *)

Fixpoint takeWhile {A} (p : A -> bool) (l : list A) : list A :=
  match l with
  | [] => []
  | x :: l' => if p x then x :: takeWhile p l' else []
  end.

Lemma takeWhile_dropWhile {A} (p : A -> bool) (l : list A) :
  takeWhile p l ++ dropWhile p l = l.
Proof.
  induction l as [|x l IH]; simpl; [reflexivity|].
  destruct (p x); simpl; congruence.
Qed.

Lemma step_cons p bef c aft cs :
  step p (MState bef (c :: aft) cs)
  = if p c then [MState (c :: bef) aft cs] else [].
Proof. reflexivity. Qed.

Lemma step_nil p bef cs : step p (MState bef [] cs) = [].
Proof. reflexivity. Qed.

(** The first result of [p*] is the state after the longest run. *)
Lemma greedy_run_head (p : char -> bool) cs : forall aft fuel bef,
  (List.length aft < fuel)%nat ->
  exists l,
    repeatMatcher (step p) [] true fuel 0 None (MState bef aft cs)
    = MState (rev (takeWhile p aft) ++ bef) (dropWhile p aft) cs :: l.
Proof.
  induction aft as [|c aft IH]; intros fuel bef Hf;
    (destruct fuel as [|fuel]; [simpl in Hf; lia|]);
    rewrite repeatMatcher_eq; cbv zeta; cbn [clearCaps fold_left Nat.eqb negb].
  - rewrite step_nil. simpl. eauto.
  - rewrite step_cons. cbn [takeWhile dropWhile].
    destruct (p c) eqn:Pc.
    + cbn [flat_map]. unfold endIndex. cbn [before List.length andb].
      replace (Nat.eqb (S (List.length bef)) (List.length bef)) with false
        by (symmetry; apply Nat.eqb_neq; lia).
      cbn [pred option_map]. rewrite app_nil_r.
      destruct (IH fuel (c :: bef)) as (l & E); [simpl in Hf; lia|].
      rewrite E. cbn [rev]. rewrite <- app_assoc. simpl. eauto.
    + simpl. eauto.
Qed.

(** ** Replacing the matches of a pattern *)

Lemma matchAt_None re bef aft :
  matcher (ignoreCase re) (ast re) (startState re bef aft) = [] ->
  matchAt re bef aft = None.
Proof.
  unfold matchAt. fold (startState re bef aft). intros ->. reflexivity.
Qed.

Lemma matchAt_Some_of_In re bef aft y :
  In y (matcher (ignoreCase re) (ast re) (startState re bef aft)) ->
  exists mt, matchAt re bef aft = Some mt.
Proof.
  unfold matchAt. fold (startState re bef aft).
  destruct (matcher _ _ _); [intros []|]. eauto.
Qed.

(** A pattern that consumes a unit makes progress wherever it matches. *)
Lemma matchAt_progress re bef aft mt :
  consuming (ast re) = true ->
  matchAt re bef aft = Some mt ->
  (List.length bef < lastIndex mt)%nat.
Proof.
  intros Hc H. destruct (matchAt_inv _ _ _ H) as (y & l & E & ->).
  assert (Hin : In y (matcher (ignoreCase re) (ast re) (startState re bef aft)))
    by (rewrite E; left; reflexivity).
  pose proof (consuming_progress _ _ Hc _ _ Hin) as Hp.
  destruct (matcher_forward _ _ _ _ Hin) as (w & A & B & _).
  cbn [lastIndex]. unfold endIndex. rewrite B, length_app, length_rev.
  rewrite A, length_app in Hp. simpl. lia.
Qed.

(** Where the pattern matches nowhere, nothing is replaced.  [P] is a
    property of the remaining text that the scan preserves. *)
Lemma replaceFrom_none re r (P : str -> Prop) :
  (forall c s, P (c :: s) -> P s) ->
  (forall bef s, P s -> matchAt re bef s = None) ->
  forall fuel bef aft, P aft -> replaceFrom re r fuel bef aft = aft.
Proof.
  intros Htl Hno. induction fuel as [|fuel IH]; intros bef aft Hp;
    [reflexivity|].
  cbn [replaceFrom]. rewrite (Hno bef aft Hp).
  destruct aft as [|c aft]; [reflexivity|].
  rewrite IH; [reflexivity|eapply Htl; eauto].
Qed.

Lemma skipn_length_le {A} (k : nat) (l : list A) :
  (List.length (skipn k l) <= List.length l)%nat.
Proof. rewrite length_skipn. lia. Qed.

(** Removing matches does not lengthen the text. *)
Lemma replaceFrom_length re : forall fuel bef aft,
  (List.length (replaceFrom re [] fuel bef aft) <= List.length aft)%nat.
Proof.
  induction fuel as [|fuel IH]; intros bef aft; cbn [replaceFrom]; [lia|].
  destruct (matchAt re bef aft) as [mt|].
  - destruct (lastIndex mt - List.length bef)%nat as [|k] eqn:Ek.
    + destruct aft as [|c aft]; [simpl; lia|].
      cbn [app List.length]. specialize (IH (c :: bef) aft). lia.
    + cbn [app].
      eapply Nat.le_trans; [apply IH|]. apply skipn_length_le.
  - destruct aft as [|c aft]; [simpl; lia|].
    cbn [List.length]. specialize (IH (c :: bef) aft). lia.
Qed.

(** When the pattern matches, with progress, at every unit that fails
    [keep], the units that remain all satisfy [keep]. *)
Lemma replaceFrom_keep re (keep : char -> bool) :
  (forall bef c aft, keep c = false ->
     exists mt, matchAt re bef (c :: aft) = Some mt
                /\ (List.length bef < lastIndex mt)%nat) ->
  forall fuel bef aft,
    (List.length aft <= fuel)%nat ->
    forallb keep (replaceFrom re [] fuel bef aft) = true.
Proof.
  intros Hm. induction fuel as [|fuel IH]; intros bef aft Hf.
  - destruct aft; [reflexivity|simpl in Hf; lia].
  - cbn [replaceFrom].
    destruct aft as [|c aft].
    + destruct (matchAt re bef []) as [mt|]; [|reflexivity].
      destruct (lastIndex mt - List.length bef)%nat; [reflexivity|].
      cbn [app]. apply IH. simpl. lia.
    + simpl in Hf. destruct (keep c) eqn:Kc.
      * destruct (matchAt re bef (c :: aft)) as [mt|] eqn:E.
        -- destruct (lastIndex mt - List.length bef)%nat as [|k] eqn:Ek.
           ++ cbn [app forallb]. rewrite Kc. apply IH. lia.
           ++ cbn [app]. apply IH.
              pose proof (skipn_length_le k aft). simpl. lia.
        -- cbn [forallb]. rewrite Kc. apply IH. lia.
      * destruct (Hm bef c aft Kc) as (mt & E & Hp). rewrite E.
        destruct (lastIndex mt - List.length bef)%nat as [|k] eqn:Ek; [lia|].
        cbn [app]. apply IH.
        pose proof (skipn_length_le k aft). simpl. lia.
Qed.

(** ** The patterns of the repair pass *)

Definition digitClass : regex := RClass false [CDigit false].

Lemma digitClass_matches ic c : classMatches ic false [CDigit false] c = isDigit c.
Proof.
  unfold classMatches. cbn [existsb itemMatches xorb].
  destruct (isDigit c); reflexivity.
Qed.

Definition noDigits (s : str) : bool := forallb (fun c => negb (isDigit c)) s.

Lemma noDigits_tail c s : noDigits (c :: s) = true -> noDigits s = true.
Proof. unfold noDigits. cbn [forallb]. intros H. apply andb_prop in H. tauto. Qed.

Lemma noDigits_suffix w s : noDigits (w ++ s) = true -> noDigits s = true.
Proof.
  unfold noDigits. rewrite forallb_app. intros H. apply andb_prop in H. tauto.
Qed.

(** On a text without digits, a mandatory digit fails at once. *)
Lemma digits_required ic x min max greedy :
  noDigits (after x) = true -> notZero max = true ->
  matcher ic (RRepeat digitClass (S min) max greedy) x = [].
Proof.
  intros Hn Hmax.
  assert (Hs : matcher ic digitClass x = []).
  { unfold digitClass. rewrite matcher_eq. unfold step.
    destruct (after x) as [|c rest]; [reflexivity|].
    rewrite digitClass_matches.
    unfold noDigits in Hn. cbn [forallb] in Hn. apply andb_prop in Hn.
    destruct Hn as [Hn _]. apply negb_true_iff in Hn. rewrite Hn. reflexivity. }
  rewrite matcher_eq, repeatMatcher_eq.
  replace (groupsOf digitClass) with (@nil nat) by reflexivity.
  cbn [clearCaps fold_left Nat.eqb negb]. cbv zeta. rewrite Hs.
  destruct max as [[|k]|]; [discriminate Hmax|reflexivity|reflexivity].
Qed.

Lemma amountText_shape :
  exists rest,
    ast amountText
    = RSeq (RRepeat (RChar 36) 0 (Some 1%nat) true)
           (RSeq (RRepeat digitClass 1 None true) rest)
    /\ nullable rest = true
    /\ consuming (ast amountText) = true
    /\ ignoreCase amountText = false.
Proof. vm_compute. eexists. repeat split. Qed.

Lemma amountText_none bef s :
  noDigits s = true -> matchAt amountText bef s = None.
Proof.
  intros Hn. apply matchAt_None.
  destruct amountText_shape as (rest & -> & _ & _ & ->).
  rewrite matcher_eq. apply flat_map_nil. intros m Hm.
  rewrite matcher_eq.
  assert (Hnm : noDigits (after m) = true).
  { destruct (matcher_forward _ _ _ _ Hm) as (w & A & _).
    cbn [after startState] in A. rewrite A in Hn.
    eapply noDigits_suffix; eauto. }
  rewrite digits_required; auto.
Qed.

Lemma amountText_digit bef c aft :
  negb (isDigit c) = false ->
  exists mt, matchAt amountText bef (c :: aft) = Some mt
             /\ (List.length bef < lastIndex mt)%nat.
Proof.
  intros Hd. apply negb_false_iff in Hd.
  destruct amountText_shape as (rest & Ea & Hnull & Hcons & Ei).
  set (x := startState amountText bef (c :: aft)).
  set (y1 := MState (c :: bef) aft (caps x)).
  destruct (nullable_In false rest Hnull y1) as (y & Hy & _).
  assert (Hin : In y (matcher (ignoreCase amountText) (ast amountText) x)).
  { rewrite Ea, Ei. rewrite matcher_eq. apply in_flat_map.
    exists x. split.
    - rewrite matcher_eq. apply repeatMatcher_stop.
    - rewrite matcher_eq. apply in_flat_map. exists y1. split; [|exact Hy].
      rewrite matcher_eq. cbn [Nat.add].
      eapply repeatMatcher_more with (y0 := y1).
      + discriminate.
      + unfold digitClass. cbn [groupsOf clearCaps fold_left].
        rewrite matcher_eq. unfold x, startState. rewrite step_cons.
        rewrite digitClass_matches, Hd. left. reflexivity.
      + reflexivity.
      + cbn [pred option_map]. apply repeatMatcher_stop. }
  destruct (matchAt_Some_of_In _ _ _ _ Hin) as (mt & E).
  exists mt. split; [exact E|]. eapply matchAt_progress; eauto.
Qed.

Lemma dateText_none bef s :
  noDigits s = true -> matchAt dateText bef s = None.
Proof.
  intros Hn. apply matchAt_None.
  assert (E : exists rest,
             ast dateText = RSeq (RRepeat digitClass 1 (Some 2%nat) true) rest
             /\ ignoreCase dateText = false)
    by (vm_compute; eexists; split; reflexivity).
  destruct E as (rest & -> & ->).
  rewrite matcher_eq. rewrite digits_required; auto.
Qed.

(** The amounts are removed: no digit remains. *)
Lemma remove_amountText s : noDigits (replaceAll amountText s []) = true.
Proof.
  unfold replaceAll, noDigits. apply replaceFrom_keep; [|lia].
  intros bef c aft. apply amountText_digit.
Qed.

Lemma remove_none re s :
  (forall bef t, noDigits t = true -> matchAt re bef t = None) ->
  noDigits s = true -> replaceAll re s [] = s.
Proof.
  intros Hno Hn. unfold replaceAll.
  apply replaceFrom_none with (P := fun t => noDigits t = true); auto.
  intros c t. apply noDigits_tail.
Qed.

Lemma replaceAll_length re s :
  (List.length (replaceAll re s []) <= List.length s)%nat.
Proof. apply replaceFrom_length. Qed.

(** ** Collapsing white space *)

Definition spaceClass : regex := RClass false [CSpace false].

Lemma spaceClass_matches ic c :
  classMatches ic false [CSpace false] c = isWhiteSpace c.
Proof.
  unfold classMatches. cbn [existsb itemMatches xorb].
  destruct (isWhiteSpace c); reflexivity.
Qed.

Lemma takeWhile_ext {A} (p q : A -> bool) (l : list A) :
  (forall a, p a = q a) -> takeWhile p l = takeWhile q l.
Proof.
  intros H. induction l as [|a l IH]; simpl; [reflexivity|].
  rewrite H, IH. reflexivity.
Qed.

Lemma spaces_shape :
  ast spaces = RSeq (RRepeat spaceClass 1 None true) REmpty
  /\ ignoreCase spaces = false /\ ngroups spaces = O.
Proof. vm_compute. repeat split. Qed.

Lemma spaces_none bef aft :
  match aft with
  | c :: _ => isWhiteSpace c = false
  | [] => True
  end ->
  matchAt spaces bef aft = None.
Proof.
  intros H. apply matchAt_None.
  destruct spaces_shape as (-> & -> & _).
  rewrite matcher_eq, (matcher_eq _ (RRepeat _ _ _ _)), repeatMatcher_eq.
  replace (groupsOf spaceClass) with (@nil nat) by reflexivity.
  cbn [clearCaps fold_left Nat.eqb negb]. cbv zeta.
  unfold spaceClass at 2. rewrite matcher_eq. unfold step.
  cbn [after startState].
  destruct aft as [|c rest]; [reflexivity|].
  rewrite spaceClass_matches, H. reflexivity.
Qed.

Lemma spaces_run bef c rest :
  isWhiteSpace c = true ->
  exists mt,
    matchAt spaces bef (c :: rest) = Some mt
    /\ lastIndex mt
       = S (List.length bef + List.length (takeWhile isWhiteSpace rest)).
Proof.
  intros Hc. unfold matchAt. fold (startState spaces bef (c :: rest)).
  destruct spaces_shape as (-> & -> & _).
  rewrite matcher_eq, (matcher_eq _ (RRepeat _ _ _ _)), repeatMatcher_eq.
  replace (groupsOf spaceClass) with (@nil nat) by reflexivity.
  cbn [clearCaps fold_left Nat.eqb negb]. cbv zeta.
  unfold spaceClass.
  change (matcher false (RClass false [CSpace false]))
    with (step (classMatches false false [CSpace false])).
  unfold startState. rewrite step_cons.
  rewrite spaceClass_matches, Hc. cbn [flat_map andb pred option_map after].
  rewrite app_nil_r.
  destruct (greedy_run_head (classMatches false false [CSpace false])
              (repeat None (ngroups spaces))
              rest (c :: bef) (fuel := (1 + List.length (c :: rest))%nat))
    as (l & E); [simpl; lia|].
  rewrite E. cbn [flat_map app]. rewrite (matcher_eq _ REmpty). cbn [app].
  eexists. split; [reflexivity|].
  cbn [lastIndex]. unfold endIndex. cbn [before].
  rewrite length_app, length_rev. cbn [List.length].
  rewrite (takeWhile_ext _ isWhiteSpace rest (spaceClass_matches false)). lia.
Qed.

(** [s.replace(/\s+/g, ' ')] as a function on lists: every run of white
    space becomes one space. *)
Fixpoint collapseRun (inRun : bool) (s : str) : str :=
  match s with
  | [] => []
  | c :: s' =>
      if isWhiteSpace c then
        if inRun then collapseRun true s' else 32 :: collapseRun true s'
      else c :: collapseRun false s'
  end.

Lemma collapseRun_skip s :
  collapseRun true s = collapseRun false (dropWhile isWhiteSpace s).
Proof.
  induction s as [|c s IH]; simpl; [reflexivity|].
  destruct (isWhiteSpace c) eqn:E; [exact IH|].
  simpl. rewrite E. reflexivity.
Qed.

Lemma skipn_takeWhile {A} (p : A -> bool) (l : list A) :
  skipn (List.length (takeWhile p l)) l = dropWhile p l.
Proof.
  induction l as [|a l IH]; simpl; [reflexivity|].
  destruct (p a); simpl; auto.
Qed.

Lemma replaceFrom_spaces : forall fuel bef aft,
  (List.length aft <= fuel)%nat ->
  replaceFrom spaces #" " fuel bef aft = collapseRun false aft.
Proof.
  induction fuel as [|fuel IH]; intros bef aft Hf.
  - destruct aft; [reflexivity|simpl in Hf; lia].
  - cbn [replaceFrom]. destruct aft as [|c rest].
    + rewrite spaces_none by exact I. reflexivity.
    + simpl in Hf. cbn [collapseRun].
      destruct (isWhiteSpace c) eqn:Ec.
      * destruct (@spaces_run bef c rest Ec) as (mt & E & L). rewrite E, L.
        replace (S (List.length bef + List.length (takeWhile isWhiteSpace rest))
                 - List.length bef)%nat
          with (S (List.length (takeWhile isWhiteSpace rest))) by lia.
        cbn [skipn]. rewrite skipn_takeWhile, IH.
        -- rewrite collapseRun_skip. reflexivity.
        -- rewrite <- skipn_takeWhile. pose proof (skipn_length_le
             (List.length (takeWhile isWhiteSpace rest)) rest). lia.
      * rewrite spaces_none by exact Ec. rewrite IH by lia. reflexivity.
Qed.

Lemma replaceAll_spaces s : replaceAll spaces s #" " = collapseRun false s.
Proof. unfold replaceAll. apply replaceFrom_spaces. lia. Qed.

(** *** Texts in which white space is single spaces *)

Fixpoint loose (afterSpace : bool) (s : str) : bool :=
  match s with
  | [] => true
  | c :: s' =>
      if isWhiteSpace c
      then N.eqb c 32 && negb afterSpace && loose true s'
      else loose false s'
  end.

Lemma loose_weaken b s : loose true s = true -> loose b s = true.
Proof.
  destruct s as [|c s]; simpl; [reflexivity|].
  destruct (isWhiteSpace c); [|auto].
  rewrite andb_false_r. discriminate.
Qed.

Lemma collapseRun_loose b s : loose b (collapseRun b s) = true.
Proof.
  revert b. induction s as [|c s IH]; intros b; simpl; [reflexivity|].
  destruct (isWhiteSpace c) eqn:E.
  - destruct b; [apply IH|].
    simpl. replace (isWhiteSpace 32) with true by reflexivity.
    simpl. apply IH.
  - simpl. rewrite E. apply IH.
Qed.

Lemma collapseRun_id b s : loose b s = true -> collapseRun b s = s.
Proof.
  revert b. induction s as [|c s IH]; intros b; simpl; [reflexivity|].
  destruct (isWhiteSpace c).
  - intros H. apply andb_prop in H. destruct H as [H H3].
    apply andb_prop in H. destruct H as [H1 H2].
    apply N.eqb_eq in H1. apply negb_true_iff in H2. subst b c.
    rewrite IH by exact H3. reflexivity.
  - intros H. rewrite IH by exact H. reflexivity.
Qed.

Lemma dropWhile_loose b s :
  loose b s = true -> loose true (dropWhile isWhiteSpace s) = true.
Proof.
  revert b. induction s as [|c s IH]; intros b; simpl; [reflexivity|].
  destruct (isWhiteSpace c) eqn:E.
  - intros H. apply andb_prop in H. destruct H as [_ H]. eapply IH; eauto.
  - intros H. simpl. rewrite E. exact H.
Qed.

Lemma dropWhile_app {A} (p : A -> bool) (l1 l2 : list A) :
  dropWhile p (l1 ++ l2)
  = match dropWhile p l1 with
    | [] => dropWhile p l2
    | t => t ++ l2
    end.
Proof.
  induction l1 as [|a l1 IH]; simpl; [destruct (dropWhile p l2); reflexivity|].
  destruct (p a); [exact IH|reflexivity].
Qed.

(** [trimEnd] from the front. *)
Lemma trimEnd_cons c s :
  trimEnd (c :: s)
  = match trimEnd s with
    | [] => if isWhiteSpace c then [] else [c]
    | t => c :: t
    end.
Proof.
  unfold trimEnd. cbn [rev]. rewrite dropWhile_app.
  destruct (dropWhile isWhiteSpace (rev s)) as [|a t] eqn:E.
  - simpl. destruct (isWhiteSpace c); reflexivity.
  - rewrite rev_app_distr. simpl.
    destruct (rev t ++ [a]) eqn:E2; [|reflexivity].
    destruct (rev t); discriminate.
Qed.

Lemma loose_cons b c s :
  loose b (c :: s)
  = if isWhiteSpace c then N.eqb c 32 && negb b && loose true s
    else loose false s.
Proof. reflexivity. Qed.

Lemma trimEnd_loose s : forall b, loose b s = true -> loose b (trimEnd s) = true.
Proof.
  induction s as [|c s IH]; intros b H; [reflexivity|].
  rewrite trimEnd_cons. rewrite loose_cons in H.
  destruct (trimEnd s) as [|a t] eqn:E.
  - destruct (isWhiteSpace c) eqn:Ec; [reflexivity|].
    rewrite loose_cons, Ec. reflexivity.
  - rewrite loose_cons. destruct (isWhiteSpace c).
    + apply andb_prop in H. destruct H as [H H3]. rewrite H.
      apply IH. exact H3.
    + apply IH. exact H.
Qed.

Lemma trimEnd_head c s :
  isWhiteSpace c = false -> exists t, trimEnd (c :: s) = c :: t.
Proof.
  intros H. rewrite trimEnd_cons. rewrite H.
  destruct (trimEnd s); eauto.
Qed.

Lemma dropWhile_idem {A} (p : A -> bool) (l : list A) :
  dropWhile p (dropWhile p l) = dropWhile p l.
Proof.
  induction l as [|a l IH]; simpl; [reflexivity|].
  destruct (p a) eqn:E; [exact IH|]. simpl. rewrite E. reflexivity.
Qed.

Lemma dropWhile_head {A} (p : A -> bool) (l : list A) :
  match dropWhile p l with
  | a :: _ => p a = false
  | [] => True
  end.
Proof.
  induction l as [|a l IH]; simpl; [exact I|].
  destruct (p a) eqn:E; [exact IH|exact E].
Qed.

Lemma trim_idem s : trim (trim s) = trim s.
Proof.
  unfold trim, trimStart.
  pose proof (dropWhile_head isWhiteSpace s) as Hh.
  destruct (dropWhile isWhiteSpace s) as [|c v] eqn:E.
  - reflexivity.
  - destruct (@trimEnd_head c v Hh) as (t & Et). rewrite Et.
    simpl. rewrite Hh. rewrite <- Et.
    unfold trimEnd. rewrite rev_involutive, dropWhile_idem. reflexivity.
Qed.

Lemma trim_loose s b : loose b s = true -> loose b (trim s) = true.
Proof.
  intros H. unfold trim, trimStart.
  apply trimEnd_loose. apply loose_weaken. eapply dropWhile_loose; eauto.
Qed.

Lemma dropWhile_length {A} (p : A -> bool) (l : list A) :
  (List.length (dropWhile p l) <= List.length l)%nat.
Proof.
  induction l as [|a l IH]; simpl; [lia|]. destruct (p a); simpl; lia.
Qed.

Lemma trim_length s : (List.length (trim s) <= List.length s)%nat.
Proof.
  unfold trim, trimEnd, trimStart. rewrite length_rev.
  eapply Nat.le_trans; [apply dropWhile_length|].
  rewrite length_rev. apply dropWhile_length.
Qed.

Lemma collapseRun_length b s :
  (List.length (collapseRun b s) <= List.length s)%nat.
Proof.
  revert b. induction s as [|c s IH]; intros b; simpl; [lia|].
  pose proof (IH true). pose proof (IH false).
  destruct (isWhiteSpace c); [destruct b|]; simpl; lia.
Qed.

Lemma dropWhile_forallb {A} (p q : A -> bool) (l : list A) :
  forallb q l = true -> forallb q (dropWhile p l) = true.
Proof.
  induction l as [|a l IH]; simpl; [reflexivity|].
  intros H. apply andb_prop in H. destruct H as [H1 H2].
  destruct (p a); [auto|]. simpl. rewrite H1. exact H2.
Qed.

Lemma forallb_rev {A} (q : A -> bool) (l : list A) :
  forallb q (rev l) = forallb q l.
Proof.
  induction l as [|a l IH]; simpl; [reflexivity|].
  rewrite forallb_app, IH. simpl. rewrite andb_true_r. apply andb_comm.
Qed.

Lemma trim_noDigits s : noDigits s = true -> noDigits (trim s) = true.
Proof.
  unfold noDigits, trim, trimEnd, trimStart. intros H.
  rewrite forallb_rev. apply dropWhile_forallb.
  rewrite forallb_rev. apply dropWhile_forallb. exact H.
Qed.

Lemma collapseRun_noDigits b s :
  noDigits s = true -> noDigits (collapseRun b s) = true.
Proof.
  unfold noDigits. revert b. induction s as [|c s IH]; intros b; simpl;
    [reflexivity|].
  intros H. apply andb_prop in H. destruct H as [H1 H2].
  destruct (isWhiteSpace c); [destruct b|].
  - apply IH, H2.
  - cbn [forallb]. replace (isDigit 32) with false by reflexivity.
    apply IH, H2.
  - cbn [forallb]. rewrite H1. apply IH, H2.
Qed.

(** The tidy form of a text: runs of white space collapsed, ends
    trimmed. *)
Definition tidy (s : str) : str := trim (collapseRun false s).

Lemma tidy_idem s : tidy (tidy s) = tidy s.
Proof.
  unfold tidy.
  rewrite (collapseRun_id false (trim (collapseRun false s))).
  - apply trim_idem.
  - apply trim_loose. apply collapseRun_loose.
Qed.

Lemma tidy_length s : (List.length (tidy s) <= List.length s)%nat.
Proof.
  unfold tidy. eapply Nat.le_trans; [apply trim_length|].
  apply collapseRun_length.
Qed.

Lemma tidy_noDigits s : noDigits s = true -> noDigits (tidy s) = true.
Proof. intros H. apply trim_noDigits, collapseRun_noDigits, H. Qed.

(** ** The repair pass on a record without provider *)

(** The description that the second [if] of [validateAndFixFields]
    writes when no provider is present. *)
Definition scrubbed (d : str) : str :=
  let t := tidy (replaceAll dateText (replaceAll amountText d []) []) in
  if negb (truthy (Some t)) || Nat.ltb (List.length t) 5
  then #"Compra general"
  else t.

Lemma scrubDescription_noProvider r :
  truthy (provider r) = false ->
  scrubDescription r
  = Returns (if truthy (description r)
             then setDescription (Some (scrubbed (orEmpty (description r)))) r
             else r).
Proof.
  intros Hp. unfold scrubDescription, scrubbed.
  destruct (truthy (description r)); [|reflexivity].
  rewrite Hp. cbn [bind]. rewrite replaceAll_spaces. fold (tidy
    (replaceAll dateText (replaceAll amountText (orEmpty (description r)) []) [])).
  destruct (negb _ || _); reflexivity.
Qed.

Lemma fallback_facts :
  noDigits #"Compra general" = true
  /\ tidy #"Compra general" = #"Compra general"
  /\ List.length #"Compra general" = 14%nat.
Proof. vm_compute. repeat split. Qed.

Lemma scrubbed_facts d :
  noDigits (scrubbed d) = true
  /\ tidy (scrubbed d) = scrubbed d
  /\ (5 <= List.length (scrubbed d))%nat
  /\ (List.length (scrubbed d) <= Nat.max (List.length d) 14)%nat.
Proof.
  destruct fallback_facts as (F1 & F2 & F3).
  unfold scrubbed. cbv zeta.
  set (d1 := replaceAll amountText d []).
  assert (N1 : noDigits d1 = true) by apply remove_amountText.
  assert (E2 : replaceAll dateText d1 [] = d1)
    by (apply remove_none; [apply dateText_none|exact N1]).
  rewrite E2.
  destruct (negb (truthy (Some (tidy d1))) || Nat.ltb (List.length (tidy d1)) 5)
    eqn:Ec.
  - rewrite F3. repeat split; auto; lia.
  - apply orb_false_iff in Ec. destruct Ec as [_ Ec].
    apply Nat.ltb_ge in Ec.
    repeat split.
    + apply tidy_noDigits, N1.
    + apply tidy_idem.
    + exact Ec.
    + pose proof (tidy_length d1). pose proof (replaceAll_length amountText d).
      fold d1 in H0. lia.
Qed.

Lemma scrubbed_idem d : scrubbed (scrubbed d) = scrubbed d.
Proof.
  destruct (scrubbed_facts d) as (N & T & L & _).
  set (o := scrubbed d) in *. unfold scrubbed at 1. cbv zeta.
  rewrite (remove_none amountText o) by (auto; apply amountText_none).
  rewrite (remove_none dateText o) by (auto; apply dateText_none).
  rewrite T.
  assert (Ht : truthy (Some o) = true) by (destruct o; [simpl in L; lia|reflexivity]).
  rewrite Ht. cbn [negb orb].
  replace (Nat.ltb (List.length o) 5) with false
    by (symmetry; apply Nat.ltb_ge; exact L).
  reflexivity.
Qed.

Lemma repairFromDescription_off r :
  allInDescription r = false -> repairFromDescription r = Returns r.
Proof. unfold repairFromDescription. intros ->. reflexivity. Qed.

(** On a record without provider on which the condition of the first
    [if] is false (the description is absent or has at most 50 units, or
    the amount is present), a second pass of [validateAndFixFields]
    changes nothing. *)
Lemma validateAndFixFields_idempotent_noProvider (r : ExtractedData) :
  truthy (provider r) = false ->
  allInDescription r = false ->
  (r1 <- validateAndFixFields r ;; validateAndFixFields r1)
  = validateAndFixFields r.
Proof.
  intros Hp Ht. unfold validateAndFixFields at 1 3.
  rewrite (repairFromDescription_off r Ht). cbn [bind].
  rewrite (scrubDescription_noProvider r Hp).
  destruct (truthy (description r)) eqn:Td; cbn [bind].
  - set (o := scrubbed (orEmpty (description r))).
    destruct (scrubbed_facts (orEmpty (description r))) as (_ & _ & L5 & Lmax).
    fold o in L5, Lmax.
    assert (Hp1 : truthy (provider (setDescription (Some o) r)) = false)
      by exact Hp.
    assert (Ht1 : allInDescription (setDescription (Some o) r) = false).
    { unfold allInDescription in *. cbn [setDescription description provider
        amount orEmpty]. rewrite Td in Ht. rewrite Hp in *.
      cbn [negb andb] in *. rewrite andb_true_r in *.
      destruct (amountTruthy (amount r)); [rewrite !andb_false_r; reflexivity|].
      cbn [negb] in *. rewrite andb_true_r in *.
      apply Nat.ltb_ge in Ht.
      replace (Nat.ltb 50 (List.length o)) with false
        by (symmetry; apply Nat.ltb_ge; lia).
      apply andb_false_r. }
    unfold validateAndFixFields.
    rewrite (repairFromDescription_off _ Ht1). cbn [bind].
    rewrite (scrubDescription_noProvider _ Hp1).
    cbn [setDescription description orEmpty].
    assert (Ho : truthy (Some o) = true)
      by (destruct o; [simpl in L5; lia|reflexivity]).
    rewrite Ho. unfold o at 1. rewrite scrubbed_idem. reflexivity.
  - unfold validateAndFixFields.
    rewrite (repairFromDescription_off r Ht). cbn [bind].
    rewrite (scrubDescription_noProvider r Hp), Td. reflexivity.
Qed.

Definition cafeReceipt : ExtractedData :=
  MkExtractedData (Some #"Compra de  2 cafes por $5.50 USD el 10/02/2024")
    None (Some (decimal 55 1)) (Some #"USD") None noConfidence.

Definition longDescription : ExtractedData :=
  MkExtractedData (Some (repeat (ch "a") 99 ++ #"0" ++ repeat (ch "b") 20))
    None None None None noConfidence.

(** Where the condition of the first [if] holds and nothing can be
    derived from the description, the second pass differs as well: the
    description is cut and marked again. *)
Lemma validateAndFixFields_not_idempotent_long :
  (r1 <- validateAndFixFields longDescription ;; validateAndFixFields r1)
  <> validateAndFixFields longDescription.
Proof. vm_compute. discriminate. Qed.

(** ** Rounding: what [ratio] returns on a quotient that is not small *)

Section Rounding.

Open Scope Z_scope.

Lemma digits2_upper (p : positive) : Zpos p < 2 ^ Zpos (digits2_pos p).
Proof.
  induction p as [p IH|p IH|]; cbn [digits2_pos];
    rewrite ?Pos2Z.inj_succ, ?Z.pow_succ_r by lia; lia.
Qed.

Lemma digits2_lower (p : positive) : 2 ^ (Zpos (digits2_pos p) - 1) <= Zpos p.
Proof.
  induction p as [p IH|p IH|]; cbn [digits2_pos];
    rewrite ?Pos2Z.inj_succ;
    try (replace (Z.succ (Zpos (digits2_pos p)) - 1)
           with (Z.succ (Zpos (digits2_pos p) - 1)) by lia;
         rewrite Z.pow_succ_r by lia; lia).
  simpl. lia.
Qed.

Lemma Zdigits2_nonneg (z : Z) : 0 <= Zdigits2 z.
Proof. destruct z; simpl; lia. Qed.

Lemma Zdigits2_pos (z : Z) : 0 < z -> 0 < Zdigits2 z.
Proof. destruct z; simpl; lia. Qed.

Lemma Zdigits2_zero (z : Z) : 0 <= z -> 0 < Zdigits2 z -> 0 < z.
Proof. destruct z; simpl; lia. Qed.

(** A number of at least [2 ^ k] has more than [k] binary digits. *)
Lemma Zdigits2_above (k z : Z) : 0 <= k -> 2 ^ k <= z -> k < Zdigits2 z.
Proof.
  intros Hk Hz. assert (0 < 2 ^ k) by (apply Z.pow_pos_nonneg; lia).
  destruct z as [|p|p]; try lia.
  pose proof (digits2_upper p) as Hu. simpl.
  apply (Z.pow_lt_mono_r_iff 2); lia.
Qed.

(** One shift to the right drops one binary digit. *)
Lemma shr_1_digits (r : shr_record) :
  0 <= shr_m r ->
  0 <= shr_m (shr_1 r)
  /\ Zdigits2 (shr_m (shr_1 r)) = Z.max 0 (Zdigits2 (shr_m r) - 1).
Proof.
  destruct r as [m r s]. cbn [shr_m]. intros Hm.
  destruct m as [|[p|p|]|p]; cbn [shr_1 shr_m Zdigits2 digits2_pos];
    rewrite ?Pos2Z.inj_succ; lia.
Qed.

Lemma iter_shr_1_digits (p : positive) : forall r,
  0 <= shr_m r ->
  0 <= shr_m (iter_pos shr_1 p r)
  /\ Zdigits2 (shr_m (iter_pos shr_1 p r))
     = Z.max 0 (Zdigits2 (shr_m r) - Zpos p).
Proof.
  induction p as [p IH|p IH|]; intros r Hr; cbn [iter_pos].
  - destruct (shr_1_digits r Hr) as [H1 E1].
    destruct (IH _ H1) as [H2 E2]. destruct (IH _ H2) as [H3 E3].
    split; [exact H3|]. rewrite E3, E2, E1. lia.
  - destruct (IH _ Hr) as [H2 E2]. destruct (IH _ H2) as [H3 E3].
    split; [exact H3|]. rewrite E3, E2. lia.
  - apply shr_1_digits. exact Hr.
Qed.

(** A shift by fewer places than the number has digits leaves a positive
    number; the exponent does not decrease. *)
Lemma shr_positive (r : shr_record) (e n : Z) :
  0 < shr_m r -> n < Zdigits2 (shr_m r) ->
  0 < shr_m (fst (shr r e n)) /\ e <= snd (shr r e n) /\ e + n <= snd (shr r e n).
Proof.
  intros Hm Hn. destruct n as [|p|p]; cbn [shr fst snd]; try lia.
  destruct (iter_shr_1_digits p r) as [H E]; [lia|].
  split; [|lia]. apply Zdigits2_zero; [exact H|]. rewrite E. lia.
Qed.

Lemma shr_record_of_loc_m m l : shr_m (shr_record_of_loc m l) = m.
Proof. destruct l as [|[]]; reflexivity. Qed.

Lemma round_nearest_even_ge m l : m <= round_nearest_even m l.
Proof.
  destruct l as [|[]]; cbn [round_nearest_even]; try lia.
  destruct (Z.even m); lia.
Qed.

Lemma shr_fexp_positive (m e : Z) (l : location) :
  0 < m -> -1074 < Zdigits2 m + e ->
  0 < shr_m (fst (shr_fexp 53 1024 m e l))
  /\ e <= snd (shr_fexp 53 1024 m e l)
  /\ Zdigits2 m + e - 53 <= snd (shr_fexp 53 1024 m e l).
Proof.
  intros Hm Hd. unfold shr_fexp.
  assert (Hf : fexp 53 1024 (Zdigits2 m + e)
               = Z.max (Zdigits2 m + e - 53) (-1074)) by reflexivity.
  set (n := fexp 53 1024 (Zdigits2 m + e) - e).
  assert (Hn : n = Z.max (Zdigits2 m + e - 53) (-1074) - e)
    by (unfold n; rewrite Hf; reflexivity).
  clearbody n. clear Hf.
  destruct (@shr_positive (shr_record_of_loc m l) e n) as (H1 & H2 & H3).
  - rewrite shr_record_of_loc_m. exact Hm.
  - rewrite shr_record_of_loc_m. lia.
  - repeat split; auto. lia.
Qed.

(** Rounding a positive number of magnitude at least [2 ^ (L - 1)] gives
    a positive number with exponent at least [L - 53], or overflows. *)
Lemma binary_round_aux_positive (m e : Z) (l : location) (L : Z) :
  0 < m -> -1021 <= L -> L <= Zdigits2 m + e ->
  match binary_round_aux 53 1024 false m e l with
  | S754_finite false _ e' => L - 53 <= e'
  | S754_infinity false => True
  | _ => False
  end.
Proof.
  intros Hm HL Hd. unfold binary_round_aux.
  destruct (@shr_fexp_positive m e l Hm) as (A1 & A2 & A3); [lia|].
  destruct (shr_fexp 53 1024 m e l) as [mrs1 e1]. cbn [fst snd] in A1, A2, A3.
  set (mr := round_nearest_even (shr_m mrs1) (loc_of_shr_record mrs1)).
  assert (Hmr : 0 < mr).
  { pose proof (round_nearest_even_ge (shr_m mrs1) (loc_of_shr_record mrs1)).
    unfold mr. lia. }
  pose proof (@Zdigits2_pos mr Hmr) as Hdr.
  destruct (@shr_fexp_positive mr e1 loc_Exact Hmr) as (B1 & B2 & B3);
    [lia|].
  destruct (shr_fexp 53 1024 mr e1 loc_Exact) as [mrs2 e2].
  cbn [fst snd] in B1, B2, B3.
  destruct (shr_m mrs2) as [|q|q]; try lia.
  destruct (e2 <=? 1024 - 53); [lia|exact I].
Qed.

(** The quotient of the division, before rounding. *)
Lemma div_core_positive (p d : positive) :
  Zpos d <= 8 * Zpos p ->
  exists q e l,
    SFdiv_core_binary 53 1024 (Zpos p) 0 (Zpos d) 0 = (q, e, l)
    /\ 0 < q /\ -2 <= Zdigits2 q + e.
Proof.
  intros H8. unfold SFdiv_core_binary.
  set (d1 := Zdigits2 (Zpos p)). set (d2 := Zdigits2 (Zpos d)).
  assert (Hf : fexp 53 1024 (d1 + 0 - (d2 + 0))
               = Z.max (d1 - d2 - 53) (-1074))
    by (unfold fexp, emin; f_equal; lia).
  rewrite Hf. clear Hf.
  set (e' := Z.min (Z.max (d1 - d2 - 53) (-1074)) (0 - 0)).
  assert (He' : e' <= 0) by (unfold e'; lia).
  pose proof (digits2_lower p) as Lp. pose proof (digits2_upper d) as Ud.
  fold (Zdigits2 (Zpos p)) in Lp. fold d1 in Lp.
  fold (Zdigits2 (Zpos d)) in Ud. fold d2 in Ud.
  assert (Hd2 : 0 < d2) by (unfold d2; simpl; lia).
  assert (Hs : 0 - 0 - e' = - e') by lia. rewrite Hs. clear Hs.
  assert (Hq : forall m', m' = Zpos p * 2 ^ (- e') ->
            0 < m' / Zpos d /\ -2 <= Zdigits2 (m' / Zpos d) + e').
  { intros m' ->.
    assert (Hpow : 0 < 2 ^ (- e')) by (apply Z.pow_pos_nonneg; lia).
    destruct (Z_le_gt_dec 3 (- e')) as [Hs|Hs].
    - assert (Hlow : 2 ^ (- e' - 3) <= Zpos p * 2 ^ (- e') / Zpos d).
      { apply Z.div_le_lower_bound; [lia|].
        replace (- e') with (3 + (- e' - 3)) at 2 by lia.
        rewrite Z.pow_add_r by lia.
        assert (0 < 2 ^ (- e' - 3)) by (apply Z.pow_pos_nonneg; lia).
        change (2 ^ 3) with 8. nia. }
      assert (0 < 2 ^ (- e' - 3)) by (apply Z.pow_pos_nonneg; lia).
      split; [lia|].
      pose proof (@Zdigits2_above (- e' - 3) _ ltac:(lia) Hlow). lia.
    - assert (Hbig : d1 - d2 >= 51) by (unfold e' in Hs; lia).
      assert (Hpd : Zpos d <= Zpos p).
      { assert (2 ^ d2 <= 2 ^ (d1 - 1)) by (apply Z.pow_le_mono_r; lia). lia. }
      assert (Hone : 1 <= Zpos p * 2 ^ (- e') / Zpos d).
      { apply Z.div_le_lower_bound; [lia|]. nia. }
      split; [lia|].
      pose proof (@Zdigits2_pos (Zpos p * 2 ^ (- e') / Zpos d) ltac:(lia)).
      lia. }
  destruct (- e') as [|s|s] eqn:Es; [| |lia].
  - destruct (Hq (Zpos p)) as [Q1 Q2]; [simpl; lia|].
    unfold Z.div in Q1, Q2.
    destruct (Z.div_eucl (Zpos p) (Zpos d)) as [q r]. cbn [fst] in Q1, Q2.
    exists q, e', (new_location (Zpos d) r). auto.
  - destruct (Hq (Z.shiftl (Zpos p) (Zpos s))) as [Q1 Q2];
      [rewrite Z.shiftl_mul_pow2 by lia; reflexivity|].
    unfold Z.div in Q1, Q2.
    destruct (Z.div_eucl (Z.shiftl (Zpos p) (Zpos s)) (Zpos d)) as [q r].
    cbn [fst] in Q1, Q2. exists q, e', (new_location (Zpos d) r). auto.
Qed.

End Rounding.

(** A quotient of at least one eighth is a positive number with exponent
    at least -55, or overflows. *)
Lemma ratio_large (p d : positive) :
  (Zpos d <= 8 * Zpos p)%Z ->
  match ratio p d with
  | S754_finite false _ e => (-55 <= e)%Z
  | S754_infinity false => True
  | _ => False
  end.
Proof.
  intros H. unfold ratio.
  destruct (@div_core_positive p d H) as (q & e & l & -> & Hq & Hd).
  apply (@binary_round_aux_positive q e l (-2)); lia.
Qed.

(** ** The numbers that a decimal text of one or two places denotes *)

Definition smallNumerators : list positive :=
  [1; 2; 3; 4; 5; 6; 7; 8; 9; 10; 11; 12]%positive.

Definition denominators : list positive := [1; 10; 100]%positive.

Lemma ratio_small_cases :
  forallb (fun d =>
    forallb (fun p =>
      numTruthy (ratio p d) && gt (ratio p d) (decimal 0 0)
      && negb (isNaN (ratio p d))
      && (negb (lt (ratio p d) (decimal 1 1))
          || (Pos.eqb d 100 && Pos.leb p 9)))
      smallNumerators)
    denominators = true.
Proof. vm_compute. reflexivity. Qed.

Lemma tenth_shape : exists m, decimal 1 1 = S754_finite false m (-56)%Z.
Proof. vm_compute. eexists. reflexivity. Qed.

(** With one of the denominators 1, 10 and 100 the quotient is a positive
    number, and it is below one tenth only for a numerator of one digit
    over 100. *)
Lemma ratio_decimal (p d : positive) :
  In d denominators ->
  numTruthy (ratio p d) = true
  /\ gt (ratio p d) (decimal 0 0) = true
  /\ isNaN (ratio p d) = false
  /\ (lt (ratio p d) (decimal 1 1) = true -> d = 100%positive /\ (p <= 9)%positive).
Proof.
  intros Hd.
  destruct (Z_le_gt_dec (Zpos d) (8 * Zpos p)) as [Hl|Hs].
  - pose proof (@ratio_large p d Hl) as H.
    destruct tenth_shape as (m & ->).
    destruct (ratio p d) as [s|[|]| |[|] q e]; try contradiction;
      (split; [reflexivity|split; [reflexivity|split; [reflexivity|]]]);
      unfold lt, SFltb; cbn [SFcompare]; try discriminate.
    destruct (Z.compare_spec e (-56)); try discriminate; lia.
  - assert (Hp : In p smallNumerators).
    { destruct Hd as [<-|[<-|[<-|[]]]]; simpl; lia. }
    pose proof ratio_small_cases as C.
    rewrite forallb_forall in C. specialize (C d Hd).
    rewrite forallb_forall in C. specialize (C p Hp).
    apply andb_prop in C. destruct C as [C C4].
    apply andb_prop in C. destruct C as [C C3].
    apply andb_prop in C. destruct C as [C1 C2].
    apply negb_true_iff in C3.
    repeat split; auto.
    + apply orb_prop in C4. destruct C4 as [C4|C4].
      * apply negb_true_iff in C4. congruence.
      * apply andb_prop in C4. destruct C4 as [C4 _].
        apply Pos.eqb_eq in C4. exact C4.
    + apply orb_prop in C4. destruct C4 as [C4|C4].
      * apply negb_true_iff in C4. congruence.
      * apply andb_prop in C4. destruct C4 as [_ C4].
        apply Pos.leb_le in C4. exact C4.
Qed.

(** The value of the digits [v] with [k] of them after the point. *)
Lemma scaled_places (p : positive) (k : nat) :
  (k <= 2)%nat ->
  exists d, In d denominators
            /\ scaled (Npos p) (0 - Z.of_nat k) = ratio p d
            /\ (d = 100%positive -> k = 2%nat).
Proof.
  intros Hk. destruct k as [|[|[|k]]]; [| | |lia].
  - exists 1%positive. simpl. intuition discriminate.
  - exists 10%positive. simpl. intuition discriminate.
  - exists 100%positive. simpl. intuition.
Qed.

Lemma scaled_positive (v : N) (k : nat) :
  (k <= 2)%nat -> v <> 0 ->
  numTruthy (scaled v (0 - Z.of_nat k)) = true
  /\ gt (scaled v (0 - Z.of_nat k)) (decimal 0 0) = true
  /\ isNaN (scaled v (0 - Z.of_nat k)) = false
  /\ (lt (scaled v (0 - Z.of_nat k)) (decimal 1 1) = true ->
      k = 2%nat /\ v <= 9).
Proof.
  intros Hk Hv. destruct v as [|p]; [congruence|].
  destruct (@scaled_places p k Hk) as (d & Hd & -> & H100).
  destruct (@ratio_decimal p d Hd) as (A & B & C & D).
  repeat split; auto.
  - apply H100. apply D. exact H.
  - destruct (D H) as [_ Hp]. lia.
Qed.

Lemma scaled_zero (k : Z) : scaled 0 k = S754_zero false.
Proof. reflexivity. Qed.

(** ** The confidence of a candidate of [extractAmount] *)

(** The thresholds of [adjustConfidence] lie in different binades. *)
Lemma thresholds_shape :
  exists m50 m100 m1000 m1 m01,
    decimal 50 0 = S754_finite false m50 (-47)%Z
    /\ decimal 100 0 = S754_finite false m100 (-46)%Z
    /\ decimal 1000 0 = S754_finite false m1000 (-43)%Z
    /\ decimal 1 0 = S754_finite false m1 (-52)%Z
    /\ decimal 1 1 = S754_finite false m01 (-56)%Z.
Proof. vm_compute. do 5 eexists. repeat split. Qed.

Lemma gt_chain (m1 m2 : positive) (e1 e2 : Z) (n : num) :
  (e1 < e2)%Z ->
  gt n (S754_finite false m2 e2) = true ->
  gt n (S754_finite false m1 e1) = true.
Proof.
  intros He. unfold gt, SFltb.
  destruct n as [s|[|]| |[|] m e]; cbn [SFcompare]; try discriminate; auto.
  destruct (Z.compare_spec e2 e); try discriminate;
    destruct (Z.compare_spec e1 e); auto; try lia.
Qed.

Lemma lt_chain (m1 m2 : positive) (e1 e2 : Z) (n : num) :
  (e1 < e2)%Z ->
  lt n (S754_finite false m1 e1) = true ->
  lt n (S754_finite false m2 e2) = true.
Proof.
  intros He. unfold lt, SFltb.
  destruct n as [s|[|]| |[|] m e]; cbn [SFcompare]; try discriminate; auto.
  destruct (Z.compare_spec e e1); try discriminate;
    destruct (Z.compare_spec e e2); auto; try lia.
Qed.

Lemma lt_not_gt (m1 m2 : positive) (e1 e2 : Z) (n : num) :
  (e1 < e2)%Z ->
  lt n (S754_finite false m1 e1) = true ->
  gt n (S754_finite false m2 e2) = false.
Proof.
  intros He. unfold lt, gt, SFltb.
  destruct n as [s|[|]| |[|] m e]; cbn [SFcompare]; try discriminate; auto.
  destruct (Z.compare_spec e e1); try discriminate;
    destruct (Z.compare_spec e2 e); auto; try lia.
Qed.

(** The five comparisons of one amount agree with each other. *)
Definition consistent (g50 g100 g1000 l1 l01 : bool) : bool :=
  implb g1000 g100 && implb g100 g50 && implb l01 l1 && negb (g50 && l1).

Lemma flags_consistent (n : num) :
  consistent (gt n (decimal 50 0)) (gt n (decimal 100 0))
    (gt n (decimal 1000 0)) (lt n (decimal 1 0)) (lt n (decimal 1 1)) = true.
Proof.
  destruct thresholds_shape as (m50 & m100 & m1000 & m1 & m01
                                & -> & -> & -> & -> & ->).
  pose proof (@gt_chain m100 m1000 (-46) (-43) n ltac:(lia)) as A.
  pose proof (@gt_chain m50 m100 (-47) (-46) n ltac:(lia)) as B.
  pose proof (@lt_chain m01 m1 (-56) (-52) n ltac:(lia)) as C.
  pose proof (@lt_not_gt m1 m50 (-52) (-47) n ltac:(lia)) as D.
  revert A B C D.
  destruct (gt n (S754_finite false m1000 (-43))),
           (gt n (S754_finite false m100 (-46))),
           (gt n (S754_finite false m50 (-47))),
           (lt n (S754_finite false m1 (-52))),
           (lt n (S754_finite false m01 (-56)));
    intros A B C D; try reflexivity;
    try discriminate (A eq_refl); try discriminate (B eq_refl);
    try discriminate (C eq_refl); try discriminate (D eq_refl).
Qed.

Definition confidenceOf (base : num) (cur ctx : bool) (n : num) : num :=
  adjustBy base cur (gt n (decimal 50 0)) (gt n (decimal 100 0))
    (gt n (decimal 1000 0)) (lt n (decimal 1 0)) (lt n (decimal 1 1)) ctx.

(** Every candidate has one of the seven base confidences, adjusted by
    the comparisons of its own amount. *)
Definition profiled (c : Candidate) : Prop :=
  exists base cur ctx,
    In base baseConfidences
    /\ c_confidence c = confidenceOf base cur ctx (c_amount c).

Lemma candidate_profiled text c :
  In c (candidatesOf text) -> profiled c.
Proof.
  intros H. destruct (candidatesOf_In _ _ H) as (pc & mt & Hpc & _ & Hc).
  destruct (candidateOf_Some _ _ _ Hc) as (_ & _ & _ & _ & cur & ctx & E).
  rewrite adjustConfidence_adjustBy in E.
  exists (pc_confidence pc), (truthy (Some cur)), ctx. split; [|exact E].
  unfold baseConfidences. apply in_map. exact Hpc.
Qed.

Definition nonneg (a : num) : bool := le (decimal 0 0) a.

Definition boundedAbove (base : num) (cur g50 g100 g1000 l1 l01 ctx : bool)
  : bool :=
  le (adjustBy base cur g50 g100 g1000 l1 l01 ctx) (decimal 1 0).

Lemma boundedAbove_cases : confidenceCases boundedAbove = true.
Proof. vm_compute. reflexivity. Qed.

(** Only the last pattern, on an amount below one tenth, gives a negative
    confidence. *)
Definition negativeOnlyLast (base : num) (cur g50 g100 g1000 l1 l01 ctx : bool)
  : bool :=
  if consistent g50 g100 g1000 l1 l01 then
    if nonneg (adjustBy base cur g50 g100 g1000 l1 l01 ctx) then true
    else lt base (decimal 5 1) && l01
  else true.

Lemma negativeOnlyLast_cases : confidenceCases negativeOnlyLast = true.
Proof. vm_compute. reflexivity. Qed.

(** The comparison function of the sort puts every confidence that is not
    negative before every negative one, whichever way round it is asked. *)
Definition apart (ca cb : num) : bool :=
  negb (lt (Math_abs (sub ca cb)) (decimal 5 2))
  && negb (lt (Math_abs (sub cb ca)) (decimal 5 2))
  && lt (sub ca cb) (decimal 0 0)
  && negb (lt (sub cb ca) (decimal 0 0)).

Definition negativeApart (base : num) (cur g50 g100 g1000 l1 l01 ctx : bool)
  : bool :=
  let ca := adjustBy base cur g50 g100 g1000 l1 l01 ctx in
  if consistent g50 g100 g1000 l1 l01 then
    if nonneg ca then true
    else
      confidenceCases (fun base' cur' g50' g100' g1000' l1' l01' ctx' =>
        let cb := adjustBy base' cur' g50' g100' g1000' l1' l01' ctx' in
        if consistent g50' g100' g1000' l1' l01' then
          if nonneg cb then apart ca cb else true
        else true)
  else true.

Lemma negativeApart_cases : confidenceCases negativeApart = true.
Proof. vm_compute. reflexivity. Qed.

Lemma profiled_le_1 c : profiled c -> le (c_confidence c) (decimal 1 0) = true.
Proof.
  intros (base & cur & ctx & Hb & ->).
  exact (@confidenceCases_spec boundedAbove boundedAbove_cases
           _ _ _ _ _ _ _ _ Hb).
Qed.

Lemma confidenceOf_negative base cur ctx n :
  In base baseConfidences ->
  nonneg (confidenceOf base cur ctx n) = false ->
  lt base (decimal 5 1) = true /\ lt n (decimal 1 1) = true.
Proof.
  intros Hb Hn.
  pose proof (@confidenceCases_spec negativeOnlyLast negativeOnlyLast_cases
                base cur (gt n (decimal 50 0)) (gt n (decimal 100 0))
                (gt n (decimal 1000 0)) (lt n (decimal 1 0))
                (lt n (decimal 1 1)) ctx Hb) as K.
  unfold negativeOnlyLast in K. rewrite flags_consistent in K.
  fold (confidenceOf base cur ctx n) in K.
  rewrite Hn in K. apply andb_prop in K. exact K.
Qed.

Lemma profiled_apart a b :
  profiled a -> profiled b ->
  nonneg (c_confidence a) = false -> nonneg (c_confidence b) = true ->
  apart (c_confidence a) (c_confidence b) = true.
Proof.
  intros (ba & cura & ctxa & Hba & Ea) (bb & curb & ctxb & Hbb & Eb) Ha Hb.
  pose proof (@confidenceCases_spec negativeApart negativeApart_cases
                ba cura (gt (c_amount a) (decimal 50 0))
                (gt (c_amount a) (decimal 100 0))
                (gt (c_amount a) (decimal 1000 0))
                (lt (c_amount a) (decimal 1 0))
                (lt (c_amount a) (decimal 1 1)) ctxa Hba) as K.
  unfold negativeApart in K. cbv zeta in K.
  rewrite flags_consistent in K.
  fold (confidenceOf ba cura ctxa (c_amount a)) in K.
  rewrite <- Ea, Ha in K.
  pose proof (@confidenceCases_spec _ K
                bb curb (gt (c_amount b) (decimal 50 0))
                (gt (c_amount b) (decimal 100 0))
                (gt (c_amount b) (decimal 1000 0))
                (lt (c_amount b) (decimal 1 0))
                (lt (c_amount b) (decimal 1 1)) ctxb Hbb) as K2.
  cbv beta zeta in K2. rewrite flags_consistent in K2.
  fold (confidenceOf bb curb ctxb (c_amount b)) in K2.
  rewrite <- Eb, Hb in K2. exact K2.
Qed.

(** ** The sort puts a good element first *)

Section SortFirst.

Variable A : Type.
Variable cmp : A -> A -> num.
Variable good : A -> bool.
Variable Q : A -> Prop.

(** The comparison puts the good elements before the others, whichever
    of the two it is asked about first. *)
Hypothesis good_first :
  forall x y, Q x -> Q y -> good x = true -> good y = false ->
              precedes cmp x y = true /\ precedes cmp y x = false.

(** Nothing but elements that are not good follows such an element in a
    list whose neighbours are in order. *)
Lemma chain_rest_not_good (l : list A) :
  forall w, chain (inOrder cmp) (w :: l) -> Forall Q (w :: l) ->
            good w = false ->
            forall z, In z l -> good z = false.
Proof.
  induction l as [|y l IH]; intros w Hc Hq Gw z Hz; [destruct Hz|].
  destruct Hc as [Hwy Hc].
  inversion Hq as [|? ? Qw Hq']; subst.
  inversion Hq' as [|? ? Qy _]; subst.
  assert (Gy : good y = false).
  { destruct (good y) eqn:Gy; [|reflexivity].
    destruct (good_first Qy Qw Gy Gw) as [K1 K2].
    destruct Hwy as [K|K]; congruence. }
  destruct Hz as [<-|Hz]; [exact Gy|].
  exact (IH y Hc Hq' Gy z Hz).
Qed.

Lemma sortBy_good_first l :
  Forall Q l -> forall g, In g l -> good g = true ->
  forall w rest, sortBy cmp l = w :: rest -> good w = true.
Proof.
  intros Ql g Hg Gg w rest E.
  destruct (good w) eqn:Gw; [reflexivity|].
  assert (Hc : chain (inOrder cmp) (w :: rest))
    by (rewrite <- E; apply sortBy_chain).
  assert (Hq : Forall Q (w :: rest)).
  { apply Forall_forall. intros z Hz. rewrite <- E in Hz.
    apply sortBy_In in Hz. rewrite Forall_forall in Ql. auto. }
  assert (Hin : In g (w :: rest))
    by (rewrite <- E; apply sortBy_In; exact Hg).
  destruct Hin as [<-|Hin]; [congruence|].
  rewrite (@chain_rest_not_good rest w Hc Hq Gw g Hin) in Gg. discriminate Gg.
Qed.

End SortFirst.

(** A candidate whose confidence is not negative comes before one whose
    confidence is negative, in both comparisons of the two. *)
Lemma compareCandidates_first x y :
  profiled x -> profiled y ->
  nonneg (c_confidence x) = true -> nonneg (c_confidence y) = false ->
  precedes compareCandidates x y = true
  /\ precedes compareCandidates y x = false.
Proof.
  intros Px Py Gx Gy. pose proof (profiled_apart Py Px Gy Gx) as K.
  unfold apart in K.
  apply andb_prop in K. destruct K as [K K4].
  apply andb_prop in K. destruct K as [K K3].
  apply andb_prop in K. destruct K as [K1 K2].
  apply negb_true_iff in K1. apply negb_true_iff in K2.
  apply negb_true_iff in K4.
  unfold precedes, compareCandidates. rewrite K1, K2. split; assumption.
Qed.

Lemma best_candidate_nonneg text g w rest :
  In g (candidatesOf text) -> nonneg (c_confidence g) = true ->
  sortBy compareCandidates (candidatesOf text) = w :: rest ->
  nonneg (c_confidence w) = true.
Proof.
  intros Hg Gg E.
  apply (@sortBy_good_first Candidate compareCandidates
           (fun c => nonneg (c_confidence c)) profiled
           compareCandidates_first
           (candidatesOf text)) with (g := g) (rest := rest); auto.
  apply Forall_forall. intros c Hc. eapply candidate_profiled; eauto.
Qed.

(** The comparison of the candidates is not an order.  On the text below
    the pattern of totals reads 200 with confidence 1, the pattern of
    decimal amounts reads 250 with a confidence just above 0.95, and the
    pattern of large numbers reads 2000 with confidence 0.92: the first
    comes before the third by confidence, the third before the second by
    amount, and the second before the first by amount again, the two
    confidences being less than 0.05 apart. *)
Definition crossedText : str := #"total 2000 xxxxxxxxxxxxxxxxxxxxxx 250.00".

Lemma compareCandidates_cycle :
  exists c1 c2 c3,
    In c1 (candidatesOf crossedText) /\ In c2 (candidatesOf crossedText)
    /\ In c3 (candidatesOf crossedText)
    /\ c_amount c1 = decimal 200 0 /\ c_amount c2 = decimal 250 0
    /\ c_amount c3 = decimal 2000 0
    /\ precedes compareCandidates c1 c3 = true
    /\ precedes compareCandidates c3 c2 = true
    /\ precedes compareCandidates c2 c1 = true.
Proof.
  remember (candidatesOf crossedText) as l eqn:E.
  vm_compute in E. subst l.
  eexists; eexists; eexists.
  split; [left; reflexivity|].
  split; [right; left; reflexivity|].
  split; [right; right; left; reflexivity|].
  repeat (split; [vm_compute; reflexivity|]). vm_compute; reflexivity.
Qed.

(** On that text the sort puts the candidate 2000 first, and the scanner
    returns it. *)
Lemma extractAmount_crossed :
  extractAmount crossedText
  = MkAmountResult (Some (decimal 2000 0)) (Some #"2000") (decimal 92 2).
Proof. vm_compute. reflexivity. Qed.

(** ** Texts of digits, points and commas *)

Unset Implicit Arguments.

Definition isSep (c : char) : bool := (c =? 46) || (c =? 44).
Definition isNumChar (c : char) : bool := isDigit c || isSep c.
Definition numeric (s : str) : bool := forallb isNumChar s.
Definition allDigits (s : str) : bool := forallb isDigit s.

Definition numChars : list char :=
  [44; 46; 48; 49; 50; 51; 52; 53; 54; 55; 56; 57].

Lemma isNumChar_In c : isNumChar c = true -> In c numChars.
Proof.
  unfold isNumChar, isSep, isDigit, in_range. intros H.
  apply orb_prop in H. destruct H as [H|H].
  - apply andb_prop in H. destruct H as [H1 H2].
    apply N.leb_le in H1. apply N.leb_le in H2. simpl. lia.
  - apply orb_prop in H. destruct H as [H|H]; apply N.eqb_eq in H;
      simpl; lia.
Qed.

(** A property of code units that holds of the twelve holds of every
    unit of a numeric text. *)
Lemma numChars_all (P : char -> bool) :
  forallb P numChars = true -> forall c, isNumChar c = true -> P c = true.
Proof.
  intros H c Hc. rewrite forallb_forall in H. apply H, isNumChar_In, Hc.
Qed.

Lemma isDigit_isNumChar c : isDigit c = true -> isNumChar c = true.
Proof. unfold isNumChar. intros ->. reflexivity. Qed.

Lemma allDigits_numeric s : allDigits s = true -> numeric s = true.
Proof.
  unfold allDigits, numeric. rewrite !forallb_forall.
  intros H c Hc. apply isDigit_isNumChar. auto.
Qed.

Lemma numeric_app a b :
  numeric (a ++ b) = numeric a && numeric b.
Proof. apply forallb_app. Qed.

Lemma allDigits_app a b :
  allDigits (a ++ b) = allDigits a && allDigits b.
Proof. apply forallb_app. Qed.

(** *** Patterns of one class on such texts *)

Lemma class_none re neg items (keep : char -> bool) :
  ast re = RSeq (RClass neg items) REmpty ->
  (forall c, keep c = true -> classMatches (ignoreCase re) neg items c = false) ->
  forall bef s, forallb keep s = true -> matchAt re bef s = None.
Proof.
  intros Ea Hk bef s Hs. apply matchAt_None. rewrite Ea.
  rewrite matcher_eq. rewrite (matcher_eq _ (RClass neg items)).
  unfold startState. destruct s as [|c s]; [reflexivity|].
  rewrite step_cons. cbn [forallb] in Hs. apply andb_prop in Hs.
  rewrite (Hk c) by tauto. reflexivity.
Qed.

Lemma class_keeps re neg items (keep : char -> bool) :
  ast re = RSeq (RClass neg items) REmpty ->
  (forall c, keep c = true -> classMatches (ignoreCase re) neg items c = false) ->
  forall s, forallb keep s = true -> replaceAll re s [] = s.
Proof.
  intros Ea Hk s Hs. unfold replaceAll.
  apply replaceFrom_none with (P := fun t => forallb keep t = true); auto.
  - intros c t H. cbn [forallb] in H. apply andb_prop in H. tauto.
  - intros bef t Ht. eapply class_none; eauto.
Qed.

Lemma currencyChars_keeps s :
  numeric s = true -> replaceAll currencyChars s [] = s.
Proof.
  apply class_keeps with (neg := false)
    (items := [CChar 36; CChar 226; CChar 8218; CChar 172; CChar 194;
               CChar 163; CChar 194; CChar 165; CChar 226; CChar 8218;
               CChar 185; CChar 66; CChar 115]); [reflexivity|].
  intros c Hc.
  apply (numChars_all
           (fun c => negb (classMatches (ignoreCase currencyChars) false
              [CChar 36; CChar 226; CChar 8218; CChar 172; CChar 194;
               CChar 163; CChar 194; CChar 165; CChar 226; CChar 8218;
               CChar 185; CChar 66; CChar 115] c)))
    in Hc; [|reflexivity].
  apply negb_true_iff in Hc. exact Hc.
Qed.

Lemma notNumeric_keeps s :
  numeric s = true -> replaceAll notNumeric s [] = s.
Proof.
  apply class_keeps with (neg := true)
    (items := [CDigit false; CChar 46; CChar 44]); [reflexivity|].
  intros c Hc.
  apply (numChars_all
           (fun c => negb (classMatches (ignoreCase notNumeric) true
              [CDigit false; CChar 46; CChar 44] c)))
    in Hc; [|reflexivity].
  apply negb_true_iff in Hc. exact Hc.
Qed.

Lemma notDigit_keeps s :
  allDigits s = true -> replaceAll notDigit s [] = s.
Proof.
  apply class_keeps with (neg := true) (items := [CDigit false]);
    [reflexivity|].
  intros c Hc. unfold classMatches. cbn [existsb itemMatches xorb].
  rewrite Hc. reflexivity.
Qed.

(** *** Trimming *)

Definition noSpace (s : str) : bool :=
  forallb (fun c => negb (isWhiteSpace c)) s.

Lemma trimStart_noSpace s : noSpace s = true -> trimStart s = s.
Proof.
  unfold trimStart, noSpace. destruct s as [|c s]; [reflexivity|].
  cbn [forallb dropWhile]. intros H. apply andb_prop in H.
  destruct H as [H _]. apply negb_true_iff in H. rewrite H. reflexivity.
Qed.

Lemma trim_noSpace s : noSpace s = true -> trim s = s.
Proof.
  intros H. unfold trim. rewrite trimStart_noSpace by exact H.
  unfold trimEnd.
  assert (Hr : noSpace (rev s) = true)
    by (unfold noSpace; rewrite forallb_rev; exact H).
  fold (trimStart (rev s)). rewrite trimStart_noSpace by exact Hr.
  apply rev_involutive.
Qed.

Lemma numeric_noSpace s : numeric s = true -> noSpace s = true.
Proof.
  unfold numeric, noSpace. rewrite !forallb_forall. intros H c Hc.
  apply (numChars_all (fun c => negb (isWhiteSpace c))); [reflexivity|].
  auto.
Qed.

Lemma trim_numeric s : numeric s = true -> trim s = s.
Proof. intros H. apply trim_noSpace, numeric_noSpace, H. Qed.

(** *** Splitting at the separators *)

Lemma sepClass_matches c :
  classMatches false false [CChar 46; CChar 44] c = isSep c.
Proof.
  unfold classMatches, isSep. cbn [existsb itemMatches xorb].
  unfold charMatches. cbn [canonicalize].
  rewrite orb_false_r, (N.eqb_sym 46 c), (N.eqb_sym 44 c). reflexivity.
Qed.

Lemma separators_miss bef c aft :
  isSep c = false -> matchAt separators bef (c :: aft) = None.
Proof.
  intros H. apply matchAt_None.
  change (ast separators) with (RSeq (RClass false [CChar 46; CChar 44]) REmpty).
  change (ignoreCase separators) with false.
  rewrite matcher_eq. rewrite (matcher_eq _ (RClass _ _)).
  unfold startState. rewrite step_cons, sepClass_matches, H. reflexivity.
Qed.

Lemma separators_hit bef c aft :
  isSep c = true ->
  exists mt, matchAt separators bef (c :: aft) = Some mt
             /\ lastIndex mt = S (List.length bef).
Proof.
  intros H. unfold matchAt.
  change (ast separators) with (RSeq (RClass false [CChar 46; CChar 44]) REmpty).
  change (ignoreCase separators) with false.
  rewrite matcher_eq. rewrite (matcher_eq _ (RClass _ _)).
  rewrite step_cons, sepClass_matches, H.
  cbn [flat_map]. rewrite matcher_eq. cbn [app].
  eexists. split; [reflexivity|]. reflexivity.
Qed.

(** The pieces between separators; [piece] is the current one, most
    recent unit first. *)
Fixpoint splitAcc (piece : str) (s : str) : list str :=
  match s with
  | [] => [rev piece]
  | c :: s' =>
      if isSep c then rev piece :: splitAcc [] s'
      else splitAcc (c :: piece) s'
  end.

Lemma splitFrom_separators : forall fuel piece bef aft,
  (List.length aft < fuel)%nat ->
  splitFrom separators fuel piece bef aft = splitAcc piece aft.
Proof.
  induction fuel as [|fuel IH]; intros piece bef aft Hf; [lia|].
  cbn [splitFrom]. destruct aft as [|c aft]; [reflexivity|].
  cbn [splitAcc]. cbn [List.length] in Hf.
  destruct (isSep c) eqn:Hc.
  - destruct (separators_hit bef c aft Hc) as (mt & -> & ->).
    replace (S (List.length bef) - List.length bef)%nat with 1%nat by lia.
    cbn [firstn skipn rev app]. rewrite IH by lia. reflexivity.
  - rewrite (separators_miss bef c aft Hc). apply IH. lia.
Qed.

Lemma split_separators s : s <> [] -> split separators s = splitAcc [] s.
Proof.
  intros Hs. unfold split. destruct s as [|c s]; [congruence|].
  apply splitFrom_separators. simpl. lia.
Qed.

Definition noSep (s : str) : bool := forallb (fun c => negb (isSep c)) s.

Lemma splitAcc_noSep s : forall piece,
  noSep s = true -> splitAcc piece s = [rev piece ++ s].
Proof.
  induction s as [|c s IH]; intros piece H; cbn [splitAcc].
  - rewrite app_nil_r. reflexivity.
  - unfold noSep in H. cbn [forallb] in H. apply andb_prop in H.
    destruct H as [Hc Hs]. apply negb_true_iff in Hc. rewrite Hc.
    rewrite IH by exact Hs. cbn [rev]. rewrite <- app_assoc. reflexivity.
Qed.

Lemma splitAcc_last w0 sep l : forall piece,
  isSep sep = true -> noSep l = true ->
  splitAcc piece (w0 ++ sep :: l) = splitAcc piece w0 ++ [l].
Proof.
  induction w0 as [|c w0 IH]; intros piece Hsep Hl; cbn [app splitAcc].
  - rewrite Hsep. rewrite splitAcc_noSep by exact Hl. reflexivity.
  - destruct (isSep c); [cbn [app]; f_equal|]; apply IH; assumption.
Qed.

Lemma splitAcc_nonempty s : forall piece, splitAcc piece s <> [].
Proof.
  induction s as [|c s IH]; intros piece; cbn [splitAcc]; [discriminate|].
  destruct (isSep c); [discriminate|apply IH].
Qed.

Lemma concat_splitAcc s : forall piece,
  concat (splitAcc piece s)
  = rev piece ++ filter (fun c => negb (isSep c)) s.
Proof.
  induction s as [|c s IH]; intros piece; cbn [splitAcc filter].
  - simpl. reflexivity.
  - destruct (isSep c); cbn [negb concat].
    + rewrite IH. reflexivity.
    + rewrite IH. cbn [rev]. rewrite <- app_assoc. reflexivity.
Qed.

Lemma numChar_sep_digit c :
  isNumChar c = true -> negb (isSep c) = isDigit c.
Proof.
  intros H.
  apply (numChars_all (fun c => Bool.eqb (negb (isSep c)) (isDigit c)))
    in H; [|reflexivity].
  apply eqb_prop in H. exact H.
Qed.

Lemma filter_numeric s :
  numeric s = true ->
  filter (fun c => negb (isSep c)) s = filter isDigit s.
Proof.
  induction s as [|c s IH]; intros H; [reflexivity|].
  unfold numeric in H. cbn [forallb] in H. apply andb_prop in H.
  destruct H as [Hc Hs]. cbn [filter].
  rewrite (numChar_sep_digit c Hc), (IH Hs). reflexivity.
Qed.

Lemma allDigits_filter s : allDigits (filter isDigit s) = true.
Proof.
  unfold allDigits. apply forallb_forall. intros c Hc.
  apply filter_In in Hc. tauto.
Qed.

Lemma filter_allDigits s : allDigits s = true -> filter isDigit s = s.
Proof.
  induction s as [|c s IH]; intros H; [reflexivity|].
  unfold allDigits in H. cbn [forallb] in H. apply andb_prop in H.
  destruct H as [Hc Hs]. cbn [filter]. rewrite Hc, (IH Hs). reflexivity.
Qed.

Lemma allDigits_noSep s : allDigits s = true -> noSep s = true.
Proof.
  unfold allDigits, noSep. rewrite !forallb_forall. intros H c Hc.
  rewrite numChar_sep_digit; auto. apply isDigit_isNumChar. auto.
Qed.

(** Every part of a numeric text is a text of digits. *)
Lemma splitAcc_allDigits s : forall piece,
  numeric s = true -> allDigits piece = true ->
  Forall (fun p => allDigits p = true) (splitAcc piece s).
Proof.
  induction s as [|c s IH]; intros piece Hs Hp; cbn [splitAcc].
  - constructor; [|constructor]. unfold allDigits. rewrite forallb_rev.
    exact Hp.
  - unfold numeric in Hs. cbn [forallb] in Hs. apply andb_prop in Hs.
    destruct Hs as [Hc Hs].
    pose proof (numChar_sep_digit c Hc) as E.
    destruct (isSep c); cbn [negb] in E.
    + constructor; [|apply IH; auto].
      unfold allDigits. rewrite forallb_rev. exact Hp.
    + apply IH; [exact Hs|]. unfold allDigits. cbn [forallb].
      rewrite <- E. exact Hp.
Qed.

(** A numeric text is a text of digits, or it has a last separator. *)
Lemma last_separator s :
  numeric s = true ->
  allDigits s = true
  \/ exists w0 sep l,
       s = w0 ++ sep :: l /\ numeric w0 = true /\ isSep sep = true
       /\ allDigits l = true.
Proof.
  induction s as [|c s IH]; intros H; [left; reflexivity|].
  unfold numeric in H. cbn [forallb] in H. apply andb_prop in H.
  destruct H as [Hc Hs]. destruct (IH Hs) as [Hd|(w0 & sep & l & -> & Hw & Hp & Hl)].
  - pose proof (numChar_sep_digit c Hc) as E.
    destruct (isSep c) eqn:Sc; cbn [negb] in E.
    + right. exists [], c, s. auto.
    + left. unfold allDigits. cbn [forallb]. rewrite <- E. exact Hd.
  - right. exists (c :: w0), sep, l. repeat split; auto.
    unfold numeric. cbn [forallb]. rewrite Hc. exact Hw.
Qed.

(** *** Reading the digits *)

Lemma readSign_numeric s : numeric s = true -> readSign s = (false, s).
Proof.
  destruct s as [|c s]; [reflexivity|]. intros H.
  unfold numeric in H. cbn [forallb] in H. apply andb_prop in H.
  destruct H as [Hc _].
  apply (numChars_all (fun c => negb (isCh "-" c) && negb (isCh "+" c)))
    in Hc; [|reflexivity].
  apply andb_prop in Hc. destruct Hc as [H1 H2].
  apply negb_true_iff in H1. apply negb_true_iff in H2.
  unfold readSign. rewrite H1, H2. reflexivity.
Qed.

Lemma startsWith_Infinity s :
  numeric s = true -> startsWith #"Infinity" s = false.
Proof.
  assert (E : exists t, #"Infinity" = 73 :: t)
    by (vm_compute; eexists; reflexivity).
  destruct E as (t & ->). destruct s as [|c s]; [reflexivity|]. intros H.
  unfold numeric in H. cbn [forallb] in H. apply andb_prop in H.
  destruct H as [Hc _].
  apply (numChars_all (fun c => negb (73 =? c))) in Hc; [|reflexivity].
  apply negb_true_iff in Hc. cbn [startsWith]. rewrite Hc. reflexivity.
Qed.

Lemma takeDigits_app D rest :
  allDigits D = true -> isDigit (hd 0 rest) = false ->
  takeDigits (D ++ rest) = (D, rest).
Proof.
  intros HD Hr. induction D as [|c D IH]; cbn [app].
  - destruct rest as [|c r]; [reflexivity|].
    cbn [hd] in Hr. cbn [takeDigits]. rewrite Hr. reflexivity.
  - unfold allDigits in HD. cbn [forallb] in HD. apply andb_prop in HD.
    destruct HD as [Hc HD]. cbn [takeDigits]. rewrite Hc, (IH HD).
    reflexivity.
Qed.

Lemma takeDigits_all D : allDigits D = true -> takeDigits D = (D, []).
Proof.
  intros H. rewrite <- (app_nil_r D) at 1. apply takeDigits_app; auto.
Qed.

(** [parseFloat] on digits, a point and digits. *)
Lemma parseFloat_point (D l : str) :
  allDigits D = true -> allDigits l = true ->
  parseFloat (D ++ #"." ++ l)
  = match D ++ l with
    | [] => S754_nan
    | ds => scaled (digitsValue ds) (0 - Z.of_nat (List.length l))
    end.
Proof.
  intros HD Hl.
  assert (E : D ++ #"." ++ l = D ++ 46 :: l) by reflexivity.
  rewrite E. clear E.
  assert (Hn : numeric (D ++ 46 :: l) = true).
  { rewrite numeric_app, (allDigits_numeric D HD). unfold numeric.
    cbn [forallb andb]. apply (allDigits_numeric l Hl). }
  unfold parseFloat.
  rewrite (trimStart_noSpace _ (numeric_noSpace _ Hn)).
  rewrite (readSign_numeric _ Hn), (startsWith_Infinity _ Hn).
  rewrite (takeDigits_app D (46 :: l) HD) by reflexivity.
  replace (isCh "." 46) with true by reflexivity.
  rewrite (takeDigits_all l Hl).
  destruct (D ++ l); reflexivity.
Qed.

(** [parseFloat] on digits alone. *)
Lemma parseFloat_digits D :
  allDigits D = true ->
  parseFloat D
  = match D with
    | [] => S754_nan
    | _ => scaled (digitsValue D) 0
    end.
Proof.
  intros HD. pose proof (allDigits_numeric D HD) as Hn.
  unfold parseFloat.
  rewrite (trimStart_noSpace _ (numeric_noSpace _ Hn)).
  rewrite (readSign_numeric _ Hn), (startsWith_Infinity _ Hn).
  rewrite (takeDigits_all D HD). rewrite app_nil_r.
  destruct D; reflexivity.
Qed.

Lemma numOfZ_scaled (v : N) : numOfZ (Z.of_N v) = scaled v 0.
Proof. destruct v; reflexivity. Qed.

Lemma parseInt10_digits D :
  allDigits D = true -> D <> [] -> parseInt10 D = scaled (digitsValue D) 0.
Proof.
  intros HD Hne. pose proof (allDigits_numeric D HD) as Hn.
  unfold parseInt10, parseIntZ.
  rewrite (trimStart_noSpace _ (numeric_noSpace _ Hn)).
  rewrite (readSign_numeric _ Hn), (takeDigits_all D HD).
  destruct D as [|c D]; [congruence|]. apply numOfZ_scaled.
Qed.

Lemma scaled_notNaN (v : N) (k : nat) :
  (k <= 2)%nat -> isNaN (scaled v (0 - Z.of_nat k)) = false.
Proof.
  intros Hk. destruct (N.eq_dec v 0) as [->|Hv]; [reflexivity|].
  destruct (@scaled_positive v k Hk Hv) as (_ & _ & H & _). exact H.
Qed.

Lemma nanToNull_scaled (v : N) (k : nat) :
  (k <= 2)%nat ->
  nanToNull (scaled v (0 - Z.of_nat k)) = Some (scaled v (0 - Z.of_nat k)).
Proof.
  intros Hk. unfold nanToNull. rewrite (scaled_notNaN v k Hk). reflexivity.
Qed.

Lemma nanToNull_scaled_0 (v : N) : nanToNull (scaled v 0) = Some (scaled v 0).
Proof. apply (nanToNull_scaled v 0). lia. Qed.

(** *** [normalizeAmount] on a numeric text *)

Lemma truthy_nonempty (s : str) : s <> [] -> truthy (Some s) = true.
Proof. destruct s; [congruence|reflexivity]. Qed.

Lemma length_nonempty (s : str) : s <> [] -> Nat.eqb (List.length s) 0 = false.
Proof. destruct s; [congruence|reflexivity]. Qed.

Lemma normalizeAmount_digits w :
  allDigits w = true -> w <> [] ->
  normalizeAmount w = Some (scaled (digitsValue w) 0).
Proof.
  intros Hd Hne. pose proof (allDigits_numeric w Hd) as Hn.
  unfold normalizeAmount. cbv zeta.
  rewrite (currencyChars_keeps w Hn), (trim_numeric w Hn),
    (notNumeric_keeps w Hn), (split_separators w Hne).
  rewrite (splitAcc_noSep w [] (allDigits_noSep w Hd)). cbn [rev app].
  rewrite (parseInt10_digits w Hd Hne), nanToNull_scaled_0.
  destruct w as [|c w]; [congruence|]. reflexivity.
Qed.

Lemma normalizeAmount_sep w0 sep l :
  numeric w0 = true -> isSep sep = true -> allDigits l = true ->
  normalizeAmount (w0 ++ sep :: l)
  = if Nat.leb (List.length l) 2 then
      match filter isDigit w0 ++ l with
      | [] => None
      | ds => Some (scaled (digitsValue ds) (0 - Z.of_nat (List.length l)))
      end
    else Some (scaled (digitsValue (filter isDigit w0 ++ l)) 0).
Proof.
  intros Hw Hsep Hl.
  assert (Hn : numeric (w0 ++ sep :: l) = true).
  { rewrite numeric_app, Hw. unfold numeric. cbn [forallb andb].
    unfold isNumChar. rewrite Hsep, orb_true_r. apply (allDigits_numeric l Hl). }
  assert (Hne : w0 ++ sep :: l <> []) by (destruct w0; discriminate).
  pose proof (concat_splitAcc w0 []) as Ec. cbn [rev app] in Ec.
  rewrite (filter_numeric w0 Hw) in Ec.
  pose proof (splitAcc_allDigits w0 [] Hw eq_refl) as Hp.
  pose proof (splitAcc_nonempty w0 []) as Hp0.
  pose proof (allDigits_filter w0) as HD.
  unfold normalizeAmount. cbv zeta.
  rewrite (currencyChars_keeps _ Hn), (trim_numeric _ Hn),
    (notNumeric_keeps _ Hn), (split_separators _ Hne).
  rewrite (splitAcc_last w0 sep l [] Hsep (allDigits_noSep l Hl)).
  rewrite (truthy_nonempty _ Hne), (length_nonempty _ Hne).
  cbn [negb orb]. rewrite <- Ec in *. clear Ec.
  destruct (splitAcc [] w0) as [|a [|b [|c r]]]; [congruence| | |].
  - cbn [app concat] in *. rewrite app_nil_r in *.
    inversion Hp as [|? ? Ha _]; subst. rewrite (notDigit_keeps a Ha).
    destruct (Nat.leb (List.length l) 2) eqn:El.
    + apply Nat.leb_le in El. rewrite (parseFloat_point a l Ha Hl).
      destruct (a ++ l) eqn:E; [reflexivity|]. apply nanToNull_scaled, El.
    + apply Nat.leb_gt in El.
      assert (Hal : allDigits (a ++ l) = true)
        by (rewrite allDigits_app, Ha, Hl; reflexivity).
      rewrite (parseFloat_digits _ Hal).
      destruct (a ++ l) eqn:E; [|apply nanToNull_scaled_0].
      apply app_eq_nil in E. destruct E as [_ ->]. simpl in El. lia.
  - cbn [app concat] in *. rewrite app_nil_r in *.
    destruct (Nat.leb (List.length l) 2) eqn:El.
    + apply Nat.leb_le in El.
      rewrite (parseFloat_point (a ++ b) l HD Hl).
      destruct ((a ++ b) ++ l) eqn:E; [reflexivity|].
      apply nanToNull_scaled, El.
    + apply Nat.leb_gt in El.
      assert (Hal : allDigits ((a ++ b) ++ l) = true)
        by (rewrite allDigits_app, HD, Hl; reflexivity).
      rewrite app_assoc. rewrite (parseFloat_digits _ Hal).
      destruct ((a ++ b) ++ l) eqn:E; [|apply nanToNull_scaled_0].
      apply app_eq_nil in E. destruct E as [_ ->]. simpl in El. lia.
  - change (a :: b :: c :: r) with ([a; b; c] ++ r) in *.
    rewrite <- app_assoc. cbn [app].
    replace (last (a :: b :: c :: r ++ [l]) [])
      with l by (symmetry; apply (last_last (a :: b :: c :: r) l [])).
    replace (removelast (a :: b :: c :: r ++ [l]))
      with (a :: b :: c :: r)
      by (symmetry; apply (removelast_last (a :: b :: c :: r) l)).
    replace (concat (a :: b :: c :: r ++ [l]))
      with (concat (a :: b :: c :: r) ++ l)
      by (change (a :: b :: c :: r ++ [l]) with ((a :: b :: c :: r) ++ [l]);
          rewrite concat_app; simpl; rewrite app_nil_r; reflexivity).
    cbn [app] in HD.
    destruct (r ++ [l]) as [|x r'] eqn:Er; [destruct r; discriminate|].
    destruct (Nat.leb (List.length l) 2) eqn:El.
    + apply Nat.leb_le in El.
      rewrite (parseFloat_point _ l HD Hl).
      destruct (concat (a :: b :: c :: r) ++ l) eqn:E; [reflexivity|].
      apply nanToNull_scaled, El.
    + apply Nat.leb_gt in El.
      assert (Hal : allDigits (concat (a :: b :: c :: r) ++ l) = true)
        by (rewrite allDigits_app, HD, Hl; reflexivity).
      rewrite (parseFloat_digits _ Hal).
      destruct (concat (a :: b :: c :: r) ++ l) eqn:E;
        [|apply nanToNull_scaled_0].
      apply app_eq_nil in E. destruct E as [_ ->]. simpl in El. lia.
Qed.

(** *** The value of the digits *)

Lemma digitsValue_fold_nonzero D : forall acc,
  acc <> 0 -> fold_left (fun a c => a * 10 + (c - 48)) D acc <> 0.
Proof.
  induction D as [|c D IH]; intros acc Ha; cbn [fold_left]; [exact Ha|].
  apply IH. lia.
Qed.

Lemma digitsValue_fold_digit D c : forall acc,
  In c D -> isDigit c = true -> c <> 48 ->
  fold_left (fun a c => a * 10 + (c - 48)) D acc <> 0.
Proof.
  induction D as [|d D IH]; intros acc Hin Hd Hc; [destruct Hin|].
  cbn [fold_left]. destruct Hin as [->|Hin].
  - apply digitsValue_fold_nonzero.
    unfold isDigit, in_range in Hd. apply andb_prop in Hd.
    destruct Hd as [H1 H2]. apply N.leb_le in H1. lia.
  - apply IH; assumption.
Qed.

Lemma digitsValue_nonzero D c :
  In c D -> isDigit c = true -> c <> 48 -> digitsValue D <> 0.
Proof. apply digitsValue_fold_digit. Qed.

Lemma digitsValue_snoc D d :
  digitsValue (D ++ [d]) = digitsValue D * 10 + (d - 48).
Proof. unfold digitsValue. rewrite fold_left_app. reflexivity. Qed.

Lemma not_gt_zero : gt (S754_zero false) (decimal 0 0) = false.
Proof. reflexivity. Qed.

(** A numeric text with a digit other than 0 denotes a positive
    number. *)
Lemma normalizeAmount_positive w c :
  numeric w = true -> In c w -> isDigit c = true -> c <> 48 ->
  exists n, normalizeAmount w = Some n
            /\ numTruthy n = true /\ gt n (decimal 0 0) = true.
Proof.
  intros Hn Hin Hd Hc.
  destruct (last_separator w Hn) as [Ha|(w0 & sep & l & -> & Hw & Hsep & Hl)].
  - assert (Hne : w <> []) by (destruct w; [destruct Hin|discriminate]).
    rewrite (normalizeAmount_digits w Ha Hne).
    pose proof (digitsValue_nonzero w c Hin Hd Hc) as Hv.
    destruct (@scaled_positive (digitsValue w) 0 ltac:(lia) Hv)
      as (A & B & _).
    eexists. split; [reflexivity|]. split; [exact A|exact B].
  - rewrite (normalizeAmount_sep w0 sep l Hw Hsep Hl).
    assert (Hin' : In c (filter isDigit w0 ++ l)).
    { apply in_app_or in Hin. apply in_or_app.
      destruct Hin as [Hin|[<-|Hin]]; auto.
      - left. apply filter_In. auto.
      - exfalso.
        pose proof (numChar_sep_digit sep (isDigit_isNumChar sep Hd)) as E.
        rewrite Hsep, Hd in E. discriminate. }
    assert (HD : allDigits (filter isDigit w0 ++ l) = true)
      by (rewrite allDigits_app, allDigits_filter, Hl; reflexivity).
    pose proof (digitsValue_nonzero _ c Hin' Hd Hc) as Hv.
    destruct (Nat.leb (List.length l) 2) eqn:El.
    + apply Nat.leb_le in El.
      destruct (@scaled_positive _ _ El Hv) as (A & B & _).
      destruct (filter isDigit w0 ++ l) eqn:E; [destruct Hin'|].
      eexists. split; [reflexivity|]. split; [exact A|exact B].
    + destruct (@scaled_positive (digitsValue (filter isDigit w0 ++ l)) 0
                  ltac:(lia) Hv) as (A & B & _).
      eexists. split; [reflexivity|]. split; [exact A|exact B].
Qed.

(** A numeric text that denotes a positive number below one tenth ends
    with a separator and two digits, the last of which is not 0. *)
Lemma normalizeAmount_small w n :
  numeric w = true -> normalizeAmount w = Some n ->
  gt n (decimal 0 0) = true -> lt n (decimal 1 1) = true ->
  exists w0 sep d1 d2,
    w = w0 ++ [sep; d1; d2] /\ numeric w0 = true /\ isSep sep = true
    /\ isDigit d1 = true /\ isDigit d2 = true /\ d2 <> 48.
Proof.
  intros Hn E Hpos Hsmall.
  assert (Hint : forall v, n = scaled v 0 -> False).
  { intros v ->. destruct (N.eq_dec v 0) as [->|Hv].
    - rewrite scaled_zero, not_gt_zero in Hpos. discriminate.
    - destruct (@scaled_positive v 0 ltac:(lia) Hv) as (_ & _ & _ & K).
      destruct (K Hsmall) as [K1 _]. discriminate. }
  destruct (last_separator w Hn) as [Ha|(w0 & sep & l & -> & Hw & Hsep & Hl)].
  - exfalso. destruct w as [|c w]; [discriminate E|].
    rewrite (normalizeAmount_digits _ Ha) in E by discriminate.
    injection E as <-. eapply Hint. reflexivity.
  - rewrite (normalizeAmount_sep w0 sep l Hw Hsep Hl) in E.
    destruct (Nat.leb (List.length l) 2) eqn:El;
      [|exfalso; injection E as <-; eapply Hint; reflexivity].
    apply Nat.leb_le in El.
    destruct (filter isDigit w0 ++ l) as [|x D] eqn:ED; [discriminate|].
    injection E as <-. rewrite <- ED in *.
    destruct (N.eq_dec (digitsValue (filter isDigit w0 ++ l)) 0) as [Hz|Hv].
    + rewrite Hz, scaled_zero, not_gt_zero in Hpos. discriminate.
    + destruct (@scaled_positive _ _ El Hv) as (_ & _ & _ & K).
      destruct (K Hsmall) as [K2 K9].
      destruct l as [|d1 [|d2 [|d3 l]]]; try discriminate K2.
      exists w0, sep, d1, d2.
      unfold allDigits in Hl. cbn [forallb] in Hl.
      apply andb_prop in Hl. destruct Hl as [H1 Hl].
      apply andb_prop in Hl. destruct Hl as [H2 _].
      repeat split; auto.
      assert (EE : filter isDigit w0 ++ [d1; d2]
                   = (filter isDigit w0 ++ [d1]) ++ [d2])
        by (rewrite <- app_assoc; reflexivity).
      rewrite EE, digitsValue_snoc in Hv, K9. intros ->. lia.
Qed.

(** ** The patterns for a number between word boundaries *)

Definition digit09 : regex := RClass false [CRange 48 57].
Definition sepClass : regex := RClass false [CChar 46; CChar 44].

(** [(?:[.,][0-9]{3})*(?:[.,][0-9]{2})?] *)
Definition groupsAndCents : regex :=
  RSeq (RRepeat (RSeq sepClass (RSeq (RRepeat digit09 3 (Some 3%nat) true)
                                     REmpty))
                0 None true)
       (RSeq (RRepeat (RSeq sepClass (RSeq (RRepeat digit09 2 (Some 2%nat) true)
                                           REmpty))
                      0 (Some 1%nat) true)
             REmpty).

(** [[0-9]{min,max}(?:[.,][0-9]{3})*(?:[.,][0-9]{2})?] *)
Definition numberBody (min max : nat) : regex :=
  RSeq (RRepeat digit09 min (Some max) true) groupsAndCents.

(** [\b(...)\b] around it. *)
Definition wordNumber (min max : nat) : regex :=
  RSeq (RAssert AWordB)
       (RSeq (RGroup 1 (numberBody min max))
             (RSeq (RAssert AWordB) REmpty)).

Definition isWordNumber (re : RegExp) (min max : nat) : Prop :=
  ast re = wordNumber min max /\ ngroups re = 1%nat /\ ignoreCase re = false.

Lemma digit09_matches c : classMatches false false [CRange 48 57] c = isDigit c.
Proof.
  unfold classMatches. cbn [existsb itemMatches xorb caseVariants].
  rewrite !orb_false_r. reflexivity.
Qed.

Lemma within_numberBody min max :
  within isNumChar anyGroup false (numberBody min max).
Proof.
  assert (Hd : forall c, classMatches false false [CRange 48 57] c = true ->
                         isNumChar c = true).
  { intros c. rewrite digit09_matches. apply isDigit_isNumChar. }
  assert (Hs : forall c, classMatches false false [CChar 46; CChar 44] c = true ->
                         isNumChar c = true).
  { intros c. rewrite sepClass_matches. unfold isNumChar. intros ->.
    apply orb_true_r. }
  unfold numberBody, groupsAndCents, digit09, sepClass. cbn [within].
  tauto.
Qed.

Lemma isWordChar_digit c : isDigit c = true -> isWordChar c = true.
Proof.
  intros H. pose proof (isDigit_isNumChar c H) as Hn.
  apply (numChars_all (fun c => implb (isDigit c) (isWordChar c))) in Hn;
    [|reflexivity].
  rewrite H in Hn. exact Hn.
Qed.

Lemma isWordChar_sep c : isSep c = true -> isWordChar c = false.
Proof.
  intros H.
  assert (Hn : isNumChar c = true) by (unfold isNumChar; rewrite H; apply orb_true_r).
  apply (numChars_all (fun c => implb (isSep c) (negb (isWordChar c)))) in Hn;
    [|reflexivity].
  rewrite H in Hn. apply negb_true_iff in Hn. exact Hn.
Qed.

(** What a match of such a pattern is: its first group is the whole
    match, a numeric text, and a word boundary follows it. *)
Lemma wordNumber_match re min max bef aft mt :
  isWordNumber re min max ->
  matchAt re bef aft = Some mt ->
  group 1 mt = Some (matched mt)
  /\ group 2 mt = None
  /\ numeric (matched mt) = true
  /\ index mt = List.length bef
  /\ exists rest,
       aft = matched mt ++ rest
       /\ lastIndex mt = (List.length bef + List.length (matched mt))%nat
       /\ isWordAt (rev (matched mt) ++ bef) = negb (isWordAt rest).
Proof.
  intros (Ea & Eg & Ei) H.
  destruct (matchAt_inv _ _ _ H) as (y & l & E & ->).
  assert (Hin : In y (matcher (ignoreCase re) (ast re) (startState re bef aft)))
    by (rewrite E; left; reflexivity).
  clear E H. rewrite Ea, Ei in Hin. unfold wordNumber in Hin.
  set (x := startState re bef aft) in *.
  rewrite matcher_eq in Hin. apply in_flat_map in Hin.
  destruct Hin as (x1 & H1 & Hin).
  rewrite matcher_eq in H1. destruct (holds AWordB x); [|destruct H1].
  destruct H1 as [<-|[]].
  rewrite matcher_eq in Hin. apply in_flat_map in Hin.
  destruct Hin as (y2 & H2 & Hin).
  rewrite matcher_eq in H2. apply in_map_iff in H2.
  destruct H2 as (y1 & <- & H2).
  rewrite matcher_eq in Hin. apply in_flat_map in Hin.
  destruct Hin as (y3 & H3 & Hin).
  rewrite matcher_eq in H3.
  destruct (holds AWordB (setCap 1 (Some (consumed x y1)) y1)) eqn:Hb;
    [|destruct H3].
  destruct H3 as [<-|[]]. rewrite matcher_eq in Hin. destruct Hin as [<-|[]].
  assert (Hr : reach isNumChar x y1)
    by (exact (@matcher_reach isNumChar false _ x y1
                 (within_numberBody min max) H2)).
  destruct Hr as (w & A & B & L & F).
  assert (Ec : consumed x (setCap 1 (Some (consumed x y1)) y1) = w)
    by (apply consumed_app; exact A).
  assert (Ec1 : consumed x y1 = w) by (apply consumed_app; exact A).
  cbn [matched groups index lastIndex]. rewrite Ec.
  unfold group. cbn [groups caps setCap pred].
  assert (Hlen : List.length (caps y1) = 1%nat).
  { rewrite L. unfold x, startState. cbn [caps]. rewrite repeat_length.
    exact Eg. }
  destruct (caps y1) as [|c0 [|c1 cs]]; try discriminate Hlen.
  cbn [setNth nth]. rewrite Ec1.
  repeat split.
  - unfold numeric. apply forallb_forall. rewrite Forall_forall in F. exact F.
  - exists (after y1). unfold x, startState in A, B. cbn [after before] in A, B.
    split; [exact A|]. split.
    + unfold endIndex. cbn [before setCap]. rewrite B, length_app, length_rev.
      lia.
    + unfold holds in Hb. cbn [before after setCap] in Hb.
      rewrite B in Hb. apply negb_true_iff in Hb.
      destruct (isWordAt (rev w ++ bef)), (isWordAt (after y1));
        simpl in *; congruence.
Qed.

(** ** The candidates of the two patterns for a number between word
    boundaries *)

Definition noPattern : PatternConfig :=
  MkPatternConfig separators (decimal 0 0) [].

(** The fifth and the seventh pattern of [AMOUNT_PATTERNS]. *)
Definition largeNumber : PatternConfig := nth 4 AMOUNT_PATTERNS noPattern.
Definition simpleAmount : PatternConfig := nth 6 AMOUNT_PATTERNS noPattern.

Lemma largeNumber_In : In largeNumber AMOUNT_PATTERNS.
Proof.
  unfold largeNumber, AMOUNT_PATTERNS. cbn [nth In].
  do 4 right. left. reflexivity.
Qed.

Lemma largeNumber_shape : isWordNumber (pc_pattern largeNumber) 2 4.
Proof. repeat split; vm_compute; reflexivity. Qed.

Lemma simpleAmount_shape : isWordNumber (pc_pattern simpleAmount) 1 3.
Proof. repeat split; vm_compute; reflexivity. Qed.

Lemma largeNumber_base : lt (pc_confidence largeNumber) (decimal 5 1) = false.
Proof. vm_compute. reflexivity. Qed.

(** Only the seventh pattern has a base confidence below one half. *)
Lemma lowBase_simpleAmount pc :
  In pc AMOUNT_PATTERNS -> lt (pc_confidence pc) (decimal 5 1) = true ->
  pc = simpleAmount.
Proof.
  unfold AMOUNT_PATTERNS. cbn [In].
  intros [<-|[<-|[<-|[<-|[<-|[<-|[<-|[]]]]]]]] H;
    first [vm_compute in H; discriminate H|reflexivity].
Qed.

Lemma includes_numeric s p :
  numeric s = true -> isNumChar (hd 48 p) = false -> includes s p = false.
Proof.
  intros Hs Hp. destruct p as [|a p]; [discriminate Hp|]. cbn [hd] in Hp.
  induction s as [|c s IH]; unfold includes; fold includes;
    cbn [startsWith orb]; [reflexivity|].
  unfold numeric in Hs. cbn [forallb] in Hs. apply andb_prop in Hs.
  destruct Hs as [Hc Hs].
  assert (E : (a =? c) = false).
  { apply N.eqb_neq. intros ->. congruence. }
  rewrite E. cbn [andb orb]. apply IH. exact Hs.
Qed.

Lemma no_symbol_numeric s :
  numeric s = true ->
  existsb (fun symbol => includes s symbol) CURRENCY_SYMBOLS = false.
Proof.
  intros Hs.
  assert (H : forallb (fun p => negb (isNumChar (hd 48 p))) CURRENCY_SYMBOLS
              = true) by (vm_compute; reflexivity).
  induction CURRENCY_SYMBOLS as [|p l IH]; [reflexivity|].
  cbn [forallb] in H. apply andb_prop in H. destruct H as [Hp Hl].
  apply negb_true_iff in Hp. cbn [existsb].
  rewrite (includes_numeric s p Hs Hp). cbn [orb]. apply IH. exact Hl.
Qed.

(** Both patterns take the branch of [extractAmount] that reads the
    amount text and the currency text from the same group. *)
Lemma amountAndCurrency_word pc mt w :
  pc = largeNumber \/ pc = simpleAmount ->
  group 1 mt = Some w -> group 2 mt = None -> numeric w = true ->
  amountAndCurrency pc mt = (w, w).
Proof.
  intros Hpc H1 H2 Hw. unfold amountAndCurrency.
  destruct Hpc as [->| ->];
    repeat match goal with
           | |- context [includes (source ?r) ?x] =>
               replace (includes (source r) x) with false
                 by (vm_compute; reflexivity)
           end;
    rewrite H1, H2;
    replace (orEmpty (orElse (Some w) None)) with w
      by (destruct w; reflexivity);
    rewrite (no_symbol_numeric w Hw); reflexivity.
Qed.

Lemma candidateOf_word_amount text pc mt w c :
  amountAndCurrency pc mt = (w, w) -> numeric w = true ->
  candidateOf text pc mt = Some c ->
  normalizeAmount w = Some (c_amount c).
Proof.
  intros Ea Hw. unfold candidateOf. rewrite Ea, (trim_numeric w Hw).
  destruct (normalizeAmount w) as [n|]; [|discriminate].
  destruct (numTruthy n && gt n (decimal 0 0)); [|discriminate].
  intros H. injection H as <-. reflexivity.
Qed.

Lemma candidateOf_word_intro text pc mt w n :
  amountAndCurrency pc mt = (w, w) -> numeric w = true ->
  normalizeAmount w = Some n ->
  numTruthy n = true -> gt n (decimal 0 0) = true ->
  exists c, candidateOf text pc mt = Some c.
Proof.
  intros Ea Hw En H1 H2. unfold candidateOf.
  rewrite Ea, (trim_numeric w Hw), En, H1, H2. cbn [andb]. eauto.
Qed.

(** The confidence of a candidate in terms of its pattern. *)
Lemma candidateOf_confidence text pc mt c :
  candidateOf text pc mt = Some c ->
  exists cur ctx,
    c_confidence c = confidenceOf (pc_confidence pc) cur ctx (c_amount c).
Proof.
  intros Hc.
  destruct (candidateOf_Some _ _ _ Hc) as (_ & _ & _ & _ & cur & ctx & E).
  rewrite adjustConfidence_adjustBy in E.
  exists (truthy (Some cur)), ctx. exact E.
Qed.

(** ** Where the fifth pattern matches *)

(** Two digits after a unit that is not a word character and before one
    that is not a word character either: the pattern for a number of two
    to four digits matches there. *)
Lemma wordNumber_starts re bef d1 d2 rest :
  isWordNumber re 2 4 ->
  isWordAt bef = false -> isDigit d1 = true -> isDigit d2 = true ->
  isWordAt rest = false ->
  exists mt, matchAt re bef (d1 :: d2 :: rest) = Some mt.
Proof.
  intros (Ea & Eg & Ei) Hb H1 H2 Hr.
  set (x := startState re bef (d1 :: d2 :: rest)).
  set (cs := repeat (@None str) (ngroups re)).
  set (y1 := MState (d1 :: bef) (d2 :: rest) cs).
  set (m2 := MState (d2 :: d1 :: bef) rest cs).
  assert (HA : In m2 (matcher false (RRepeat digit09 2 (Some 4%nat) true) x)).
  { rewrite matcher_eq.
    replace (groupsOf digit09) with (@nil nat) by reflexivity.
    eapply repeatMatcher_more with (y0 := y1).
    - discriminate.
    - cbn [clearCaps fold_left]. unfold digit09. rewrite matcher_eq.
      unfold x, startState. rewrite step_cons, digit09_matches, H1.
      left. reflexivity.
    - reflexivity.
    - cbn [Nat.add pred option_map].
      eapply repeatMatcher_more with (y0 := m2).
      + discriminate.
      + cbn [clearCaps fold_left]. unfold digit09. rewrite matcher_eq.
        unfold y1. rewrite step_cons, digit09_matches, H2.
        left. reflexivity.
      + reflexivity.
      + cbn [pred option_map]. unfold x, startState. cbn [after List.length].
        apply repeatMatcher_stop. }
  destruct (@nullable_In false groupsAndCents eq_refl m2)
    as (y & Hy & By & Ay).
  assert (HC : In y (matcher false (numberBody 2 4) x)).
  { unfold numberBody. rewrite matcher_eq. apply in_flat_map.
    exists m2. split; assumption. }
  set (y2 := setCap 1 (Some (consumed x y)) y).
  assert (HE : In y2 (matcher false (RSeq (RAssert AWordB) REmpty) y2)).
  { rewrite matcher_eq. apply in_flat_map. exists y2. split.
    - rewrite matcher_eq.
      replace (holds AWordB y2) with true; [left; reflexivity|].
      unfold holds, y2. cbn [before after setCap]. rewrite By, Ay.
      unfold m2. cbn [before after isWordAt].
      rewrite (isWordChar_digit d2 H2), Hr. reflexivity.
    - rewrite matcher_eq. left. reflexivity. }
  assert (Hin : In y2 (matcher (ignoreCase re) (ast re) x)).
  { rewrite Ea, Ei. unfold wordNumber. rewrite matcher_eq.
    apply in_flat_map. exists x. split.
    - rewrite matcher_eq.
      replace (holds AWordB x) with true; [left; reflexivity|].
      unfold holds, x, startState. cbn [before after isWordAt].
      rewrite (isWordChar_digit d1 H1), Hb. reflexivity.
    - rewrite matcher_eq. apply in_flat_map. exists y2. split; [|exact HE].
      rewrite matcher_eq. apply in_map_iff. exists y. split; [reflexivity|].
      exact HC. }
  exact (@matchAt_Some_of_In re bef (d1 :: d2 :: rest) y2 Hin).
Qed.

(** ** The matches that a scan reports cover every place where the
    pattern matches *)

Lemma execFrom_first re sk : forall bef rest m,
  matchAt re (rev sk ++ bef) rest = Some m ->
  exists mt bef' aft',
    execFrom re bef (sk ++ rest) = Some (mt, bef', aft')
    /\ (index mt <= List.length bef + List.length sk)%nat.
Proof.
  induction sk as [|c sk IH]; intros bef rest m H.
  - cbn [rev app] in *. assert (Hi := @matchAt_span re _ _ _ H).
    destruct Hi as (Hi & _).
    destruct rest as [|c rest]; cbn [execFrom]; rewrite H;
      do 3 eexists; (split; [reflexivity|]); cbn [List.length]; lia.
  - cbn [app execFrom].
    destruct (matchAt re bef (c :: sk ++ rest)) as [m0|] eqn:E.
    + destruct (@matchAt_span re _ _ _ E) as (Hi & _).
      do 3 eexists. split; [reflexivity|]. lia.
    + destruct (IH (c :: bef) rest m) as (mt & bef' & aft' & Ex & Hi).
      * cbn [rev] in H. rewrite <- app_assoc in H. exact H.
      * exists mt, bef', aft'. split; [exact Ex|].
        cbn [List.length] in *. lia.
Qed.

Lemma matchAllFrom_cover re :
  consuming (ast re) = true ->
  forall fuel sk bef rest m,
    matchAt re (rev sk ++ bef) rest = Some m ->
    (List.length (sk ++ rest) < fuel)%nat ->
    exists mt,
      In mt (matchAllFrom re fuel bef (sk ++ rest))
      /\ (index mt <= List.length bef + List.length sk)%nat
      /\ (List.length bef + List.length sk < lastIndex mt)%nat.
Proof.
  intros Hc. induction fuel as [|fuel IH]; intros sk bef rest m H Hf; [lia|].
  destruct (execFrom_first re sk bef rest m H)
    as (mt & bef' & aft' & Ex & Hi).
  cbn [matchAllFrom]. rewrite Ex.
  destruct (@execFrom_inv re _ _ _ _ _ Ex) as (skipped & A & B & M).
  pose proof (@matchAt_progress re _ _ _ Hc M) as Hp.
  destruct (@matchAt_span re _ _ _ M) as (I1 & L1 & _ & _).
  rewrite length_app, length_rev in I1, L1, Hp.
  replace (Nat.eqb (lastIndex mt) (index mt)) with false
    by (symmetry; apply Nat.eqb_neq; lia).
  destruct (Nat.lt_ge_cases (List.length bef + List.length sk) (lastIndex mt))
    as [Hlt|Hge].
  - exists mt. split; [left; reflexivity|]. split; assumption.
  - (* the match ends at or before the place: the scan goes on *)
    assert (Hlen : (List.length skipped + List.length (matched mt)
                    <= List.length sk)%nat) by lia.
    assert (Hsk : exists sk', sk = skipped ++ matched mt ++ sk'
                              /\ aft' = sk' ++ rest).
    { exists (skipn (List.length skipped + List.length (matched mt)) sk).
      assert (E1 : firstn (List.length skipped + List.length (matched mt))
                     (sk ++ rest)
                   = skipped ++ matched mt).
      { rewrite A, app_assoc, firstn_app.
        rewrite <- (length_app skipped (matched mt)), firstn_all,
          Nat.sub_diag. cbn [firstn]. apply app_nil_r. }
      assert (E2 : skipn (List.length skipped + List.length (matched mt))
                     (sk ++ rest) = aft').
      { rewrite A, app_assoc, skipn_app.
        rewrite <- (length_app skipped (matched mt)), skipn_all,
          Nat.sub_diag. reflexivity. }
      rewrite firstn_app in E1. rewrite skipn_app in E2.
      replace (List.length skipped + List.length (matched mt)
               - List.length sk)%nat with 0%nat in E1, E2 by lia.
      cbn [firstn skipn] in E1, E2. rewrite app_nil_r in E1.
      split.
      - rewrite app_assoc, <- E1. symmetry. apply firstn_skipn.
      - symmetry. exact E2. }
    destruct Hsk as (sk' & Es & Ea).
    destruct (IH sk' bef' rest m) as (mt' & Hin & Hi' & Hl').
    + rewrite B. rewrite Es in H.
      rewrite !rev_app_distr, <- !app_assoc in H. exact H.
    + rewrite Es in Hf. rewrite !length_app in *. cbn [List.length] in *.
      lia.
    + exists mt'. split; [right; rewrite Ea; exact Hin|].
      rewrite B, Es in *. rewrite !length_app, ?length_rev in *. lia.
Qed.

Lemma matchAll_cover re bef aft m :
  consuming (ast re) = true ->
  matchAt re bef aft = Some m ->
  exists mt,
    In mt (matchAll re (rev bef ++ aft))
    /\ (index mt <= List.length bef)%nat
    /\ (List.length bef < lastIndex mt)%nat.
Proof.
  intros Hc H. unfold matchAll.
  destruct (matchAllFrom_cover re Hc (S (List.length (rev bef ++ aft)))
              (rev bef) [] aft m) as (mt & Hin & Hi & Hl).
  - rewrite rev_involutive, app_nil_r. exact H.
  - lia.
  - exists mt. rewrite length_rev in Hi, Hl. cbn [List.length] in Hi, Hl.
    auto.
Qed.

(** ** The confidence that [extractAmount] returns *)

(** A place inside the middle one of three texts. *)
Lemma inside_split (L' : str) : forall (W R' L X : str),
  L' ++ W ++ R' = L ++ X ->
  (List.length L' <= List.length L)%nat ->
  (List.length L < List.length L' + List.length W)%nat ->
  exists u c v, W = u ++ c :: v /\ L = L' ++ u /\ X = c :: v ++ R'.
Proof.
  induction L' as [|a L' IH]; intros W R' L X E H1 H2.
  - cbn [app List.length] in *. clear H1. revert W E H2.
    induction L as [|b L IHL]; intros W E H2.
    + destruct W as [|c v]; [simpl in H2; lia|].
      exists [], c, v. cbn [app] in *. auto.
    + destruct W as [|c W]; [simpl in H2; lia|].
      cbn [app] in E. injection E as -> E.
      destruct (IHL W E) as (u & c & v & -> & <- & ->);
        [simpl in H2; lia|].
      exists (b :: L), c, v. auto.
  - destruct L as [|b L]; [simpl in H1; lia|].
    cbn [app] in E. injection E as -> E.
    destruct (IH W R' L X E) as (u & c & v & -> & -> & ->);
      [simpl in *; lia|simpl in *; lia|].
    exists u, c, v. auto.
Qed.

(** A candidate with a negative confidence comes from the seventh
    pattern on a text such as [0.05]; the fifth pattern then matches
    around its last two digits and gives a candidate whose confidence is
    not negative. *)
Lemma negative_has_rival text c :
  In c (candidatesOf text) -> nonneg (c_confidence c) = false ->
  exists g, In g (candidatesOf text) /\ nonneg (c_confidence g) = true.
Proof.
  intros Hin Hneg.
  destruct (candidatesOf_In _ _ Hin) as (pc & mt & Hpc & Hmt & Hc).
  destruct (candidateOf_confidence text pc mt c Hc) as (cur & ctx & Econf).
  rewrite Econf in Hneg.
  destruct (@confidenceOf_negative (pc_confidence pc) cur ctx (c_amount c))
    as [Hbase Hsmall]; [apply in_map; exact Hpc|exact Hneg|].
  pose proof (lowBase_simpleAmount pc Hpc Hbase) as ->.
  destruct (candidateOf_Some _ _ _ Hc) as (_ & Hpos & _).
  destruct (matchAll_In _ _ _ Hmt) as (b & a & Hm & Etext).
  destruct (wordNumber_match _ 1 3 b a mt simpleAmount_shape Hm)
    as (G1 & G2 & Hnum & _ & rest & Ea & _ & Hbound).
  pose proof (amountAndCurrency_word simpleAmount mt (matched mt)
                (or_intror eq_refl) G1 G2 Hnum) as Eac.
  pose proof (candidateOf_word_amount text simpleAmount mt (matched mt) c
                Eac Hnum Hc) as En.
  destruct (normalizeAmount_small (matched mt) (c_amount c) Hnum En Hpos Hsmall)
    as (w0 & sep & d1 & d2 & Ew & Hw0 & Hsep & Hd1 & Hd2 & Hnz).
  rewrite Ew in *. clear Ew.
  (* no word character follows the match *)
  assert (Hrest : isWordAt rest = false).
  { rewrite rev_app_distr in Hbound. cbn [rev app isWordAt] in Hbound.
    rewrite (isWordChar_digit d2 Hd2) in Hbound.
    destruct (isWordAt rest); [discriminate Hbound|reflexivity]. }
  (* the fifth pattern matches at the last two digits *)
  set (bq := sep :: rev w0 ++ b).
  destruct (wordNumber_starts (pc_pattern largeNumber) bq d1 d2 rest
              largeNumber_shape) as (m & Hq); auto.
  { unfold bq. cbn [isWordAt]. apply isWordChar_sep. exact Hsep. }
  assert (Etext' : rev bq ++ d1 :: d2 :: rest = text).
  { rewrite <- Etext, Ea. unfold bq. cbn [rev].
    rewrite rev_app_distr, rev_involutive, <- !app_assoc. reflexivity. }
  destruct (matchAll_cover (pc_pattern largeNumber) bq (d1 :: d2 :: rest) m)
    as (mt5 & Hin5 & Hi5 & Hl5); [reflexivity|exact Hq|].
  rewrite Etext' in Hin5.
  destruct (matchAll_In _ _ _ Hin5) as (b5 & a5 & Hm5 & Etext5).
  destruct (wordNumber_match _ 2 4 b5 a5 mt5 largeNumber_shape Hm5)
    as (F1 & F2 & Hnum5 & Ei5 & rest5 & Ea5 & El5 & Hbound5).
  (* that match contains the last digit *)
  assert (Hd2in : In d2 (matched mt5)).
  { destruct (inside_split (rev b5) (matched mt5) rest5 (rev bq)
                (d1 :: d2 :: rest)) as (u & x & v & Ew5 & _ & Ex).
    - rewrite <- Ea5, Etext5, Etext'. reflexivity.
    - rewrite !length_rev. lia.
    - rewrite !length_rev. lia.
    - injection Ex as <- Ex. destruct v as [|x v].
      + exfalso. cbn [app] in Ex. subst rest5.
        rewrite Ew5, rev_app_distr in Hbound5.
        cbn [rev app isWordAt] in Hbound5.
        rewrite (isWordChar_digit d1 Hd1), (isWordChar_digit d2 Hd2)
          in Hbound5.
        discriminate Hbound5.
      + cbn [app] in Ex. injection Ex as <- _. rewrite Ew5.
        apply in_or_app. right. right. left. reflexivity. }
  destruct (normalizeAmount_positive (matched mt5) d2 Hnum5 Hd2in Hd2 Hnz)
    as (n5 & En5 & Ht5 & Hp5).
  pose proof (amountAndCurrency_word largeNumber mt5 (matched mt5)
                (or_introl eq_refl) F1 F2 Hnum5) as Eac5.
  destruct (candidateOf_word_intro text largeNumber mt5 (matched mt5) n5
              Eac5 Hnum5 En5 Ht5 Hp5) as (g & Hg).
  exists g. split.
  - exact (@candidatesOf_intro text largeNumber mt5 g largeNumber_In Hin5 Hg).
  - destruct (candidateOf_confidence text largeNumber mt5 g Hg)
      as (cur5 & ctx5 & Econf5).
    rewrite Econf5.
    destruct (nonneg (confidenceOf (pc_confidence largeNumber) cur5 ctx5
                        (c_amount g))) eqn:Eg; [reflexivity|].
    destruct (@confidenceOf_negative (pc_confidence largeNumber) cur5 ctx5
                (c_amount g)) as [Hb _];
      [apply in_map; exact largeNumber_In|exact Eg|].
    rewrite largeNumber_base in Hb. discriminate Hb.
Qed.

(** C7 (the claim fails as it is stated).  [Math.min] bounds the
    confidence of a candidate above only: the seventh pattern reads the
    amount 0.05 in the text [0.05] and gives it a confidence below 0. *)
Lemma candidate_negative_confidence :
  exists c,
    In c (candidatesOf #"0.05")
    /\ c_pattern c = #"Simple amount"
    /\ c_amount c = decimal 5 2
    /\ lt (c_confidence c) (decimal 0 0) = true.
Proof.
  exists (nth 3 (candidatesOf #"0.05")
            (MkCandidate (decimal 0 0) [] (decimal 0 0) 0 [])).
  split; [apply nth_In; vm_compute; lia|].
  repeat split; vm_compute; reflexivity.
Qed.

(** C7, as amended.  Whenever [extractAmount] finds a candidate, the
    confidence that it returns is at least 0 and at most 1, and no
    candidate has a confidence above 1.  The upper bound is the
    [Math.min] of the code; there is no lower clamp, and the lower bound
    of the result holds because a candidate with a negative confidence
    never comes first in the sort. *)
Theorem extractAmount_confidence_range (text : str) :
  candidatesOf text <> [] ->
  le (decimal 0 0) (am_confidence (extractAmount text)) = true
  /\ le (am_confidence (extractAmount text)) (decimal 1 0) = true
  /\ forall c, In c (candidatesOf text) ->
               le (c_confidence c) (decimal 1 0) = true.
Proof.
  intros Hne.
  assert (Hall : forall c, In c (candidatesOf text) ->
                           le (c_confidence c) (decimal 1 0) = true).
  { intros c Hc. apply profiled_le_1. eapply candidate_profiled. exact Hc. }
  unfold extractAmount. cbv zeta.
  destruct (sortBy compareCandidates (candidatesOf text)) as [|w rest] eqn:E.
  - apply sortBy_nil in E. contradiction.
  - cbn [am_confidence].
    assert (Hw : In w (candidatesOf text)).
    { apply (sortBy_In compareCandidates). rewrite E. left. reflexivity. }
    split; [|split; [exact (Hall w Hw)|exact Hall]].
    fold (nonneg (c_confidence w)).
    destruct (nonneg (c_confidence w)) eqn:G; [reflexivity|].
    destruct (negative_has_rival text w Hw G) as (g & Hg & Gg).
    rewrite <- G. exact (@best_candidate_nonneg text g w rest Hg Gg E).
Qed.

Lemma extractAmount_confidence_range_witness :
  candidatesOf #"0.05" <> []
  /\ le (decimal 0 0) (am_confidence (extractAmount #"0.05")) = true
  /\ le (am_confidence (extractAmount #"0.05")) (decimal 1 0) = true
  /\ forall c, In c (candidatesOf #"0.05") ->
               le (c_confidence c) (decimal 1 0) = true.
Proof.
  assert (H : candidatesOf #"0.05" <> []) by (vm_compute; discriminate).
  split; [exact H|]. exact (extractAmount_confidence_range #"0.05" H).
Defined.

(** ** The separator conventions of [normalizeAmount] *)

(** C4.  [normalizeAmount] returns the number of the decimal for the three
    separator conventions: 123.45, and 1234.56 twice.  The rule behind
    them, on every text of digits and separators with a last separator:
    when at most two digits follow it they are the decimal places of the
    digits before it, and otherwise all the digits together are one whole
    number. *)
Theorem normalizeAmount_conventions :
  normalizeAmount #"123.45" = Some (decimal 12345 2)
  /\ normalizeAmount #"1,234.56" = Some (decimal 123456 2)
  /\ normalizeAmount #"1.234,56" = Some (decimal 123456 2)
  /\ forall w0 sep l,
       numeric w0 = true -> isSep sep = true -> allDigits l = true ->
       normalizeAmount (w0 ++ sep :: l)
       = if Nat.leb (List.length l) 2 then
           match filter isDigit w0 ++ l with
           | [] => None
           | ds => Some (scaled (digitsValue ds)
                                (0 - Z.of_nat (List.length l)))
           end
         else Some (scaled (digitsValue (filter isDigit w0 ++ l)) 0).
Proof.
  split; [vm_compute; reflexivity|].
  split; [vm_compute; reflexivity|].
  split; [vm_compute; reflexivity|].
  exact normalizeAmount_sep.
Qed.

(* ===================================================================== *)
(** * Part IV.  Further properties of the scanners and of the repair pass *)
(* ===================================================================== *)

(** ** [normalizeAmount] reads the digits and the separators only *)

(** Removing the matches of a pattern of one class filters the text. *)
Lemma replaceFrom_class re neg items :
  ast re = RSeq (RClass neg items) REmpty ->
  forall fuel bef aft,
    (List.length aft < fuel)%nat ->
    replaceFrom re [] fuel bef aft
    = filter (fun c => negb (classMatches (ignoreCase re) neg items c)) aft.
Proof.
  intros Ea. induction fuel as [|fuel IH]; intros bef aft Hf; [lia|].
  cbn [replaceFrom]. unfold matchAt. rewrite Ea.
  rewrite matcher_eq, (matcher_eq _ (RClass neg items)).
  destruct aft as [|c aft].
  - rewrite step_nil. reflexivity.
  - rewrite step_cons. cbn [filter List.length] in *.
    destruct (classMatches (ignoreCase re) neg items c).
    + cbn [flat_map negb]. rewrite matcher_eq. cbn [app lastIndex].
      unfold endIndex. cbn [before List.length].
      replace (S (List.length bef) - List.length bef)%nat with 1%nat by lia.
      cbn [app firstn skipn rev]. apply IH. lia.
    + cbn [flat_map negb]. f_equal. apply IH. lia.
Qed.

Lemma replaceAll_class re neg items s :
  ast re = RSeq (RClass neg items) REmpty ->
  replaceAll re s []
  = filter (fun c => negb (classMatches (ignoreCase re) neg items c)) s.
Proof.
  intros Ea. unfold replaceAll. apply (replaceFrom_class re neg items Ea). lia.
Qed.

Lemma filter_filter_sub {A} (p q : A -> bool) (l : list A) :
  (forall a, p a = true -> q a = true) ->
  filter p (filter q l) = filter p l.
Proof.
  intros H. induction l as [|a l IH]; [reflexivity|]. cbn [filter].
  destruct (q a) eqn:Q; cbn [filter].
  - rewrite IH. reflexivity.
  - destruct (p a) eqn:P; [|exact IH]. rewrite (H a P) in Q. discriminate.
Qed.

Lemma filter_dropWhile {A} (p w : A -> bool) (l : list A) :
  (forall a, w a = true -> p a = false) ->
  filter p (dropWhile w l) = filter p l.
Proof.
  intros H. induction l as [|a l IH]; [reflexivity|]. cbn [dropWhile filter].
  destruct (w a) eqn:W; [|reflexivity]. rewrite (H a W). exact IH.
Qed.

Lemma filter_rev' {A} (p : A -> bool) (l : list A) :
  filter p (rev l) = rev (filter p l).
Proof.
  induction l as [|a l IH]; [reflexivity|]. cbn [rev filter].
  rewrite filter_app, IH. cbn [filter].
  destruct (p a); [reflexivity|apply app_nil_r].
Qed.

Lemma filter_trim (p : char -> bool) (s : str) :
  (forall c, isWhiteSpace c = true -> p c = false) ->
  filter p (trim s) = filter p s.
Proof.
  intros H. unfold trim, trimEnd, trimStart.
  rewrite filter_rev', (filter_dropWhile p isWhiteSpace _ H), filter_rev',
    (filter_dropWhile p isWhiteSpace _ H), rev_involutive.
  reflexivity.
Qed.

Lemma isNumChar_notSpace c : isWhiteSpace c = true -> isNumChar c = false.
Proof.
  intros H. destruct (isNumChar c) eqn:E; [|reflexivity].
  apply (numChars_all (fun c => negb (isWhiteSpace c))) in E; [|reflexivity].
  rewrite H in E. discriminate.
Qed.

Lemma numeric_filter s : numeric (filter isNumChar s) = true.
Proof.
  unfold numeric. apply forallb_forall. intros c Hc.
  apply filter_In in Hc. tauto.
Qed.

(** What [normalizeAmount] keeps of its argument before it splits it. *)
Lemma cleaned_filter s :
  replaceAll notNumeric (trim (replaceAll currencyChars s [])) []
  = filter isNumChar s.
Proof.
  rewrite (replaceAll_class notNumeric true
             [CDigit false; CChar 46; CChar 44]) by reflexivity.
  rewrite (replaceAll_class currencyChars false
             [CChar 36; CChar 226; CChar 8218; CChar 172; CChar 194;
              CChar 163; CChar 194; CChar 165; CChar 226; CChar 8218;
              CChar 185; CChar 66; CChar 115]) by reflexivity.
  assert (E : forall t,
             filter (fun c => negb (classMatches (ignoreCase notNumeric) true
                                      [CDigit false; CChar 46; CChar 44] c)) t
             = filter isNumChar t).
  { intros t. apply filter_ext. intros c.
    change (ignoreCase notNumeric) with false. unfold classMatches.
    cbn [existsb itemMatches xorb]. unfold charMatches. cbn [canonicalize].
    unfold isNumChar, isSep.
    rewrite orb_false_r, (N.eqb_sym 46 c), (N.eqb_sym 44 c).
    destruct (isDigit c || ((c =? 46) || (c =? 44))); reflexivity. }
  rewrite !E. rewrite (filter_trim isNumChar _ isNumChar_notSpace).
  apply filter_filter_sub. intros c Hc.
  apply (numChars_all
           (fun c => negb (classMatches (ignoreCase currencyChars) false
              [CChar 36; CChar 226; CChar 8218; CChar 172; CChar 194;
               CChar 163; CChar 194; CChar 165; CChar 226; CChar 8218;
               CChar 185; CChar 66; CChar 115] c)));
    [reflexivity|exact Hc].
Qed.

Lemma normalizeAmount_cleaned (s : str) :
  normalizeAmount s = normalizeAmount (filter isNumChar s).
Proof.
  pose proof (numeric_filter s) as Hn.
  set (F := filter isNumChar s) in *.
  unfold normalizeAmount at 2. cbv zeta.
  rewrite (currencyChars_keeps F Hn), (trim_numeric F Hn),
    (notNumeric_keeps F Hn).
  unfold normalizeAmount. cbv zeta. rewrite cleaned_filter. fold F.
  destruct F as [|c F'] eqn:EF.
  - destruct (negb (truthy (Some s)) || Nat.eqb (List.length (trim s)) 0);
      reflexivity.
  - assert (Ht : trim s <> []).
    { intros E. pose proof (filter_trim isNumChar s isNumChar_notSpace) as K.
      rewrite E in K. fold F in K. rewrite EF in K. discriminate K. }
    assert (Hs : s <> []) by (intros ->; apply Ht; reflexivity).
    rewrite (truthy_nonempty s Hs), (length_nonempty (trim s) Ht).
    reflexivity.
Qed.

(** X1.  [normalizeAmount] depends on the digits, points and commas of
    its argument only: every other code unit (a sign, a letter, a currency
    symbol, white space) is dropped before the text is read, so that two
    texts with the same digits and separators have the same value. *)
Theorem normalizeAmount_filter (s : str) :
  normalizeAmount s = normalizeAmount (filter isNumChar s)
  /\ forall t, filter isNumChar t = filter isNumChar s ->
                normalizeAmount t = normalizeAmount s.
Proof.
  split; [apply normalizeAmount_cleaned|].
  intros t E.
  rewrite (normalizeAmount_cleaned t), (normalizeAmount_cleaned s), E.
  reflexivity.
Qed.

(** ** When [normalizeAmount] returns a number, and which *)

Lemma noDigits_filter_numeric s :
  noDigits (filter isNumChar s) = noDigits s.
Proof.
  unfold noDigits. induction s as [|c s IH]; [reflexivity|].
  cbn [filter forallb]. unfold isNumChar at 1.
  destruct (isDigit c) eqn:D; cbn [orb negb andb forallb].
  - rewrite D. reflexivity.
  - destruct (isSep c); cbn [forallb]; rewrite ?D; cbn [negb andb]; exact IH.
Qed.

Lemma noDigits_filter_nil s : noDigits s = true -> filter isDigit s = [].
Proof.
  unfold noDigits. induction s as [|c s IH]; [reflexivity|].
  cbn [forallb filter]. intros H. apply andb_prop in H. destruct H as [Hc Hs].
  apply negb_true_iff in Hc. rewrite Hc. apply IH, Hs.
Qed.

Lemma filter_nil_noDigits s : filter isDigit s = [] -> noDigits s = true.
Proof.
  unfold noDigits. induction s as [|c s IH]; [reflexivity|].
  cbn [forallb filter]. destruct (isDigit c); [discriminate|].
  intros H. cbn [negb andb]. apply IH, H.
Qed.

Lemma noDigits_app a b : noDigits (a ++ b) = noDigits a && noDigits b.
Proof. apply forallb_app. Qed.

(** The value of a numeric text: nothing when it has no digit, and
    otherwise its digits scaled by at most two decimal places. *)
Lemma numeric_value w :
  numeric w = true ->
  (noDigits w = true /\ normalizeAmount w = None)
  \/ (noDigits w = false
      /\ exists v k, (k <= 2)%nat
                     /\ normalizeAmount w
                        = Some (scaled v (0 - Z.of_nat k))).
Proof.
  intros Hn.
  destruct (last_separator w Hn) as [Ha|(w0 & sep & l & -> & Hw & Hsep & Hl)].
  - destruct w as [|c w]; [left; split; reflexivity|].
    right. split.
    + unfold allDigits in Ha. cbn [forallb] in Ha. apply andb_prop in Ha.
      destruct Ha as [Hc _]. unfold noDigits. cbn [forallb]. rewrite Hc.
      reflexivity.
    + exists (digitsValue (c :: w)), 0%nat. split; [lia|].
      apply normalizeAmount_digits; [exact Ha|discriminate].
  - rewrite (normalizeAmount_sep w0 sep l Hw Hsep Hl).
    assert (Hsd : isDigit sep = false).
    { pose proof (numChar_sep_digit sep) as E.
      unfold isNumChar in E. rewrite Hsep, orb_true_r in E.
      specialize (E eq_refl). cbn [negb] in E. symmetry. exact E. }
    assert (Hnd : noDigits (w0 ++ sep :: l)
                  = noDigits (filter isDigit w0 ++ l)).
    { rewrite !noDigits_app. unfold noDigits at 2. cbn [forallb].
      rewrite Hsd. cbn [negb andb]. f_equal.
      destruct (noDigits w0) eqn:E0.
      - rewrite (noDigits_filter_nil w0 E0). reflexivity.
      - destruct (filter isDigit w0) as [|d D] eqn:EF.
        + rewrite (filter_nil_noDigits w0 EF) in E0. discriminate.
        + assert (Hd : isDigit d = true).
          { assert (Hin : In d (filter isDigit w0))
              by (rewrite EF; left; reflexivity).
            apply filter_In in Hin. tauto. }
          unfold noDigits. cbn [forallb]. rewrite Hd. reflexivity. }
    rewrite Hnd.
    destruct (filter isDigit w0 ++ l) as [|d D] eqn:ED.
    + left. split; [reflexivity|].
      apply app_eq_nil in ED. destruct ED as [_ ->]. reflexivity.
    + right. split.
      * assert (Hd : isDigit d = true).
        { assert (HD : allDigits (filter isDigit w0 ++ l) = true)
            by (rewrite allDigits_app, allDigits_filter, Hl; reflexivity).
          rewrite ED in HD. unfold allDigits in HD. cbn [forallb] in HD.
          apply andb_prop in HD. tauto. }
        unfold noDigits. cbn [forallb]. rewrite Hd. reflexivity.
      * destruct (Nat.leb (List.length l) 2) eqn:El.
        -- apply Nat.leb_le in El. eauto.
        -- exists (digitsValue (d :: D)), 0%nat. split; [lia|reflexivity].
Qed.

Lemma scaled_sign (v : N) (k : nat) :
  (k <= 2)%nat ->
  isNaN (scaled v (0 - Z.of_nat k)) = false
  /\ lt (scaled v (0 - Z.of_nat k)) (decimal 0 0) = false.
Proof.
  intros Hk. destruct (N.eq_dec v 0) as [->|Hv]; [split; reflexivity|].
  destruct (@scaled_positive v k Hk Hv) as (_ & Hp & Hn & _).
  split; [exact Hn|].
  destruct (scaled v (0 - Z.of_nat k)) as [s|s| |s m e];
    try discriminate Hn; destruct s; try discriminate Hp; reflexivity.
Qed.

(** X2.  [normalizeAmount] returns [null] exactly on the texts without a
    digit; on every other text it returns a number that is neither NaN
    nor negative (a sign in the text is ignored). *)
Theorem normalizeAmount_null_iff (s : str) :
  (normalizeAmount s = None <-> noDigits s = true)
  /\ forall n, normalizeAmount s = Some n ->
                isNaN n = false /\ lt n (decimal 0 0) = false.
Proof.
  rewrite (normalizeAmount_cleaned s), <- (noDigits_filter_numeric s).
  destruct (numeric_value _ (numeric_filter s))
    as [[Hd ->]|(Hd & v & k & Hk & ->)].
  - split; [tauto|]. intros n H. discriminate H.
  - split.
    + split; [discriminate|]. rewrite Hd. discriminate.
    + intros n H. injection H as <-. apply scaled_sign, Hk.
Qed.

(** ** Texts without a digit *)

Ltac boolProps :=
  repeat match goal with
         | H : (_ && _) = true |- _ => apply andb_prop in H; destruct H
         | H : (_ && _) = false |- _ => apply andb_false_iff in H; destruct H
         | H : (_ <=? _) = true |- _ => apply N.leb_le in H
         | H : (_ <=? _) = false |- _ => apply N.leb_gt in H
         | H : (_ =? _) = true |- _ => apply N.eqb_eq in H
         | H : (_ =? _) = false |- _ => apply N.eqb_neq in H
         | H : negb _ = true |- _ => apply negb_true_iff in H
         | H : negb _ = false |- _ => apply negb_false_iff in H
         end.

Lemma upper1_digit c : isDigit (upper1 c) = true -> isDigit c = true.
Proof.
  unfold upper1, isDigit, in_range. intros K.
  destruct ((97 <=? c) && (c <=? 122)) eqn:A;
    [|destruct ((224 <=? c) && (c <=? 254) && negb (c =? 247)) eqn:B;
      [|destruct (c =? 255) eqn:C; [|destruct (c =? 181) eqn:D]]];
    try exact K; boolProps; lia.
Qed.

Lemma lower1_digit c : isDigit (lower1 c) = true -> isDigit c = true.
Proof.
  unfold lower1, isDigit, in_range. intros K.
  destruct ((65 <=? c) && (c <=? 90)) eqn:A;
    [|destruct ((192 <=? c) && (c <=? 222) && negb (c =? 215)) eqn:B];
    try exact K; boolProps; lia.
Qed.

(** With or without the [i] flag, the class [[0-9]] matches digits
    only. *)
Lemma digit09_only ic c :
  classMatches ic false [CRange 48 57] c = true -> isDigit c = true.
Proof.
  unfold classMatches. cbn [existsb itemMatches xorb].
  rewrite orb_false_r. intros H. apply existsb_exists in H.
  destruct H as (v & Hin & Hv). fold (isDigit v) in Hv.
  unfold caseVariants in Hin. destruct ic.
  - apply filter_In in Hin. destruct Hin as [Hin _].
    cbn [In] in Hin.
    destruct Hin as [<-|[<-|[<-|[<-|[<-|[<-|[]]]]]]];
      auto using upper1_digit, lower1_digit; discriminate Hv.
  - destruct Hin as [<-|[]]. exact Hv.
Qed.

(** The atoms of the program's patterns that match digits only. *)
Definition digitAtom (r : regex) : bool :=
  match r with
  | RClass false [CRange lo hi] => (lo =? 48) && (hi =? 57)
  | RClass false [CDigit false] => true
  | _ => false
  end.

(** A pattern every match of which takes a digit. *)
Fixpoint needsDigit (r : regex) : bool :=
  digitAtom r
  || match r with
     | RSeq r1 r2 => needsDigit r1 || needsDigit r2
     | RAlt r1 r2 => needsDigit r1 && needsDigit r2
     | RRepeat r1 min max _ =>
         negb (Nat.eqb min 0) && notZero max && needsDigit r1
     | RGroup _ r1 => needsDigit r1
     | _ => false
     end.

Lemma step_digit (p : char -> bool) x y :
  (forall c, p c = true -> isDigit c = true) ->
  In y (step p x) ->
  exists w, after x = w ++ after y /\ noDigits w = false.
Proof.
  intros Hp. unfold step. destruct (after x) as [|c rest]; [intros []|].
  destruct (p c) eqn:Pc; [|intros []]. intros [<-|[]].
  exists [c]. split; [reflexivity|]. unfold noDigits. cbn [forallb].
  rewrite (Hp c Pc). reflexivity.
Qed.

Lemma digitAtom_consumes ic r x y :
  digitAtom r = true -> In y (matcher ic r x) ->
  exists w, after x = w ++ after y /\ noDigits w = false.
Proof.
  destruct r as [|a| |neg items|r1 r2|r1 r2|r1 min max greedy|i r1|a|neg r1];
    try discriminate.
  destruct neg; [discriminate|].
  destruct items as [|it [|it' items]]; try discriminate;
    [|destruct it as [a|lo hi|n|n|n]; try discriminate; destruct n; discriminate].
  destruct it as [a|lo hi|n|n|n]; try discriminate; cbn [digitAtom];
    intros Hd; rewrite matcher_eq; apply step_digit; intros c Hc.
  - apply andb_prop in Hd. destruct Hd as [H1 H2].
    apply N.eqb_eq in H1. apply N.eqb_eq in H2. subst lo hi.
    exact (digit09_only ic c Hc).
  - destruct n; [discriminate Hd|].
    rewrite digitClass_matches in Hc. exact Hc.
Qed.

Lemma noDigits_false_app_l a b : noDigits a = false -> noDigits (a ++ b) = false.
Proof. intros H. rewrite noDigits_app, H. reflexivity. Qed.

Lemma noDigits_false_app_r a b : noDigits b = false -> noDigits (a ++ b) = false.
Proof. intros H. rewrite noDigits_app, H. apply andb_false_r. Qed.

Lemma needsDigit_consumes ic r :
  needsDigit r = true ->
  forall x y, In y (matcher ic r x) ->
              exists w, after x = w ++ after y /\ noDigits w = false.
Proof.
  induction r as [|a| |neg items|r1 IH1 r2 IH2|r1 IH1 r2 IH2
                  |r1 IH1 min max greedy|i r1 IH1|a|neg r1 IH1];
    intros Hn x y Hin; cbn [needsDigit] in Hn;
    match type of Hn with
    | (digitAtom ?r || _) = true =>
        destruct (digitAtom r) eqn:Ha;
        [exact (digitAtom_consumes ic r x y Ha Hin)|]
    end;
    cbn [orb] in Hn; try discriminate Hn; rewrite matcher_eq in Hin.
  - apply in_flat_map in Hin. destruct Hin as (m & H1 & H2).
    destruct (@matcher_forward ic r1 x m H1) as (w1 & A1 & _).
    destruct (@matcher_forward ic r2 m y H2) as (w2 & A2 & _).
    apply orb_prop in Hn. destruct Hn as [Hn|Hn].
    + destruct (IH1 Hn x m H1) as (w & A & D).
      exists (w ++ w2). rewrite <- app_assoc, <- A2. split; [exact A|].
      apply noDigits_false_app_l, D.
    + destruct (IH2 Hn m y H2) as (w & A & D).
      exists (w1 ++ w). rewrite <- app_assoc, <- A. split; [exact A1|].
      apply noDigits_false_app_r, D.
  - apply andb_prop in Hn. destruct Hn as [Hn1 Hn2].
    apply in_app_or in Hin. destruct Hin; auto.
  - apply andb_prop in Hn. destruct Hn as [Hn Hn1].
    apply andb_prop in Hn. destruct Hn as [Hmin Hmax].
    rewrite repeatMatcher_eq in Hin.
    destruct max as [[|k]|]; [discriminate Hmax| |]; cbv zeta in Hin;
      rewrite Hmin in Hin;
      apply in_flat_map in Hin; destruct Hin as (y0 & H0 & Hy);
      (destruct (Nat.eqb min 0 && Nat.eqb (endIndex y0) (endIndex x));
       [destruct Hy|]);
      destruct (IH1 Hn1 _ _ H0) as (w & A & D);
      rewrite clearCaps_after in A;
      (eapply repeatMatcher_forward in Hy;
       [|intros x0 y1; apply matcher_forward]);
      destruct Hy as (w2 & A2 & _);
      exists (w ++ w2); rewrite <- app_assoc, <- A2;
      (split; [exact A|apply noDigits_false_app_l, D]).
  - apply in_map_iff in Hin. destruct Hin as (y0 & <- & H0).
    destruct (IH1 Hn x y0 H0) as (w & A & D).
    exists w. cbn [after setCap]. auto.
Qed.

Lemma matchAt_needsDigit re bef aft :
  needsDigit (ast re) = true -> noDigits aft = true ->
  matchAt re bef aft = None.
Proof.
  intros Hn Ha. unfold matchAt.
  destruct (matcher (ignoreCase re) (ast re) _) as [|y l] eqn:E;
    [reflexivity|].
  exfalso.
  destruct (needsDigit_consumes (ignoreCase re) (ast re) Hn
              (MState bef aft (repeat None (ngroups re))) y) as (w & A & D).
  - rewrite E. left. reflexivity.
  - cbn [after] in A. rewrite A, noDigits_app, D in Ha. discriminate Ha.
Qed.

Lemma execFrom_needsDigit re aft : forall bef,
  needsDigit (ast re) = true -> noDigits aft = true ->
  execFrom re bef aft = None.
Proof.
  induction aft as [|c aft IH]; intros bef Hn Ha; cbn [execFrom];
    rewrite (matchAt_needsDigit re bef _ Hn Ha); [reflexivity|].
  apply IH; [exact Hn|]. eapply noDigits_tail. exact Ha.
Qed.

Lemma matchAll_needsDigit re text :
  needsDigit (ast re) = true -> noDigits text = true ->
  matchAll re text = [].
Proof.
  intros Hn Ha. unfold matchAll. cbn [matchAllFrom].
  rewrite (execFrom_needsDigit re text [] Hn Ha). reflexivity.
Qed.

Lemma patterns_needDigit :
  forallb (fun pc => needsDigit (ast (pc_pattern pc))) AMOUNT_PATTERNS = true
  /\ forallb (fun re => needsDigit (ast re)) DATE_PATTERNS = true.
Proof. split; vm_compute; reflexivity. Qed.

Lemma candidatesOf_noDigits text : noDigits text = true -> candidatesOf text = [].
Proof.
  intros Ha. unfold candidatesOf. apply flat_map_nil. intros pc Hpc.
  destruct patterns_needDigit as [H _]. rewrite forallb_forall in H.
  rewrite (matchAll_needsDigit _ text (H pc Hpc) Ha). reflexivity.
Qed.

Lemma firstSome_none {A B} (f : A -> option B) (l : list A) :
  (forall a, In a l -> f a = None) -> firstSome f l = None.
Proof.
  induction l as [|a l IH]; intros H; [reflexivity|]. cbn [firstSome].
  rewrite (H a (or_introl eq_refl)). apply IH. intros b Hb. apply H.
  right. exact Hb.
Qed.

Definition thanksText : str := #"Gracias por su compra".

(** X3.  On a text without any digit nothing is found: [extractAmount]
    and [extractDate] return their empty results, and
    [heuristicExtraction] returns a record without amount, currency and
    date, with the escalation flag set. *)
Theorem noDigits_nothing_found (text : str) :
  noDigits text = true ->
  extractAmount text = MkAmountResult None None (decimal 0 0)
  /\ extractDate text = MkDateResult None (decimal 0 0)
  /\ exists r,
       heuristicExtraction text = Returns r
       /\ amount (data r) = None /\ currency (data r) = None
       /\ date (data r) = None /\ shouldUseLLM r = true.
Proof.
  intros Ha.
  assert (E1 : extractAmount text = MkAmountResult None None (decimal 0 0)).
  { unfold extractAmount. rewrite (candidatesOf_noDigits text Ha).
    reflexivity. }
  assert (E2 : extractDate text = MkDateResult None (decimal 0 0)).
  { unfold extractDate. rewrite firstSome_none; [reflexivity|].
    intros re Hre. destruct patterns_needDigit as [_ H].
    rewrite forallb_forall in H.
    rewrite (matchAll_needsDigit re text (H re Hre) Ha). reflexivity. }
  split; [exact E1|]. split; [exact E2|].
  unfold heuristicExtraction. rewrite E1, E2.
  destruct (extractProvider_returns text) as (p & -> & _). cbn [bind].
  eexists. split; [reflexivity|]. cbn.
  repeat split. rewrite orb_true_r. reflexivity.
Qed.

Lemma noDigits_nothing_found_witness :
  noDigits thanksText = true
  /\ extractAmount thanksText = MkAmountResult None None (decimal 0 0)
  /\ extractDate thanksText = MkDateResult None (decimal 0 0)
  /\ exists r,
       heuristicExtraction thanksText = Returns r
       /\ amount (data r) = None /\ currency (data r) = None
       /\ date (data r) = None /\ shouldUseLLM r = true.
Proof.
  split; [reflexivity|].
  apply (noDigits_nothing_found thanksText). reflexivity.
Defined.

(** ** What [extractProvider] returns *)

Lemma whitespaceRun_spaces : whitespaceRun = spaces.
Proof. reflexivity. Qed.

(** The tests that a provider text has passed when the loop keeps it. *)
Definition providerKept (s : str) : Prop :=
  (3 <= List.length s)%nat /\ (List.length s <= 50)%nat
  /\ existsb (fun word => includes (toUpperCase s) word) providerSkipWords
     = false
  /\ (test aDigit s = true -> (8 <= List.length s)%nat)
  /\ tidy s = s.

Definition providerKeptInv (b : option ProviderResult) : Prop :=
  match b with
  | None => True
  | Some p => (exists s, pr_provider p = Some s /\ providerKept s)
              /\ In (pr_confidence p) providerConfidences
  end.

Lemma providerStep_kept confidence best mt g :
  group 1 mt = Some g ->
  In confidence providerConfidences ->
  providerKeptInv best ->
  exists best', providerStep confidence best mt = Returns best'
                /\ providerKeptInv best'.
Proof.
  intros Hg Hc Hb. unfold providerStep. rewrite Hg. cbn [trimOf bind].
  rewrite whitespaceRun_spaces, replaceAll_spaces. fold (tidy (trim g)).
  set (p := tidy (trim g)).
  destruct (Nat.ltb (List.length p) 3) eqn:E3; cbn [orb]; [eauto|].
  destruct (Nat.ltb 50 (List.length p)) eqn:E50; [eauto|].
  destruct (existsb _ providerSkipWords) eqn:Es; [eauto|].
  destruct (test aDigit p && Nat.ltb (List.length p) 8) eqn:Ed; [eauto|].
  destruct (gt confidence _); [|eauto].
  eexists. split; [reflexivity|]. cbn [providerKeptInv pr_provider pr_confidence].
  split; [|exact Hc]. exists p. split; [reflexivity|].
  apply Nat.ltb_ge in E3. apply Nat.ltb_ge in E50.
  repeat split; auto.
  - intros Ht. rewrite Ht in Ed. cbn [andb] in Ed. apply Nat.ltb_ge in Ed.
    exact Ed.
  - apply tidy_idem.
Qed.

(** X4.  [extractProvider] never throws.  It returns no provider with
    confidence 0, or a provider text of 3 to 50 units in which white
    space is single spaces with none at the ends, whose upper-case form
    contains none of the skip words, which holds a digit only when it has
    8 units or more, with the confidence of one of the five patterns. *)
Theorem extractProvider_result (text : str) :
  exists p,
    extractProvider text = Returns p
    /\ (pr_provider p = None /\ pr_confidence p = decimal 0 0
        \/ (exists s, pr_provider p = Some s /\ providerKept s)
           /\ In (pr_confidence p) providerConfidences).
Proof.
  unfold extractProvider.
  destruct (@foldM_inv _ _ providerKeptInv
              (fun best pp =>
                 foldM (providerStep (pp_confidence pp))
                       (matchAll (pp_pattern pp) text) best)
              providerPatterns) with (s := @None ProviderResult)
    as (b & E & Pb).
  - intros s pp Hpp Ps.
    apply foldM_inv; [|exact Ps].
    intros s0 mt Hmt Ps0.
    pose proof providerPatterns_capture as Hcap.
    rewrite forallb_forall in Hcap. specialize (Hcap pp Hpp).
    apply andb_prop in Hcap. destruct Hcap as [Hs Hn].
    apply Nat.ltb_lt in Hn.
    destruct (@matchAll_group _ _ _ 1%nat Hmt Hs) as (g & Hg); [simpl; lia|].
    eapply providerStep_kept; eauto.
    unfold providerConfidences. apply in_map. exact Hpp.
  - exact I.
  - rewrite E. cbn [bind]. eexists. split; [reflexivity|].
    destruct b as [p|]; cbn [providerKeptInv] in Pb; auto.
Qed.

(** ** What [extractDescription] returns *)

Lemma fold_left_ext' {A S} (f g : S -> A -> S) (l : list A) :
  (forall s a, In a l -> f s a = g s a) ->
  forall s, fold_left f l s = fold_left g l s.
Proof.
  induction l as [|a l IH]; intros H s; [reflexivity|]. cbn [fold_left].
  rewrite (H s a (or_introl eq_refl)). apply IH.
  intros s0 b Hb. apply H. right. exact Hb.
Qed.

Lemma fold_left_flat_map {A B S} (f : S -> B -> S) (g : A -> list B)
  (l : list A) : forall s,
  fold_left f (flat_map g l) s
  = fold_left (fun s a => fold_left f (g a) s) l s.
Proof.
  induction l as [|a l IH]; intros s; [reflexivity|].
  cbn [flat_map fold_left]. rewrite fold_left_app. apply IH.
Qed.

(** The update of the best description by one surviving match. *)
Definition pickDescription (best : option str * num) (dc : str * num)
  : option str * num :=
  if gt (snd dc) (snd best) then (Some (fst dc), snd dc) else best.

Lemma bestDescriptionOf_survivors text provider :
  bestDescriptionOf text provider
  = fold_left pickDescription (descriptionSurvivors text provider)
      (None, decimal 0 0).
Proof.
  unfold bestDescriptionOf, descriptionSurvivors.
  rewrite fold_left_flat_map. apply fold_left_ext'. intros s pp _.
  rewrite fold_left_flat_map. apply fold_left_ext'. intros s0 mt _.
  unfold descriptionStep, pickDescription.
  destruct (descriptionOfMatch provider (pp_confidence pp) mt) as [[d c]|];
    reflexivity.
Qed.

(** The confidences of the loop, with its initial 0. *)
Definition descriptionScale : list num := decimal 0 0 :: descriptionConfidences.

(** On them [>] is the strict part of a total preorder. *)
Definition scaleOrdered (V : list num) : bool :=
  forallb (fun a =>
    forallb (fun b =>
      (if gt b a then negb (gt a b) else true)
      && forallb (fun c =>
           if negb (gt a b) && negb (gt b c) then negb (gt a c) else true) V)
      V) V.

Lemma scaleOrdered_spec V :
  scaleOrdered V = true ->
  forall a b, In a V -> In b V ->
    (gt b a = true -> gt a b = false)
    /\ forall c, In c V -> gt a b = false -> gt b c = false -> gt a c = false.
Proof.
  unfold scaleOrdered. intros H a b Ha Hb.
  rewrite forallb_forall in H. specialize (H a Ha).
  rewrite forallb_forall in H. specialize (H b Hb).
  apply andb_prop in H. destruct H as [H1 H2]. split.
  - intros G. rewrite G in H1. apply negb_true_iff in H1. exact H1.
  - intros c Hc G1 G2. rewrite forallb_forall in H2. specialize (H2 c Hc).
    rewrite G1, G2 in H2. cbn [negb andb] in H2. apply negb_true_iff in H2.
    exact H2.
Qed.

Lemma descriptionScale_ordered : scaleOrdered descriptionScale = true.
Proof. vm_compute. reflexivity. Qed.

(** The fold keeps a survivor of greatest confidence. *)
Lemma pick_greatest (l : list (str * num)) : forall best,
  (forall dc, In dc l -> In (snd dc) descriptionScale) ->
  In (snd best) descriptionScale ->
  let r := fold_left pickDescription l best in
  (r = best \/ exists d c, In (d, c) l /\ r = (Some d, c))
  /\ In (snd r) descriptionScale
  /\ gt (snd best) (snd r) = false
  /\ forall dc, In dc l -> gt (snd dc) (snd r) = false.
Proof.
  pose proof (scaleOrdered_spec _ descriptionScale_ordered) as Ord.
  induction l as [|[d c] l IH]; intros best Hl Hb; cbn zeta.
  - cbn [fold_left]. repeat split; auto.
    + destruct (gt (snd best) (snd best)) eqn:G; [|reflexivity].
      destruct (Ord _ _ Hb Hb) as [A _]. rewrite (A G) in G. discriminate.
    + intros dc [].
  - cbn [fold_left].
    assert (Hc : In c descriptionScale) by (apply (Hl (d, c)); left; reflexivity).
    assert (Hl' : forall dc, In dc l -> In (snd dc) descriptionScale)
      by (intros dc Hdc; apply Hl; right; exact Hdc).
    assert (Ep : pickDescription best (d, c)
                 = if gt c (snd best) then (Some d, c) else best)
      by reflexivity.
    rewrite Ep. clear Ep.
    destruct (gt c (snd best)) eqn:G.
    + destruct (IH (Some d, c) Hl' Hc) as (R1 & R2 & R3 & R4).
      cbn [snd] in R3.
      split; [|split; [exact R2|split]].
      * right. destruct R1 as [E|(d' & c' & Hin & E)]; rewrite E.
        -- exists d, c. split; [left|]; reflexivity.
        -- exists d', c'. split; [right; exact Hin|reflexivity].
      * destruct (Ord _ _ Hb Hc) as [A T]. apply (T _ R2 (A G) R3).
      * intros dc [<-|Hdc]; [exact R3|apply R4, Hdc].
    + destruct (IH best Hl' Hb) as (R1 & R2 & R3 & R4).
      split; [|split; [exact R2|split; [exact R3|]]].
      * destruct R1 as [E|(d' & c' & Hin & E)]; rewrite E;
          [left; reflexivity|].
        right. exists d', c'. split; [right; exact Hin|reflexivity].
      * intros dc [<-|Hdc]; [|apply R4, Hdc]. cbn [snd].
        destruct (Ord _ _ Hc Hb) as [_ T]. apply (T _ R2 G R3).
Qed.

(** What the filters of the loop leave of a description. *)
Definition descriptionKept (provider : option str) (d : str) : Prop :=
  d <> [] /\ (List.length d <= 100)%nat /\ tidy d = d
  /\ existsb (fun word => includes (toUpperCase d) word) descriptionSkipWords
     = false
  /\ (truthy provider = true ->
      includes (toLowerCase d) (toLowerCase (orEmpty provider)) = false).

Lemma trim_head s :
  match trim s with
  | c :: _ => isWhiteSpace c = false
  | [] => True
  end.
Proof.
  unfold trim, trimStart.
  pose proof (dropWhile_head isWhiteSpace s) as H.
  destruct (dropWhile isWhiteSpace s) as [|c t]; [exact I|].
  destruct (trimEnd_head c t H) as (t' & ->). exact H.
Qed.

Lemma tidy_head c s :
  isWhiteSpace c = false -> exists t, tidy (c :: s) = c :: t.
Proof.
  intros H. unfold tidy. cbn [collapseRun]. rewrite H.
  unfold trim, trimStart. cbn [dropWhile]. rewrite H.
  apply trimEnd_head, H.
Qed.

Lemma descriptionOfMatch_kept provider confidence mt d c :
  descriptionOfMatch provider confidence mt = Some (d, c) ->
  descriptionKept provider d.
Proof.
  unfold descriptionOfMatch.
  set (d0 := orEmpty (orElse (option_map trim (group 1 mt))
                             (option_map trim (group 2 mt)))).
  rewrite whitespaceRun_spaces, replaceAll_spaces. fold (tidy d0).
  destruct (Nat.ltb (List.length d0) 5) eqn:E5; cbn [orb]; [discriminate|].
  destruct (Nat.ltb 100 (List.length d0)) eqn:E100; [discriminate|].
  destruct (test properName (tidy d0) && _); [discriminate|].
  destruct (existsb _ descriptionSkipWords) eqn:Es; [discriminate|].
  destruct (truthy provider && _) eqn:Ep; [discriminate|].
  intros H.
  assert (Ed : d = tidy d0) by (destruct (_ || _); injection H as <- _; reflexivity).
  subst d. clear H.
  apply Nat.ltb_ge in E5. apply Nat.ltb_ge in E100.
  assert (Hh : exists g, d0 = trim g).
  { unfold d0, orElse.
    destruct (group 1 mt) as [g1|]; cbn [option_map truthy].
    - destruct (trim g1) eqn:E1; cbn [truthy].
      + destruct (group 2 mt) as [g2|]; cbn [option_map orEmpty];
          [exists g2|exists []]; reflexivity.
      + cbn [orEmpty]. exists g1. exact (eq_sym E1).
    - destruct (group 2 mt) as [g2|]; cbn [option_map orEmpty];
        [exists g2|exists []]; reflexivity. }
  destruct Hh as (g & Eg).
  pose proof (trim_head g) as Hhead. rewrite <- Eg in Hhead.
  destruct d0 as [|c0 t0] eqn:E0; [simpl in E5; lia|].
  destruct (tidy_head c0 t0 Hhead) as (t & Et).
  repeat split.
  - rewrite Et. discriminate.
  - pose proof (tidy_length (c0 :: t0)). lia.
  - apply tidy_idem.
  - exact Es.
  - intros Hp. rewrite Hp in Ep. exact Ep.
Qed.

Lemma survivors_kept text provider d c :
  In (d, c) (descriptionSurvivors text provider) ->
  descriptionKept provider d /\ In c descriptionConfidences.
Proof.
  unfold descriptionSurvivors. intros H.
  apply in_flat_map in H. destruct H as (pp & Hpp & H).
  apply in_flat_map in H. destruct H as (mt & Hmt & H).
  destruct (descriptionOfMatch provider (pp_confidence pp) mt)
    as [[d' c']|] eqn:E; cbn [optList] in H; [|destruct H].
  destruct H as [H|[]]. injection H as -> ->. split.
  - eapply descriptionOfMatch_kept; eauto.
  - unfold descriptionConfidences. apply in_flat_map. exists pp.
    split; [exact Hpp|].
    destruct (descriptionOfMatch_confidence _ _ _ E) as [->| ->];
      cbn [In]; auto.
Qed.

Lemma descriptionConfidences_positive :
  forallb (fun c => gt c (decimal 0 0)) descriptionConfidences = true.
Proof. vm_compute. reflexivity. Qed.

Definition conceptText : str := #"Concepto: pan integral y leche".

(** X5.  When a match survives the filters of [extractDescription], the
    function returns one of the surviving descriptions, with the greatest
    adjusted confidence among them.  The description is not empty, has at
    most 100 units, single spaces and none at the ends, none of the skip
    words in its upper-case form and, when a provider is given, not the
    provider in its lower-case form. *)
Theorem extractDescription_result (text : str) (provider : option str) :
  descriptionSurvivors text provider <> [] ->
  exists d c,
    extractDescription text provider = MkDescriptionResult (Some d) c
    /\ In (d, c) (descriptionSurvivors text provider)
    /\ descriptionKept provider d
    /\ forall d' c', In (d', c') (descriptionSurvivors text provider) ->
                     gt c' c = false.
Proof.
  intros Hne. unfold extractDescription.
  rewrite bestDescriptionOf_survivors.
  assert (Hl : forall dc, In dc (descriptionSurvivors text provider) ->
                          In (snd dc) descriptionScale).
  { intros [d c] Hdc. right. apply (survivors_kept text provider d c Hdc). }
  destruct (pick_greatest (descriptionSurvivors text provider)
              (None, decimal 0 0) Hl (or_introl eq_refl))
    as (R1 & _ & _ & R4).
  destruct (descriptionSurvivors text provider) as [|[d1 c1] l] eqn:El;
    [congruence|]. rewrite <- El in *.
  set (r := fold_left pickDescription (descriptionSurvivors text provider)
              (None, decimal 0 0)) in *.
  destruct R1 as [E|(d & c & Hin & E)].
  - exfalso.
    assert (H1 : In (d1, c1) (descriptionSurvivors text provider))
      by (rewrite El; left; reflexivity).
    pose proof (R4 _ H1) as G. rewrite E in G. cbn [snd] in G.
    destruct (survivors_kept text provider d1 c1 H1) as [_ Hc].
    pose proof descriptionConfidences_positive as P.
    rewrite forallb_forall in P. rewrite (P c1 Hc) in G. discriminate.
  - rewrite E.
    destruct (survivors_kept text provider d c Hin) as [Hk _].
    assert (Ht : truthy (Some d) = true).
    { destruct Hk as (Hd & _). destruct d; [congruence|reflexivity]. }
    rewrite Ht. cbn [negb andb].
    exists d, c. repeat split; auto.
    + apply Hk.
    + apply Hk.
    + apply Hk.
    + apply Hk.
    + apply Hk.
    + intros d' c' H'. specialize (R4 (d', c') H'). rewrite E in R4.
      exact R4.
Qed.

Lemma extractDescription_result_witness :
  descriptionSurvivors conceptText None <> []
  /\ exists d c,
       extractDescription conceptText None = MkDescriptionResult (Some d) c
       /\ In (d, c) (descriptionSurvivors conceptText None)
       /\ descriptionKept None d
       /\ forall d' c', In (d', c') (descriptionSurvivors conceptText None) ->
                        gt c' c = false.
Proof.
  assert (H : descriptionSurvivors conceptText None <> [])
    by (vm_compute; discriminate).
  split; [exact H|]. exact (extractDescription_result conceptText None H).
Defined.

(** ** What [extractDate] returns *)

Definition isLeap (y : Z) : bool :=
  ((y mod 4 =? 0) && (negb (y mod 100 =? 0) || (y mod 400 =? 0)))%Z.

(** The days of a month of the Gregorian calendar. *)
Definition daysInMonth (y m : Z) : Z :=
  (if m =? 2 then (if isLeap y then 29 else 28)
   else if (m =? 4) || (m =? 6) || (m =? 9) || (m =? 11) then 30
   else 31)%Z.

Definition isoDate (y m d : Z) : str :=
  intToString y ++ #"-" ++ pad2 (Some m) ++ #"-" ++ pad2 (Some d).

Definition forallZ (lo : Z) (n : nat) (P : Z -> bool) : bool :=
  forallb (fun i => P (lo + Z.of_nat i)%Z) (seq 0 n).

Lemma forallZ_spec lo n P :
  forallZ lo n P = true ->
  forall z, (lo <= z < lo + Z.of_nat n)%Z -> P z = true.
Proof.
  unfold forallZ. intros H z Hz. rewrite forallb_forall in H.
  specialize (H (Z.to_nat (z - lo))).
  replace (lo + Z.of_nat (Z.to_nat (z - lo)))%Z with z in H by lia.
  apply H. apply in_seq. lia.
Qed.

(** [isValidDate] accepts the day exactly when the calendar has it, and
    the date text has ten units. *)
Definition calendarDay (y m d : Z) : bool :=
  Bool.eqb (isValidDate (Some y) (Some m) (Some d)) (d <=? daysInMonth y m)%Z
  && Nat.eqb (List.length (isoDate y m d)) 10.

(** Checked for every day number up to 31 of every month of the years
    1900 to 2100. *)
Lemma calendarCheck_holds :
  forallZ 1900 201 (fun y => forallZ 1 12 (fun m => forallZ 1 31 (fun d =>
    calendarDay y m d))) = true.
Proof. vm_compute. reflexivity. Qed.

Lemma isValidDate_calendar y m d :
  isValidDate y m d = true ->
  exists y' m' d',
    y = Some y' /\ m = Some m' /\ d = Some d'
    /\ (1900 <= y' <= 2100)%Z /\ (1 <= m' <= 12)%Z
    /\ (1 <= d' <= daysInMonth y' m')%Z
    /\ List.length (isoDate y' m' d') = 10%nat.
Proof.
  intros H. destruct y as [y|], m as [m|], d as [d|];
    try (destruct y; discriminate H); try discriminate H.
  assert (R : (1900 <= y <= 2100)%Z /\ (1 <= m <= 12)%Z /\ (1 <= d <= 31)%Z).
  { unfold isValidDate in H.
    destruct (y <? 1900)%Z eqn:A1; [discriminate|].
    destruct (y >? 2100)%Z eqn:A2; [discriminate|]. cbn [orb] in H.
    destruct (m <? 1)%Z eqn:B1; [discriminate|].
    destruct (m >? 12)%Z eqn:B2; [discriminate|]. cbn [orb] in H.
    destruct (d <? 1)%Z eqn:C1; [discriminate|].
    destruct (d >? 31)%Z eqn:C2; [discriminate|].
    rewrite Z.ltb_ge in A1, B1, C1. rewrite Z.gtb_ltb, Z.ltb_ge in A2, B2, C2.
    lia. }
  destruct R as (Ry & Rm & Rd).
  pose proof (forallZ_spec _ _ _ calendarCheck_holds y ltac:(lia)) as Cy.
  pose proof (forallZ_spec _ _ _ Cy m ltac:(lia)) as Cm.
  pose proof (forallZ_spec _ _ _ Cm d ltac:(lia)) as Cd.
  unfold calendarDay in Cd.
  apply andb_prop in Cd. destruct Cd as [E L].
  rewrite H in E. apply eqb_prop in E. symmetry in E. apply Z.leb_le in E.
  apply Nat.eqb_eq in L.
  exists y, m, d. repeat split; auto; lia.
Qed.

Lemma firstSome_Some {A B} (f : A -> option B) (l : list A) b :
  firstSome f l = Some b -> exists a, In a l /\ f a = Some b.
Proof.
  induction l as [|a l IH]; cbn [firstSome]; [discriminate|].
  destruct (f a) as [b'|] eqn:E.
  - intros H. injection H as ->. exists a. split; [left; reflexivity|exact E].
  - intros H. destruct (IH H) as (a' & Hin & Ha). exists a'. split; auto.
    right. exact Hin.
Qed.

Lemma dateOfMatch_calendar pattern mt iso :
  dateOfMatch pattern mt = Some iso ->
  exists y m d,
    (1900 <= y <= 2100)%Z /\ (1 <= m <= 12)%Z
    /\ (1 <= d <= daysInMonth y m)%Z
    /\ iso = isoDate y m d /\ List.length iso = 10%nat.
Proof.
  unfold dateOfMatch.
  destruct (if includes (source pattern) _ then _ else _) as [[[y m] d]|];
    [|discriminate].
  destruct (isValidDate y m d) eqn:V; [|discriminate].
  destruct (isValidDate_calendar y m d V)
    as (y' & m' & d' & -> & -> & -> & Ry & Rm & Rd & L).
  intros H. injection H as <-.
  exists y', m', d'. repeat split; auto; lia.
Qed.

Definition isoText : str := #"Fecha 2024-02-29 gracias".

(** X6.  A date that [extractDate] returns has confidence 0.9 and is the
    text [YYYY-MM-DD], ten units long, of a day of the Gregorian calendar
    between the years 1900 and 2100: the month is from 1 to 12 and the
    day exists in that month of that year. *)
Theorem extractDate_calendar (text iso : str) (c : num) :
  extractDate text = MkDateResult (Some iso) c ->
  c = decimal 9 1
  /\ exists y m d,
       (1900 <= y <= 2100)%Z /\ (1 <= m <= 12)%Z
       /\ (1 <= d <= daysInMonth y m)%Z
       /\ iso = isoDate y m d /\ List.length iso = 10%nat.
Proof.
  unfold extractDate.
  destruct (firstSome _ DATE_PATTERNS) as [iso'|] eqn:E; [|discriminate].
  intros H. injection H as -> <-. split; [reflexivity|].
  destruct (firstSome_Some _ _ _ E) as (pattern & _ & E1).
  destruct (firstSome_Some _ _ _ E1) as (mt & _ & E2).
  exact (dateOfMatch_calendar pattern mt iso E2).
Qed.

Lemma extractDate_calendar_witness :
  extractDate isoText = MkDateResult (Some #"2024-02-29") (decimal 9 1)
  /\ decimal 9 1 = decimal 9 1
  /\ exists y m d,
       (1900 <= y <= 2100)%Z /\ (1 <= m <= 12)%Z
       /\ (1 <= d <= daysInMonth y m)%Z
       /\ #"2024-02-29" = isoDate y m d
       /\ List.length #"2024-02-29" = 10%nat.
Proof.
  assert (H : extractDate isoText
              = MkDateResult (Some #"2024-02-29") (decimal 9 1))
    by (vm_compute; reflexivity).
  split; [exact H|].
  exact (extractDate_calendar isoText #"2024-02-29" (decimal 9 1) H).
Defined.

(** ** The confidences of [heuristicExtraction] *)

Definition inUnit (a : num) : bool :=
  le (decimal 0 0) a && le a (decimal 1 0).

Definition dateConfidences : list num := [decimal 0 0; decimal 9 1].

Definition providerScale : list num := decimal 0 0 :: providerConfidences.

Definition descriptionResults : list num :=
  decimal 5 1 :: decimal 3 1 :: descriptionConfidences.

(** The weighted sum of an amount confidence [ca] with every confidence
    that the other three scanners can return. *)
Definition sumsInUnit (ca : num) : bool :=
  let s0 := mul ca (decimal 4 1) in
  forallb (fun cdt =>
    let s1 := add s0 (mul cdt (decimal 3 1)) in
    forallb (fun cp =>
      let s2 := add s1 (mul cp (decimal 2 1)) in
      forallb (fun cd => inUnit (add s2 (mul cd (decimal 1 1))))
        descriptionResults)
      providerScale)
    dateConfidences.

Lemma sumsInUnit_spec ca cdt cp cd :
  sumsInUnit ca = true ->
  In cdt dateConfidences -> In cp providerScale -> In cd descriptionResults ->
  inUnit (weightedConfidenceOf (MkConfidence ca cdt cp cd)) = true.
Proof.
  unfold sumsInUnit. cbv zeta. intros H H1 H2 H3.
  rewrite forallb_forall in H. specialize (H _ H1). cbv beta in H.
  rewrite forallb_forall in H. specialize (H _ H2). cbv beta in H.
  rewrite forallb_forall in H. exact (H _ H3).
Qed.

Definition unitSums (base : num) (cur g50 g100 g1000 l1 l01 ctx : bool)
  : bool :=
  let ca := adjustBy base cur g50 g100 g1000 l1 l01 ctx in
  if consistent g50 g100 g1000 l1 l01 && nonneg ca then sumsInUnit ca
  else true.

Lemma unitSums_cases : confidenceCases unitSums = true.
Proof. vm_compute. reflexivity. Qed.

Lemma unitSums_zero : sumsInUnit (decimal 0 0) = true.
Proof. vm_compute. reflexivity. Qed.

Lemma scales_inUnit :
  forallb inUnit providerScale && forallb inUnit descriptionResults = true.
Proof. vm_compute. reflexivity. Qed.

(** The candidate that the sort puts first has no negative confidence. *)
Lemma first_candidate_nonneg text w rest :
  sortBy compareCandidates (candidatesOf text) = w :: rest ->
  In w (candidatesOf text) /\ nonneg (c_confidence w) = true.
Proof.
  intros E.
  assert (Hw : In w (candidatesOf text)).
  { apply (sortBy_In compareCandidates). rewrite E. left. reflexivity. }
  split; [exact Hw|].
  destruct (nonneg (c_confidence w)) eqn:G; [reflexivity|].
  destruct (negative_has_rival text w Hw G) as (g & Hg & Gg).
  rewrite <- G. exact (@best_candidate_nonneg text g w rest Hg Gg E).
Qed.

(** What [extractAmount] returns as confidence: 0 without a candidate,
    and else the confidence of the first candidate, which is not
    negative. *)
Lemma extractAmount_confidence text :
  am_confidence (extractAmount text) = decimal 0 0
  \/ exists base cur ctx n,
       In base baseConfidences
       /\ am_confidence (extractAmount text) = confidenceOf base cur ctx n
       /\ nonneg (confidenceOf base cur ctx n) = true.
Proof.
  unfold extractAmount. cbv zeta.
  destruct (sortBy compareCandidates (candidatesOf text)) as [|w rest] eqn:E;
    [left; reflexivity|right].
  destruct (first_candidate_nonneg text w rest E) as [Hw Hn].
  destruct (@candidate_profiled text w Hw) as (base & cur & ctx & Hb & Ec).
  cbn [am_confidence]. rewrite Ec in Hn. rewrite Ec.
  exists base, cur, ctx, (c_amount w). auto.
Qed.

(** X7.  [heuristicExtraction] returns, and each of the four confidences
    of its record as well as the overall confidence is at least 0 and at
    most 1. *)
Theorem heuristicExtraction_confidences (text : str) :
  exists r,
    heuristicExtraction text = Returns r
    /\ inUnit (conf_amount (confidence (data r))) = true
    /\ inUnit (conf_date (confidence (data r))) = true
    /\ inUnit (conf_provider (confidence (data r))) = true
    /\ inUnit (conf_description (confidence (data r))) = true
    /\ inUnit (overallConfidence r) = true.
Proof.
  unfold heuristicExtraction.
  destruct (extractProvider_returns text) as (p & Ep & Hp).
  rewrite Ep. cbn [bind]. eexists. split; [reflexivity|].
  cbn [data overallConfidence confidence conf_amount conf_date conf_provider
       conf_description].
  pose proof scales_inUnit as S. apply andb_prop in S. destruct S as [Sp Sd].
  rewrite forallb_forall in Sp, Sd.
  assert (Hcp : In (pr_confidence p) providerScale).
  { destruct Hp as [[_ ->]|[_ H]]; [left; reflexivity|right; exact H]. }
  pose proof (extractDescription_confidence text (pr_provider p)) as Hcd.
  fold descriptionResults in Hcd.
  assert (Hdt : In (dt_confidence (extractDate text)) dateConfidences).
  { destruct (extractDate_cases text) as [E|(iso & E & _)]; rewrite E;
      cbn [dt_confidence dateConfidences In]; auto. }
  assert (Ha : sumsInUnit (am_confidence (extractAmount text)) = true
               /\ inUnit (am_confidence (extractAmount text)) = true).
  { destruct (extractAmount_confidence text)
      as [->|(base & cur & ctx & n & Hb & -> & Hn)].
    - split; [exact unitSums_zero|reflexivity].
    - unfold confidenceOf in *.
      pose proof (@confidenceCases_spec unitSums unitSums_cases
                    base cur (gt n (decimal 50 0)) (gt n (decimal 100 0))
                    (gt n (decimal 1000 0)) (lt n (decimal 1 0))
                    (lt n (decimal 1 1)) ctx Hb) as K.
      unfold unitSums in K. cbv zeta in K.
      rewrite (flags_consistent n), Hn in K. cbn [andb] in K.
      split; [exact K|]. unfold inUnit.
      unfold nonneg in Hn. rewrite Hn. cbn [andb].
      exact (@confidenceCases_spec boundedAbove boundedAbove_cases
               base cur (gt n (decimal 50 0)) (gt n (decimal 100 0))
               (gt n (decimal 1000 0)) (lt n (decimal 1 0))
               (lt n (decimal 1 1)) ctx Hb). }
  destruct Ha as [Hs Hu].
  split; [exact Hu|]. split.
  { destruct Hdt as [<-|[<-|[]]]; reflexivity. }
  split; [exact (Sp _ Hcp)|]. split; [exact (Sd _ Hcd)|].
  apply sumsInUnit_spec; assumption.
Qed.

(** ** What [validateAndFixFields] returns *)

Lemma bind_Returns {A B} (o : outcome A) (k : A -> outcome B) (b : B) :
  bind o k = Returns b -> exists a, o = Returns a /\ k a = Returns b.
Proof. destruct o; cbn [bind]; try discriminate. eauto. Qed.

Lemma forallb_skipn {A} (p : A -> bool) (k : nat) : forall l,
  forallb p l = true -> forallb p (skipn k l) = true.
Proof.
  induction k as [|k IH]; intros [|x l] H; cbn [skipn]; auto.
  cbn [forallb] in H. apply andb_prop in H. apply IH, H.
Qed.

(** Removing the matches of a pattern leaves units of the text. *)
Lemma replaceFrom_forallb re (p : char -> bool) : forall fuel bef aft,
  forallb p aft = true -> forallb p (replaceFrom re [] fuel bef aft) = true.
Proof.
  induction fuel as [|fuel IH]; intros bef aft H; cbn [replaceFrom]; [exact H|].
  destruct (matchAt re bef aft) as [mt|].
  - destruct (lastIndex mt - List.length bef)%nat as [|k].
    + destruct aft as [|c aft]; [reflexivity|].
      cbn [app forallb] in *. apply andb_prop in H. destruct H as [H1 H2].
      rewrite H1. apply IH, H2.
    + cbn [app]. apply IH. apply forallb_skipn, H.
  - destruct aft as [|c aft]; [reflexivity|].
    cbn [forallb] in *. apply andb_prop in H. destruct H as [H1 H2].
    rewrite H1. apply IH, H2.
Qed.

Lemma removePattern_noDigits p s t :
  removePattern p s = Returns t -> noDigits s = true -> noDigits t = true.
Proof.
  unfold removePattern. destruct (newRegExp p #"gi") as [re|[|]];
    try discriminate.
  intros E H. injection E as <-. apply replaceFrom_forallb, H.
Qed.

(** The fields that the repairs of the first [if] leave alone. *)
Definition sameButAmount (r r1 : ExtractedData) : Prop :=
  description r1 = description r /\ provider r1 = provider r
  /\ currency r1 = currency r /\ date r1 = date r
  /\ confidence r1 = confidence r.

Lemma fixAmount_fields d r :
  sameButAmount r (fixAmount d r)
  /\ (amount (fixAmount d r) = amount r
      \/ exists a, amount (fixAmount d r) = Some a
                   /\ gt a (decimal 0 0) = true).
Proof.
  unfold fixAmount, sameButAmount.
  destruct (matchGlobal numberLike d) as [l|]; [|auto 10].
  cbv zeta. destruct (gt _ (decimal 0 0)) eqn:G; [|auto 10].
  cbn [setAmount description provider currency date confidence amount].
  repeat split; auto. right. eauto.
Qed.

Lemma fixProvider_fields d r r1 :
  fixProvider d r = Returns r1 ->
  description r1 = description r /\ amount r1 = amount r
  /\ currency r1 = currency r /\ date r1 = date r
  /\ confidence r1 = confidence r.
Proof.
  unfold fixProvider. destruct (exec businessName d) as [mt|].
  - intros E. apply bind_Returns in E. destruct E as (p & _ & E).
    injection E as <-. repeat split.
  - intros E. injection E as <-. repeat split.
Qed.

Lemma fixDate_fields d r r1 :
  fixDate d r = Returns r1 ->
  description r1 = description r /\ provider r1 = provider r
  /\ amount r1 = amount r /\ currency r1 = currency r
  /\ confidence r1 = confidence r.
Proof.
  unfold fixDate. destruct (exec dateLike d) as [mt|];
    [|intros E; injection E as <-; repeat split].
  destruct (group 1 mt) as [dateStr|]; [|discriminate].
  destruct (split dateSeparator dateStr) as [|p0 [|p1 [|p2 [|p3 l]]]];
    try (intros E; injection E as <-; repeat split).
  destruct (if Nat.eqb (List.length p2) 4
            then if gtZ (parseIntAuto p0) 12 then (p0, p1, p2)
                 else (p1, p0, p2)
            else if gtZ (parseIntAuto p0) 12 then (p0, p1, #"20" ++ p2)
                 else (p1, p0, #"20" ++ p2)) as [[day month] year].
  intros E; injection E as <-; repeat split.
Qed.

Lemma truncateDescription_fields r :
  truthy (description (truncateDescription r)) = truthy (description r)
  /\ provider (truncateDescription r) = provider r
  /\ amount (truncateDescription r) = amount r
  /\ currency (truncateDescription r) = currency r
  /\ date (truncateDescription r) = date r
  /\ confidence (truncateDescription r) = confidence r.
Proof.
  unfold truncateDescription.
  destruct (truthy (description r)) eqn:T; cbn [andb]; [|rewrite T; auto 10].
  destruct (Nat.ltb 100 (List.length (orEmpty (description r)))) eqn:L;
    [|rewrite T; auto 10].
  cbn [setDescription description provider amount currency date confidence].
  repeat split. apply Nat.ltb_lt in L.
  destruct (description r) as [[|c s]|]; cbn [orEmpty List.length] in L;
    try lia.
  reflexivity.
Qed.

Definition positiveOrSame (old new : option num) : Prop :=
  new = old \/ exists a, new = Some a /\ gt a (decimal 0 0) = true.

Lemma repairFromDescription_fields r r1 :
  repairFromDescription r = Returns r1 ->
  truthy (description r1) = truthy (description r)
  /\ currency r1 = currency r /\ confidence r1 = confidence r
  /\ positiveOrSame (amount r) (amount r1)
  /\ (allInDescription r = false -> r1 = r).
Proof.
  unfold repairFromDescription, positiveOrSame.
  destruct (allInDescription r) eqn:A.
  - cbv zeta. set (d := orEmpty (description r)).
    destruct (fixAmount_fields d r) as ((A1 & A2 & A3 & A4 & A5) & Ha).
    intros E. apply bind_Returns in E. destruct E as (r2 & E2 & E).
    apply bind_Returns in E. destruct E as (r3 & E3 & E).
    injection E as <-.
    destruct (fixProvider_fields _ _ _ E2) as (B1 & B2 & B3 & B4 & B5).
    destruct (fixDate_fields _ _ _ E3) as (C1 & C2 & C3 & C4 & C5).
    destruct (truncateDescription_fields r3) as (D1 & D2 & D3 & D4 & D5 & D6).
    rewrite D1, D3, D4, D6, C1, C3, C4, C5, B1, B2, B3, B5, A1, A3, A5.
    repeat split; auto. discriminate.
  - intros E. injection E as <-. auto 10.
Qed.

(** The description that the second [if] leaves: a text of at least 5
    units that is the fallback, or has no digit and only single spaces
    inside. *)
Definition scrubbedDescription (r' : ExtractedData) (d : str) : Prop :=
  (5 <= List.length d)%nat
  /\ ((truthy (provider r') = true
       /\ d = #"Compra en " ++ orEmpty (provider r'))
      \/ (truthy (provider r') = false /\ d = #"Compra general")
      \/ (noDigits d = true /\ tidy d = d)).

Lemma scrubDescription_fields r r' :
  scrubDescription r = Returns r' ->
  provider r' = provider r /\ amount r' = amount r
  /\ currency r' = currency r /\ date r' = date r
  /\ confidence r' = confidence r
  /\ (truthy (description r) = false -> r' = r)
  /\ (truthy (description r) = true ->
      exists d, description r' = Some d /\ scrubbedDescription r' d).
Proof.
  unfold scrubDescription, scrubbedDescription.
  destruct (truthy (description r)) eqn:T;
    [|intros E; injection E as <-; repeat split; auto; discriminate].
  cbv zeta. set (d1 := replaceAll amountText (orEmpty (description r)) []).
  assert (N1 : noDigits d1 = true) by apply remove_amountText.
  assert (E2 : replaceAll dateText d1 [] = d1)
    by (apply remove_none; [apply dateText_none|exact N1]).
  rewrite E2. intros E. apply bind_Returns in E. destruct E as (d2 & Ed & E).
  assert (N2 : noDigits d2 = true).
  { destruct (truthy (provider r)).
    - eapply removePattern_noDigits; eauto.
    - injection Ed as <-. exact N1. }
  rewrite replaceAll_spaces in E. fold (tidy d2) in E.
  destruct (negb (truthy (Some (tidy d2))) || Nat.ltb (List.length (tidy d2)) 5)
    eqn:Ec; injection E as <-;
    cbn [setDescription description provider amount currency date confidence];
    (repeat split; auto; try discriminate); intros _.
  - eexists. split; [reflexivity|].
    destruct (truthy (provider r)) eqn:Tp.
    + split; [cbn [List.length]; lia|]. left. auto.
    + split; [simpl; lia|]. right. left. auto.
  - apply orb_false_iff in Ec. destruct Ec as [_ Ec].
    apply Nat.ltb_ge in Ec.
    eexists. split; [reflexivity|]. split; [exact Ec|].
    right. right. split; [apply tidy_noDigits, N2|apply tidy_idem].
Qed.

(** X8.  In the second [if] the amounts are removed first, and they
    take every digit with them: the removal of dates that follows finds
    nothing and changes nothing, so that the separators of a date stay in
    the description. *)
Theorem date_removal_changes_nothing (d : str) :
  noDigits (replaceAll amountText d []) = true
  /\ replaceAll dateText (replaceAll amountText d []) []
     = replaceAll amountText d []
  /\ replaceAll dateText (replaceAll amountText #"el 10/02/2024" []) []
     = #"el //".
Proof.
  split; [apply remove_amountText|]. split.
  - apply remove_none; [apply dateText_none|apply remove_amountText].
  - vm_compute. reflexivity.
Qed.

(** X9.  When [validateAndFixFields] returns, the currency and the
    confidences are those of its argument; the amount is that of the
    argument or a positive number; a record without description, or with
    the empty one, comes back unchanged; any other record comes back with
    a description of at least 5 units that is [Compra en] with the
    provider, [Compra general], or a text without digits in which white
    space is single spaces with none at the ends; and where the first
    [if] does not apply, provider, amount and date are unchanged. *)
Theorem validateAndFixFields_result (r r' : ExtractedData) :
  validateAndFixFields r = Returns r' ->
  currency r' = currency r
  /\ confidence r' = confidence r
  /\ positiveOrSame (amount r) (amount r')
  /\ (truthy (description r) = false -> r' = r)
  /\ (truthy (description r) = true ->
      exists d, description r' = Some d /\ scrubbedDescription r' d)
  /\ (allInDescription r = false ->
      provider r' = provider r /\ amount r' = amount r /\ date r' = date r).
Proof.
  unfold validateAndFixFields. intros E.
  apply bind_Returns in E. destruct E as (r1 & E1 & E2).
  destruct (repairFromDescription_fields r r1 E1) as (T1 & C1 & F1 & A1 & O1).
  destruct (scrubDescription_fields r1 r' E2)
    as (P2 & A2 & C2 & D2 & F2 & U2 & S2).
  rewrite T1 in U2, S2. rewrite C2, F2, A2.
  split; [exact C1|]. split; [exact F1|]. split; [exact A1|].
  split; [|split; [exact S2|]].
  - intros T. rewrite (U2 T).
    apply O1. unfold allInDescription. rewrite T. reflexivity.
  - intros Off. rewrite P2, D2, (O1 Off). auto.
Qed.

Lemma validateAndFixFields_result_witness :
  validateAndFixFields cafeReceipt
  = Returns (setDescription (Some #"Compra de cafes por el //") cafeReceipt)
  /\ exists d,
       description (setDescription (Some #"Compra de cafes por el //") cafeReceipt)
       = Some d
       /\ scrubbedDescription
            (setDescription (Some #"Compra de cafes por el //") cafeReceipt) d.
Proof.
  assert (E : validateAndFixFields cafeReceipt
              = Returns (setDescription (Some #"Compra de cafes por el //")
                           cafeReceipt))
    by (vm_compute; reflexivity).
  split; [exact E|].
  destruct (validateAndFixFields_result cafeReceipt _ E)
    as (_ & _ & _ & _ & S & _).
  exact (S eq_refl).
Defined.

(** ** The currency that [extractAmount] returns *)

Ltac caseBools :=
  repeat match goal with
         | |- context [if ?b then _ else _] => destruct b eqn:?
         | H : context [if ?b then _ else _] |- _ => destruct b eqn:?
         end;
  repeat match goal with
         | H : (_ && _) = true |- _ => apply andb_prop in H; destruct H
         | H : (_ || _) = false |- _ => apply orb_false_iff in H; destruct H
         | H : negb _ = true |- _ => apply negb_true_iff in H
         | H : negb _ = false |- _ => apply negb_false_iff in H
         | H : (_ <=? _) = true |- _ => apply N.leb_le in H
         | H : (_ <=? _) = false |- _ => apply N.leb_gt in H
         | H : (_ <? _) = true |- _ => apply N.ltb_lt in H
         | H : (_ <? _) = false |- _ => apply N.ltb_ge in H
         | H : (_ =? _) = true |- _ => apply N.eqb_eq in H
         | H : (_ =? _) = false |- _ => apply N.eqb_neq in H
         end.

(** Case folding leaves the code units below the letters alone, and maps
    no other unit onto them. *)
Lemma canonicalize_low ic c :
  canonicalize ic c < 65 -> canonicalize ic c = c.
Proof.
  unfold canonicalize, upper1, in_range. cbv zeta. intros H.
  destruct ic; [|reflexivity].
  destruct (c =? 223) eqn:A; [reflexivity|].
  destruct ((97 <=? c) && (c <=? 122)) eqn:B;
    [|destruct ((224 <=? c) && (c <=? 254) && negb (c =? 247)) eqn:D;
      [|destruct (c =? 255) eqn:E; [|destruct (c =? 181) eqn:F]]];
    caseBools; try reflexivity; try lia.
Qed.

Lemma canonicalize_of_low ic a : a < 65 -> canonicalize ic a = a.
Proof.
  unfold canonicalize, upper1, in_range. cbv zeta. intros H.
  destruct ic; [|reflexivity].
  destruct (a =? 223) eqn:A; [reflexivity|].
  destruct ((97 <=? a) && (a <=? 122)) eqn:B;
    [|destruct ((224 <=? a) && (a <=? 254) && negb (a =? 247)) eqn:D;
      [|destruct (a =? 255) eqn:E; [|destruct (a =? 181) eqn:F]]];
    caseBools; try reflexivity; try lia.
Qed.

Lemma charMatches_low ic a c :
  a < 65 -> charMatches ic a c = true -> c = a.
Proof.
  unfold charMatches. intros Ha H. apply N.eqb_eq in H.
  rewrite (canonicalize_of_low ic a Ha) in H.
  rewrite <- (canonicalize_low ic c); [congruence|]. rewrite <- H. exact Ha.
Qed.

Lemma isDigit_low c : isDigit c = true -> c < 65.
Proof. unfold isDigit, in_range. intros H. caseBools. lia. Qed.

Lemma isNumChar_low c : isNumChar c = true -> c < 65.
Proof. intros H. apply isNumChar_In in H. simpl in H. lia. Qed.

Lemma charMatches_nondigit ic a c :
  isDigit a = false -> charMatches ic a c = true -> isDigit c = false.
Proof.
  intros Ha H. destruct (isDigit c) eqn:D; [|reflexivity].
  unfold charMatches in H. apply N.eqb_eq in H.
  rewrite (canonicalize_of_low ic c (isDigit_low c D)) in H.
  assert (L : canonicalize ic a < 65) by (rewrite H; apply isDigit_low, D).
  rewrite (canonicalize_low ic a L) in H. congruence.
Qed.

(** The items of a class that matches units of numeric texts only, and
    those of a class that matches no digit. *)
Definition numItem (it : citem) : bool :=
  match it with
  | CChar a => isNumChar a
  | CRange lo hi => (lo =? 48) && (hi =? 57)
  | CDigit neg => negb neg
  | _ => false
  end.

Definition symItem (it : citem) : bool :=
  match it with
  | CChar a => negb (isDigit a)
  | CSpace neg => negb neg
  | _ => false
  end.

Lemma numItem_matches ic it c :
  numItem it = true -> itemMatches ic it c = true -> isNumChar c = true.
Proof.
  destruct it as [a|lo hi|neg|neg|neg]; cbn [numItem itemMatches];
    intros Hi Hm; try discriminate Hi.
  - rewrite (charMatches_low ic a c (isNumChar_low a Hi) Hm). exact Hi.
  - apply andb_prop in Hi. destruct Hi as [H1 H2].
    apply N.eqb_eq in H1. apply N.eqb_eq in H2. subst lo hi.
    apply isDigit_isNumChar, (digit09_only ic c).
    unfold classMatches. cbn [existsb itemMatches xorb]. rewrite Hm.
    reflexivity.
  - destruct neg; [discriminate Hi|]. cbn [xorb] in Hm.
    apply isDigit_isNumChar.
    destruct (isDigit c); [reflexivity|discriminate Hm].
Qed.

Lemma isWhiteSpace_nondigit c : isWhiteSpace c = true -> isDigit c = false.
Proof.
  intros H. destruct (isDigit c) eqn:D; [|reflexivity].
  pose proof (numChars_all (fun x => negb (isWhiteSpace x)) eq_refl c
                (isDigit_isNumChar c D)) as K.
  cbv beta in K. rewrite H in K. discriminate K.
Qed.

Lemma symItem_matches ic it c :
  symItem it = true -> itemMatches ic it c = true ->
  negb (isDigit c) = true.
Proof.
  destruct it as [a|lo hi|neg|neg|neg]; cbn [symItem itemMatches];
    intros Hi Hm; try discriminate Hi; apply negb_true_iff.
  - apply negb_true_iff in Hi. exact (charMatches_nondigit ic a c Hi Hm).
  - destruct neg; [discriminate Hi|]. cbn [xorb] in Hm.
    apply isWhiteSpace_nondigit.
    destruct (isWhiteSpace c); [reflexivity|discriminate Hm].
Qed.

(** A pattern without groups and assertions, all of whose literal units
    and class items are in [P]. *)
Fixpoint uniform (P : citem -> bool) (r : regex) : bool :=
  match r with
  | REmpty => true
  | RChar a => P (CChar a)
  | RClass neg items => negb neg && forallb P items
  | RSeq r1 r2 | RAlt r1 r2 => uniform P r1 && uniform P r2
  | RRepeat r1 _ _ _ => uniform P r1
  | _ => false
  end.

Lemma uniform_within (P : citem -> bool) (C : char -> bool) ic r :
  (forall it c, P it = true -> itemMatches ic it c = true -> C c = true) ->
  uniform P r = true -> within C anyGroup ic r.
Proof.
  intros HP.
  induction r as [|a| |neg items|r1 IH1 r2 IH2|r1 IH1 r2 IH2
                  |r1 IH1 min max greedy|i r1 IH1|a|neg r1 IH1];
    cbn [uniform within]; intros Hu; try discriminate Hu; auto.
  - intros c Hc. exact (HP (CChar a) c Hu Hc).
  - apply andb_prop in Hu. destruct Hu as [Hn Hi].
    destruct neg; [discriminate Hn|]. intros c Hc.
    unfold classMatches in Hc. cbn [xorb] in Hc.
    destruct (existsb (fun it => itemMatches ic it c) items) eqn:Ex;
      [|discriminate Hc].
    apply existsb_exists in Ex. destruct Ex as (it & Hin & Hm).
    rewrite forallb_forall in Hi. exact (HP it c (Hi it Hin) Hm).
  - apply andb_prop in Hu. destruct Hu. auto.
  - apply andb_prop in Hu. destruct Hu. auto.
Qed.

Lemma uniform_noGroups (P : citem -> bool) r :
  uniform P r = true -> groupsOf r = [].
Proof.
  induction r as [|a| |neg items|r1 IH1 r2 IH2|r1 IH1 r2 IH2
                  |r1 IH1 min max greedy|i r1 IH1|a|neg r1 IH1];
    cbn [uniform groupsOf]; intros Hu; try discriminate Hu; auto;
    apply andb_prop in Hu; destruct Hu as [H1 H2];
    rewrite (IH1 H1), (IH2 H2); reflexivity.
Qed.

(** The groups of a pattern that stand in its top-level sequence and
    enclose no further group: [Q k] holds of every text that the group
    of slot [k] can take. *)
Fixpoint topGroups (ic : bool) (Q : nat -> str -> Prop) (r : regex) : Prop :=
  match r with
  | RSeq r1 r2 => topGroups ic Q r1 /\ topGroups ic Q r2
  | RGroup i r1 =>
      groupsOf r1 = []
      /\ forall x y, In y (matcher ic r1 x) -> Q (pred i) (consumed x y)
  | _ => groupsOf r = []
  end.

Definition capsGood (Q : nat -> str -> Prop) (x : mstate) : Prop :=
  forall k s, nth k (caps x) None = Some s -> Q k s.

Lemma noGroups_caps ic r x y :
  groupsOf r = [] -> In y (matcher ic r x) ->
  forall k, nth k (caps y) None = nth k (caps x) None.
Proof.
  intros Hg Hin k.
  apply (@matcher_keeps (S k) ic r x y); [rewrite Hg; reflexivity|exact Hin].
Qed.

Lemma topGroups_caps ic (Q : nat -> str -> Prop) r :
  topGroups ic Q r ->
  forall x y, In y (matcher ic r x) -> capsGood Q x -> capsGood Q y.
Proof.
  assert (D : forall r0 x y,
             groupsOf r0 = [] ->
             In y (matcher ic r0 x) -> capsGood Q x -> capsGood Q y).
  { intros r0 x y Hg Hin Hx k s E.
    rewrite (noGroups_caps ic r0 x y Hg Hin k) in E. exact (Hx k s E). }
  induction r as [|a| |neg items|r1 IH1 r2 IH2|r1 IH1 r2 IH2
                  |r1 IH1 min max greedy|i r1 IH1|a|neg r1 IH1];
    intros Hp x y Hin Hx;
    try (match type of Hin with
         | In _ (matcher _ ?r0 _) => exact (D r0 x y Hp Hin Hx)
         end).
  - cbn [topGroups] in Hp. destruct Hp as [H1 H2].
    rewrite matcher_eq in Hin. apply in_flat_map in Hin.
    destruct Hin as (m & Hm & Hy). eauto.
  - cbn [topGroups] in Hp. destruct Hp as [Hg Hq].
    rewrite matcher_eq in Hin.
    apply in_map_iff in Hin. destruct Hin as (y0 & <- & H0).
    intros k s E. cbn [caps setCap] in E.
    destruct (Nat.eq_dec (pred i) k) as [<-|Hk].
    + destruct (Nat.lt_ge_cases (pred i) (List.length (caps y0))) as [L|L].
      * rewrite (@nth_setNth_same _ (pred i) (Some (consumed x y0)) None
                   (caps y0) L) in E.
        injection E as <-. exact (Hq x y0 H0).
      * rewrite nth_overflow in E; [discriminate E|].
        rewrite setNth_length. exact L.
    + rewrite (@nth_setNth_other _ (pred i) k (Some (consumed x y0)) None
                 (caps y0) Hk) in E.
      rewrite (noGroups_caps ic r1 x y0 Hg H0 k) in E. exact (Hx k s E).
Qed.

Lemma matchAt_topGroups (Q : nat -> str -> Prop) re bef aft mt i s :
  topGroups (ignoreCase re) Q (ast re) -> matchAt re bef aft = Some mt ->
  group i mt = Some s -> Q (pred i) s.
Proof.
  intros Hp Hm Hg.
  destruct (@matchAt_inv re bef aft mt Hm) as (y & l & E & ->).
  unfold group in Hg. cbn [groups] in Hg.
  apply (topGroups_caps (ignoreCase re) Q (ast re) Hp
           (startState re bef aft) y) with (k := pred i).
  - rewrite E. left. reflexivity.
  - intros k t Ek. unfold startState in Ek. cbn [caps] in Ek.
    rewrite nth_repeat in Ek. discriminate Ek.
  - exact Hg.
Qed.

Lemma uniform_consumed (P : citem -> bool) (C : char -> bool) ic r x y :
  (forall it c, P it = true -> itemMatches ic it c = true -> C c = true) ->
  uniform P r = true -> In y (matcher ic r x) ->
  forallb C (consumed x y) = true.
Proof.
  intros HP Hu Hin.
  destruct (@matcher_reach C ic r x y (uniform_within P C ic r HP Hu) Hin)
    as (w & A & _ & _ & F).
  rewrite (@consumed_app x y w A). apply forallb_forall.
  rewrite Forall_forall in F. exact F.
Qed.

(** A group text of the amount patterns is numeric or without digits. *)
Definition goodText (s : str) : Prop :=
  numeric s = true \/ noDigits s = true.

(** Each group of the pattern encloses classes of one of the two
    kinds. *)
Fixpoint plainGroups (r : regex) : bool :=
  match r with
  | RSeq r1 r2 => plainGroups r1 && plainGroups r2
  | RGroup _ r1 => uniform numItem r1 || uniform symItem r1
  | _ => match groupsOf r with [] => true | _ => false end
  end.

Lemma plainGroups_top ic r :
  plainGroups r = true -> topGroups ic (fun _ => goodText) r.
Proof.
  induction r as [|a| |neg items|r1 IH1 r2 IH2|r1 IH1 r2 IH2
                  |r1 IH1 min max greedy|i r1 IH1|a|neg r1 IH1];
    cbn [plainGroups topGroups]; intros Hp;
    try (destruct (groupsOf _); [reflexivity|discriminate Hp]).
  - apply andb_prop in Hp. destruct Hp. auto.
  - apply orb_prop in Hp. destruct Hp as [Hu|Hu].
    + split; [exact (uniform_noGroups numItem r1 Hu)|].
      intros x y Hin. left.
      exact (uniform_consumed numItem isNumChar ic r1 x y
               (numItem_matches ic) Hu Hin).
    + split; [exact (uniform_noGroups symItem r1 Hu)|].
      intros x y Hin. right.
      exact (uniform_consumed symItem (fun c => negb (isDigit c)) ic r1 x y
               (symItem_matches ic) Hu Hin).
Qed.

Lemma matchAt_goodGroups re bef aft mt i s :
  plainGroups (ast re) = true -> matchAt re bef aft = Some mt ->
  group i mt = Some s -> goodText s.
Proof.
  intros Hp Hm Hg.
  exact (matchAt_topGroups (fun _ => goodText) re bef aft mt i s
           (plainGroups_top (ignoreCase re) (ast re) Hp) Hm Hg).
Qed.

(** The seven patterns are of that form, and none of them passes one of
    the two tests on its source that guard the first two branches. *)
Definition otherBranch (pc : PatternConfig) : bool :=
  plainGroups (ast (pc_pattern pc))
  && negb (includes (source (pc_pattern pc)) #"\$â‚¬Â£Â¥â‚¹Bs.*\d")
  && negb (includes (source (pc_pattern pc)) #"\d.*\$â‚¬Â£Â¥â‚¹Bs").

Lemma patterns_otherBranch : forallb otherBranch AMOUNT_PATTERNS = true.
Proof. vm_compute. reflexivity. Qed.

Lemma replaceFirst_noDigits s p :
  noDigits s = true -> noDigits (replaceFirst s p []) = true.
Proof.
  unfold noDigits. induction s as [|c s IH]; intros H; cbn [replaceFirst].
  - destruct (startsWith p []); [|reflexivity].
    cbn [app]. apply forallb_skipn, H.
  - destruct (startsWith p (c :: s)).
    + cbn [app]. apply forallb_skipn, H.
    + cbn [forallb] in *. apply andb_prop in H. destruct H as [H1 H2].
      rewrite H1. apply IH, H2.
Qed.

Lemma normalizeAmount_noDigits s :
  noDigits s = true -> normalizeAmount s = None.
Proof.
  intros H. rewrite (normalizeAmount_cleaned s).
  destruct (numeric_value _ (numeric_filter s)) as [[_ E]|[E _]];
    [exact E|].
  rewrite (noDigits_filter_numeric s), H in E. discriminate E.
Qed.

(** The amount text and the currency text of a match are one and the same
    numeric text, or the amount text has no digit. *)
Lemma amountAndCurrency_same pc mt :
  otherBranch pc = true ->
  (forall i s, group i mt = Some s -> goodText s) ->
  (numeric (fst (amountAndCurrency pc mt)) = true
   /\ snd (amountAndCurrency pc mt) = fst (amountAndCurrency pc mt))
  \/ noDigits (fst (amountAndCurrency pc mt)) = true.
Proof.
  intros Ho Hg. unfold otherBranch in Ho.
  apply andb_prop in Ho. destruct Ho as [Ho H2].
  apply andb_prop in Ho. destruct Ho as [_ H1].
  apply negb_true_iff in H1. apply negb_true_iff in H2.
  unfold amountAndCurrency. rewrite H1, H2. cbv zeta.
  set (t := orEmpty (orElse (group 1 mt) (group 2 mt))).
  assert (Ht : goodText t).
  { unfold t, orElse. destruct (truthy (group 1 mt)).
    - destruct (group 1 mt) as [s|] eqn:E; [exact (Hg 1%nat s E)|].
      left. reflexivity.
    - destruct (group 2 mt) as [s|] eqn:E; [exact (Hg 2%nat s E)|].
      left. reflexivity. }
  destruct Ht as [Hn|Hd].
  - rewrite (no_symbol_numeric t Hn). left. split; [exact Hn|reflexivity].
  - right. destruct (existsb _ CURRENCY_SYMBOLS); [|exact Hd].
    destruct (exec currencyRun t) as [m|]; [|exact Hd].
    cbn [fst]. apply trim_noDigits, replaceFirst_noDigits, Hd.
Qed.

Lemma candidateOf_currency text pc mt c :
  In pc AMOUNT_PATTERNS -> In mt (matchAll (pc_pattern pc) text) ->
  candidateOf text pc mt = Some c ->
  numeric (c_currency c) = true
  /\ normalizeAmount (c_currency c) = Some (c_amount c).
Proof.
  intros Hpc Hmt Hc.
  pose proof patterns_otherBranch as Ho. rewrite forallb_forall in Ho.
  specialize (Ho pc Hpc).
  assert (Hg : forall i s, group i mt = Some s -> goodText s).
  { intros i s E. destruct (@matchAll_In _ _ _ Hmt) as (b & a & Hm & _).
    unfold otherBranch in Ho. apply andb_prop in Ho. destruct Ho as [Ho _].
    apply andb_prop in Ho. destruct Ho as [Hp _].
    exact (matchAt_goodGroups _ b a mt i s Hp Hm E). }
  pose proof (amountAndCurrency_same pc mt Ho Hg) as Hs.
  unfold candidateOf in Hc.
  destruct (amountAndCurrency pc mt) as [a cu]. cbn [fst snd] in Hs.
  destruct Hs as [[Hn ->]|Hd].
  - rewrite (trim_numeric a Hn) in Hc.
    destruct (normalizeAmount a) as [n|] eqn:En; [|discriminate Hc].
    destruct (numTruthy n && gt n (decimal 0 0)); [|discriminate Hc].
    injection Hc as <-. cbn [c_currency c_amount].
    destruct a as [|d a]; [discriminate En|]. cbn [truthy].
    split; [exact Hn|exact En].
  - rewrite (normalizeAmount_noDigits (trim a) (trim_noDigits a Hd)) in Hc.
    discriminate Hc.
Qed.

Definition totalLine : str := #"Total: $45.50 USD".

(** X10.  The currency that [extractAmount] returns is never a currency
    symbol or code, and never the default [USD]: it is the text of the
    amount itself, a text of digits, points and commas that contains none
    of [CURRENCY_SYMBOLS] and that [normalizeAmount] maps to the amount
    returned; and that amount is greater than 0. *)
Theorem extractAmount_currency_is_amount_text (text : str) (a : num)
  (cur : str) (conf : num) :
  extractAmount text = MkAmountResult (Some a) (Some cur) conf ->
  numeric cur = true
  /\ existsb (fun symbol => includes cur symbol) CURRENCY_SYMBOLS = false
  /\ normalizeAmount cur = Some a
  /\ gt a (decimal 0 0) = true.
Proof.
  intros E.
  destruct (extractAmount_cases text) as [[_ E0]|(c & Hc & E1)];
    [rewrite E0 in E; discriminate E|].
  rewrite E1 in E. injection E as <- <- <-.
  destruct (@candidatesOf_In _ _ Hc) as (pc & mt & Hpc & Hmt & Hcand).
  destruct (candidateOf_currency text pc mt c Hpc Hmt Hcand) as [Hn En].
  destruct (@candidateOf_Some _ _ _ _ Hcand) as (_ & Hpos & _).
  split; [exact Hn|]. split; [exact (no_symbol_numeric _ Hn)|].
  split; [exact En|exact Hpos].
Qed.

Lemma extractAmount_currency_is_amount_text_witness :
  extractAmount totalLine
  = MkAmountResult (Some (decimal 455 1)) (Some #"45.50") (decimal 1 0)
  /\ numeric #"45.50" = true
  /\ existsb (fun symbol => includes #"45.50" symbol) CURRENCY_SYMBOLS = false
  /\ normalizeAmount #"45.50" = Some (decimal 455 1)
  /\ gt (decimal 455 1) (decimal 0 0) = true.
Proof.
  assert (E : extractAmount totalLine
              = MkAmountResult (Some (decimal 455 1)) (Some #"45.50")
                  (decimal 1 0)) by (vm_compute; reflexivity).
  split; [exact E|].
  exact (extractAmount_currency_is_amount_text totalLine _ _ _ E).
Defined.

(** ** The matches from which [extractDate] takes a date *)

Lemma parseIntAuto_digits g :
  allDigits g = true -> g <> [] ->
  parseIntAuto g = Some (Z.of_N (digitsValue g)).
Proof.
  intros Hd Hne. pose proof (allDigits_numeric g Hd) as Hn.
  unfold parseIntAuto.
  rewrite (trimStart_noSpace _ (numeric_noSpace _ Hn)).
  rewrite (readSign_numeric _ Hn), (takeDigits_all g Hd).
  assert (Hx : match g with
               | z :: x :: rest =>
                   if isCh "0" z && (isCh "x" x || isCh "X" x)
                   then Some rest else None
               | _ => None
               end = None).
  { destruct g as [|z [|x rest]]; try reflexivity.
    unfold allDigits in Hd. cbn [forallb] in Hd.
    apply andb_prop in Hd. destruct Hd as [_ Hd].
    apply andb_prop in Hd. destruct Hd as [Hx _].
    assert (E : isCh "x" x || isCh "X" x = false).
    { unfold isCh, ch, isDigit, in_range in *. cbn [N_of_ascii] in *.
      apply andb_prop in Hx. destruct Hx as [H1 H2].
      apply N.leb_le in H1. apply N.leb_le in H2.
      apply orb_false_iff. split; apply N.eqb_neq; simpl; lia. }
    rewrite E, andb_false_r. reflexivity. }
  rewrite Hx. destruct g as [|c g]; [congruence|]. reflexivity.
Qed.

Lemma digitsValue_fold_bound D : forall acc,
  allDigits D = true ->
  fold_left (fun a c => a * 10 + (c - 48)) D acc
  < (acc + 1) * 10 ^ N.of_nat (List.length D).
Proof.
  induction D as [|c D IH]; intros acc Hd; cbn [fold_left List.length].
  - simpl. lia.
  - unfold allDigits in Hd. cbn [forallb] in Hd. apply andb_prop in Hd.
    destruct Hd as [Hc Hd]. specialize (IH (acc * 10 + (c - 48)) Hd).
    unfold isDigit, in_range in Hc. apply andb_prop in Hc.
    destruct Hc as [H1 H2]. apply N.leb_le in H1. apply N.leb_le in H2.
    rewrite Nat2N.inj_succ, N.pow_succ_r'.
    set (p := 10 ^ N.of_nat (List.length D)) in *.
    assert (Hp : 0 < p) by (apply N.neq_0_lt_0, N.pow_nonzero; lia).
    nia.
Qed.

Lemma digitsValue_bound D :
  allDigits D = true -> digitsValue D < 10 ^ N.of_nat (List.length D).
Proof.
  intros Hd. pose proof (digitsValue_fold_bound D 0 Hd) as H.
  unfold digitsValue. lia.
Qed.

Lemma parseIntAuto_noDigits s : noDigits s = true -> parseIntAuto s = None.
Proof.
  intros Hs. unfold parseIntAuto.
  assert (Ht : noDigits (trimStart s) = true)
    by (unfold noDigits, trimStart; apply dropWhile_forallb, Hs).
  set (t := trimStart s) in *. clearbody t.
  assert (Hr : noDigits (snd (readSign t)) = true).
  { unfold readSign. destruct t as [|c t]; [reflexivity|].
    destruct (isCh "-" c); [exact (noDigits_tail c t Ht)|].
    destruct (isCh "+" c); [exact (noDigits_tail c t Ht)|exact Ht]. }
  destruct (readSign t) as [neg s1]. cbn [snd] in Hr.
  destruct s1 as [|z s1]; [reflexivity|].
  unfold noDigits in Hr. cbn [forallb] in Hr. apply andb_prop in Hr.
  destruct Hr as [Hz Hr]. apply negb_true_iff in Hz.
  assert (E0 : isCh "0" z = false).
  { unfold isCh. change (ch "0") with 48.
    destruct (z =? 48) eqn:E; [|reflexivity].
    apply N.eqb_eq in E. subst z. discriminate Hz. }
  rewrite E0. cbn [andb takeDigits]. rewrite Hz.
  destruct s1; reflexivity.
Qed.

(** *** The length of what a pattern can take *)

Definition optAdd (a b : option nat) : option nat :=
  match a, b with
  | Some n, Some m => Some (n + m)%nat
  | _, _ => None
  end.

Definition optMax (a b : option nat) : option nat :=
  match a, b with
  | Some n, Some m => Some (Nat.max n m)
  | _, _ => None
  end.

Fixpoint maxLen (r : regex) : option nat :=
  match r with
  | REmpty | RAssert _ | RLook _ _ => Some 0%nat
  | RChar _ | RAny | RClass _ _ => Some 1%nat
  | RSeq r1 r2 => optAdd (maxLen r1) (maxLen r2)
  | RAlt r1 r2 => optMax (maxLen r1) (maxLen r2)
  | RRepeat r1 _ max _ =>
      match max, maxLen r1 with
      | Some k, Some n => Some (k * n)%nat
      | _, _ => None
      end
  | RGroup _ r1 => maxLen r1
  end.

Definition advances (n : nat) (x y : mstate) : Prop :=
  (List.length (after x) <= List.length (after y) + n)%nat.

Lemma repeatMatcher_bound (mr : mstate -> list mstate) gs greedy n :
  (forall x y, In y (mr x) -> advances n x y) ->
  forall fuel min k x y,
    In y (repeatMatcher mr gs greedy fuel min (Some k) x) ->
    advances (k * n) x y.
Proof.
  intros Hmr. unfold advances in *.
  induction fuel as [|fuel IH]; intros min k x y Hin; [destruct Hin|].
  rewrite repeatMatcher_eq in Hin.
  destruct k as [|k]; [destruct Hin as [<-|[]]; lia|].
  cbv zeta in Hin. cbn [option_map pred] in Hin.
  assert (Hz : In y (flat_map
                (fun y1 =>
                   if Nat.eqb min 0 && Nat.eqb (endIndex y1) (endIndex x)
                   then []
                   else repeatMatcher mr gs greedy fuel (pred min) (Some k) y1)
                (mr (clearCaps gs x))) ->
               (List.length (after x) <= List.length (after y) + S k * n)%nat).
  { intros Hf. apply in_flat_map in Hf. destruct Hf as (y0 & H0 & Hy).
    destruct (Nat.eqb min 0 && Nat.eqb (endIndex y0) (endIndex x));
      [destruct Hy|].
    specialize (IH _ _ _ _ Hy). specialize (Hmr _ _ H0).
    rewrite clearCaps_after in Hmr. simpl. lia. }
  destruct (negb (Nat.eqb min 0)); [exact (Hz Hin)|].
  destruct greedy.
  - apply in_app_or in Hin. destruct Hin as [Hin|[<-|[]]]; [exact (Hz Hin)|lia].
  - destruct Hin as [<-|Hin]; [lia|exact (Hz Hin)].
Qed.

Lemma maxLen_bound ic r : forall n,
  maxLen r = Some n ->
  forall x y, In y (matcher ic r x) -> advances n x y.
Proof.
  unfold advances.
  induction r as [|a| |neg items|r1 IH1 r2 IH2|r1 IH1 r2 IH2
                  |r1 IH1 min max greedy|i r1 IH1|a|neg r1 IH1];
    cbn [maxLen]; intros n Hn x y Hin; rewrite matcher_eq in Hin.
  - injection Hn as <-. destruct Hin as [<-|[]]. lia.
  - injection Hn as <-. apply step_after in Hin. lia.
  - injection Hn as <-. apply step_after in Hin. lia.
  - injection Hn as <-. apply step_after in Hin. lia.
  - destruct (maxLen r1) as [n1|]; [|discriminate Hn].
    destruct (maxLen r2) as [n2|]; [|discriminate Hn].
    injection Hn as <-. apply in_flat_map in Hin.
    destruct Hin as (m & H1 & H2).
    specialize (IH1 _ eq_refl _ _ H1). specialize (IH2 _ eq_refl _ _ H2). lia.
  - destruct (maxLen r1) as [n1|]; [|discriminate Hn].
    destruct (maxLen r2) as [n2|]; [|discriminate Hn].
    injection Hn as <-. apply in_app_or in Hin. destruct Hin as [H|H].
    + specialize (IH1 _ eq_refl _ _ H). lia.
    + specialize (IH2 _ eq_refl _ _ H). lia.
  - destruct max as [k|]; [|discriminate Hn].
    destruct (maxLen r1) as [n1|]; [|discriminate Hn].
    injection Hn as <-.
    exact (repeatMatcher_bound (matcher ic r1) (groupsOf r1) greedy n1
             (fun x0 y0 => IH1 n1 eq_refl x0 y0) _ _ _ _ _ Hin).
  - apply in_map_iff in Hin. destruct Hin as (y0 & <- & H0).
    cbn [after setCap]. exact (IH1 n Hn x y0 H0).
  - injection Hn as <-. destruct (holds a x); [|destruct Hin].
    destruct Hin as [<-|[]]. lia.
  - injection Hn as <-.
    destruct (matcher ic r1 x) as [|y1 l]; destruct neg;
      try destruct Hin as [<-|[]]; try destruct Hin; cbn [after]; lia.
Qed.

Lemma consumed_length n x y :
  advances n x y -> (List.length (consumed x y) <= n)%nat.
Proof.
  unfold advances, consumed. intros H. rewrite length_firstn. lia.
Qed.

(** *** Groups of digits and groups without digits, of bounded length *)

Definition digitItem (it : citem) : bool :=
  match it with
  | CRange lo hi => (lo =? 48) && (hi =? 57)
  | CDigit neg => negb neg
  | _ => false
  end.

Lemma digitItem_matches ic it c :
  digitItem it = true -> itemMatches ic it c = true -> isDigit c = true.
Proof.
  destruct it as [a|lo hi|neg|neg|neg]; cbn [digitItem itemMatches];
    intros Hi Hm; try discriminate Hi.
  - apply andb_prop in Hi. destruct Hi as [H1 H2].
    apply N.eqb_eq in H1. apply N.eqb_eq in H2. subst lo hi.
    apply (digit09_only ic c).
    unfold classMatches. cbn [existsb itemMatches xorb]. rewrite Hm.
    reflexivity.
  - destruct neg; [discriminate Hi|]. cbn [xorb] in Hm.
    destruct (isDigit c); [reflexivity|discriminate Hm].
Qed.

Definition kindItem (digits : bool) (it : citem) : bool :=
  if digits then digitItem it else symItem it.

Definition kindChar (digits : bool) (c : char) : bool :=
  if digits then isDigit c else negb (isDigit c).

Lemma kindItem_matches ic digits it c :
  kindItem digits it = true -> itemMatches ic it c = true ->
  kindChar digits c = true.
Proof.
  destruct digits; cbn [kindItem kindChar];
    [apply digitItem_matches|apply symItem_matches].
Qed.

(** [kinds] gives for each group, in order, whether it takes digits only
    or no digit, and a bound on its length. *)
Fixpoint sizedGroups (kinds : list (bool * nat)) (r : regex) : bool :=
  match r with
  | RSeq r1 r2 => sizedGroups kinds r1 && sizedGroups kinds r2
  | RGroup i r1 =>
      match nth_error kinds (pred i), maxLen r1 with
      | Some (digits, n), Some m =>
          uniform (kindItem digits) r1 && Nat.leb m n
      | _, _ => false
      end
  | _ => match groupsOf r with [] => true | _ => false end
  end.

Definition sized (kinds : list (bool * nat)) (k : nat) (s : str) : Prop :=
  exists digits n,
    nth_error kinds k = Some (digits, n)
    /\ forallb (kindChar digits) s = true
    /\ (List.length s <= n)%nat.

Lemma sizedGroups_top ic kinds r :
  sizedGroups kinds r = true -> topGroups ic (sized kinds) r.
Proof.
  induction r as [|a| |neg items|r1 IH1 r2 IH2|r1 IH1 r2 IH2
                  |r1 IH1 min max greedy|i r1 IH1|a|neg r1 IH1];
    cbn [sizedGroups topGroups]; intros Hp;
    try (destruct (groupsOf _); [reflexivity|discriminate Hp]).
  - apply andb_prop in Hp. destruct Hp. auto.
  - destruct (nth_error kinds (pred i)) as [[digits n]|] eqn:Ek;
      [|discriminate Hp].
    destruct (maxLen r1) as [m|] eqn:Em; [|discriminate Hp].
    apply andb_prop in Hp. destruct Hp as [Hu Hl]. apply Nat.leb_le in Hl.
    split; [exact (uniform_noGroups _ r1 Hu)|].
    intros x y Hin. exists digits, n. split; [exact Ek|]. split.
    + exact (uniform_consumed (kindItem digits) (kindChar digits) ic r1 x y
               (kindItem_matches ic digits) Hu Hin).
    + pose proof (consumed_length m x y (maxLen_bound ic r1 m Em x y Hin)).
      lia.
Qed.

Lemma matchAll_sized kinds re text mt i s :
  sizedGroups kinds (ast re) = true -> In mt (matchAll re text) ->
  group i mt = Some s -> sized kinds (pred i) s.
Proof.
  intros Hp Hmt Hg. destruct (@matchAll_In _ _ _ Hmt) as (b & a & Hm & _).
  exact (matchAt_topGroups (sized kinds) re b a mt i s
           (sizedGroups_top (ignoreCase re) kinds (ast re) Hp) Hm Hg).
Qed.

(** *** The three date patterns *)

Definition dayFirst : RegExp :=
  lit "\b(\d{1,2})[\/\-](\d{1,2})[\/\-](\d{4})\b" "g".
Definition yearFirst : RegExp :=
  lit "\b(\d{4})[\/\-](\d{1,2})[\/\-](\d{1,2})\b" "g".
Definition monthName : RegExp :=
  nth 2 DATE_PATTERNS yearFirst.

Lemma DATE_PATTERNS_eq : DATE_PATTERNS = [dayFirst; yearFirst; monthName].
Proof. reflexivity. Qed.

Definition dayFirstGroups : list (bool * nat) :=
  [(true, 2%nat); (true, 2%nat); (true, 4%nat)].
Definition yearFirstGroups : list (bool * nat) :=
  [(true, 4%nat); (true, 2%nat); (true, 2%nat)].
Definition monthNameGroups : list (bool * nat) :=
  [(true, 2%nat); (false, 10%nat); (true, 4%nat)].

Lemma datePatterns_groups :
  sizedGroups dayFirstGroups (ast dayFirst) = true
  /\ sizedGroups yearFirstGroups (ast yearFirst) = true
  /\ sizedGroups monthNameGroups (ast monthName) = true.
Proof. repeat split; vm_compute; reflexivity. Qed.

(** Each of the three sources contains [\d{4}]. *)
Lemma datePatterns_fourDigits :
  includes (source dayFirst) #"\d{4}" = true
  /\ includes (source yearFirst) #"\d{4}" = true
  /\ includes (source monthName) #"\d{4}" = true.
Proof. repeat split; vm_compute; reflexivity. Qed.

Lemma isValidDate_year y m d :
  (y < 1900)%Z -> isValidDate (Some y) m d = false.
Proof.
  intros H. destruct m as [m|], d as [d|]; try reflexivity.
  unfold isValidDate.
  replace (y <? 1900)%Z with true by (symmetry; apply Z.ltb_lt; exact H).
  reflexivity.
Qed.

Lemma isValidDate_month y d : isValidDate y None d = false.
Proof. destruct y; reflexivity. Qed.

(** A group of one or two digits is a number below 100. *)
Lemma parseIntAuto_short g :
  allDigits g = true -> (List.length g <= 2)%nat ->
  forall m d, isValidDate (parseIntAuto g) m d = false.
Proof.
  intros Hd Hl m d. destruct g as [|c g]; [reflexivity|].
  rewrite (parseIntAuto_digits (c :: g) Hd) by discriminate.
  apply isValidDate_year.
  pose proof (digitsValue_bound (c :: g) Hd) as B.
  assert (P : 10 ^ N.of_nat (List.length (c :: g)) <= 10 ^ 2)
    by (apply N.pow_le_mono_r; lia).
  change (10 ^ 2) with 100 in P. lia.
Qed.

Lemma dayFirst_none text mt :
  In mt (matchAll dayFirst text) -> dateOfMatch dayFirst mt = None.
Proof.
  intros Hmt. destruct datePatterns_groups as (G & _ & _).
  destruct datePatterns_fourDigits as (I & _ & _).
  unfold dateOfMatch. rewrite I. cbv zeta.
  assert (E : forall m d, isValidDate (parseIntGroup 1 mt) m d = false).
  { unfold parseIntGroup.
    destruct (group 1 mt) as [g|] eqn:Eg; [|reflexivity].
    destruct (matchAll_sized _ dayFirst text mt 1%nat g G Hmt Eg)
      as (digits & n & Ek & Hc & Hl).
    cbn [pred nth_error] in Ek. injection Ek as <- <-.
    exact (parseIntAuto_short g Hc Hl). }
  rewrite E. reflexivity.
Qed.

Lemma monthName_none text mt :
  In mt (matchAll monthName text) -> dateOfMatch monthName mt = None.
Proof.
  intros Hmt. destruct datePatterns_groups as (_ & _ & G).
  destruct datePatterns_fourDigits as (_ & _ & I).
  unfold dateOfMatch. rewrite I. cbv zeta.
  assert (E : parseIntGroup 2 mt = None).
  { unfold parseIntGroup.
    destruct (group 2 mt) as [g|] eqn:Eg; [|reflexivity].
    destruct (matchAll_sized _ monthName text mt 2%nat g G Hmt Eg)
      as (digits & n & Ek & Hc & Hl).
    cbn [pred nth_error] in Ek. injection Ek as <- <-.
    exact (parseIntAuto_noDigits g Hc). }
  rewrite E, isValidDate_month. reflexivity.
Qed.

(** What is left of the loops of [extractDate]. *)
Lemma extractDate_by_yearFirst text :
  extractDate text
  = match firstSome (dateOfMatch yearFirst) (matchAll yearFirst text) with
    | Some iso => MkDateResult (Some iso) (decimal 9 1)
    | None => MkDateResult None (decimal 0 0)
    end.
Proof.
  unfold extractDate. rewrite DATE_PATTERNS_eq. cbn [firstSome].
  rewrite (firstSome_none (dateOfMatch dayFirst) (matchAll dayFirst text)
             (dayFirst_none text)).
  destruct (firstSome (dateOfMatch yearFirst) (matchAll yearFirst text));
    [reflexivity|].
  rewrite (firstSome_none (dateOfMatch monthName) (matchAll monthName text)
             (monthName_none text)).
  reflexivity.
Qed.

(** X11.  [extractDate] takes no date from a match of its first pattern
    (day or month first, year last) nor from a match of its third pattern
    (month names): the test on [\d{4}] sends every match to the branch
    that reads year, month and day in this order, where one or two digits
    are no year from 1900 on and a month name is no number.  What it
    returns is the first valid date among the matches of the second
    pattern, year first. *)
Theorem extractDate_year_first_only (text : str) :
  (forall mt, In mt (matchAll dayFirst text) -> dateOfMatch dayFirst mt = None)
  /\ (forall mt, In mt (matchAll monthName text) ->
                 dateOfMatch monthName mt = None)
  /\ extractDate text
     = match firstSome (dateOfMatch yearFirst) (matchAll yearFirst text) with
       | Some iso => MkDateResult (Some iso) (decimal 9 1)
       | None => MkDateResult None (decimal 0 0)
       end.
Proof.
  split; [exact (dayFirst_none text)|]. split; [exact (monthName_none text)|].
  exact (extractDate_by_yearFirst text).
Qed.

(** ** Renaming the digits of a text

    The date patterns tell digits from other units and do not tell one
    digit from another: a match on a text is a match on every text that
    differs from it in its digits only. *)

Lemma flat_map_map {A B C} (g : B -> list C) (h : A -> B) (l : list A) :
  flat_map g (map h l) = flat_map (fun a => g (h a)) l.
Proof.
  induction l as [|a l IH]; cbn [map flat_map]; [reflexivity|].
  rewrite IH. reflexivity.
Qed.

Lemma map_flat_map {A B C} (h : B -> C) (g : A -> list B) (l : list A) :
  map h (flat_map g l) = flat_map (fun a => map h (g a)) l.
Proof.
  induction l as [|a l IH]; cbn [map flat_map]; [reflexivity|].
  rewrite map_app, IH. reflexivity.
Qed.

Lemma setNth_map {A B} (g : A -> B) (k : nat) (v : A) (l : list A) :
  setNth k (g v) (map g l) = map g (setNth k v l).
Proof.
  revert k. induction l as [|a l IH]; intros [|k]; cbn [setNth map];
    try reflexivity.
  rewrite IH. reflexivity.
Qed.

Lemma isDigit_word c : isDigit c = true -> isWordChar c = true.
Proof.
  unfold isWordChar. intros ->. rewrite orb_true_r. reflexivity.
Qed.

Lemma isDigit_line c : isDigit c = true -> isLineTerminator c = false.
Proof.
  intros D.
  exact (proj1 (negb_true_iff _)
           (numChars_all (fun x => negb (isLineTerminator x)) eq_refl c
              (isDigit_isNumChar c D))).
Qed.

Lemma caseVariants_self ic c : In c (caseVariants ic c).
Proof.
  unfold caseVariants. destruct ic; [|left; reflexivity].
  apply filter_In. split; [left; reflexivity|apply N.eqb_refl].
Qed.

Lemma digitRange_matches ic c :
  existsb (in_range 48 57) (caseVariants ic c) = isDigit c.
Proof.
  destruct (isDigit c) eqn:D.
  - apply existsb_exists. exists c. split; [apply caseVariants_self|exact D].
  - destruct (existsb (in_range 48 57) (caseVariants ic c)) eqn:E;
      [|reflexivity].
    rewrite <- D. symmetry. apply (digit09_only ic c).
    unfold classMatches. cbn [existsb itemMatches xorb]. rewrite E.
    reflexivity.
Qed.

(** The items and the patterns that do not tell one digit from
    another. *)
Definition blindItem (it : citem) : bool :=
  match it with
  | CChar a => negb (isDigit a)
  | CRange lo hi => (lo =? 48) && (hi =? 57)
  | _ => true
  end.

Fixpoint blind (r : regex) : bool :=
  match r with
  | REmpty | RAny | RAssert _ => true
  | RChar a => negb (isDigit a)
  | RClass _ items => forallb blindItem items
  | RSeq r1 r2 | RAlt r1 r2 => blind r1 && blind r2
  | RRepeat r1 _ _ _ | RGroup _ r1 | RLook _ r1 => blind r1
  end.

Section Renaming.

Variable f : char -> char.
Hypothesis f_digit : forall c, isDigit c = true -> isDigit (f c) = true.
Hypothesis f_other : forall c, isDigit c = false -> f c = c.

Definition mapCaps (l : list (option str)) : list (option str) :=
  map (option_map (map f)) l.

Definition mapState (x : mstate) : mstate :=
  MState (map f (before x)) (map f (after x)) (mapCaps (caps x)).

Definition mapMatch (mt : MatchResult) : MatchResult :=
  MkMatch (index mt) (map f (matched mt)) (mapCaps (groups mt))
    (lastIndex mt).

Lemma charMatches_f ic a c :
  isDigit a = false -> charMatches ic a (f c) = charMatches ic a c.
Proof.
  intros Ha. destruct (isDigit c) eqn:D; [|rewrite (f_other c D); reflexivity].
  destruct (charMatches ic a c) eqn:E1.
  - rewrite (charMatches_nondigit ic a c Ha E1) in D. discriminate D.
  - destruct (charMatches ic a (f c)) eqn:E2; [|reflexivity].
    pose proof (f_digit c D) as K.
    rewrite (charMatches_nondigit ic a (f c) Ha E2) in K. discriminate K.
Qed.

Lemma isDigit_f c : isDigit (f c) = isDigit c.
Proof.
  destruct (isDigit c) eqn:D; [exact (f_digit c D)|].
  rewrite (f_other c D). exact D.
Qed.

Lemma isWhiteSpace_f c : isWhiteSpace (f c) = isWhiteSpace c.
Proof.
  destruct (isDigit c) eqn:D; [|rewrite (f_other c D); reflexivity].
  pose proof (f_digit c D) as D'.
  destruct (isWhiteSpace c) eqn:E;
    [rewrite (isWhiteSpace_nondigit c E) in D; discriminate D|].
  destruct (isWhiteSpace (f c)) eqn:E'; [|reflexivity].
  rewrite (isWhiteSpace_nondigit (f c) E') in D'. discriminate D'.
Qed.

Lemma isWordChar_f c : isWordChar (f c) = isWordChar c.
Proof.
  destruct (isDigit c) eqn:D; [|rewrite (f_other c D); reflexivity].
  rewrite (isDigit_word c D), (isDigit_word (f c) (f_digit c D)).
  reflexivity.
Qed.

Lemma isLineTerminator_f c : isLineTerminator (f c) = isLineTerminator c.
Proof.
  destruct (isDigit c) eqn:D; [|rewrite (f_other c D); reflexivity].
  rewrite (isDigit_line c D), (isDigit_line (f c) (f_digit c D)).
  reflexivity.
Qed.

Lemma itemMatches_f ic it c :
  blindItem it = true -> itemMatches ic it (f c) = itemMatches ic it c.
Proof.
  destruct it as [a|lo hi|neg|neg|neg]; cbn [blindItem itemMatches];
    intros Hb.
  - apply negb_true_iff in Hb. exact (charMatches_f ic a c Hb).
  - apply andb_prop in Hb. destruct Hb as [H1 H2].
    apply N.eqb_eq in H1. apply N.eqb_eq in H2. subst lo hi.
    rewrite !digitRange_matches. apply isDigit_f.
  - rewrite isDigit_f. reflexivity.
  - rewrite isWhiteSpace_f. reflexivity.
  - rewrite isWordChar_f. reflexivity.
Qed.

Lemma classMatches_f ic neg items c :
  forallb blindItem items = true ->
  classMatches ic neg items (f c) = classMatches ic neg items c.
Proof.
  intros Hb. unfold classMatches. f_equal.
  induction items as [|it items IH]; [reflexivity|].
  cbn [forallb] in Hb. apply andb_prop in Hb. destruct Hb as [H1 H2].
  cbn [existsb]. rewrite (itemMatches_f ic it c H1), (IH H2). reflexivity.
Qed.

Lemma step_f (p : char -> bool) x :
  (forall c, p (f c) = p c) ->
  step p (mapState x) = map mapState (step p x).
Proof.
  intros Hp. unfold step, mapState. cbn [after before caps].
  destruct (after x) as [|c rest]; [reflexivity|]. cbn [map].
  rewrite Hp. destruct (p c); reflexivity.
Qed.

Lemma isWordAt_f s : isWordAt (map f s) = isWordAt s.
Proof. destruct s as [|c s]; [reflexivity|]. apply isWordChar_f. Qed.

Lemma holds_f a x : holds a (mapState x) = holds a x.
Proof.
  destruct a; unfold holds, mapState; cbn [before after];
    rewrite ?isWordAt_f; try reflexivity.
  - destruct (before x); reflexivity.
  - destruct (after x); reflexivity.
Qed.

Lemma setCap_f i v x :
  setCap i (option_map (map f) v) (mapState x) = mapState (setCap i v x).
Proof.
  unfold setCap, mapState, mapCaps. cbn [before after caps].
  rewrite (setNth_map (option_map (map f))). reflexivity.
Qed.

Lemma clearCaps_f gs : forall x,
  clearCaps gs (mapState x) = mapState (clearCaps gs x).
Proof.
  unfold clearCaps. induction gs as [|g gs IH]; intros x; cbn [fold_left];
    [reflexivity|].
  rewrite <- IH. f_equal. exact (setCap_f g None x).
Qed.

Lemma endIndex_f x : endIndex (mapState x) = endIndex x.
Proof. unfold endIndex, mapState. cbn [before]. apply length_map. Qed.

Lemma consumed_f x y :
  consumed (mapState x) (mapState y) = map f (consumed x y).
Proof.
  unfold consumed, mapState. cbn [after]. rewrite !length_map.
  apply firstn_map.
Qed.

Lemma repeatMatcher_f (mr : mstate -> list mstate) gs greedy :
  (forall x, mr (mapState x) = map mapState (mr x)) ->
  forall fuel min max x,
    repeatMatcher mr gs greedy fuel min max (mapState x)
    = map mapState (repeatMatcher mr gs greedy fuel min max x).
Proof.
  intros Hmr. induction fuel as [|fuel IH]; intros min max x; [reflexivity|].
  rewrite !repeatMatcher_eq.
  assert (Hz : flat_map
                 (fun y =>
                    if Nat.eqb min 0
                       && Nat.eqb (endIndex y) (endIndex (mapState x))
                    then []
                    else repeatMatcher mr gs greedy fuel (pred min)
                           (option_map pred max) y)
                 (mr (clearCaps gs (mapState x)))
               = map mapState
                   (flat_map
                      (fun y =>
                         if Nat.eqb min 0 && Nat.eqb (endIndex y) (endIndex x)
                         then []
                         else repeatMatcher mr gs greedy fuel (pred min)
                                (option_map pred max) y)
                      (mr (clearCaps gs x)))).
  { rewrite clearCaps_f, Hmr, flat_map_map, map_flat_map.
    apply flat_map_ext. intros y. rewrite !endIndex_f.
    destruct (Nat.eqb min 0 && Nat.eqb (endIndex y) (endIndex x));
      [reflexivity|apply IH]. }
  destruct max as [[|k]|]; [reflexivity| |]; cbv zeta; rewrite Hz;
    (destruct (negb (Nat.eqb min 0)); [reflexivity|]);
    (destruct greedy; [rewrite map_app|]; reflexivity).
Qed.

Lemma matcher_f ic r :
  blind r = true ->
  forall x, matcher ic r (mapState x) = map mapState (matcher ic r x).
Proof.
  induction r as [|a| |neg items|r1 IH1 r2 IH2|r1 IH1 r2 IH2
                  |r1 IH1 min max greedy|i r1 IH1|a|neg r1 IH1];
    cbn [blind]; intros Hb x;
    match goal with
    | |- matcher ?i ?r ?a = map _ (matcher ?i ?r ?b) =>
        rewrite (matcher_eq i r a), (matcher_eq i r b)
    end.
  - reflexivity.
  - apply step_f. intros c. apply charMatches_f.
    apply negb_true_iff, Hb.
  - apply step_f. intros c. rewrite isLineTerminator_f. reflexivity.
  - apply step_f. intros c. apply classMatches_f, Hb.
  - apply andb_prop in Hb. destruct Hb as [H1 H2].
    rewrite (IH1 H1), flat_map_map, map_flat_map.
    apply flat_map_ext. intros y. apply (IH2 H2).
  - apply andb_prop in Hb. destruct Hb as [H1 H2].
    rewrite (IH1 H1), (IH2 H2), map_app. reflexivity.
  - replace (List.length (after (mapState x))) with (List.length (after x))
      by (unfold mapState; cbn [after]; rewrite length_map; reflexivity).
    apply repeatMatcher_f. exact (IH1 Hb).
  - rewrite (IH1 Hb), !map_map. apply map_ext. intros y.
    rewrite consumed_f.
    exact (setCap_f i (Some (consumed x y)) y).
  - rewrite holds_f. destruct (holds a x); reflexivity.
  - rewrite (IH1 Hb). destruct (matcher ic r1 x) as [|y l]; cbn [map];
      destruct neg; reflexivity.
Qed.

Lemma matchAt_f re bef aft :
  blind (ast re) = true ->
  matchAt re (map f bef) (map f aft) = option_map mapMatch (matchAt re bef aft).
Proof.
  intros Hb. unfold matchAt. cbv zeta.
  set (x := MState bef aft (repeat None (ngroups re))).
  assert (Ex : MState (map f bef) (map f aft) (repeat None (ngroups re))
               = mapState x).
  { unfold mapState, x, mapCaps. cbn [before after caps].
    rewrite map_repeat. reflexivity. }
  rewrite Ex, (matcher_f (ignoreCase re) (ast re) Hb x).
  destruct (matcher (ignoreCase re) (ast re) x) as [|y l]; [reflexivity|].
  cbn [map option_map]. unfold mapMatch. cbn [index matched groups lastIndex].
  rewrite consumed_f, endIndex_f, length_map. reflexivity.
Qed.

Definition mapFound (t : MatchResult * str * str) : MatchResult * str * str :=
  (mapMatch (fst (fst t)), map f (snd (fst t)), map f (snd t)).

Lemma execFrom_f re aft : forall bef,
  blind (ast re) = true ->
  execFrom re (map f bef) (map f aft)
  = option_map mapFound (execFrom re bef aft).
Proof.
  assert (K : forall bef a mt,
             (mapMatch mt,
              rev (firstn (lastIndex (mapMatch mt) - List.length (map f bef))
                     (map f a)) ++ map f bef,
              skipn (lastIndex (mapMatch mt) - List.length (map f bef))
                (map f a))
             = mapFound (mt, rev (firstn (lastIndex mt - List.length bef) a)
                               ++ bef,
                         skipn (lastIndex mt - List.length bef) a)).
  { intros bef a mt. unfold mapFound. cbn [fst snd mapMatch lastIndex].
    rewrite length_map, map_app, map_rev.
    rewrite <- firstn_map, <- skipn_map. reflexivity. }
  induction aft as [|c aft IH]; intros bef Hb.
  - pose proof (matchAt_f re bef [] Hb) as M. cbn [map] in M.
    cbn [execFrom map]. rewrite M.
    destruct (matchAt re bef []) as [mt|]; cbn [option_map]; [|reflexivity].
    cbv zeta. f_equal. exact (K bef [] mt).
  - pose proof (matchAt_f re bef (c :: aft) Hb) as M. cbn [map] in M.
    cbn [execFrom map]. rewrite M.
    destruct (matchAt re bef (c :: aft)) as [mt|]; cbn [option_map].
    + cbv zeta. f_equal. exact (K bef (c :: aft) mt).
    + exact (IH (c :: bef) Hb).
Qed.

Lemma matchAllFrom_f re : forall fuel bef aft,
  blind (ast re) = true ->
  matchAllFrom re fuel (map f bef) (map f aft)
  = map mapMatch (matchAllFrom re fuel bef aft).
Proof.
  induction fuel as [|fuel IH]; intros bef aft Hb; [reflexivity|].
  cbn [matchAllFrom]. rewrite (execFrom_f re aft bef Hb).
  destruct (execFrom re bef aft) as [[[mt b'] a']|]; [|reflexivity].
  cbn [option_map mapFound fst snd].
  replace (lastIndex (mapMatch mt)) with (lastIndex mt) by reflexivity.
  replace (index (mapMatch mt)) with (index mt) by reflexivity.
  destruct (Nat.eqb (lastIndex mt) (index mt)).
  - destruct a' as [|c a'']; [reflexivity|]. cbn [map].
    rewrite <- (IH (c :: b') a'' Hb). reflexivity.
  - cbn [map]. rewrite <- (IH b' a' Hb). reflexivity.
Qed.

Lemma matchAll_f re s :
  blind (ast re) = true ->
  matchAll re (map f s) = map mapMatch (matchAll re s).
Proof.
  intros Hb. unfold matchAll. rewrite length_map.
  exact (matchAllFrom_f re (S (List.length s)) [] s Hb).
Qed.

End Renaming.

(** ** Texts that are one date *)

(** The unit that takes the place of a digit: the digit [k] becomes the
    [k]-th unit of [ds]; every other unit stays. *)
Definition rename (ds : list char) (c : char) : char :=
  if isDigit c then nth (N.to_nat (c - 48)) ds c else c.

Lemma rename_digit ds c :
  forallb isDigit ds = true -> isDigit c = true ->
  isDigit (rename ds c) = true.
Proof.
  intros Hds Hc. unfold rename. rewrite Hc.
  destruct (nth_in_or_default (N.to_nat (c - 48)) ds c) as [Hin|E];
    [|rewrite E; exact Hc].
  rewrite forallb_forall in Hds. exact (Hds _ Hin).
Qed.

Lemma rename_other ds c : isDigit c = false -> rename ds c = c.
Proof. unfold rename. intros E. rewrite E. reflexivity. Qed.

Lemma matchAll_renamed re ds T :
  forallb isDigit ds = true -> blind (ast re) = true ->
  matchAll re (map (rename ds) T)
  = map (mapMatch (rename ds)) (matchAll re T).
Proof.
  intros Hds Hb.
  exact (matchAll_f (rename ds) (fun c => rename_digit ds c Hds)
           (rename_other ds) re T Hb).
Qed.

Lemma yearFirst_blind : blind (ast yearFirst) = true.
Proof. vm_compute. reflexivity. Qed.

(** The separators that the date patterns accept. *)
Definition dateSep (c : char) : bool := (c =? 47) || (c =? 45).

Lemma dateSep_cases c : dateSep c = true -> c = 47 \/ c = 45.
Proof.
  unfold dateSep. intros H. apply orb_prop in H.
  destruct H as [H|H]; apply N.eqb_eq in H; auto.
Qed.

(** The template of a text: its digits numbered from 0 on, and the
    digits themselves. *)
Ltac templateOf l n :=
  lazymatch l with
  | @nil _ => constr:((@nil N, @nil N))
  | cons 45 ?l' =>
      let r := templateOf l' n in
      lazymatch r with (?T, ?ds) => constr:((cons 45 T, ds)) end
  | cons 47 ?l' =>
      let r := templateOf l' n in
      lazymatch r with (?T, ?ds) => constr:((cons 47 T, ds)) end
  | cons ?c ?l' =>
      let n' := eval compute in (n + 1) in
      let r := templateOf l' n' in
      lazymatch r with (?T, ?ds) => constr:((cons n T, cons c ds)) end
  end.

Ltac digitFacts :=
  unfold allDigits in *; cbn [forallb] in *;
  repeat match goal with
         | H : (_ && _) = true |- _ => apply andb_prop in H; destruct H
         end.

Ltac allDigitsGoal :=
  cbn [forallb];
  repeat match goal with
         | H : isDigit ?c = true |- _ => rewrite H
         end;
  reflexivity.

(** The matches of the year-first pattern on the text, from those on its
    template. *)
Ltac byTemplate :=
  cbn [app];
  match goal with
  | |- context [matchAll yearFirst ?text] =>
      let r := templateOf text 48 in
      lazymatch r with
      | (?T, ?ds) =>
          change text with (map (rename ds) T);
          rewrite (matchAll_renamed yearFirst ds T
                     ltac:(allDigitsGoal) yearFirst_blind);
          let v := eval vm_compute in (matchAll yearFirst T) in
          replace (matchAll yearFirst T) with v by (vm_compute; reflexivity)
      end
  end.

Ltac dateCases Y M D S1 S2 :=
  destruct Y as [|?a [|?b [|?c [|?e [|? ?]]]]]; try discriminate;
  destruct M as [|?g [|?h [|? ?]]]; cbn [List.length] in *; try lia;
  destruct D as [|?i [|?j [|? ?]]]; cbn [List.length] in *; try lia;
  destruct (dateSep_cases _ S1) as [-> | ->];
  destruct (dateSep_cases _ S2) as [-> | ->];
  digitFacts.

Lemma yearFirst_match (Y M D : str) (s1 s2 : char) :
  allDigits Y = true -> allDigits M = true -> allDigits D = true ->
  List.length Y = 4%nat ->
  (1 <= List.length M <= 2)%nat -> (1 <= List.length D <= 2)%nat ->
  dateSep s1 = true -> dateSep s2 = true ->
  exists mt,
    matchAll yearFirst (Y ++ s1 :: M ++ s2 :: D) = [mt]
    /\ group 1 mt = Some Y /\ group 2 mt = Some M /\ group 3 mt = Some D.
Proof.
  intros HY HM HD LY LM LD S1 S2.
  dateCases Y M D S1 S2; byTemplate;
    (eexists; split; [reflexivity|]; repeat split; reflexivity).
Qed.

Lemma dayFirst_text (Y M D : str) (s1 s2 : char) :
  allDigits Y = true -> allDigits M = true -> allDigits D = true ->
  List.length Y = 4%nat ->
  (1 <= List.length M <= 2)%nat -> (1 <= List.length D <= 2)%nat ->
  dateSep s1 = true -> dateSep s2 = true ->
  matchAll yearFirst (D ++ s1 :: M ++ s2 :: Y) = [].
Proof.
  intros HY HM HD LY LM LD S1 S2.
  dateCases Y M D S1 S2; byTemplate; reflexivity.
Qed.

Lemma dateOfMatch_yearFirst mt :
  dateOfMatch yearFirst mt
  = if isValidDate (parseIntGroup 1 mt) (parseIntGroup 2 mt)
         (parseIntGroup 3 mt)
    then Some (intToString (match parseIntGroup 1 mt with
                            | Some v => v
                            | None => 0%Z
                            end)
               ++ #"-" ++ pad2 (parseIntGroup 2 mt)
               ++ #"-" ++ pad2 (parseIntGroup 3 mt))
    else None.
Proof.
  unfold dateOfMatch.
  destruct datePatterns_fourDigits as (_ & I & _). rewrite I. reflexivity.
Qed.

Lemma nonempty_length (s : str) : (1 <= List.length s)%nat -> s <> [].
Proof. destruct s; simpl; [lia|discriminate]. Qed.

(** A text that is a year of four digits, a month and a day of one or two
    digits, with [/] or [-] in between. *)
Lemma yearFirst_reading (Y M D : str) (s1 s2 : char) :
  allDigits Y = true -> allDigits M = true -> allDigits D = true ->
  List.length Y = 4%nat ->
  (1 <= List.length M <= 2)%nat -> (1 <= List.length D <= 2)%nat ->
  dateSep s1 = true -> dateSep s2 = true ->
  extractDate (Y ++ s1 :: M ++ s2 :: D)
  = if isValidDate (Some (Z.of_N (digitsValue Y)))
         (Some (Z.of_N (digitsValue M))) (Some (Z.of_N (digitsValue D)))
    then MkDateResult
           (Some (isoDate (Z.of_N (digitsValue Y)) (Z.of_N (digitsValue M))
                    (Z.of_N (digitsValue D))))
           (decimal 9 1)
    else MkDateResult None (decimal 0 0).
Proof.
  intros HY HM HD LY LM LD S1 S2.
  destruct (yearFirst_match Y M D s1 s2 HY HM HD LY LM LD S1 S2)
    as (mt & E & G1 & G2 & G3).
  rewrite extractDate_by_yearFirst, E. cbn [firstSome].
  rewrite dateOfMatch_yearFirst. unfold parseIntGroup.
  rewrite G1, G2, G3. cbn [orEmpty].
  rewrite (parseIntAuto_digits Y HY) by (apply nonempty_length; lia).
  rewrite (parseIntAuto_digits M HM) by (apply nonempty_length; lia).
  rewrite (parseIntAuto_digits D HD) by (apply nonempty_length; lia).
  destruct (isValidDate _ _ _); reflexivity.
Qed.

Definition leapDay : str := #"2024/2/29".

(** X12.  On a text that is one date, [extractDate] reads the year-first
    forms and no other: a year of four digits, a month and a day of one
    or two digits, separated by [/] or [-], give the date in the form
    [YYYY-MM-DD] when [isValidDate] accepts the three numbers and no
    date when it does not; the same parts with the day first and the year
    last give no date at all. *)
Theorem extractDate_single_date (Y M D : str) (s1 s2 : char) :
  allDigits Y = true -> allDigits M = true -> allDigits D = true ->
  List.length Y = 4%nat ->
  (1 <= List.length M <= 2)%nat -> (1 <= List.length D <= 2)%nat ->
  dateSep s1 = true -> dateSep s2 = true ->
  extractDate (Y ++ s1 :: M ++ s2 :: D)
  = (if isValidDate (Some (Z.of_N (digitsValue Y)))
          (Some (Z.of_N (digitsValue M))) (Some (Z.of_N (digitsValue D)))
     then MkDateResult
            (Some (isoDate (Z.of_N (digitsValue Y)) (Z.of_N (digitsValue M))
                     (Z.of_N (digitsValue D))))
            (decimal 9 1)
     else MkDateResult None (decimal 0 0))
  /\ extractDate (D ++ s1 :: M ++ s2 :: Y) = MkDateResult None (decimal 0 0).
Proof.
  intros HY HM HD LY LM LD S1 S2. split.
  - exact (yearFirst_reading Y M D s1 s2 HY HM HD LY LM LD S1 S2).
  - rewrite extractDate_by_yearFirst.
    rewrite (dayFirst_text Y M D s1 s2 HY HM HD LY LM LD S1 S2).
    reflexivity.
Qed.

Lemma extractDate_single_date_witness :
  extractDate #"2024/2/29"
  = MkDateResult (Some #"2024-02-29") (decimal 9 1)
  /\ extractDate #"29/2/2024" = MkDateResult None (decimal 0 0).
Proof.
  exact (extractDate_single_date #"2024" #"2" #"29" 47 47
           eq_refl eq_refl eq_refl eq_refl
           (conj (le_n 1) (le_S 1 1 (le_n 1)))
           (conj (le_S 1 1 (le_n 1)) (le_n 2))
           eq_refl eq_refl).
Defined.

(** *** The date text read again *)

Definition yearText (y : Z) : bool :=
  let s := intToString y in
  allDigits s && Nat.eqb (List.length s) 4
  && (Z.of_N (digitsValue s) =? y)%Z.

Definition twoDigits (v : Z) : bool :=
  let s := pad2 (Some v) in
  allDigits s && Nat.eqb (List.length s) 2
  && (Z.of_N (digitsValue s) =? v)%Z.

Lemma yearText_holds : forallZ 1900 201 yearText = true.
Proof. vm_compute. reflexivity. Qed.

Lemma twoDigits_holds : forallZ 1 31 twoDigits = true.
Proof. vm_compute. reflexivity. Qed.

Lemma daysInMonth_31 y m : (daysInMonth y m <= 31)%Z.
Proof.
  unfold daysInMonth.
  destruct (m =? 2)%Z; [destruct (isLeap y); lia|].
  destruct ((m =? 4) || (m =? 6) || (m =? 9) || (m =? 11))%Z; lia.
Qed.

Lemma calendar_valid y m d :
  (1900 <= y <= 2100)%Z -> (1 <= m <= 12)%Z ->
  (1 <= d <= daysInMonth y m)%Z ->
  isValidDate (Some y) (Some m) (Some d) = true.
Proof.
  intros Ry Rm Rd. pose proof (daysInMonth_31 y m) as L.
  pose proof (forallZ_spec _ _ _ calendarCheck_holds y ltac:(lia)) as Cy.
  pose proof (forallZ_spec _ _ _ Cy m ltac:(lia)) as Cm.
  pose proof (forallZ_spec _ _ _ Cm d ltac:(lia)) as Cd.
  unfold calendarDay in Cd. apply andb_prop in Cd. destruct Cd as [Cd _].
  apply Bool.eqb_prop in Cd. rewrite Cd. apply Z.leb_le. lia.
Qed.

Lemma isoDate_reading y m d :
  (1900 <= y <= 2100)%Z -> (1 <= m <= 12)%Z ->
  (1 <= d <= daysInMonth y m)%Z ->
  extractDate (isoDate y m d)
  = MkDateResult (Some (isoDate y m d)) (decimal 9 1).
Proof.
  intros Ry Rm Rd. pose proof (daysInMonth_31 y m) as L.
  pose proof (forallZ_spec _ _ _ yearText_holds y ltac:(lia)) as Ty.
  pose proof (forallZ_spec _ _ _ twoDigits_holds m ltac:(lia)) as Tm.
  pose proof (forallZ_spec _ _ _ twoDigits_holds d ltac:(lia)) as Td.
  unfold yearText, twoDigits in *. cbv zeta in *.
  apply andb_prop in Ty. destruct Ty as [Ty Vy].
  apply andb_prop in Ty. destruct Ty as [Dy Ly].
  apply andb_prop in Tm. destruct Tm as [Tm Vm].
  apply andb_prop in Tm. destruct Tm as [Dm Lm].
  apply andb_prop in Td. destruct Td as [Td Vd].
  apply andb_prop in Td. destruct Td as [Dd Ld].
  apply Nat.eqb_eq in Ly. apply Nat.eqb_eq in Lm. apply Nat.eqb_eq in Ld.
  apply Z.eqb_eq in Vy. apply Z.eqb_eq in Vm. apply Z.eqb_eq in Vd.
  pose proof (yearFirst_reading (intToString y) (pad2 (Some m))
                (pad2 (Some d)) 45 45 Dy Dm Dd Ly ltac:(lia) ltac:(lia)
                eq_refl eq_refl) as K.
  rewrite Vy, Vm, Vd, (calendar_valid y m d Ry Rm Rd) in K. exact K.
Qed.

(** X13.  The date that [extractDate] returns is a text from which
    [extractDate] returns the same date again, with the same
    confidence. *)
Theorem extractDate_round_trip (text iso : str) (c : num) :
  extractDate text = MkDateResult (Some iso) c ->
  extractDate iso = MkDateResult (Some iso) c.
Proof.
  unfold extractDate at 1.
  destruct (firstSome _ DATE_PATTERNS) as [iso'|] eqn:E; [|discriminate].
  intros H. injection H as -> <-.
  destruct (firstSome_Some _ _ _ E) as (pattern & _ & E1).
  destruct (firstSome_Some _ _ _ E1) as (mt & _ & E2).
  destruct (dateOfMatch_calendar pattern mt iso E2)
    as (y & m & d & Ry & Rm & Rd & -> & _).
  exact (isoDate_reading y m d Ry Rm Rd).
Qed.

Lemma extractDate_round_trip_witness :
  extractDate isoText = MkDateResult (Some #"2024-02-29") (decimal 9 1)
  /\ extractDate #"2024-02-29"
     = MkDateResult (Some #"2024-02-29") (decimal 9 1).
Proof.
  assert (H : extractDate isoText
              = MkDateResult (Some #"2024-02-29") (decimal 9 1))
    by (vm_compute; reflexivity).
  split; [exact H|].
  exact (extractDate_round_trip isoText #"2024-02-29" (decimal 9 1) H).
Defined.

(** ** [isValidDate] and the calendar *)

(** X14.  [isValidDate] accepts three integers exactly when the year is
    from 1900 to 2100, the month from 1 to 12, and the day is a day of
    that month in that year of the Gregorian calendar; a component that
    is [NaN] is never accepted. *)
Theorem isValidDate_iff (year month day : option Z) :
  isValidDate year month day = true
  <-> exists y m d,
        year = Some y /\ month = Some m /\ day = Some d
        /\ (1900 <= y <= 2100)%Z /\ (1 <= m <= 12)%Z
        /\ (1 <= d <= daysInMonth y m)%Z.
Proof.
  split.
  - intros H.
    destruct (isValidDate_calendar year month day H)
      as (y & m & d & Ey & Em & Ed & Ry & Rm & Rd & _).
    exists y, m, d. auto 10.
  - intros (y & m & d & -> & -> & -> & Ry & Rm & Rd).
    exact (calendar_valid y m d Ry Rm Rd).
Qed.

(** ** The response text that [parseTextWithAI] hands to [JSON.parse]

    Between the call of the model and [JSON.parse], [parseTextWithAI] of
    [src/app/api/upload-receipt/route.ts] cleans the response text: it
    trims it, removes a code fence at both ends and then keeps what the
    pattern for an object matches.  [cleanResponse] is that passage. *)

(** [s.replace(re, r)] for a pattern without the [g] flag and a
    replacement text without [$] patterns: the first match only. *)
Definition replaceOnce (re : RegExp) (s r : str) : str :=
  match execFrom re [] s with
  | Some (mt, _, aft') => firstn (index mt) s ++ r ++ aft'
  | None => s
  end.

Definition fenceJson : RegExp := lit "^```json\s*" "".
Definition fenceOpen : RegExp := lit "^```\s*" "".
Definition fenceClose : RegExp := lit "\s*```$" "".
Definition jsonObject : RegExp := lit "\{[\s\S]*\}" "".

Definition cleanResponse (response : str) : str :=
  let cleanedResponse := trim response in
  let cleanedResponse :=
    if startsWith #"```json" cleanedResponse then
      replaceOnce fenceClose (replaceOnce fenceJson cleanedResponse []) []
    else if startsWith #"```" cleanedResponse then
      replaceOnce fenceClose (replaceOnce fenceOpen cleanedResponse []) []
    else cleanedResponse in
  match exec jsonObject cleanedResponse with
  | Some jsonMatch => matched jsonMatch
  | None => cleanedResponse
  end.

Lemma fences_parse :
  forallb parsesToItself [fenceJson; fenceOpen; fenceClose; jsonObject] = true.
Proof. vm_compute. reflexivity. Qed.

(** *** Texts with an object *)

Definition openBrace : char := 123.
Definition closeBrace : char := 125.

Definition noOpen (s : str) : bool :=
  forallb (fun c => negb (c =? openBrace)) s.
Definition noClose (s : str) : bool :=
  forallb (fun c => negb (c =? closeBrace)) s.
Definition notBrace (c : char) : bool :=
  negb (c =? openBrace) && negb (c =? closeBrace).

(** [body] stands between the first opening brace and the last closing
    brace of the text. *)
Definition spans (body s : str) : Prop :=
  exists P Q : str,
    s = P ++ openBrace :: body ++ closeBrace :: Q
    /\ noOpen P = true /\ noClose Q = true.

Lemma dropWhile_keep {A} (p : A -> bool) (P : list A) (x : A) (R : list A) :
  p x = false -> dropWhile p (P ++ x :: R) = dropWhile p P ++ x :: R.
Proof.
  intros Hx. rewrite dropWhile_app. cbn [dropWhile]. rewrite Hx.
  destruct (dropWhile p P); reflexivity.
Qed.

Lemma trimEnd_keep (X : str) (x : char) (Q : str) :
  isWhiteSpace x = false -> trimEnd (X ++ x :: Q) = X ++ x :: trimEnd Q.
Proof.
  intros Hx. unfold trimEnd.
  replace (rev (X ++ x :: Q)) with (rev Q ++ x :: rev X)
    by (rewrite rev_app_distr; cbn [rev]; rewrite <- app_assoc; reflexivity).
  rewrite (dropWhile_keep isWhiteSpace (rev Q) x (rev X) Hx).
  rewrite rev_app_distr. cbn [rev]. rewrite rev_involutive, <- app_assoc.
  reflexivity.
Qed.

Lemma spans_trim body s : spans body s -> spans body (trim s).
Proof.
  intros (P & Q & -> & HP & HQ). unfold trim, trimStart.
  rewrite (dropWhile_keep isWhiteSpace P openBrace (body ++ closeBrace :: Q) eq_refl).
  replace (dropWhile isWhiteSpace P ++ openBrace :: body ++ closeBrace :: Q)
    with ((dropWhile isWhiteSpace P ++ openBrace :: body) ++ closeBrace :: Q)
    by (rewrite <- app_assoc; reflexivity).
  rewrite (trimEnd_keep _ closeBrace Q eq_refl), <- app_assoc.
  exists (dropWhile isWhiteSpace P), (trimEnd Q). split; [reflexivity|].
  split.
  - apply dropWhile_forallb, HP.
  - unfold noClose, trimEnd. rewrite forallb_rev.
    apply dropWhile_forallb. rewrite forallb_rev. exact HQ.
Qed.

(** A piece without [x] in front of a text lies before the first [x]. *)
Lemma prefix_before (x : char) (w : str) : forall (B P R : str),
  forallb (fun c => negb (c =? x)) w = true ->
  forallb (fun c => negb (c =? x)) P = true ->
  w ++ B = P ++ x :: R ->
  exists P', P = w ++ P' /\ B = P' ++ x :: R.
Proof.
  induction w as [|a w IH]; intros B P R Hw HP E.
  - exists P. auto.
  - cbn [forallb] in Hw. apply andb_prop in Hw. destruct Hw as [Ha Hw].
    destruct P as [|b P].
    + cbn [app] in E. injection E as -> _.
      rewrite N.eqb_refl in Ha. discriminate Ha.
    + cbn [app] in E. injection E as -> E.
      cbn [forallb] in HP. apply andb_prop in HP. destruct HP as [_ HP].
      destruct (IH B P R Hw HP E) as (P' & -> & ->). exists P'. auto.
Qed.

Lemma notBrace_open w :
  forallb notBrace w = true -> noOpen w = true.
Proof.
  unfold noOpen. rewrite !forallb_forall. intros H c Hc.
  specialize (H c Hc). unfold notBrace in H. apply andb_prop in H. tauto.
Qed.

Lemma notBrace_close w :
  forallb notBrace w = true -> noClose w = true.
Proof.
  unfold noClose. rewrite !forallb_forall. intros H c Hc.
  specialize (H c Hc). unfold notBrace in H. apply andb_prop in H. tauto.
Qed.

Lemma spans_cut_prefix body w B :
  forallb notBrace w = true -> spans body (w ++ B) -> spans body B.
Proof.
  intros Hw (P & Q & E & HP & HQ).
  destruct (prefix_before openBrace w B P (body ++ closeBrace :: Q)
              (notBrace_open w Hw) HP E) as (P' & -> & ->).
  exists P', Q. split; [reflexivity|]. split; [|exact HQ].
  unfold noOpen in *. rewrite forallb_app in HP. apply andb_prop in HP. tauto.
Qed.

Lemma spans_cut_suffix body A w :
  forallb notBrace w = true -> spans body (A ++ w) -> spans body A.
Proof.
  intros Hw (P & Q & E & HP & HQ).
  assert (E' : rev w ++ rev A = rev Q ++ closeBrace :: rev (P ++ openBrace :: body)).
  { rewrite <- rev_app_distr, E.
    replace (P ++ openBrace :: body ++ closeBrace :: Q)
      with ((P ++ openBrace :: body) ++ closeBrace :: Q)
      by (rewrite <- app_assoc; reflexivity).
    rewrite rev_app_distr. cbn [rev]. rewrite <- app_assoc. reflexivity. }
  destruct (prefix_before closeBrace (rev w) (rev A) (rev Q)
              (rev (P ++ openBrace :: body))) as (Q' & EQ & EA).
  - rewrite forallb_rev. exact (notBrace_close w Hw).
  - rewrite forallb_rev. exact HQ.
  - exact E'.
  - exists P, (rev Q'). split.
    + rewrite <- (rev_involutive A), EA, rev_app_distr. cbn [rev].
      rewrite rev_involutive, <- !app_assoc. reflexivity.
    + split; [exact HP|].
      assert (HQ' : noClose (rev Q) = true)
        by (unfold noClose; rewrite forallb_rev; exact HQ).
      rewrite EQ in HQ'. unfold noClose in *. rewrite forallb_app in HQ'.
      apply andb_prop in HQ'. rewrite forallb_rev. tauto.
Qed.

(** *** The fences *)

Lemma matchAt_within (C : char -> bool) re bef aft mt :
  within C anyGroup (ignoreCase re) (ast re) ->
  matchAt re bef aft = Some mt ->
  forallb C (matched mt) = true
  /\ exists y, In y (matcher (ignoreCase re) (ast re) (startState re bef aft))
               /\ aft = matched mt ++ after y.
Proof.
  intros Hw H. destruct (@matchAt_inv re bef aft mt H) as (y & l & E & ->).
  assert (Hin : In y (matcher (ignoreCase re) (ast re) (startState re bef aft)))
    by (rewrite E; left; reflexivity).
  destruct (@matcher_reach C _ _ _ _ Hw Hin) as (w & A & _ & _ & F).
  cbn [matched]. rewrite (@consumed_app (startState re bef aft) y w A).
  split.
  - apply forallb_forall. rewrite Forall_forall in F. exact F.
  - exists y. split; [exact Hin|exact A].
Qed.

Lemma whiteSpace_notBrace c : isWhiteSpace c = true -> notBrace c = true.
Proof.
  intros H. unfold notBrace.
  destruct (c =? openBrace) eqn:E1;
    [apply N.eqb_eq in E1; subst c; discriminate H|].
  destruct (c =? closeBrace) eqn:E2;
    [apply N.eqb_eq in E2; subst c; discriminate H|].
  reflexivity.
Qed.

Lemma fenceItem_notBrace it c :
  symItem it = true -> (forall a, it = CChar a -> notBrace a = true) ->
  itemMatches false it c = true -> notBrace c = true.
Proof.
  destruct it as [a|lo hi|neg|neg|neg]; cbn [symItem itemMatches];
    intros Hi Ha Hm; try discriminate Hi.
  - unfold charMatches, canonicalize in Hm. apply N.eqb_eq in Hm. subst c.
    exact (Ha a eq_refl).
  - destruct neg; [discriminate Hi|]. cbn [xorb] in Hm.
    apply whiteSpace_notBrace.
    destruct (isWhiteSpace c); [reflexivity|discriminate Hm].
Qed.

(** The units and classes of a fence pattern: back quotes, the letters
    of [json] and white space. *)
Definition fenceItem (it : citem) : bool :=
  match it with
  | CChar a => notBrace a
  | CSpace neg => negb neg
  | _ => false
  end.

Fixpoint fenceBody (r : regex) : bool :=
  match r with
  | REmpty | RAssert _ => true
  | RChar a => notBrace a
  | RClass neg items => negb neg && forallb fenceItem items
  | RSeq r1 r2 => fenceBody r1 && fenceBody r2
  | RRepeat r1 _ _ _ => fenceBody r1
  | _ => false
  end.

Lemma fenceBody_within r :
  fenceBody r = true -> within notBrace anyGroup false r.
Proof.
  induction r as [|a| |neg items|r1 IH1 r2 IH2|r1 IH1 r2 IH2
                  |r1 IH1 min max greedy|i r1 IH1|a|neg r1 IH1];
    cbn [fenceBody within]; intros Hu; try discriminate Hu; auto.
  - intros c Hc. unfold charMatches, canonicalize in Hc.
    apply N.eqb_eq in Hc. subst c. exact Hu.
  - apply andb_prop in Hu. destruct Hu as [Hn Hi].
    destruct neg; [discriminate Hn|]. intros c Hc.
    unfold classMatches in Hc. cbn [xorb] in Hc.
    destruct (existsb (fun it => itemMatches false it c) items) eqn:Ex;
      [|discriminate Hc].
    apply existsb_exists in Ex. destruct Ex as (it & Hin & Hm).
    rewrite forallb_forall in Hi. specialize (Hi it Hin).
    destruct it as [a|lo hi|n|n|n]; cbn [fenceItem itemMatches] in *;
      try discriminate Hi.
    + unfold charMatches, canonicalize in Hm. apply N.eqb_eq in Hm.
      subst c. exact Hi.
    + destruct n; [discriminate Hi|]. cbn [xorb] in Hm.
      apply whiteSpace_notBrace.
      destruct (isWhiteSpace c); [reflexivity|discriminate Hm].
  - apply andb_prop in Hu. destruct Hu. auto.
Qed.

(** A pattern that begins with [^] matches at the start only. *)
Lemma execFrom_start re r aft : forall bef,
  ast re = RSeq (RAssert AStart) r -> bef <> [] ->
  execFrom re bef aft = None.
Proof.
  induction aft as [|c aft IH]; intros bef Ea Hb; cbn [execFrom];
    (rewrite matchAt_None;
     [|rewrite Ea, matcher_eq, (matcher_eq _ (RAssert AStart));
       unfold startState, holds; cbn [before];
       destruct bef; [congruence|reflexivity]]).
  - reflexivity.
  - apply IH; [exact Ea|discriminate].
Qed.

Lemma replaceOnce_start body re r s :
  ast re = RSeq (RAssert AStart) r -> ignoreCase re = false ->
  fenceBody (ast re) = true ->
  spans body s -> spans body (replaceOnce re s []).
Proof.
  intros Ea Ei Hf Hs. unfold replaceOnce.
  destruct (execFrom re [] s) as [[[mt b] a]|] eqn:E; [|exact Hs].
  assert (M : matchAt re [] s = Some mt
              /\ a = skipn (lastIndex mt - 0) s).
  { destruct s as [|c s]; cbn [execFrom] in E.
    - destruct (matchAt re [] []) as [m0|]; [|discriminate E].
      injection E as <- _ <-. auto.
    - destruct (matchAt re [] (c :: s)) as [m0|].
      + injection E as <- _ <-. auto.
      + rewrite (execFrom_start re r s [c] Ea) in E; [discriminate E|].
        discriminate. }
  destruct M as [M ->].
  destruct (@matchAt_span re [] s mt M) as (Hi & Hl & Hsp & _).
  pose proof (fenceBody_within (ast re) Hf) as Hw. rewrite <- Ei in Hw.
  destruct (matchAt_within notBrace re [] s mt Hw M) as [Hc _].
  rewrite Hi. cbn [List.length firstn app]. rewrite Hl. cbn [Nat.add].
  rewrite Nat.sub_0_r. rewrite Hsp in Hs.
  exact (spans_cut_prefix body (matched mt) _ Hc Hs).
Qed.

(** A pattern that ends with [$] matches up to the end only. *)
Fixpoint endsAtEnd (r : regex) : bool :=
  match r with
  | RAssert AEnd => true
  | RSeq r1 REmpty => endsAtEnd r1
  | RSeq _ r2 => endsAtEnd r2
  | _ => false
  end.

Lemma endsAtEnd_after ic r :
  endsAtEnd r = true ->
  forall x y, In y (matcher ic r x) -> after y = [].
Proof.
  induction r as [|a| |neg items|r1 IH1 r2 IH2|r1 IH1 r2 IH2
                  |r1 IH1 min max greedy|i r1 IH1|a|neg r1 IH1];
    cbn [endsAtEnd]; intros He x y Hin; try discriminate He.
  - rewrite matcher_eq in Hin. apply in_flat_map in Hin.
    destruct Hin as (m & H1 & H2).
    destruct r2; try (exact (IH2 He m y H2)).
    rewrite matcher_eq in H2. destruct H2 as [<-|[]].
    exact (IH1 He x m H1).
  - destruct a; try discriminate He. rewrite matcher_eq in Hin.
    unfold holds in Hin. destruct (after x) eqn:Ea; [|destruct Hin].
    destruct Hin as [<-|[]]. exact Ea.
Qed.

Lemma replaceOnce_end body re s :
  endsAtEnd (ast re) = true -> ignoreCase re = false ->
  fenceBody (ast re) = true ->
  spans body s -> spans body (replaceOnce re s []).
Proof.
  intros He Ei Hf Hs. unfold replaceOnce.
  destruct (execFrom re [] s) as [[[mt b] a]|] eqn:E; [|exact Hs].
  destruct (@execFrom_inv re s [] mt b a E) as (sk & Es & _ & M).
  rewrite app_nil_r in M.
  destruct (@matchAt_span re _ _ mt M) as (Hi & _).
  pose proof (fenceBody_within (ast re) Hf) as Hw. rewrite <- Ei in Hw.
  destruct (matchAt_within notBrace re _ _ mt Hw M) as (Hc & y & Hy & Ey).
  rewrite (endsAtEnd_after _ _ He _ _ Hy), app_nil_r in Ey.
  assert (Ha : a = []).
  { apply (f_equal (@List.length char)) in Ey. rewrite length_app in Ey.
    destruct a; [reflexivity|simpl in Ey; lia]. }
  subst a. rewrite app_nil_r in Es. cbn [app]. rewrite app_nil_r.
  rewrite Hi, length_rev, Es, firstn_app, firstn_all, Nat.sub_diag.
  cbn [firstn]. rewrite app_nil_r.
  rewrite Es in Hs. exact (spans_cut_suffix body sk (matched mt) Hc Hs).
Qed.

Lemma fences_shape :
  (exists r, ast fenceJson = RSeq (RAssert AStart) r)
  /\ (exists r, ast fenceOpen = RSeq (RAssert AStart) r)
  /\ endsAtEnd (ast fenceClose) = true
  /\ fenceBody (ast fenceJson) = true
  /\ fenceBody (ast fenceOpen) = true
  /\ fenceBody (ast fenceClose) = true.
Proof.
  split; [eexists; vm_compute; reflexivity|].
  split; [eexists; vm_compute; reflexivity|].
  repeat split; vm_compute; reflexivity.
Qed.

(** *** The object *)

(** The states of a greedy run over a class that holds every unit: the
    longest first. *)
Fixpoint runStates (cs : list (option str)) (bef aft : str) : list mstate :=
  match aft with
  | [] => [MState bef [] cs]
  | c :: aft' => runStates cs (c :: bef) aft' ++ [MState bef aft cs]
  end.

Lemma greedy_all (p : char -> bool) cs :
  (forall c, p c = true) ->
  forall aft fuel bef,
    (List.length aft < fuel)%nat ->
    repeatMatcher (step p) [] true fuel 0 None (MState bef aft cs)
    = runStates cs bef aft.
Proof.
  intros Hp. induction aft as [|c aft IH]; intros fuel bef Hf;
    (destruct fuel as [|fuel]; [simpl in Hf; lia|]);
    rewrite repeatMatcher_eq; cbv zeta;
    cbn [clearCaps fold_left Nat.eqb negb].
  - rewrite step_nil. reflexivity.
  - rewrite step_cons, Hp. cbn [flat_map]. unfold endIndex.
    cbn [before List.length andb].
    replace (Nat.eqb (S (List.length bef)) (List.length bef)) with false
      by (symmetry; apply Nat.eqb_neq; lia).
    cbn [pred option_map]. rewrite app_nil_r.
    rewrite (IH fuel (c :: bef)) by (simpl in Hf; lia).
    reflexivity.
Qed.

Definition closing : regex := RSeq (RChar closeBrace) REmpty.

Lemma closing_at bef c aft cs :
  matcher false closing (MState bef (c :: aft) cs)
  = if closeBrace =? c then [MState (c :: bef) aft cs] else [].
Proof.
  unfold closing. rewrite matcher_eq, (matcher_eq _ (RChar closeBrace)), step_cons.
  unfold charMatches, canonicalize. destruct (closeBrace =? c); reflexivity.
Qed.

Lemma closing_none cs Q : forall bef,
  noClose Q = true -> flat_map (matcher false closing) (runStates cs bef Q) = [].
Proof.
  induction Q as [|c Q IH]; intros bef HQ; cbn [runStates flat_map].
  - reflexivity.
  - unfold noClose in HQ. cbn [forallb] in HQ. apply andb_prop in HQ.
    destruct HQ as [Hc HQ]. apply negb_true_iff in Hc.
    rewrite flat_map_app, (IH (c :: bef) HQ). cbn [flat_map app].
    rewrite closing_at, N.eqb_sym, Hc. reflexivity.
Qed.

(** The first closing brace that the run gives back is the last one of
    the text. *)
Lemma closing_last cs Q : forall body bef,
  noClose Q = true ->
  exists l,
    flat_map (matcher false closing) (runStates cs bef (body ++ closeBrace :: Q))
    = MState (closeBrace :: rev body ++ bef) Q cs :: l.
Proof.
  induction body as [|c body IH]; intros bef HQ; cbn [app runStates rev];
    rewrite flat_map_app.
  - rewrite (closing_none cs Q (closeBrace :: bef) HQ). cbn [flat_map app].
    rewrite closing_at, N.eqb_refl. exists []. reflexivity.
  - destruct (IH (c :: bef) HQ) as (l & ->). cbn [app].
    rewrite <- app_assoc. cbn [app]. eexists. reflexivity.
Qed.

Lemma jsonObject_shape :
  ast jsonObject
  = RSeq (RChar openBrace)
      (RSeq (RRepeat (RClass false [CSpace false; CSpace true]) 0 None true)
            closing)
  /\ ignoreCase jsonObject = false /\ ngroups jsonObject = 0%nat.
Proof. repeat split. Qed.

Lemma anyUnit c : classMatches false false [CSpace false; CSpace true] c = true.
Proof.
  unfold classMatches. cbn [existsb itemMatches xorb].
  destruct (isWhiteSpace c); reflexivity.
Qed.

Lemma jsonObject_here bef body Q :
  noClose Q = true ->
  exists mt,
    matchAt jsonObject bef (openBrace :: body ++ closeBrace :: Q) = Some mt
    /\ matched mt = openBrace :: body ++ [closeBrace].
Proof.
  intros HQ. destruct jsonObject_shape as (Ea & Ei & En).
  unfold matchAt. rewrite Ea, Ei, En. cbv zeta. cbn [repeat].
  rewrite matcher_eq, (matcher_eq _ (RChar openBrace)), step_cons.
  unfold charMatches at 1, canonicalize. rewrite N.eqb_refl.
  cbn [flat_map].
  rewrite app_nil_r, matcher_eq.
  rewrite (matcher_eq _ (RRepeat _ _ _ _)).
  cbn [groupsOf after before caps Nat.add].
  replace (matcher false (RClass false [CSpace false; CSpace true]))
    with (step (classMatches false false [CSpace false; CSpace true]))
    by reflexivity.
  rewrite (greedy_all _ [] anyUnit) by lia.
  destruct (closing_last [] Q body (openBrace :: bef) HQ) as (l & ->).
  eexists. split; [reflexivity|].
  cbn [matched]. apply consumed_app. cbn [after app].
  rewrite <- app_assoc. reflexivity.
Qed.

Lemma jsonObject_skip bef c aft :
  (c =? openBrace) = false -> matchAt jsonObject bef (c :: aft) = None.
Proof.
  intros Hc. apply matchAt_None. destruct jsonObject_shape as (Ea & Ei & _).
  rewrite Ea, Ei, matcher_eq, (matcher_eq _ (RChar openBrace)).
  unfold startState. rewrite step_cons.
  unfold charMatches, canonicalize. rewrite N.eqb_sym, Hc. reflexivity.
Qed.

Lemma jsonObject_span body s :
  spans body s ->
  exists mt, exec jsonObject s = Some mt /\ matched mt = openBrace :: body ++ [closeBrace].
Proof.
  intros (P & Q & -> & HP & HQ). unfold exec.
  assert (H : forall bef,
             exists mt t, execFrom jsonObject bef (P ++ openBrace :: body ++ closeBrace :: Q)
                          = Some (mt, fst t, snd t)
                          /\ matched mt = openBrace :: body ++ [closeBrace]).
  { induction P as [|c P IH]; intros bef.
    - destruct (jsonObject_here bef body Q HQ) as (mt & M & E).
      cbn [app execFrom]. rewrite M. eexists. eexists (_, _).
      split; [reflexivity|exact E].
    - unfold noOpen in HP. cbn [forallb] in HP. apply andb_prop in HP.
      destruct HP as [Hc HP]. apply negb_true_iff in Hc.
      cbn [app execFrom]. rewrite (jsonObject_skip bef c _ Hc).
      exact (IH HP (c :: bef)). }
  destruct (H []) as (mt & t & E & M). rewrite E. cbn [option_map fst].
  eauto.
Qed.

Definition newline : char := 10.

Definition fencedAnswer : str :=
  #"```json" ++ newline
  :: #"{ amount: 12.5, confidence: { amount: 0.9 } }" ++ newline :: #"```".

(** X15.  Whatever stands around it, the text from the first opening
    brace to the last closing brace of the response is what
    [parseTextWithAI] hands to [JSON.parse]: white space, a code fence
    with or without [json], and any other text before the first opening
    brace or after the last closing brace are dropped, and nothing in
    between is changed. *)
Theorem cleanResponse_object (pre body post : str) :
  noOpen pre = true -> noClose post = true ->
  cleanResponse (pre ++ openBrace :: body ++ closeBrace :: post) = openBrace :: body ++ [closeBrace].
Proof.
  intros HP HQ.
  assert (Hs : spans body (trim (pre ++ openBrace :: body ++ closeBrace :: post)))
    by (apply spans_trim; exists pre, post; auto).
  unfold cleanResponse. cbv zeta.
  set (t := trim (pre ++ openBrace :: body ++ closeBrace :: post)) in *. clearbody t.
  destruct fences_shape as ((rj & Ej) & (ro & Eo) & Ec & Fj & Fo & Fc).
  assert (Hc : spans body
                 (if startsWith #"```json" t
                  then replaceOnce fenceClose (replaceOnce fenceJson t []) []
                  else if startsWith #"```" t
                       then replaceOnce fenceClose
                              (replaceOnce fenceOpen t []) []
                       else t)).
  { destruct (startsWith #"```json" t).
    - apply (replaceOnce_end body fenceClose _ Ec eq_refl Fc).
      exact (replaceOnce_start body fenceJson rj t Ej eq_refl Fj Hs).
    - destruct (startsWith #"```" t); [|exact Hs].
      apply (replaceOnce_end body fenceClose _ Ec eq_refl Fc).
      exact (replaceOnce_start body fenceOpen ro t Eo eq_refl Fo Hs). }
  destruct (jsonObject_span body _ Hc) as (mt & -> & M). exact M.
Qed.

Lemma cleanResponse_object_witness :
  cleanResponse fencedAnswer
  = #"{ amount: 12.5, confidence: { amount: 0.9 } }".
Proof.
  exact (cleanResponse_object
           (#"```json" ++ [newline])
           #" amount: 12.5, confidence: { amount: 0.9 } "
           (newline :: #"```")
           eq_refl eq_refl).
Defined.

(** ** When [validateAndFixFields] returns *)

(** The pattern characters other than the point.  [new RegExp] accepts
    every text without them. *)
Definition specials : list char :=
  [ch "\"; ch "^"; ch "$"; ch "*"; ch "+"; ch "?"; ch "("; ch ")"; ch "[";
   ch "]"; ch "{"; ch "}"; ch "|"].

Definition plain (c : char) : bool := negb (existsb (N.eqb c) specials).
Definition plainText (s : str) : bool := forallb plain s.

Lemma plain_isCh c a : plain c = true -> In (ch a) specials -> isCh a c = false.
Proof.
  unfold plain, isCh. intros H Hin. apply negb_true_iff in H.
  destruct (c =? ch a) eqn:E; [|reflexivity].
  rewrite <- H. symmetry. apply existsb_exists. exists (ch a). auto.
Qed.

Lemma plain_false c : plain c = false -> In c specials.
Proof.
  unfold plain. intros H. apply negb_false_iff in H.
  apply existsb_exists in H. destruct H as (k & Hk & E).
  apply N.eqb_eq in E. subst k. exact Hk.
Qed.

Ltac special := vm_compute; tauto.

Definition plainHead (s : str) : bool :=
  match s with
  | c :: _ => plain c
  | [] => true
  end.

Lemma plainText_head s : plainText s = true -> plainHead s = true.
Proof.
  destruct s as [|c s]; [reflexivity|]. unfold plainText. cbn [forallb].
  intros H. apply andb_prop in H. tauto.
Qed.

Lemma parseQuant_plain s : plainHead s = true -> parseQuant s = inl (None, s).
Proof.
  destruct s as [|c s]; [reflexivity|]. cbn [plainHead]. intros H.
  unfold parseQuant.
  rewrite (plain_isCh c "*" H), (plain_isCh c "+" H), (plain_isCh c "?" H),
    (plain_isCh c "{" H) by special.
  reflexivity.
Qed.

(** The pattern that a text without pattern characters denotes. *)
Definition plainAtom (c : char) : regex :=
  if isCh "." c then RAny else RChar c.

Fixpoint plainRegex (p : str) : regex :=
  match p with
  | [] => REmpty
  | c :: p' => RSeq (plainAtom c) (plainRegex p')
  end.

Lemma parseTerm_plain fuel c rest n :
  plain c = true -> plainHead rest = true ->
  parseTerm (S fuel) (c :: rest) n = inl (plainAtom c, rest, n).
Proof.
  intros H Hr. cbn [parseTerm].
  rewrite (plain_isCh c "^" H), (plain_isCh c "$" H), (plain_isCh c "*" H),
    (plain_isCh c "+" H), (plain_isCh c "?" H), (plain_isCh c "{" H)
    by special.
  cbn [orb]. unfold plainAtom.
  destruct (isCh "." c).
  - unfold withQuant. cbn [isAssertion]. rewrite (parseQuant_plain rest Hr).
    reflexivity.
  - rewrite (plain_isCh c "\" H), (plain_isCh c "[" H), (plain_isCh c "(" H)
      by special.
    unfold withQuant. cbn [isAssertion]. rewrite (parseQuant_plain rest Hr).
    reflexivity.
Qed.

Lemma parseAlt_cons fuel c s n :
  isCh "|" c || isCh ")" c = false ->
  parseAlt (S fuel) (c :: s) n
  = match parseTerm fuel (c :: s) n with
    | inr e => inr e
    | inl (r1, s1, n1) =>
        match parseAlt fuel s1 n1 with
        | inr e => inr e
        | inl (r2, s2, n2) => inl (RSeq r1 r2, s2, n2)
        end
    end.
Proof. intros H. cbn [parseAlt]. rewrite H. reflexivity. Qed.

Lemma parseAlt_plain p : forall fuel n,
  plainText p = true -> (List.length p < fuel)%nat ->
  parseAlt fuel p n = inl (plainRegex p, [], n).
Proof.
  induction p as [|c p IH]; intros fuel n Hp Hf;
    (destruct fuel as [|fuel]; [simpl in Hf; lia|]).
  - reflexivity.
  - unfold plainText in Hp. cbn [forallb] in Hp. apply andb_prop in Hp.
    destruct Hp as [Hc Hp]. cbn [List.length] in Hf.
    destruct fuel as [|fuel]; [lia|].
    rewrite parseAlt_cons
      by (rewrite (plain_isCh c "|" Hc), (plain_isCh c ")" Hc) by special;
          reflexivity).
    rewrite (parseTerm_plain fuel c p n Hc (plainText_head p Hp)).
    rewrite (IH (S fuel) n Hp) by lia.
    reflexivity.
Qed.

Lemma parsePattern_plain p :
  plainText p = true -> parsePattern p = inl (plainRegex p, O).
Proof.
  intros Hp. unfold parsePattern.
  replace (3 * List.length p + 4)%nat with (S (3 * List.length p + 3))
    by lia.
  set (fuel := (3 * List.length p + 3)%nat).
  assert (E : parseDisj (S fuel) p O
              = match parseAlt fuel p O with
                | inr e => inr e
                | inl (r1, s1, n1) =>
                    match s1 with
                    | c :: s2 =>
                        if isCh "|" c then
                          match parseDisj fuel s2 n1 with
                          | inr e => inr e
                          | inl (r2, s3, n2) => inl (RAlt r1 r2, s3, n2)
                          end
                        else inl (r1, s1, n1)
                    | [] => inl (r1, s1, n1)
                    end
                end) by reflexivity.
  rewrite E, (parseAlt_plain p fuel O Hp) by (unfold fuel; lia).
  reflexivity.
Qed.

Lemma removePattern_plain p s :
  plainText p = true -> exists t, removePattern p s = Returns t.
Proof.
  intros Hp. unfold removePattern, newRegExp.
  replace (forallb (fun c => isCh "g" c || isCh "i" c) #"gi") with true
    by reflexivity.
  cbn [negb]. rewrite (parsePattern_plain p Hp). eauto.
Qed.

Lemma scrubDescription_returns r :
  plainText (orEmpty (provider r)) = true ->
  exists r', scrubDescription r = Returns r'.
Proof.
  intros Hp. unfold scrubDescription.
  destruct (truthy (description r)); [|eauto]. cbv zeta.
  destruct (truthy (provider r)).
  - destruct (removePattern_plain (orEmpty (provider r))
                (replaceAll dateText
                   (replaceAll amountText (orEmpty (description r)) []) [])
                Hp) as (t & ->).
    cbn [bind]. destruct (negb _ || _); eauto.
  - cbn [bind]. destruct (negb _ || _); eauto.
Qed.

(** *** The provider that the first [if] derives *)

(** No atom of the pattern matches the unit [c]. *)
Fixpoint avoids (ic : bool) (r : regex) (c : char) : bool :=
  match r with
  | REmpty | RAssert _ => true
  | RChar a => negb (charMatches ic a c)
  | RAny => false
  | RClass neg items => negb (classMatches ic neg items c)
  | RSeq r1 r2 | RAlt r1 r2 => avoids ic r1 c && avoids ic r2 c
  | RRepeat r1 _ _ _ | RGroup _ r1 | RLook _ r1 => avoids ic r1 c
  end.

Lemma avoids_within ic r :
  (forall c, plain c = false -> avoids ic r c = true) ->
  within plain anyGroup ic r.
Proof.
  induction r as [|a| |neg items|r1 IH1 r2 IH2|r1 IH1 r2 IH2
                  |r1 IH1 min max greedy|i r1 IH1|a|neg r1 IH1];
    cbn [within avoids]; intros H; auto.
  - intros c Hc. destruct (plain c) eqn:P; [reflexivity|].
    specialize (H c P). rewrite Hc in H. discriminate H.
  - specialize (H (ch "\") eq_refl). discriminate H.
  - intros c Hc. destruct (plain c) eqn:P; [reflexivity|].
    specialize (H c P). rewrite Hc in H. discriminate H.
  - split; [apply IH1|apply IH2]; intros c P; specialize (H c P);
      apply andb_prop in H; tauto.
  - split; [apply IH1|apply IH2]; intros c P; specialize (H c P);
      apply andb_prop in H; tauto.
Qed.

Lemma businessName_shape :
  exists body,
    ast businessName = RSeq (RGroup 1 body) REmpty
    /\ groupsOf body = []
    /\ ignoreCase businessName = true
    /\ ngroups businessName = 1%nat
    /\ forallb (avoids true body) specials = true.
Proof. eexists. repeat split; vm_compute; reflexivity. Qed.

Lemma exec_matchAt re s mt :
  exec re s = Some mt -> exists b a, matchAt re b a = Some mt.
Proof.
  unfold exec. destruct (execFrom re [] s) as [[[m b] a]|] eqn:E;
    [|discriminate].
  cbn [option_map fst]. intros H. injection H as ->.
  destruct (@execFrom_inv re s [] mt b a E) as (sk & _ & _ & M). eauto.
Qed.

Lemma businessName_group d mt :
  exec businessName d = Some mt ->
  exists g, group 1 mt = Some g /\ plainText g = true.
Proof.
  intros H. destruct (exec_matchAt _ _ _ H) as (b & a & M).
  destruct businessName_shape as (body & Ea & Eg & Ei & En & Hav).
  destruct (@matchAt_group businessName b a mt 1%nat M) as (g & Hg).
  - rewrite Ea. reflexivity.
  - rewrite En. auto.
  - exists g. split; [exact Hg|].
    apply (matchAt_topGroups (fun _ s => plainText s = true)
             businessName b a mt 1%nat g); [|exact M|exact Hg].
    rewrite Ea, Ei. cbn [topGroups groupsOf]. split; [|reflexivity].
    split; [exact Eg|]. intros x y Hin. cbn [pred].
    assert (Hw : within plain anyGroup true body).
    { apply avoids_within. intros c P. rewrite forallb_forall in Hav.
      exact (Hav c (plain_false c P)). }
    destruct (@matcher_reach plain true body x y Hw Hin) as (w & A & _ & _ & F).
    rewrite (@consumed_app x y w A). apply forallb_forall.
    rewrite Forall_forall in F. exact F.
Qed.

Lemma dateLike_group d mt :
  exec dateLike d = Some mt -> exists g, group 1 mt = Some g.
Proof.
  intros H. destruct (exec_matchAt _ _ _ H) as (b & a & M).
  apply (@matchAt_group dateLike b a mt 1%nat M); [reflexivity|].
  vm_compute. auto.
Qed.

Lemma trim_forallb (q : char -> bool) s :
  forallb q s = true -> forallb q (trim s) = true.
Proof.
  unfold trim, trimEnd, trimStart. intros H.
  rewrite forallb_rev. apply dropWhile_forallb.
  rewrite forallb_rev. apply dropWhile_forallb. exact H.
Qed.

Lemma fixProvider_returns d r :
  plainText (orEmpty (provider r)) = true ->
  exists r1, fixProvider d r = Returns r1
             /\ plainText (orEmpty (provider r1)) = true.
Proof.
  intros Hp. unfold fixProvider.
  destruct (exec businessName d) as [mt|] eqn:E; [|eauto].
  destruct (businessName_group d mt E) as (g & -> & Hg).
  cbn [trimOf bind]. eexists. split; [reflexivity|].
  cbn [setProvider provider orEmpty]. apply trim_forallb, Hg.
Qed.

Lemma fixDate_returns d r :
  exists r1, fixDate d r = Returns r1 /\ provider r1 = provider r.
Proof.
  unfold fixDate. destruct (exec dateLike d) as [mt|] eqn:E; [|eauto].
  destruct (dateLike_group d mt E) as (g & ->).
  destruct (split dateSeparator g) as [|p0 [|p1 [|p2 [|p3 l]]]]; eauto.
  destruct (if Nat.eqb (List.length p2) 4
            then if gtZ (parseIntAuto p0) 12 then (p0, p1, p2)
                 else (p1, p0, p2)
            else if gtZ (parseIntAuto p0) 12 then (p0, p1, #"20" ++ p2)
                 else (p1, p0, #"20" ++ p2)) as [[day month] year].
  eauto.
Qed.

Lemma repairFromDescription_returns r :
  plainText (orEmpty (provider r)) = true ->
  exists r1, repairFromDescription r = Returns r1
             /\ plainText (orEmpty (provider r1)) = true.
Proof.
  intros Hp. unfold repairFromDescription.
  destruct (allInDescription r); [|eauto]. cbv zeta.
  set (d := orEmpty (description r)).
  destruct (fixAmount_fields d r) as ((_ & A2 & _) & _).
  destruct (fixProvider_returns d (fixAmount d r)) as (r2 & -> & H2);
    [rewrite A2; exact Hp|].
  cbn [bind].
  destruct (fixDate_returns d r2) as (r3 & -> & H3). cbn [bind].
  eexists. split; [reflexivity|].
  destruct (truncateDescription_fields r3) as (_ & T2 & _).
  rewrite T2, H3. exact H2.
Qed.

Definition shopRecord : ExtractedData :=
  MkExtractedData (Some #"Compra en Tienda S.A. por 25.00 el 2024-03-15")
    (Some #"Tienda S.A.") (Some (decimal 25 0)) (Some #"USD") None
    noConfidence.

(** X16.  [validateAndFixFields] returns, without throwing, on every
    record whose provider is absent or has no pattern character other
    than the point (none of [\ ^ $ * + ? ( ) [ ] { } |]): [new RegExp]
    accepts such a provider, and a provider that the first [if] takes
    from the description is of that kind. *)
Theorem validateAndFixFields_returns (r : ExtractedData) :
  plainText (orEmpty (provider r)) = true ->
  exists r', validateAndFixFields r = Returns r'.
Proof.
  intros Hp. unfold validateAndFixFields.
  destruct (repairFromDescription_returns r Hp) as (r1 & -> & H1).
  cbn [bind]. exact (scrubDescription_returns r1 H1).
Qed.

Lemma validateAndFixFields_returns_witness :
  plainText (orEmpty (provider shopRecord)) = true
  /\ exists r', validateAndFixFields shopRecord = Returns r'.
Proof.
  split; [reflexivity|].
  exact (validateAndFixFields_returns shopRecord eq_refl).
Defined.

(** ** [findMonthIndex] *)

Lemma findIndex_none {A} (p : A -> bool) (l : list A) :
  (forall x, In x l -> p x = false) -> findIndex p l = (-1)%Z.
Proof.
  induction l as [|x l IH]; intros H; cbn [findIndex]; [reflexivity|].
  rewrite (H x (or_introl eq_refl)).
  rewrite IH by (intros y Hy; apply H; right; exact Hy).
  reflexivity.
Qed.

Lemma str_eqb_neq (a b : str) : a <> b -> str_eqb a b = false.
Proof.
  intros H. unfold str_eqb.
  destruct (list_eq_dec N.eq_dec a b); [contradiction|reflexivity].
Qed.

(** The names of the two lists are in lower case already. *)
Lemma monthNames_lower :
  map toLowerCase MONTH_NAMES_es = MONTH_NAMES_es
  /\ map toLowerCase MONTH_NAMES_en = MONTH_NAMES_en.
Proof. split; vm_compute; reflexivity. Qed.

Definition monthOf (lower : str) (i : nat) : bool :=
  (str_eqb lower (nth i MONTH_NAMES_es [])
   || str_eqb lower (nth i MONTH_NAMES_en []))
  && (findMonthIndex lower =? Z.of_nat i)%Z.

Lemma months_found :
  forallb (fun i => monthOf (nth i MONTH_NAMES_es []) i
                    && monthOf (nth i MONTH_NAMES_en []) i)
          (seq 0 12) = true.
Proof. vm_compute. reflexivity. Qed.

Lemma findMonthIndex_lower name :
  findMonthIndex name = findMonthIndex (toLowerCase name).
Proof.
  unfold findMonthIndex. cbv zeta.
  assert (E : toLowerCase (toLowerCase name) = toLowerCase name).
  { unfold toLowerCase. rewrite map_map. apply map_ext. intros c.
    unfold lower1, in_range.
    destruct ((65 <=? c) && (c <=? 90)) eqn:A;
      [|destruct ((192 <=? c) && (c <=? 222) && negb (c =? 215)) eqn:B];
      boolProps;
      repeat match goal with
             | |- context [(?x <=? ?y)] =>
                 let E := fresh in
                 destruct (x <=? y) eqn:E; boolProps
             | |- context [(?x =? ?y)] =>
                 let E := fresh in
                 destruct (x =? y) eqn:E; boolProps
             end; cbn [andb negb]; try reflexivity; try lia. }
  rewrite E. reflexivity.
Qed.

(** X17.  [findMonthIndex] returns the position, from 0 to 11, of a month
    name of the Spanish or of the English list, whatever the case of its
    letters, and -1 for every other text. *)
Theorem findMonthIndex_months (name : str) :
  (forall i, (i < 12)%nat ->
     toLowerCase name = nth i MONTH_NAMES_es []
     \/ toLowerCase name = nth i MONTH_NAMES_en [] ->
     findMonthIndex name = Z.of_nat i)
  /\ (~ In (toLowerCase name) (MONTH_NAMES_es ++ MONTH_NAMES_en) ->
      findMonthIndex name = (-1)%Z).
Proof.
  split.
  - intros i Hi H. rewrite findMonthIndex_lower.
    pose proof months_found as M. rewrite forallb_forall in M.
    specialize (M i ltac:(apply in_seq; lia)).
    apply andb_prop in M. destruct M as [M1 M2].
    unfold monthOf in M1, M2.
    apply andb_prop in M1. destruct M1 as [_ M1].
    apply andb_prop in M2. destruct M2 as [_ M2].
    apply Z.eqb_eq in M1. apply Z.eqb_eq in M2.
    destruct H as [-> | ->]; assumption.
  - intros H. unfold findMonthIndex. cbv zeta.
    destruct monthNames_lower as [Les Len].
    assert (F : forall l, map toLowerCase l = l ->
                (forall m, In m l -> m <> toLowerCase name) ->
                findIndex (fun month => str_eqb (toLowerCase month)
                                          (toLowerCase name)) l = (-1)%Z).
    { intros l Hl Hn. apply findIndex_none. intros m Hm.
      apply str_eqb_neq.
      assert (Em : toLowerCase m = m).
      { clear Hn. revert Hl Hm. induction l as [|a l IH]; [intros _ []|].
        cbn [map]. intros E [<-|Hin]; injection E as E1 E2; auto. }
      rewrite Em. apply Hn, Hm. }
    rewrite (F MONTH_NAMES_es Les), (F MONTH_NAMES_en Len); [reflexivity| |];
      intros m Hm E; apply H; rewrite <- E; apply in_or_app; auto.
Qed.

(* ===================================================================== *)
(** * Part V.  The repair pass applied twice                              *)
(* ===================================================================== *)

(** ** Records that a second pass leaves alone *)

(** The description after [truncateDescription]. *)
Definition truncated (s : str) : str :=
  if Nat.ltb 100 (List.length s) then substring s 0 100 ++ #"..." else s.

(** A repaired record is settled when a second pass has nothing to do:
    where the condition of the first [if] still holds (a description of
    more than 50 units, no provider, no amount), the description holds no
    business name and is not cut again; and where the record has a
    provider, the description has no digit, its white space is single
    spaces with none at the ends, and removing the provider from it
    changes nothing. *)
Definition settled (r1 : ExtractedData) : Prop :=
  let d := orEmpty (description r1) in
  (allInDescription r1 = true ->
   exec businessName d = None /\ truncated d = d)
  /\ (truthy (description r1) = true -> truthy (provider r1) = true ->
      noDigits d = true /\ tidy d = d
      /\ removePattern (orEmpty (provider r1)) d = Returns d).

Lemma setDescription_same (r : ExtractedData) (d : str) :
  description r = Some d -> setDescription (Some d) r = r.
Proof. destruct r. simpl. intros ->. reflexivity. Qed.

Lemma scrubbed_fixed (d : str) :
  noDigits d = true -> tidy d = d -> (5 <= List.length d)%nat ->
  scrubbed d = d.
Proof.
  intros N T L. unfold scrubbed. cbv zeta.
  rewrite (remove_none amountText d) by (auto; apply amountText_none).
  rewrite (remove_none dateText d) by (auto; apply dateText_none).
  rewrite T.
  assert (Ht : truthy (Some d) = true)
    by (destruct d; [simpl in L; lia|reflexivity]).
  rewrite Ht. cbn [negb orb].
  replace (Nat.ltb (List.length d) 5) with false
    by (symmetry; apply Nat.ltb_ge; exact L).
  reflexivity.
Qed.

Lemma needDigit_repairs :
  needsDigit (ast numberLike) = true /\ needsDigit (ast dateLike) = true.
Proof. split; vm_compute; reflexivity. Qed.

Lemma fixAmount_noDigits (d : str) (r : ExtractedData) :
  noDigits d = true -> fixAmount d r = r.
Proof.
  intros N. unfold fixAmount, matchGlobal.
  rewrite (matchAll_needsDigit numberLike d (proj1 needDigit_repairs) N).
  reflexivity.
Qed.

Lemma fixDate_noDigits (d : str) (r : ExtractedData) :
  noDigits d = true -> fixDate d r = Returns r.
Proof.
  intros N. unfold fixDate, exec.
  rewrite (execFrom_needsDigit dateLike d [] (proj2 needDigit_repairs) N).
  reflexivity.
Qed.

Lemma truncateDescription_truncated (r : ExtractedData) (d : str) :
  description r = Some d ->
  truncateDescription r = setDescription (Some (truncated d)) r.
Proof.
  intros E. unfold truncateDescription, truncated. rewrite E.
  cbn [orEmpty].
  destruct (Nat.ltb 100 (List.length d)) eqn:L.
  - apply Nat.ltb_lt in L.
    assert (Ht : truthy (Some d) = true)
      by (destruct d; [simpl in L; lia|reflexivity]).
    rewrite Ht. reflexivity.
  - rewrite andb_false_r. symmetry. apply setDescription_same, E.
Qed.

(** The description that a pass leaves has no digit and tidy white
    space, unless it is [Compra en] with the provider. *)
Lemma scrubbed_plain (r1 : ExtractedData) (d : str) :
  scrubbedDescription r1 d -> truthy (provider r1) = false ->
  noDigits d = true /\ tidy d = d /\ (5 <= List.length d)%nat.
Proof.
  intros (L & [(Tp & _)|[(_ & ->)|(N & T)]]) Hp.
  - congruence.
  - destruct fallback_facts as (F1 & F2 & F3). repeat split; auto.
  - auto.
Qed.

(** What the first pass makes of a record, as far as the second pass
    needs it. *)
Lemma validateAndFixFields_description (r r1 : ExtractedData) :
  validateAndFixFields r = Returns r1 ->
  (truthy (description r1) = false
   /\ validateAndFixFields r1 = Returns r1)
  \/ exists d, description r1 = Some d /\ scrubbedDescription r1 d.
Proof.
  unfold validateAndFixFields at 1. intros E.
  apply bind_Returns in E. destruct E as (r0 & E0 & E1).
  destruct (repairFromDescription_fields r r0 E0) as (T0 & _).
  destruct (scrubDescription_fields r0 r1 E1) as (_ & _ & _ & _ & _ & U & S).
  destruct (truthy (description r0)) eqn:T; [right; exact (S eq_refl)|].
  left. rewrite (U eq_refl). split; [exact T|].
  unfold validateAndFixFields.
  rewrite repairFromDescription_off
    by (unfold allInDescription; rewrite T; reflexivity).
  cbn [bind]. unfold scrubDescription. rewrite T. reflexivity.
Qed.








(** ** Where a second pass changes a repaired record without provider *)

(** A description cut at a unit and closed by the ellipsis is tidy when
    the description was. *)
Lemma loose_cut (d : str) : forall (k : nat) (b : bool),
  loose b d = true -> loose b (firstn k d ++ #"...") = true.
Proof.
  induction d as [|c d IH]; intros k b H.
  - rewrite firstn_nil. destruct b; reflexivity.
  - destruct k as [|k]; [destruct b; reflexivity|].
    cbn [firstn app]. rewrite loose_cons in *.
    destruct (isWhiteSpace c).
    + apply andb_prop in H. destruct H as [H1 H2]. rewrite H1.
      cbn [andb]. apply IH, H2.
    + apply IH, H.
Qed.

Lemma trimEnd_last (s : str) (c : char) :
  isWhiteSpace c = false -> trimEnd (s ++ [c]) = s ++ [c].
Proof.
  intros H. unfold trimEnd. rewrite rev_app_distr. cbn [rev app dropWhile].
  rewrite H. cbn [rev]. rewrite rev_involutive. reflexivity.
Qed.

Lemma trimEnd_dot (s : str) : trimEnd (s ++ #"...") = s ++ #"...".
Proof.
  change (s ++ #"...") with (s ++ (#".." ++ [ch "."])).
  rewrite app_assoc. apply trimEnd_last. reflexivity.
Qed.

Lemma tidy_loose (d : str) : tidy d = d -> loose false d = true.
Proof.
  intros <-. unfold tidy. apply trim_loose, collapseRun_loose.
Qed.

Lemma tidy_cut (d : str) (k : nat) :
  tidy d = d -> tidy (firstn k d ++ #"...") = firstn k d ++ #"...".
Proof.
  intros T. unfold tidy.
  rewrite (collapseRun_id false) by (apply loose_cut, tidy_loose, T).
  unfold trim, trimStart.
  assert (E : dropWhile isWhiteSpace (firstn k d ++ #"...")
              = firstn k d ++ #"...").
  { pose proof (trim_head (collapseRun false d)) as H.
    fold (tidy d) in H. rewrite T in H.
    destruct d as [|c d]; [rewrite firstn_nil; reflexivity|].
    destruct k as [|k]; [reflexivity|].
    cbn [firstn app dropWhile]. rewrite H. reflexivity. }
  rewrite E. apply trimEnd_dot.
Qed.

Lemma noDigits_cut (d : str) (k : nat) :
  noDigits d = true -> noDigits (firstn k d ++ #"...") = true.
Proof.
  intros N. rewrite noDigits_app.
  rewrite <- (firstn_skipn k d), noDigits_app in N.
  apply andb_prop in N. destruct N as [-> _]. reflexivity.
Qed.

Lemma truncated_facts (d : str) :
  noDigits d = true -> tidy d = d -> (5 <= List.length d)%nat ->
  noDigits (truncated d) = true /\ tidy (truncated d) = truncated d
  /\ (5 <= List.length (truncated d))%nat.
Proof.
  intros N T L. unfold truncated.
  destruct (Nat.ltb 100 (List.length d)) eqn:E; [|auto].
  apply Nat.ltb_lt in E.
  assert (Es : substring d 0 100 = firstn 100 d).
  { unfold substring. cbv zeta.
    replace (Nat.min 100 (List.length d)) with 100%nat by lia.
    reflexivity. }
  rewrite Es. split; [apply noDigits_cut, N|]. split; [apply tidy_cut, T|].
  rewrite length_app, length_firstn.
  change (List.length #"...") with 3%nat. lia.
Qed.

(** The units of white space. *)
Definition whiteSpaceUnits : list char :=
  [9; 10; 11; 12; 13; 32; 160; 5760; 8192; 8193; 8194; 8195; 8196; 8197;
   8198; 8199; 8200; 8201; 8202; 8232; 8233; 8239; 8287; 12288; 65279].

Lemma whiteSpace_listed (c : char) :
  isWhiteSpace c = true -> In c whiteSpaceUnits.
Proof.
  unfold isWhiteSpace, in_range. intros H.
  repeat (apply orb_prop in H; destruct H as [H|H]);
    try (apply N.eqb_eq in H; subst c; simpl; tauto).
  - apply andb_prop in H. destruct H as [H1 H2].
    apply N.leb_le in H1, H2.
    assert (K : c = 9 \/ c = 10 \/ c = 11 \/ c = 12 \/ c = 13) by lia.
    simpl. intuition (subst; auto).
  - apply andb_prop in H. destruct H as [H1 H2].
    apply N.leb_le in H1, H2.
    assert (K : c = 8192 \/ c = 8193 \/ c = 8194 \/ c = 8195 \/ c = 8196
                \/ c = 8197 \/ c = 8198 \/ c = 8199 \/ c = 8200
                \/ c = 8201 \/ c = 8202) by lia.
    simpl. intuition (subst; auto 30).
Qed.

(** A match of a class followed by more starts with a unit of the
    class. *)
Lemma class_first ic neg items rest x y :
  In y (matcher ic (RSeq (RClass neg items) rest) x) ->
  exists c t, consumed x y = c :: t /\ classMatches ic neg items c = true.
Proof.
  rewrite matcher_eq. intros H. apply in_flat_map in H.
  destruct H as (x1 & H1 & Hy).
  rewrite matcher_eq in H1. unfold step in H1.
  destruct (after x) as [|c rest'] eqn:Ea; [destruct H1|].
  destruct (classMatches ic neg items c) eqn:Ec; [|destruct H1].
  destruct H1 as [<-|[]].
  destruct (matcher_forward ic rest _ y Hy) as (w & A & _).
  cbn [after] in A.
  exists c, w. split; [|exact Ec].
  apply consumed_app. rewrite Ea, A. reflexivity.
Qed.

Lemma businessName_first :
  exists items rest,
    ast businessName = RSeq (RGroup 1 (RSeq (RClass false items) rest)) REmpty
    /\ groupsOf (RSeq (RClass false items) rest) = []
    /\ ignoreCase businessName = true
    /\ forallb (fun c => negb (classMatches true false items c))
         whiteSpaceUnits = true.
Proof. eexists _, _. repeat split; vm_compute; reflexivity. Qed.

(** The business name that the first [if] derives is never blank. *)
Lemma businessName_nonblank (d : str) (mt : MatchResult) (g : str) :
  exec businessName d = Some mt -> group 1 mt = Some g -> trim g <> [].
Proof.
  intros H Hg. destruct (exec_matchAt _ _ _ H) as (b & a & M).
  destruct businessName_first as (items & rest & Ea & Eg & Ei & Hws).
  assert (Q : exists c t, g = c :: t /\ isWhiteSpace c = false).
  { apply (matchAt_topGroups
             (fun _ s => exists c t, s = c :: t /\ isWhiteSpace c = false)
             businessName b a mt 1%nat g); [|exact M|exact Hg].
    rewrite Ea, Ei. cbn [topGroups groupsOf]. split; [|reflexivity].
    split; [exact Eg|].
    intros x y Hin. destruct (class_first _ _ _ _ _ _ Hin) as (c & t & E & Hc).
    exists c, t. split; [exact E|].
    destruct (isWhiteSpace c) eqn:W; [|reflexivity].
    rewrite forallb_forall in Hws.
    specialize (Hws c (whiteSpace_listed c W)). rewrite Hc in Hws.
    discriminate Hws. }
  destruct Q as (c & t & -> & W).
  unfold trim, trimStart. cbn [dropWhile]. rewrite W.
  destruct (trimEnd_head c t W) as (t' & ->). discriminate.
Qed.

(** On a repaired record without provider the condition of [settled] is
    also necessary: where the first [if] applies again and finds a
    business name or cuts the description, the second pass returns
    another record. *)
Lemma validateAndFixFields_settled_only (r r1 : ExtractedData) :
  validateAndFixFields r = Returns r1 ->
  truthy (provider r1) = false ->
  validateAndFixFields r1 = Returns r1 -> settled r1.
Proof.
  intros E Tp E2. split; [|intros _ H; congruence].
  intros A.
  destruct (validateAndFixFields_description r r1 E)
    as [(Tf & _)|(d & Ed & Sd)].
  { unfold allInDescription in A. rewrite Tf in A. discriminate A. }
  destruct (scrubbed_plain r1 d Sd Tp) as (N & T & L).
  rewrite Ed. cbn [orEmpty].
  unfold validateAndFixFields, repairFromDescription in E2.
  rewrite A in E2. cbv zeta in E2. rewrite Ed in E2. cbn [orEmpty] in E2.
  rewrite (fixAmount_noDigits d r1 N) in E2.
  unfold fixProvider in E2.
  destruct (exec businessName d) as [mt|] eqn:B.
  - exfalso.
    destruct (businessName_group d mt B) as (g & Hg & _).
    rewrite Hg in E2. cbn [trimOf bind] in E2.
    rewrite (fixDate_noDigits d _ N) in E2. cbn [bind] in E2.
    destruct (scrubDescription_fields _ _ E2) as (P & _).
    destruct (truncateDescription_fields
                (setProvider (Some (trim g)) r1)) as (_ & P' & _).
    rewrite P' in P. cbn [setProvider provider] in P.
    rewrite P in Tp. cbn [truthy] in Tp.
    pose proof (businessName_nonblank d mt g B Hg) as Hne.
    destruct (trim g); [congruence|discriminate Tp].
  - split; [reflexivity|].
    cbn [bind] in E2. rewrite (fixDate_noDigits d r1 N) in E2.
    cbn [bind] in E2.
    rewrite (truncateDescription_truncated r1 d Ed) in E2.
    destruct (truncated_facts d N T L) as (N' & T' & L').
    assert (Tp' : truthy (provider (setDescription (Some (truncated d)) r1))
                  = false) by exact Tp.
    rewrite (scrubDescription_noProvider _ Tp') in E2.
    cbn [setDescription description orEmpty] in E2.
    assert (Ht : truthy (Some (truncated d)) = true)
      by (destruct (truncated d); [simpl in L'; lia|reflexivity]).
    rewrite Ht, (scrubbed_fixed _ N' T' L') in E2.
    injection E2 as E2. apply (f_equal description) in E2.
    cbn [description] in E2. rewrite Ed in E2.
    injection E2 as E2. exact E2.
Qed.

(** ** Where a second pass changes a repaired record with a provider *)

(** A removal that keeps the length of the text removes nothing. *)
Lemma replaceFrom_same_length re : forall fuel bef aft,
  List.length (replaceFrom re [] fuel bef aft) = List.length aft ->
  replaceFrom re [] fuel bef aft = aft.
Proof.
  induction fuel as [|fuel IH]; intros bef aft; cbn [replaceFrom];
    [reflexivity|].
  destruct (matchAt re bef aft) as [mt|].
  - destruct (lastIndex mt - List.length bef)%nat as [|k] eqn:Ek.
    + destruct aft as [|c aft]; [reflexivity|].
      cbn [app List.length]. intros H. f_equal. apply IH. lia.
    + cbn [app]. intros H.
      pose proof (replaceFrom_length re fuel
                    (rev (firstn (S k) aft) ++ bef) (skipn (S k) aft)) as L.
      destruct aft as [|c aft].
      * cbn [skipn List.length] in *.
        destruct (replaceFrom re [] fuel (rev (firstn (S k) []) ++ bef) []);
          [reflexivity|simpl in L; lia].
      * exfalso. cbn [skipn List.length] in *.
        pose proof (skipn_length_le k aft). lia.
  - destruct aft as [|c aft]; [reflexivity|].
    cbn [List.length]. intros H. f_equal. apply IH. lia.
Qed.

Lemma tidy_remove_same re (d : str) :
  tidy (replaceAll re d []) = d -> replaceAll re d [] = d.
Proof.
  intros H. unfold replaceAll in *.
  apply replaceFrom_same_length.
  pose proof (replaceFrom_length re (S (List.length d)) [] d) as L1.
  pose proof (tidy_length (replaceFrom re [] (S (List.length d)) [] d)) as L2.
  rewrite H in L2. lia.
Qed.

(** On a repaired record with a provider the condition of [settled] is
    necessary as well, unless the description is the default text
    [Compra en] with the provider. *)
Lemma validateAndFixFields_settled_provider (r r1 : ExtractedData) :
  validateAndFixFields r = Returns r1 ->
  truthy (provider r1) = true ->
  validateAndFixFields r1 = Returns r1 ->
  settled r1
  \/ description r1 = Some (#"Compra en " ++ orEmpty (provider r1)).
Proof.
  intros E Tp E2.
  assert (A : allInDescription r1 = false)
    by (unfold allInDescription; rewrite Tp, !andb_false_r; reflexivity).
  destruct (validateAndFixFields_description r r1 E)
    as [(Tf & _)|(d & Ed & Sd)].
  { left. split; [intros H; congruence|intros H; congruence]. }
  destruct Sd as (L & [(_ & ->)|[(Tp' & _)|(N & T)]]);
    [right; exact Ed|congruence|].
  unfold validateAndFixFields in E2.
  rewrite (repairFromDescription_off r1 A) in E2. cbn [bind] in E2.
  unfold scrubDescription in E2.
  assert (Ht : truthy (Some d) = true)
    by (destruct d; [simpl in L; lia|reflexivity]).
  rewrite Ed, Ht, Tp in E2. cbn [orEmpty] in E2. cbv zeta in E2.
  rewrite (remove_none amountText d) in E2 by (auto; apply amountText_none).
  rewrite (remove_none dateText d) in E2 by (auto; apply dateText_none).
  unfold removePattern in E2 |- *.
  destruct (newRegExp (orEmpty (provider r1)) #"gi") as [re|[|]] eqn:Ere;
    try discriminate E2.
  cbn [bind] in E2. rewrite replaceAll_spaces in E2.
  fold (tidy (replaceAll re d [])) in E2.
  destruct (negb (truthy (Some (tidy (replaceAll re d []))))
            || Nat.ltb (List.length (tidy (replaceAll re d []))) 5);
    injection E2 as E2; apply (f_equal description) in E2;
    destruct r1; cbn in E2, Ed, Tp |- *; rewrite Ed in E2;
    injection E2 as E2.
  - right. rewrite Ed, <- E2. reflexivity.
  - left. split; [intros H; unfold allInDescription in H; cbn in H;
                  rewrite Tp, !andb_false_r in H; discriminate H|].
    intros _ _. cbn. rewrite Ed. cbn.
    split; [exact N|]. split; [exact T|].
    unfold removePattern. cbn in Ere. rewrite Ere.
    rewrite (tidy_remove_same re d E2). reflexivity.
Qed.
